(** * A shallow embedding of [src/events.js]: the wildcard event emitter

    The emitter keeps its listeners in a trie of [EventEntry] objects.  The
    JavaScript code mutates those objects and their handler arrays in place
    while handlers run, so the embedding keeps an explicit store of entries
    and arrays addressed by location, and every method is a state
    transformer over that store. *)

From stdpp Require Import gmap strings list fin_maps.
From Stdlib Require Import ZArith Lia.

Open Scope string_scope.
Open Scope list_scope.

(** ** Values *)

(** The [name] argument of [on], [once] and [off]: [string|Array<string>]. *)
Inductive name_arg :=
| Name (s : string)
| Names (l : list string).

(** JavaScript values as far as the emitter looks at them.  A function is
    known by an identifier that stands for its reference: [VUser id] is a
    function of the caller, [VProcess id name handler] is the closure
    [process] that [once] creates (with the [name] and [handler] it
    captured), and [VCancel name process] is the arrow function that [once]
    returns.  The three promise constructors give the state in which an
    awaited promise settles. *)
Inductive value :=
| VUndefined
| VNull
| VBool (b : bool)
| VNum (n : Z)
| VStr (s : string)
| VError (message : string)
| VFulfilled (v : value)
| VRejected (reason : value)
| VPending
| VUser (id : nat)
| VProcess (id : nat) (name : name_arg) (handler : value)
| VCancel (name : name_arg) (process : value).

Definition name_arg_eq_dec (x y : name_arg) : {x = y} + {x <> y}.
Proof.
  decide equality;
    [apply String.string_dec
    | apply (list_eq_dec (A := string)); apply String.string_dec].
Defined.

Definition value_eq_dec (x y : value) : {x = y} + {x <> y}.
Proof.
  decide equality;
    first [ apply name_arg_eq_dec | apply String.string_dec | apply Z.eq_dec
          | apply Nat.eq_dec | apply Bool.bool_dec ].
Defined.

#[global] Instance name_arg_eqdec : EqDecision name_arg := name_arg_eq_dec.
#[global] Instance value_eqdec : EqDecision value := value_eq_dec.

(** [if (handler)]: the falsy values are [undefined], [null], [false], [0]
    and the empty string. *)
Definition truthy (v : value) : bool :=
  match v with
  | VUndefined | VNull => false
  | VBool b => b
  | VNum n => negb (n =? 0)%Z
  | VStr s => negb (String.eqb s "")
  | _ => true
  end.

Definition TypeError : value := VError "TypeError".

(** ** [String.prototype.split] with a string separator *)

(** A string is the sequence of its code units, one character of
    [string] for each, so that the strings covered are those of units
    below 256; what [split] cuts and compares are these units. *)

Fixpoint split_from (sep : string) (skip : nat) (cur : string) (s : string)
  : list string :=
  match s with
  | EmptyString => [cur]
  | String c rest =>
      match skip with
      | S k => split_from sep k cur rest
      | O =>
          if String.prefix sep s
          then cur :: split_from sep (String.length sep - 1) "" rest
          else split_from sep 0 (cur +:+ String c "") rest
      end
  end.

(** An empty separator cuts the string into its units, and the empty
    string into no part at all. *)
Definition split (s sep : string) : list string :=
  match sep with
  | EmptyString => (fun c => String c "") <$> String.list_ascii_of_string s
  | _ => split_from sep 0 "" s
  end.

(** ** The store *)

(** Locations of the store. *)
Abbreviation loc := nat (only parsing).

(** [function EventEntry()]: [children] holds the own properties of the
    object [{}] used as a map from a segment to the child entry,
    [handlers] and [allBelow] are references to arrays, [_all] is the
    entry for a wildcard segment, absent until [getAll] creates it. *)
Record EventEntry := {
  children : gmap string loc;
  handlers : loc;
  allBelow : loc;
  _all : option loc
}.

(** What [children[key]] can be when it is not [undefined].  The object
    [{}] inherits from [Object.prototype], so that beside the entries
    stored under own keys the lookup finds the members of the prototype:
    [Member key] is the function that [Object.prototype] has under [key]
    and, for [__proto__], the prototype itself.  None of them is an
    [EventEntry]: they have no [handlers], [children] or [_all] and none
    of its methods.  The code can give them an [allBelow] property
    ([off] assigns one), and once the prototype has it, the key
    [allBelow] is inherited too and yields that array: [ArrayNode a]. *)
Inductive node :=
| Entry (n : loc)
| Member (key : string)
| ArrayNode (a : loc).

(** The names under which [Object.prototype] has a member. *)
Definition prototype_members : list string :=
  ["constructor"; "__defineGetter__"; "__defineSetter__"; "hasOwnProperty";
   "__lookupGetter__"; "__lookupSetter__"; "isPrototypeOf";
   "propertyIsEnumerable"; "toString"; "valueOf"; "__proto__";
   "toLocaleString"].

Definition is_member (key : string) : bool :=
  existsb (String.eqb key) prototype_members.

(** The [storeHandlers] option is a function of the caller.  It is given
    the bucket and its result becomes the bucket: [InPlace f] rearranges
    the array it was given and returns it (as [v => v.sort(byPriority)]
    does, or the identity), [Copying f] returns a new array.  These are
    the hooks that return an array and do nothing else; one that throws,
    returns something else or calls the emitter is not covered. *)
Inductive HandlePreparer :=
| InPlace (f : list value -> list value)
| Copying (f : list value -> list value).

(** The fields of an [Events] instance, followed by the store its entries
    and arrays live in.  [next] is the first location never allocated and
    [next_fn] the first closure identifier never used.  The last two
    fields are what the code can change outside its own objects: the
    [allBelow] property that a member of [Object.prototype], known by its
    name, or an array has of its own. *)
Record World := {
  delimiter : string;
  wildcard : string;
  doubleWild : string;
  _events : loc;
  storeHandlers : option HandlePreparer;
  event : option string;
  entries : gmap loc EventEntry;
  arrays : gmap loc (list value);
  next : loc;
  next_fn : nat;
  member_below : gmap string loc;
  array_below : gmap loc loc
}.

(** A machine state is the world together with the record of the calls
    made so far: which function was applied to which arguments. *)
Record State := {
  world : World;
  calls : list (value * list value)
}.

(** ** Computations: state and exceptions *)

Inductive completion (A : Type) :=
| Return (a : A)
| Throw (e : value).
Arguments Return {A} a.
Arguments Throw {A} e.

Definition M (A : Type) : Type := State -> completion A * State.

#[global] Instance M_ret : MRet M := fun A a s => (Return a, s).
#[global] Instance M_bind : MBind M := fun A B f m s =>
  match m s with
  | (Return a, s') => f a s'
  | (Throw e, s') => (Throw e, s')
  end.

Definition throw {A} (e : value) : M A := fun s => (Throw e, s).

(** [try { m } catch (e) { ... }]: the completion of [m] as a result. *)
Definition catch {A} (m : M A) : M (completion A) := fun s =>
  match m s with
  | (c, s') => (Return c, s')
  end.

Definition get_world : M World := fun s => (Return (world s), s).

Definition put_world (w : World) : M unit := fun s =>
  (Return tt, {| world := w; calls := calls s |}).

Definition record_call (fn : value) (params : list value) : M unit := fun s =>
  (Return tt, {| world := world s; calls := calls s ++ [(fn, params)] |}).

Definition set_store (es : gmap loc EventEntry) (ars : gmap loc (list value))
    (n : loc) (w : World) : World :=
  {| delimiter := delimiter w; wildcard := wildcard w;
     doubleWild := doubleWild w; _events := _events w;
     storeHandlers := storeHandlers w; event := event w;
     entries := es; arrays := ars; next := n; next_fn := next_fn w;
     member_below := member_below w;
     array_below := array_below w |}.

(** Reading a property of something that is not there throws a
    [TypeError]. *)
Definition read_entry (n : loc) : M EventEntry :=
  w ← get_world;
  match entries w !! n with
  | Some e => mret e
  | None => throw TypeError
  end.

Definition write_entry (n : loc) (e : EventEntry) : M unit :=
  w ← get_world;
  put_world (set_store (<[n := e]> (entries w)) (arrays w) (next w) w).

Definition read_array (a : loc) : M (list value) :=
  w ← get_world;
  match arrays w !! a with
  | Some l => mret l
  | None => throw TypeError
  end.

Definition write_array (a : loc) (l : list value) : M unit :=
  w ← get_world;
  put_world (set_store (entries w) (<[a := l]> (arrays w)) (next w) w).

(** An array literal. *)
Definition new_array (l : list value) : M loc :=
  w ← get_world;
  put_world (set_store (entries w) (<[next w := l]> (arrays w)) (S (next w)) w);;
  mret (next w).

(** [new EventEntry()] *)
Definition new_EventEntry : M loc :=
  h ← new_array [];
  b ← new_array [];
  w ← get_world;
  put_world (set_store
    (<[next w := {| children := ∅; handlers := h; allBelow := b; _all := None |}]>
       (entries w))
    (arrays w) (S (next w)) w);;
  mret (next w).

Definition set_children (c : gmap string loc) (e : EventEntry) : EventEntry :=
  {| children := c; handlers := handlers e; allBelow := allBelow e; _all := _all e |}.
Definition set_handlers (h : loc) (e : EventEntry) : EventEntry :=
  {| children := children e; handlers := h; allBelow := allBelow e; _all := _all e |}.
Definition set_allBelow (b : loc) (e : EventEntry) : EventEntry :=
  {| children := children e; handlers := handlers e; allBelow := b; _all := _all e |}.
Definition set_all (a : loc) (e : EventEntry) : EventEntry :=
  {| children := children e; handlers := handlers e; allBelow := allBelow e;
     _all := Some a |}.

(** ** Lookups that go through [Object.prototype] *)

(** [Object.prototype.allBelow], when it has been assigned. *)
Definition prototype_below (w : World) : option loc :=
  member_below w !! "__proto__".

(** What the object [{}] inherits under [key]. *)
Definition inherited (w : World) (key : string) : option node :=
  if is_member key then Some (Member key)
  else if String.eqb key "allBelow" then ArrayNode <$> prototype_below w
  else None.

(** [children[key]]: an own property first, then what is inherited. *)
Definition lookup_child (w : World) (e : EventEntry) (key : string)
  : option node :=
  match children e !! key with
  | Some c => Some (Entry c)
  | None => inherited w key
  end.

Definition child_of (e : EventEntry) (key : string) : M (option node) :=
  w ← get_world;
  mret (lookup_child w e key).

(** [scan.allBelow] where [scan] is not an entry, in a place where the
    code goes on to use the array: its own property, or the one of
    [Object.prototype], from which functions and arrays inherit; without
    either the use of [undefined] throws. *)
Definition alien_below (w : World) (scan : node) : option loc :=
  match scan with
  | Entry _ => None
  | Member key =>
      match member_below w !! key with
      | Some b => Some b
      | None => prototype_below w
      end
  | ArrayNode a =>
      match array_below w !! a with
      | Some b => Some b
      | None => prototype_below w
      end
  end.

Definition read_alien_below (scan : node) : M loc :=
  w ← get_world;
  match alien_below w scan with
  | Some b => mret b
  | None => throw TypeError
  end.

(** [scan.allBelow = b] where [scan] is not an entry. *)
Definition write_alien_below (scan : node) (b : loc) : M unit :=
  w ← get_world;
  match scan with
  | Entry _ => mret tt
  | Member key =>
      put_world
        {| delimiter := delimiter w; wildcard := wildcard w;
           doubleWild := doubleWild w; _events := _events w;
           storeHandlers := storeHandlers w; event := event w;
           entries := entries w; arrays := arrays w; next := next w;
           next_fn := next_fn w;
           member_below := <[key := b]> (member_below w);
           array_below := array_below w |}
  | ArrayNode a =>
      put_world
        {| delimiter := delimiter w; wildcard := wildcard w;
           doubleWild := doubleWild w; _events := _events w;
           storeHandlers := storeHandlers w; event := event w;
           entries := entries w; arrays := arrays w; next := next w;
           next_fn := next_fn w;
           member_below := member_below w;
           array_below := <[a := b]> (array_below w) |}
  end.

(** ** The methods of [EventEntry] *)

(** [getChild] returns whatever [children[key]] is when that is truthy,
    an inherited member as well as a child. *)
Definition getChild (this : loc) (key : string) : M node :=
  e ← read_entry this;
  child ← child_of e key;
  match child with
  | None =>
      result ← new_EventEntry;
      write_entry this (set_children (<[key := result]> (children e)) e);;
      mret (Entry result)
  | Some child => mret child
  end.

Definition getExisting (this : loc) (key : string) : M (option node) :=
  e ← read_entry this;
  child_of e key.

Definition getAll (this : loc) : M loc :=
  e ← read_entry this;
  match _all e with
  | Some a => mret a
  | None =>
      a ← new_EventEntry;
      write_entry this (set_all a e);;
      mret a
  end.

(** ** Array helpers *)

(** [array.push(x)] *)
Definition push (a : loc) (x : value) : M unit :=
  l ← read_array a;
  write_array a (l ++ [x]).

(** [array.indexOf(x)], with [None] for [-1]. *)
Fixpoint indexOf (l : list value) (x : value) : option nat :=
  match l with
  | [] => None
  | y :: l' => if decide (y = x) then Some 0 else S <$> indexOf l' x
  end.

(** [array.splice(idx, 1)] *)
Definition splice1 (a : loc) (idx : nat) : M unit :=
  l ← read_array a;
  write_array a (delete idx l).

(** [storeHandlers ? storeHandlers(bucket) : bucket] *)
Definition stored (storeHandlers : option HandlePreparer) (bucket : loc) : M loc :=
  match storeHandlers with
  | None => mret bucket
  | Some (InPlace f) =>
      l ← read_array bucket;
      write_array bucket (f l);;
      mret bucket
  | Some (Copying f) =>
      l ← read_array bucket;
      new_array (f l)
  end.

(** ** The constructor *)

(** The [wildcard] option: [true] stands for the default token. *)
Inductive wildcard_option :=
| WTrue
| WToken (s : string).

(** [ConstructorParams]: an option left out is [None]. *)
Record ConstructorParams := {
  opt_delimiter : option string;
  opt_wildcard : option wildcard_option;
  opt_storeHandlers : option HandlePreparer
}.

Definition no_options : ConstructorParams :=
  {| opt_delimiter := None; opt_wildcard := None; opt_storeHandlers := None |}.

(** [new Events(props)]: the world of a new emitter, with its root entry
    [this._events = new EventEntry()] at location 2 and the root's two
    arrays at 0 and 1.  The [cache] field is never read and is left out. *)
Definition constructor (props : ConstructorParams) : World :=
  let delimiter := default "." (opt_delimiter props) in
  let wildcard :=
    match default (WToken "*") (opt_wildcard props) with
    | WTrue => "*"
    | WToken s => s
    end in
  {| delimiter := delimiter;
     wildcard := wildcard;
     doubleWild := wildcard +:+ wildcard;
     _events := 2;
     storeHandlers := opt_storeHandlers props;
     event := None;
     entries := {[ 2 := {| children := ∅; handlers := 0; allBelow := 1;
                           _all := None |} ]};
     arrays := {[ 0 := []; 1 := [] ]};
     next := 3;
     next_fn := 0;
     member_below := ∅; array_below := ∅ |}.

Definition initial (props : ConstructorParams) : State :=
  {| world := constructor props; calls := [] |}.

(** ** Registration *)

(** The loop of [on] over [parts], from [scan]; it returns what [scan]
    is when the loop ends.  [wildcard], [doubleWild] and [storeHandlers]
    are read from the instance once, before the loop.  Where [scan] is
    not an entry, [scan.getAll] and [scan.getChild] are [undefined] and
    calling them throws. *)
Fixpoint on_loop (wildcard doubleWild : string)
    (storeHandlers : option HandlePreparer)
    (parts : list string) (scan : node) (handler : value) : M node :=
  match parts with
  | [] => mret scan
  | part :: rest =>
      if decide (part = wildcard) then
        match scan with
        | Entry n =>
            scan' ← getAll n;
            on_loop wildcard doubleWild storeHandlers rest (Entry scan') handler
        | _ => throw TypeError
        end
      else if decide (part = doubleWild) then
        match scan with
        | Entry n =>
            e ← read_entry n;
            push (allBelow e) handler;;
            b ← stored storeHandlers (allBelow e);
            e' ← read_entry n;
            write_entry n (set_allBelow b e');;
            on_loop wildcard doubleWild storeHandlers rest scan handler
        | _ =>
            below ← read_alien_below scan;
            push below handler;;
            below' ← read_alien_below scan;
            b ← stored storeHandlers below';
            write_alien_below scan b;;
            on_loop wildcard doubleWild storeHandlers rest scan handler
        end
      else
        match scan with
        | Entry n =>
            scan' ← getChild n part;
            on_loop wildcard doubleWild storeHandlers rest scan' handler
        | _ => throw TypeError
        end
  end.

(** [on(name, handler)] for a [name] that is a string.  After the loop,
    [scan.handlers] is [undefined] where [scan] is not an entry, and
    [push] on it throws. *)
Definition on_name (name : string) (handler : value) : M unit :=
  if negb (truthy handler) then mret tt
  else
    w ← get_world;
    let parts := split name (delimiter w) in
    scan ← on_loop (wildcard w) (doubleWild w) (storeHandlers w) parts
                   (Entry (_events w)) handler;
    match scan with
    | Entry n =>
        e ← read_entry n;
        push (handlers e) handler;;
        h ← stored (storeHandlers w) (handlers e);
        e' ← read_entry n;
        write_entry n (set_handlers h e')
    | _ => throw TypeError
    end.

(** [list.forEach(f)] *)
Fixpoint forEach {A} (f : A -> M unit) (l : list A) : M unit :=
  match l with
  | [] => mret tt
  | x :: l' => f x;; forEach f l'
  end.

Definition on (name : name_arg) (handler : value) : M unit :=
  if negb (truthy handler) then mret tt
  else
    match name with
    | Names names => forEach (fun name => on_name name handler) names
    | Name name => on_name name handler
    end.

(** [once(name, handler)]: [process] is a new closure over [name] and
    [handler]. *)
Definition once (name : name_arg) (handler : value) : M value :=
  w ← get_world;
  let process := VProcess (next_fn w) name handler in
  put_world
    {| delimiter := delimiter w; wildcard := wildcard w;
       doubleWild := doubleWild w; _events := _events w;
       storeHandlers := storeHandlers w; event := event w;
       entries := entries w; arrays := arrays w; next := next w;
       next_fn := S (next_fn w);
       member_below := member_below w;
       array_below := array_below w |};;
  on name process;;
  mret (VCancel name process).

(** ** Removal *)

Definition removeAllListeners : M unit :=
  root ← new_EventEntry;
  w ← get_world;
  put_world
    {| delimiter := delimiter w; wildcard := wildcard w;
       doubleWild := doubleWild w; _events := root;
       storeHandlers := storeHandlers w; event := event w;
       entries := entries w; arrays := arrays w; next := next w;
       next_fn := next_fn w;
       member_below := member_below w;
       array_below := array_below w |}.

(** The loop of [off] together with the statements after it.  [scan] is
    [None] once the walk has left the trie; the double wildcard case
    returns from [off] inside the loop.  Where [scan] is not an entry,
    its methods and its [handlers] are [undefined], and their use
    throws; [scan.allBelow = []] is an assignment like any other. *)
Fixpoint off_loop (wildcard doubleWild : string)
    (parts : list string) (scan : option node) (handler : value) : M unit :=
  match scan, parts with
  | Some scan, part :: rest =>
      if decide (part = wildcard) then
        match scan with
        | Entry n =>
            scan' ← getAll n;
            off_loop wildcard doubleWild rest (Some (Entry scan')) handler
        | _ => throw TypeError
        end
      else if decide (part = doubleWild) then
        if decide (handler = VUndefined) then
          b ← new_array [];
          match scan with
          | Entry n =>
              e ← read_entry n;
              write_entry n (set_allBelow b e)
          | _ => write_alien_below scan b
          end
        else
          match scan with
          | Entry n =>
              e ← read_entry n;
              l ← read_array (allBelow e);
              match indexOf l handler with
              | None => mret tt
              | Some idx => splice1 (allBelow e) idx
              end
          | _ =>
              below ← read_alien_below scan;
              l ← read_array below;
              match indexOf l handler with
              | None => mret tt
              | Some idx => splice1 below idx
              end
          end
      else
        match scan with
        | Entry n =>
            scan' ← getExisting n part;
            off_loop wildcard doubleWild rest scan' handler
        | _ => throw TypeError
        end
  | None, _ => mret tt
  | Some scan, [] =>
      match scan with
      | Entry n =>
          if decide (handler = VUndefined) then
            e ← read_entry n;
            write_array (handlers e) []
          else
            e ← read_entry n;
            l ← read_array (handlers e);
            match indexOf l handler with
            | None => mret tt
            | Some idx => splice1 (handlers e) idx
            end
      | _ => throw TypeError
      end
  end.

Definition off_name (name : string) (handler : value) : M unit :=
  w ← get_world;
  let parts := split name (delimiter w) in
  off_loop (wildcard w) (doubleWild w) parts (Some (Entry (_events w)))
           handler.

Definition off (name : name_arg) (handler : value) : M unit :=
  match name with
  | Names names => forEach (fun name => off_name name handler) names
  | Name name => off_name name handler
  end.

(** ** Calls and emission *)

(** How an [async] function ends: its promise resolves with the parameters,
    rejects, or never settles. *)
Inductive settlement :=
| Resolved (params : list value)
| Rejected (reason : value)
| Pending.

Section Emission.

(** What a function of the caller does when it is applied: it may change
    the emitter and its trie in any way, and returns or throws. *)
Variable behaviour : nat -> list value -> World -> completion value * World.

Definition run_user (id : nat) (params : list value) : M value := fun s =>
  match behaviour id params (world s) with
  | (c, w) => (c, {| world := w; calls := calls s |})
  end.

(** [fn.apply(this, params)] and [fn(...params)].  The closure [process]
    of [once] calls [self.off(name, process)] and then
    [handler(...params)]; applying what is not a function throws. *)
Fixpoint fn_apply (fn : value) (params : list value) : M value :=
  match fn with
  | VUser id => record_call fn params;; run_user id params
  | VProcess _ name handler =>
      record_call fn params;;
      off name fn;;
      fn_apply handler params;;
      mret VUndefined
  | VCancel name process =>
      record_call fn params;;
      off name process;;
      mret VUndefined
  | _ => throw TypeError
  end.

(** [for (--i; i >= 0; i--)] over [allBelow]: [i] indices are left, the
    element is read from the array as it is at that moment, and an index
    past its end reads [undefined]. *)
Fixpoint call_backward (call : value -> M unit) (below : loc) (i : nat)
  : M unit :=
  match i with
  | O => mret tt
  | S i' =>
      l ← read_array below;
      let handler := default VUndefined (l !! i') in
      (if truthy handler then call handler else mret tt);;
      call_backward call below i'
  end.

(** [for (let i = 0, l = currentHandlers.length; i < l; i++)]: [left] is
    [l - i], fixed when the loop starts. *)
Fixpoint call_forward (call : value -> M unit) (currentHandlers : loc)
    (i left : nat) : M unit :=
  match left with
  | O => mret tt
  | S left' =>
      l ← read_array currentHandlers;
      let currentHandler := default VUndefined (l !! i) in
      (if truthy currentHandler then call currentHandler else mret tt);;
      call_forward call currentHandlers (S i) left'
  end.

(** [_emit(scan, parts, index, handlers, call)].  [parts] here is what is
    left of the event's segments from [index] on, so that the loop and the
    recursive call both go on with the tail.  [collected] is the [handlers]
    array of the collecting callers ([None] for [null]); it is local to
    them, so it is passed and returned.  With [call] the handlers are
    applied as they are found; without it they are pushed onto the array,
    and as nothing runs in between, each bucket is read once.  Where
    [scan] is not an entry, the loop still goes through its [allBelow]
    when it has one; its [_all] is [undefined], and then
    [scan.children[...]], like [scan.handlers.length] after the loop,
    reads a property of [undefined] and throws. *)
Fixpoint _emit (scan : option node) (parts : list string)
    (collected : option (list value)) (call : option (value -> M unit))
  : M (option (list value)) :=
  match scan, parts with
  | Some (Entry scan), part :: rest =>
      e ← read_entry scan;
      below ← read_array (allBelow e);
      let i := length below in
      match call with
      | Some f =>
          call_backward f (allBelow e) i;;
          e1 ← read_entry scan;
          collected ←
            (if _all e1 is Some _ then
               a ← getAll scan;
               _emit (Some (Entry a)) rest collected call
             else mret collected);
          e2 ← read_entry scan;
          child ← child_of e2 part;
          _emit child rest collected call
      | None =>
          collected ←
            (if i is O then mret collected
             else match collected with
                  | Some hs => mret (Some (hs ++ below)%list)
                  | None => throw TypeError
                  end);
          e1 ← read_entry scan;
          collected ←
            (if _all e1 is Some _ then
               a ← getAll scan;
               _emit (Some (Entry a)) rest collected call
             else mret collected);
          e2 ← read_entry scan;
          child ← child_of e2 part;
          _emit child rest collected call
      end
  | Some scan, part :: rest =>
      b ← read_alien_below scan;
      below ← read_array b;
      let i := length below in
      match call with
      | Some f =>
          call_backward f b i;;
          throw TypeError
      | None =>
          (if i is O then mret collected
           else match collected with
                | Some hs => mret (Some (hs ++ below)%list)
                | None => throw TypeError
                end);;
          throw TypeError
      end
  | None, _ => mret collected
  | Some (Entry scan), [] =>
      e ← read_entry scan;
      currentHandlers ← read_array (handlers e);
      match call with
      | Some f =>
          call_forward f (handlers e) 0 (length currentHandlers);;
          mret collected
      | None =>
          match collected with
          | Some hs => mret (Some (hs ++ currentHandlers)%list)
          | None =>
              if currentHandlers is [] then mret collected else throw TypeError
          end
      end
  | Some _, [] => throw TypeError
  end.

Definition set_event (event : string) : M unit :=
  w ← get_world;
  put_world
    {| delimiter := delimiter w; wildcard := wildcard w;
       doubleWild := doubleWild w; _events := _events w;
       storeHandlers := storeHandlers w; event := Some event;
       entries := entries w; arrays := arrays w; next := next w;
       next_fn := next_fn w;
       member_below := member_below w;
       array_below := array_below w |}.

(** The arrow function [(fn) => { fn.apply(this, params) }] of [emit]. *)
Definition call_with (params : list value) (fn : value) : M unit :=
  fn_apply fn params;; mret tt.

(** [emit(event, ...params)] *)
Definition emit (event : string) (params : list value) : M (list value) :=
  set_event event;;
  w ← get_world;
  let parts := split event (delimiter w) in
  _emit (Some (Entry (_events w))) parts None (Some (call_with params));;
  mret params.

(** [for (const handler of handlers) await handler.apply(this, params)]:
    an exception or a rejected promise rejects the promise of the [async]
    function, a promise that never settles leaves it pending. *)
Fixpoint await_each (collected : list value) (params : list value)
  : M settlement :=
  match collected with
  | [] => mret (Resolved params)
  | handler :: rest =>
      r ← catch (fn_apply handler params);
      match r with
      | Throw e => mret (Rejected e)
      | Return (VRejected e) => mret (Rejected e)
      | Return VPending => mret Pending
      | Return _ => await_each rest params
      end
  end.

(** The handlers that [emitAsyncSequential] collects before it calls any. *)
Definition collect (event : string) : M (list value) :=
  set_event event;;
  w ← get_world;
  let parts := split event (delimiter w) in
  collected ← _emit (Some (Entry (_events w))) parts (Some []) None;
  mret (default [] collected).

(** [emitAsyncSequential(event, ...params)] *)
Definition emitAsyncSequential (event : string) (params : list value)
  : M settlement :=
  r ← catch (collect event);
  match r with
  | Throw e => mret (Rejected e)
  | Return collected => await_each collected params
  end.

(** *** Handlers that keep to themselves *)

(** An awaited value that lets the [async] function go on. *)
Definition fulfils (v : value) : bool :=
  match v with
  | VRejected _ | VPending => false
  | _ => true
  end.

(** A function of the caller that never touches the emitter and returns,
    with a value that fulfils. *)
Definition inert (id : nat) : Prop :=
  forall params w, exists r,
    behaviour id params w = (Return r, w) /\ fulfils r = true.

Definition inert_value (v : value) : Prop :=
  exists id, v = VUser id /\ inert id.

(** What [if (handler) call(handler)] asks of a stored value. *)
Definition inert_if_truthy (v : value) : Prop :=
  truthy v = true -> inert_value v.

(** Applying [v] throws a [TypeError], whatever the state. *)
Definition thrower (v : value) (params : list value) : Prop :=
  forall s, exists s',
    call_with params v s = (Throw TypeError, s')
    /\ calls s' = calls s ++ [(v, params)].

(** *** The sequential loop, as a relation *)

(** [await handler.apply(this, params)] rejects: the function throws, or
    the promise it returns is rejected. *)
Definition rejects_with (handler : value) (params : list value)
    (s : State) (reason : value) (s' : State) : Prop :=
  fn_apply handler params s = (Throw reason, s')
  \/ fn_apply handler params s = (Return (VRejected reason), s').

(** The handlers of a list were applied one after the other, each from
    the state in which the one before it ended, and each was fulfilled. *)
Inductive applied_in_order (params : list value)
  : list value -> State -> State -> Prop :=
| applied_nil s : applied_in_order params [] s s
| applied_cons handler rest s r s1 s2 :
    fn_apply handler params s = (Return r, s1) ->
    fulfils r = true ->
    applied_in_order params rest s1 s2 ->
    applied_in_order params (handler :: rest) s s2.

End Emission.

(** ** Parallel emission *)

(** [Promise.resolve(v)]: a promise is returned as it is, any other value
    becomes a promise fulfilled with it. *)
Definition promise_resolve (v : value) : value :=
  match v with
  | VFulfilled _ | VRejected _ | VPending => v
  | _ => VFulfilled v
  end.

(** The reasons of the rejected promises of an array, in its order. *)
Fixpoint rejections (promises : list value) : list value :=
  match promises with
  | [] => []
  | VRejected reason :: rest => reason :: rejections rest
  | _ :: rest => rejections rest
  end.

Definition never_settles (promise : value) : bool :=
  match promise with
  | VPending => true
  | _ => false
  end.

(** [await Promise.all(promises); return params] at the end of an [async]
    function: a rejected promise rejects it, and of several the one that
    is rejected first in time gives the reason.  A promise of the model
    is the state in which it settles and does not say when, so the clock
    is a parameter: [earliest promises] is the place, among the rejected
    promises in the order of the array, of the one rejected first.
    Without a rejected promise, one that never settles leaves the
    function pending. *)
Definition await_all (earliest : list value -> nat) (promises : list value)
    (params : list value) : settlement :=
  match rejections promises with
  | [] => if existsb never_settles promises then Pending else Resolved params
  | reason :: later =>
      Rejected (nth (earliest promises) (reason :: later) reason)
  end.

Section Parallel.

Variable behaviour : nat -> list value -> World -> completion value * World.
Variable earliest : list value -> nat.

(** The arrow function
    [(fn) => { handlers.push(Promise.resolve(fn.apply(this, params))) }]
    of [emitAsync], around the array [handlers] of that call. *)
Definition call_pushing (handlers : loc) (params : list value) (fn : value)
  : M unit :=
  v ← fn_apply behaviour fn params;
  push handlers (promise_resolve v).

(** [emitAsync(event, ...params)]: [handlers] is a new array of the
    store; whatever the body throws rejects the promise of the [async]
    function. *)
Definition emitAsync (event : string) (params : list value) : M settlement :=
  r ← catch (handlers ← new_array [];
             set_event event;;
             w ← get_world;
             let parts := split event (delimiter w) in
             _emit (Some (Entry (_events w))) parts None
                   (Some (call_pushing handlers params));;
             read_array handlers);
  match r with
  | Throw e => mret (Rejected e)
  | Return promises => mret (await_all earliest promises params)
  end.

End Parallel.

(** ** Vocabulary of the statements *)

(** A segment under which the object [{}] never inherits anything: it is
    no name of a member of [Object.prototype], and it is not [allBelow],
    the one name that the code can add to the prototype. *)
Definition plain_key (key : string) : bool :=
  negb (is_member key) && negb (String.eqb key "allBelow").

(** The segments of a pattern or of an event are all plain. *)
Definition plain (parts : list string) : Prop :=
  forallb plain_key parts = true.

(** The same for the argument of [on], [once] and [off], a pattern or an
    array of patterns, split at the delimiter of [w]. *)
Definition plain_name (w : World) (name : name_arg) : Prop :=
  match name with
  | Name name => plain (split name (delimiter w))
  | Names names => Forall (fun name => plain (split name (delimiter w))) names
  end.

(** The state in which [this.event = event] has been assigned. *)
Definition announced (event : string) (s : State) : State :=
  {| world :=
       {| delimiter := delimiter (world s); wildcard := wildcard (world s);
          doubleWild := doubleWild (world s); _events := _events (world s);
          storeHandlers := storeHandlers (world s); event := Some event;
          entries := entries (world s); arrays := arrays (world s);
          next := next (world s); next_fn := next_fn (world s);
          member_below := member_below (world s);
          array_below := array_below (world s) |};
     calls := calls s |}.

(** The emitter after [new Events()] and [on(name, handler)]. *)
Definition registered (name : string) (handler : value) : State :=
  (on (Name name) handler (initial no_options)).2.

(** The caller's functions when each of them returns [undefined] and
    touches nothing. *)
Definition returning : nat -> list value -> World -> completion value * World :=
  fun _ _ w => (Return VUndefined, w).

(** The caller's functions when the one known as [2] returns a rejected
    promise and every other one returns [undefined]; none touches the
    emitter. *)
Definition second_rejects : nat -> list value -> World -> completion value * World :=
  fun id _ w =>
    match id with
    | 2 => (Return (VRejected (VStr "no")), w)
    | _ => (Return VUndefined, w)
    end.

(** The caller's functions when the one known as [1] throws and every
    other one returns [undefined]; none touches the emitter. *)
Definition first_throws : nat -> list value -> World -> completion value * World :=
  fun id _ w =>
    match id with
    | 1 => (Throw (VStr "no"), w)
    | _ => (Return VUndefined, w)
    end.

(** The options of an emitter whose hook [v => v.reverse()] turns every
    bucket around when a handler is stored. *)
Definition reversing : ConstructorParams :=
  {| opt_delimiter := None; opt_wildcard := None;
     opt_storeHandlers := Some (InPlace (@rev value)) |}.

(** The options of an emitter whose [storeHandlers] hook is
    [() => []]: it returns a new array without any handler. *)
Definition dropping : ConstructorParams :=
  {| opt_delimiter := None; opt_wildcard := None;
     opt_storeHandlers := Some (Copying (fun _ => [])) |}.

(** The contents of the bucket at [a]; nothing when there is no array. *)
Definition bucket (w : World) (a : loc) : list value :=
  default [] (arrays w !! a).

(** The invariant of the trie: no [children] map has the wildcard token or
    the double wildcard token as a key. *)
Definition no_wildcard_keys (w : World) : Prop :=
  forall n e, entries w !! n = Some e ->
    children e !! wildcard w = None /\ children e !! doubleWild w = None.

(** The same for the tokens [wc] and [dw], which the world must have as
    its own. *)
Definition tokens_kept (wc dw : string) (s : State) : Prop :=
  wildcard (world s) = wc /\ doubleWild (world s) = dw
  /\ forall n e, entries (world s) !! n = Some e ->
       children e !! wc = None /\ children e !! dw = None.

(** A triple for a computation that may throw: from a state in [P] it
    ends with a value and a state in [Q], or throws in a state in [R]. *)
Definition hoare {A} (P : State -> Prop) (m : M A)
    (Q : A -> State -> Prop) (R : State -> Prop) : Prop :=
  forall s, P s ->
    match m s with
    | (Return a, s') => Q a s'
    | (Throw _, s') => R s'
    end.

(** [m] applies no function, and throws nothing but a [TypeError]. *)
Definition silent {A} (m : M A) : Prop :=
  forall s,
    match m s with
    | (Return _, s') => calls s' = calls s
    | (Throw e, s') => e = TypeError /\ calls s' = calls s
    end.

(** The literal walk of the segments [parts] from [scan] comes to a
    bucket that is not empty: an [allBelow] bucket on the way, or the
    [handlers] bucket at the end. *)
Fixpoint meets (w : World) (parts : list string) (scan : loc) : Prop :=
  match parts with
  | [] =>
      exists e v l, entries w !! scan = Some e
        /\ arrays w !! handlers e = Some (v :: l)
  | part :: rest =>
      exists e, entries w !! scan = Some e
        /\ ((exists v l, arrays w !! allBelow e = Some (v :: l))
            \/ (exists a, _all e = Some a /\ meets w rest a)
            \/ (exists c, children e !! part = Some c /\ meets w rest c))
  end.

(** [m] keeps [I], whether it returns or throws. *)
Definition keeps {A} (I : State -> Prop) (m : M A) : Prop :=
  hoare I m (fun _ => I) I.

(** A store is well formed when the root, the buckets and the children
    that the entries name exist, the two buckets of an entry are two
    arrays, and nothing lives at or past [next]. *)
Record wf (w : World) : Prop := {
  wf_root : is_Some (entries w !! _events w);
  wf_handlers : forall n e, entries w !! n = Some e ->
    is_Some (arrays w !! handlers e);
  wf_allBelow : forall n e, entries w !! n = Some e ->
    is_Some (arrays w !! allBelow e);
  wf_children : forall n e k c, entries w !! n = Some e ->
    children e !! k = Some c -> is_Some (entries w !! c);
  wf_all : forall n e a, entries w !! n = Some e ->
    _all e = Some a -> is_Some (entries w !! a);
  wf_buckets : forall n e, entries w !! n = Some e ->
    handlers e <> allBelow e;
  wf_entries_next : forall n, is_Some (entries w !! n) -> n < next w;
  wf_arrays_next : forall a, is_Some (arrays w !! a) -> a < next w
}.

(** [w'] is [w] after registrations without a [storeHandlers] hook: the
    fields of the instance are the same, every entry is still there with
    the same two arrays and at least the children and the wildcard entry
    it had, and every array has at most grown at its end. *)
Record ext (w w' : World) : Prop := {
  ext_delimiter : delimiter w' = delimiter w;
  ext_wildcard : wildcard w' = wildcard w;
  ext_doubleWild : doubleWild w' = doubleWild w;
  ext_events : _events w' = _events w;
  ext_storeHandlers : storeHandlers w' = storeHandlers w;
  ext_entries : forall n e, entries w !! n = Some e ->
    exists e', entries w' !! n = Some e'
      /\ handlers e' = handlers e /\ allBelow e' = allBelow e
      /\ (forall k c, children e !! k = Some c -> children e' !! k = Some c)
      /\ (forall a, _all e = Some a -> _all e' = Some a);
  ext_arrays : forall a l, arrays w !! a = Some l ->
    exists l', arrays w' !! a = Some (l ++ l')
}.

(** An emitter without hook on which every stored value is [good]. *)
Definition all_good_unhooked (good : value -> Prop) (s : State) : Prop :=
  storeHandlers (world s) = None
  /\ forall a l v, arrays (world s) !! a = Some l -> v ∈ l -> good v.

(** An emitter without hook on which every stored truthy value is an
    inert function. *)
Definition all_inert_unhooked
    (behaviour : nat -> list value -> World -> completion value * World)
    (s : State) : Prop :=
  all_good_unhooked (inert_if_truthy behaviour) s.

(** The world after [new EventEntry()]. *)
Definition with_new_entry (w : World) : World :=
  set_store
    (<[S (S (next w)) :=
         {| children := ∅; handlers := next w; allBelow := S (next w);
            _all := None |}]> (entries w))
    (<[S (next w) := []]> (<[next w := []]> (arrays w)))
    (S (S (S (next w)))) w.

(** The world with another entry at [n], or another array at [a]. *)
Definition with_entry (n : loc) (e : EventEntry) (w : World) : World :=
  set_store (<[n := e]> (entries w)) (arrays w) (next w) w.

Definition with_array (a : loc) (l : list value) (w : World) : World :=
  set_store (entries w) (<[a := l]> (arrays w)) (next w) w.

(** Every bucket of the store is empty. *)
Definition all_empty (w : World) : Prop :=
  forall a l, arrays w !! a = Some l -> l = [].

(** Every bucket of the store is empty but the one at [a], which holds
    [v] and nothing else. *)
Definition lone_in (a : loc) (v : value) (w : World) : Prop :=
  arrays w !! a = Some [v]
  /\ forall b l, b <> a -> arrays w !! b = Some l -> l = [].

(** No segment of [parts] is one that [on] and [off] take for the double
    wildcard. *)
Definition single_only (wc dw : string) (parts : list string) : Prop :=
  forall part, part ∈ parts -> part = wc \/ part <> dw.

(** The segments [ev] of an event fit the segments [pre] of a pattern:
    one for one they are the same, or the pattern has the wildcard. *)
Definition fits (wc : string) (pre ev : list string) : Prop :=
  Forall2 (fun p x => p = wc \/ p = x) pre ev.

(** [x] comes before [y] in [l]. *)
Definition before {A} (x y : A) (l : list A) : Prop :=
  exists a b c, l = a ++ x :: b ++ y :: c.

(** The functions of [fns] are applied to [params] one after the other
    in the world [w], which each of them leaves as it is, until one
    throws: [applied] are those that were applied, the one that threw
    included, and [c] is how it ended. *)
Inductive run_until
    (behaviour : nat -> list value -> World -> completion value * World)
    (params : list value) (w : World)
  : list value -> list value -> completion unit -> Prop :=
| run_nil : run_until behaviour params w [] [] (Return tt)
| run_return id r rest applied c :
    behaviour id params w = (Return r, w) ->
    run_until behaviour params w rest applied c ->
    run_until behaviour params w (VUser id :: rest) (VUser id :: applied) c
| run_throw id e rest :
    behaviour id params w = (Throw e, w) ->
    run_until behaviour params w (VUser id :: rest) [VUser id] (Throw e).

(** As [run_until], for functions that do the same in every world:
    [results] are the values that those which returned have returned. *)
Inductive run_anywhere
    (behaviour : nat -> list value -> World -> completion value * World)
    (params : list value)
  : list value -> list value -> list value -> completion unit -> Prop :=
| anywhere_nil : run_anywhere behaviour params [] [] [] (Return tt)
| anywhere_return id r rest applied results c :
    (forall w, behaviour id params w = (Return r, w)) ->
    run_anywhere behaviour params rest applied results c ->
    run_anywhere behaviour params (VUser id :: rest) (VUser id :: applied)
                 (r :: results) c
| anywhere_throw id e rest :
    (forall w, behaviour id params w = (Throw e, w)) ->
    run_anywhere behaviour params (VUser id :: rest) [VUser id] [] (Throw e).

(** From [s] to [s'] the functions [applied] were applied, the promises
    of their [results] were pushed onto the array at [h], and nothing
    else has changed. *)
Definition carried (h : loc) (params : list value) (s s' : State)
    (applied results : list value) : Prop :=
  entries (world s') = entries (world s)
  /\ delimiter (world s') = delimiter (world s)
  /\ _events (world s') = _events (world s)
  /\ (forall a, a <> h -> arrays (world s') !! a = arrays (world s) !! a)
  /\ (exists l, arrays (world s) !! h = Some l
                /\ arrays (world s') !! h
                   = Some (l ++ (promise_resolve <$> results)))
  /\ calls s' = calls s ++ ((fun fn => (fn, params)) <$> applied).

(** [w'] is [w] with more entries, none of which holds a handler: the
    arrays of [w] are as they were and every other array is empty and
    new, the entries of [w] have the buckets they had and at most more
    children and a wildcard entry, which are new, and the new entries
    have new buckets and lead to new entries only.  New is what lies at
    or past [next w]. *)
Definition grown (w w' : World) : Prop :=
  next w <= next w'
  /\ (forall a l, arrays w !! a = Some l -> arrays w' !! a = Some l)
  /\ (forall a l, arrays w !! a = None -> arrays w' !! a = Some l ->
        l = [] /\ next w <= a)
  /\ (forall n e, entries w !! n = Some e ->
        exists e', entries w' !! n = Some e'
          /\ handlers e' = handlers e /\ allBelow e' = allBelow e
          /\ (forall k, children e' !! k = children e !! k
                 \/ (children e !! k = None
                     /\ exists c, children e' !! k = Some c /\ next w <= c))
          /\ (_all e' = _all e
              \/ (_all e = None /\ exists a, _all e' = Some a /\ next w <= a)))
  /\ (forall n e', entries w !! n = None -> entries w' !! n = Some e' ->
        next w <= n /\ next w <= handlers e' /\ next w <= allBelow e'
        /\ (forall k c, children e' !! k = Some c -> next w <= c)
        /\ (forall a, _all e' = Some a -> next w <= a)).

(** From [n] the segments [parts] of a pattern lead along entries that
    have buckets of their own and nothing beside the way of the pattern:
    the wildcard entry and no child where the segment is the wildcard,
    the one child and no wildcard entry elsewhere.  The last of them has
    neither, and [T] is its [handlers] bucket. *)
Fixpoint chain (w : World) (parts : list string) (n T : loc) : Prop :=
  match parts with
  | [] =>
      exists e, entries w !! n = Some e /\ handlers e = T
        /\ children e = ∅ /\ _all e = None
  | part :: rest =>
      exists e, entries w !! n = Some e
        /\ handlers e <> T /\ allBelow e <> T
        /\ if decide (part = wildcard w)
           then children e = ∅
                /\ exists a, _all e = Some a /\ chain w rest a T
           else _all e = None
                /\ exists c, children e = {[part := c]} /\ chain w rest c T
  end.

(** The fields of the instance that registration and removal leave as
    they are. *)
Definition same_instance (w w' : World) : Prop :=
  delimiter w' = delimiter w /\ wildcard w' = wildcard w
  /\ doubleWild w' = doubleWild w /\ _events w' = _events w
  /\ storeHandlers w' = storeHandlers w /\ next_fn w' = next_fn w.

(** The world after an array literal. *)
Definition with_new_array (l : list value) (w : World) : World :=
  set_store (entries w) (<[next w := l]> (arrays w)) (S (next w)) w.

(** From [s], [m] returns and leaves a well-formed store, in which the
    entries of [s] are still entries. *)
Definition lands {A} (m : M A) (s : State) (Q : A -> State -> Prop) : Prop :=
  exists a s',
    m s = (Return a, s') /\ wf (world s') /\ calls s' = calls s
    /\ delimiter (world s') = delimiter (world s)
    /\ (forall n, is_Some (entries (world s) !! n) ->
                  is_Some (entries (world s') !! n))
    /\ Q a s'.

Definition in_world (w : World) (s : State) : State :=
  {| world := w; calls := calls s |}.

(** The entry that the segments of a pattern lead to from [scan], without
    creating any: a wildcard segment goes to the wildcard entry, a double
    wildcard segment stays where it is, any other segment goes to the
    child stored under that name.  It follows own keys only, so that it
    is what the code finds where it leads to an entry, and for plain
    segments also where it does not. *)
Fixpoint locate (w : World) (parts : list string) (scan : loc) : option loc :=
  match parts with
  | [] => Some scan
  | part :: rest =>
      if decide (part = wildcard w) then
        e ← entries w !! scan; a ← _all e; locate w rest a
      else if decide (part = doubleWild w) then
        locate w rest scan
      else
        e ← entries w !! scan; c ← children e !! part; locate w rest c
  end.

(** A well-formed store in which the pattern [parts] leads along a chain
    to the entry [m], whose [handlers] bucket [T] holds [l], and every
    other bucket is empty. *)
Definition ready (parts : list string) (m T : loc) (l : list value)
    (w : World) : Prop :=
  wf w
  /\ arrays w !! T = Some l
  /\ (forall b lb, b <> T -> arrays w !! b = Some lb -> lb = [])
  /\ chain w parts (_events w) T
  /\ locate w parts (_events w) = Some m
  /\ exists e, entries w !! m = Some e /\ handlers e = T.

(** The handlers that the walk of [_emit] finds for the plain segments
    [parts] of an event, in the order in which the collecting callers
    push them; [None] when the walk reads an entry or an array that is
    not there.  It follows the children stored under own keys, which for
    a plain segment is all that [children[part]] can be. *)
Fixpoint gather (w : World) (parts : list string) (scan : option loc)
  : option (list value) :=
  match scan, parts with
  | Some scan, part :: rest =>
      e ← entries w !! scan;
      below ← arrays w !! allBelow e;
      wild ← (if _all e is Some a then gather w rest (Some a) else Some []);
      child ← gather w rest (children e !! part);
      Some (below ++ wild ++ child)%list
  | Some scan, [] =>
      e ← entries w !! scan;
      arrays w !! handlers e
  | None, _ => Some []
  end.

(** [array.filter(Boolean)] *)
Definition truthy_only (l : list value) : list value :=
  List.filter truthy l.

(** The same in the order in which [_emit] applies them when it is given
    [call]: an [allBelow] bucket from its end, and only what is truthy. *)
Fixpoint eager (w : World) (parts : list string) (scan : option loc)
  : option (list value) :=
  match scan, parts with
  | Some scan, part :: rest =>
      e ← entries w !! scan;
      below ← arrays w !! allBelow e;
      wild ← (if _all e is Some a then eager w rest (Some a) else Some []);
      child ← eager w rest (children e !! part);
      Some (rev (truthy_only below) ++ wild ++ child)%list
  | Some scan, [] =>
      e ← entries w !! scan;
      l ← arrays w !! handlers e;
      Some (truthy_only l)
  | None, _ => Some []
  end.

(** The state after the functions [fns] were applied to [params], one
    after the other, by something that changed nothing else. *)
Definition logged (fns : list value) (params : list value) (s : State) : State :=
  {| world := world s;
     calls := calls s ++ ((fun fn => (fn, params)) <$> fns) |}.

(** * Properties *)

(** ** Unfolding the monad and the entry points *)

Lemma bind_eq {A B} (m : M A) (f : A -> M B) (s : State) :
  (m ≫= f) s =
  match m s with
  | (Return a, s') => f a s'
  | (Throw e, s') => (Throw e, s')
  end.
Proof. reflexivity. Qed.

Section Properties.

Variable behaviour : nat -> list value -> World -> completion value * World.

Lemma emit_split event params s parts :
  split event (delimiter (world s)) = parts ->
  emit behaviour event params s =
  match _emit (Some (Entry (_events (world s)))) parts None
              (Some (call_with behaviour params)) (announced event s) with
  | (Return _, s') => (Return params, s')
  | (Throw e, s') => (Throw e, s')
  end.
Proof. intros <-. reflexivity. Qed.

Lemma collect_split event s parts :
  split event (delimiter (world s)) = parts ->
  collect event s =
  match _emit (Some (Entry (_events (world s)))) parts (Some []) None
              (announced event s) with
  | (Return collected, s') => (Return (default [] collected), s')
  | (Throw e, s') => (Throw e, s')
  end.
Proof. intros <-. reflexivity. Qed.

Lemma emitAsyncSequential_eq event params s :
  emitAsyncSequential behaviour event params s =
  match collect event s with
  | (Return collected, s') => await_each behaviour collected params s'
  | (Throw e, s') => (Return (Rejected e), s')
  end.
Proof.
  unfold emitAsyncSequential, catch. rewrite bind_eq.
  destruct (collect event s) as [[collected|e] s']; reflexivity.
Qed.

Lemma _emit_None parts collected call s :
  _emit None parts collected call s = (Return collected, s).
Proof. destruct parts; reflexivity. Qed.

(** One turn of the loop of [_emit] when it is given [call]. *)
Lemma _emit_call_cons n part rest f :
  _emit (Some (Entry n)) (part :: rest) None (Some f)
  = (e ← read_entry n;
     below ← read_array (allBelow e);
     call_backward f (allBelow e) (length below);;
     e1 ← read_entry n;
     collected ←
       (if _all e1 is Some _ then
          a ← getAll n;
          _emit (Some (Entry a)) rest None (Some f)
        else mret None);
     e2 ← read_entry n;
     child ← child_of e2 part;
     _emit child rest collected (Some f)).
Proof. reflexivity. Qed.

(** ** The primitives on a store that has what they read *)

Lemma read_entry_eq s n e :
  entries (world s) !! n = Some e -> read_entry n s = (Return e, s).
Proof. intros H. unfold read_entry. rewrite bind_eq. simpl. rewrite H. reflexivity. Qed.

Lemma read_array_eq s a l :
  arrays (world s) !! a = Some l -> read_array a s = (Return l, s).
Proof. intros H. unfold read_array. rewrite bind_eq. simpl. rewrite H. reflexivity. Qed.

Lemma getAll_existing s n e a :
  entries (world s) !! n = Some e -> _all e = Some a ->
  getAll n s = (Return a, s).
Proof.
  intros H Ha. unfold getAll. rewrite bind_eq, (read_entry_eq _ _ _ H), Ha.
  reflexivity.
Qed.

Lemma getExisting_own s n e key c :
  entries (world s) !! n = Some e -> children e !! key = Some c ->
  getExisting n key s = (Return (Some (Entry c)), s).
Proof.
  intros He Hc. unfold getExisting. rewrite bind_eq, (read_entry_eq _ _ _ He).
  unfold child_of. rewrite bind_eq. cbn [get_world].
  unfold lookup_child. rewrite Hc. reflexivity.
Qed.

(** *** Lookups of own and of plain keys *)

Lemma plain_cons part rest :
  plain (part :: rest) -> plain_key part = true /\ plain rest.
Proof. unfold plain. cbn [forallb]. apply andb_true_iff. Qed.

Lemma plain_app l1 l2 : plain (l1 ++ l2) <-> plain l1 /\ plain l2.
Proof. unfold plain. rewrite forallb_app. apply andb_true_iff. Qed.

Lemma inherited_plain w key : plain_key key = true -> inherited w key = None.
Proof.
  unfold plain_key, inherited. intros H.
  apply andb_true_iff in H as [H1 H2].
  destruct (is_member key); [discriminate H1|].
  destruct (String.eqb key "allBelow"); [discriminate H2 | reflexivity].
Qed.

Lemma lookup_child_own w e key c :
  children e !! key = Some c -> lookup_child w e key = Some (Entry c).
Proof. unfold lookup_child. intros ->. reflexivity. Qed.

Lemma lookup_child_plain w e key :
  plain_key key = true -> lookup_child w e key = Entry <$> children e !! key.
Proof.
  intros H. unfold lookup_child.
  destruct (children e !! key); [reflexivity | exact (inherited_plain w key H)].
Qed.

Lemma child_of_own s e key c :
  children e !! key = Some c ->
  child_of e key s = (Return (Some (Entry c)), s).
Proof.
  intros H. unfold child_of. rewrite bind_eq. cbn [get_world].
  rewrite (lookup_child_own _ _ _ _ H). reflexivity.
Qed.

Lemma child_of_plain s e key :
  plain_key key = true ->
  child_of e key s = (Return (Entry <$> children e !! key), s).
Proof.
  intros H. unfold child_of. rewrite bind_eq. cbn [get_world].
  rewrite (lookup_child_plain _ _ _ H). reflexivity.
Qed.

(** Rewriting with a statement about a walk from [Some n]. *)
Ltac rewrite_walk H :=
  let E := fresh "E" in
  pose proof H as E; cbn [fmap option_fmap option_map] in E; rewrite E;
  clear E.

Lemma logged_nil params s : logged [] params s = s.
Proof. destruct s. unfold logged. simpl. rewrite app_nil_r. reflexivity. Qed.

Lemma logged_app l1 l2 params s :
  logged (l1 ++ l2) params s = logged l2 params (logged l1 params s).
Proof. unfold logged. simpl. rewrite fmap_app, app_assoc. reflexivity. Qed.

(** ** Inert handlers: emission as a list of calls *)

Lemma fn_apply_inert id params s :
  inert behaviour id ->
  exists r, fulfils r = true /\
    fn_apply behaviour (VUser id) params s
    = (Return r, logged [VUser id] params s).
Proof.
  intros Hi. destruct (Hi params (world s)) as (r & E & F).
  exists r. split; [exact F|].
  simpl. rewrite bind_eq. unfold record_call, run_user. simpl. rewrite E.
  reflexivity.
Qed.

Lemma call_with_inert v params s :
  inert_value behaviour v ->
  call_with behaviour params v s = (Return tt, logged [v] params s).
Proof.
  intros (id & -> & Hi). unfold call_with. rewrite bind_eq.
  destruct (fn_apply_inert id params s Hi) as (r & _ & ->). reflexivity.
Qed.

Lemma call_backward_inert params b l i s :
  arrays (world s) !! b = Some l ->
  Forall (inert_if_truthy behaviour) (take i l) ->
  call_backward (call_with behaviour params) b i s
  = (Return tt, logged (rev (truthy_only (take i l))) params s).
Proof.
  revert s. induction i as [|i IH]; intros s Hl Hall.
  - simpl. rewrite logged_nil. reflexivity.
  - cbn [call_backward]. rewrite bind_eq, (read_array_eq _ _ _ Hl), bind_eq.
    destruct (l !! i) as [v|] eqn:Hv.
    + rewrite (take_S_r _ _ _ Hv) in Hall |- *.
      apply Forall_app in Hall as [Hall Hv'].
      apply Forall_inv in Hv'.
      unfold truthy_only. rewrite List.filter_app, rev_app_distr. simpl.
      destruct (truthy v) eqn:Ht.
      * rewrite (call_with_inert _ _ _ (Hv' Ht)). simpl.
        change (v :: rev (List.filter truthy (take i l)))
          with ([v] ++ rev (truthy_only (take i l))).
        rewrite logged_app. apply IH; [exact Hl | exact Hall].
      * simpl. unfold mret, M_ret; simpl. apply IH; [exact Hl | exact Hall].
    + simpl. unfold mret, M_ret; simpl.
      apply lookup_ge_None in Hv.
      rewrite take_ge in Hall |- * by lia.
      specialize (IH s Hl). rewrite take_ge in IH by lia.
      apply IH. exact Hall.
Qed.

Lemma call_forward_inert params b l i n s :
  arrays (world s) !! b = Some l ->
  Forall (inert_if_truthy behaviour) (take n (drop i l)) ->
  call_forward (call_with behaviour params) b i n s
  = (Return tt, logged (truthy_only (take n (drop i l))) params s).
Proof.
  revert i s. induction n as [|n IH]; intros i s Hl Hall.
  - simpl. rewrite logged_nil. reflexivity.
  - simpl. rewrite bind_eq, (read_array_eq _ _ _ Hl), bind_eq.
    destruct (l !! i) as [v|] eqn:Hv.
    + rewrite (drop_S _ _ _ Hv) in Hall |- *. simpl in Hall |- *.
      apply Forall_cons in Hall as [Hv' Hall].
      destruct (truthy v) eqn:Ht.
      * rewrite (call_with_inert _ _ _ (Hv' Ht)).
        change (v :: truthy_only (take n (drop (S i) l)))
          with ([v] ++ truthy_only (take n (drop (S i) l))).
        rewrite logged_app. apply IH; [exact Hl | exact Hall].
      * unfold mret, M_ret; simpl. apply IH; [exact Hl | exact Hall].
    + simpl. unfold mret, M_ret; simpl.
      apply lookup_ge_None in Hv.
      rewrite drop_ge in Hall |- * by lia. rewrite take_nil in Hall |- *.
      specialize (IH (S i) s Hl). rewrite drop_ge, take_nil in IH by lia.
      apply IH. constructor.
Qed.

Lemma _emit_gather parts scan acc s l :
  plain parts ->
  gather (world s) parts scan = Some l ->
  _emit (Entry <$> scan) parts (Some acc) None s
  = (Return (Some (acc ++ l)), s).
Proof.
  revert scan acc l.
  induction parts as [|part rest IH]; intros [n|] acc l Hplain H;
    cbn [fmap option_fmap option_map];
    try (rewrite _emit_None; simpl in H; injection H as <-;
         rewrite app_nil_r; reflexivity).
  - simpl in H.
    destruct (entries (world s) !! n) as [e|] eqn:He; [|discriminate H].
    simpl in H. cbn [_emit].
    rewrite bind_eq, (read_entry_eq _ _ _ He), bind_eq, (read_array_eq _ _ _ H).
    reflexivity.
  - simpl in H.
    destruct (entries (world s) !! n) as [e|] eqn:He; [|discriminate H].
    simpl in H.
    destruct (arrays (world s) !! allBelow e) as [below|] eqn:Hb;
      [|discriminate H].
    simpl in H.
    destruct (if _all e is Some a then gather (world s) rest (Some a)
              else Some []) as [wild|] eqn:Hw; [|discriminate H].
    simpl in H.
    destruct (gather (world s) rest (children e !! part)) as [child|] eqn:Hc;
      [|discriminate H].
    simpl in H. injection H as <-.
    cbn [_emit].
    rewrite bind_eq, (read_entry_eq _ _ _ He), bind_eq, (read_array_eq _ _ _ Hb).
    rewrite bind_eq.
    assert (Hpush :
      (if length below is O then mret (Some acc)
       else mret (Some (acc ++ below)) : M (option (list value))) s
      = (Return (Some (acc ++ below)), s)).
    { destruct below; [rewrite app_nil_r|]; reflexivity. }
    apply plain_cons in Hplain as [Hkey Hplain].
    rewrite Hpush, bind_eq, (read_entry_eq _ _ _ He), bind_eq.
    destruct (_all e) as [a|] eqn:Ha.
    + rewrite bind_eq, (getAll_existing _ _ _ _ He Ha).
      rewrite_walk (IH (Some a) (acc ++ below) _ Hplain Hw).
      rewrite bind_eq, (read_entry_eq _ _ _ He).
      rewrite bind_eq, (child_of_plain _ _ _ Hkey), (IH _ _ _ Hplain Hc).
      rewrite <- !app_assoc. reflexivity.
    + injection Hw as <-. unfold mret at 1, M_ret at 1.
      rewrite bind_eq, (read_entry_eq _ _ _ He).
      rewrite bind_eq, (child_of_plain _ _ _ Hkey), (IH _ _ _ Hplain Hc).
      rewrite <- !app_assoc. reflexivity.
Qed.

Lemma _emit_eager params parts scan s l :
  plain parts ->
  eager (world s) parts scan = Some l ->
  Forall (inert_value behaviour) l ->
  _emit (Entry <$> scan) parts None (Some (call_with behaviour params)) s
  = (Return None, logged l params s).
Proof.
  revert scan s l.
  induction parts as [|part rest IH]; intros [n|] s l Hplain H Hall;
    cbn [fmap option_fmap option_map];
    try (rewrite _emit_None; simpl in H; injection H as <-;
         rewrite logged_nil; reflexivity).
  - simpl in H.
    destruct (entries (world s) !! n) as [e|] eqn:He; [|discriminate H].
    simpl in H.
    destruct (arrays (world s) !! handlers e) as [hs|] eqn:Hh;
      [|discriminate H].
    simpl in H. injection H as <-. cbn [_emit].
    rewrite bind_eq, (read_entry_eq _ _ _ He), bind_eq, (read_array_eq _ _ _ Hh).
    rewrite bind_eq.
    rewrite (call_forward_inert params _ hs 0 (length hs) s Hh).
    + rewrite drop_0, firstn_all. reflexivity.
    + rewrite drop_0, firstn_all.
      apply Forall_forall. intros v Hv Ht.
      rewrite Forall_forall in Hall. apply Hall.
      apply list_elem_of_In. unfold truthy_only. apply filter_In.
      split; [|exact Ht]. apply list_elem_of_In. exact Hv.
  - simpl in H.
    destruct (entries (world s) !! n) as [e|] eqn:He; [|discriminate H].
    simpl in H.
    destruct (arrays (world s) !! allBelow e) as [below|] eqn:Hb;
      [|discriminate H].
    simpl in H.
    destruct (if _all e is Some a then eager (world s) rest (Some a)
              else Some []) as [wild|] eqn:Hw; [|discriminate H].
    simpl in H.
    destruct (eager (world s) rest (children e !! part)) as [child|] eqn:Hc;
      [|discriminate H].
    simpl in H. injection H as <-.
    apply Forall_app in Hall as [Hbelow Hall].
    apply Forall_app in Hall as [Hwild Hchild].
    apply plain_cons in Hplain as [Hkey Hplain].
    cbn [_emit].
    rewrite bind_eq, (read_entry_eq _ _ _ He), bind_eq, (read_array_eq _ _ _ Hb).
    rewrite bind_eq.
    rewrite (call_backward_inert params _ below (length below) s Hb).
    2:{ rewrite firstn_all. apply Forall_forall. intros v Hv Ht.
        rewrite Forall_forall in Hbelow. apply Hbelow.
        apply list_elem_of_In. apply in_rev.
        rewrite rev_involutive. unfold truthy_only. apply filter_In.
        split; [|exact Ht]. apply list_elem_of_In. exact Hv. }
    rewrite firstn_all.
    set (s1 := logged (rev (truthy_only below)) params s).
    assert (He1 : entries (world s1) !! n = Some e) by exact He.
    rewrite bind_eq, (read_entry_eq _ _ _ He1), bind_eq.
    destruct (_all e) as [a|] eqn:Ha.
    + rewrite bind_eq, (getAll_existing _ _ _ _ He1 Ha).
      rewrite_walk (IH (Some a) s1 wild Hplain Hw Hwild).
      rewrite bind_eq, (read_entry_eq (logged wild params s1) n e He).
      rewrite bind_eq, (child_of_plain _ _ _ Hkey).
      rewrite (IH _ (logged wild params s1) child Hplain Hc Hchild).
      subst s1. rewrite !logged_app. reflexivity.
    + injection Hw as <-. unfold mret at 1, M_ret at 1.
      rewrite bind_eq, (read_entry_eq _ _ _ He1).
      rewrite bind_eq, (child_of_plain _ _ _ Hkey).
      rewrite (IH _ s1 child Hplain Hc Hchild).
      subst s1. rewrite !logged_app, logged_nil. reflexivity.
Qed.

Lemma await_each_inert params l s :
  Forall (inert_value behaviour) l ->
  await_each behaviour l params s
  = (Return (Resolved params), logged l params s).
Proof.
  revert s. induction l as [|v l IH]; intros s Hall.
  - simpl. rewrite logged_nil. reflexivity.
  - apply Forall_cons in Hall as [(id & -> & Hi) Hall].
    cbn [await_each]. rewrite bind_eq. unfold catch.
    destruct (fn_apply_inert id params s Hi) as (r & F & ->).
    change (VUser id :: l) with ([VUser id] ++ l). rewrite logged_app.
    destruct r; try discriminate F; apply IH; exact Hall.
Qed.

Lemma eager_announced event s parts scan :
  eager (world (announced event s)) parts scan = eager (world s) parts scan.
Proof.
  revert scan. induction parts as [|part rest IH]; intros [n|]; try reflexivity.
  simpl. destruct (entries (world s) !! n) as [e|]; [|reflexivity]. simpl.
  destruct (arrays (world s) !! allBelow e); [|reflexivity]. simpl.
  rewrite (IH (children e !! part)).
  destruct (_all e); [rewrite IH|]; reflexivity.
Qed.

Lemma gather_announced event s parts scan :
  gather (world (announced event s)) parts scan = gather (world s) parts scan.
Proof.
  revert scan. induction parts as [|part rest IH]; intros [n|]; try reflexivity.
  simpl. destruct (entries (world s) !! n) as [e|]; [|reflexivity]. simpl.
  destruct (arrays (world s) !! allBelow e); [|reflexivity]. simpl.
  rewrite (IH (children e !! part)).
  destruct (_all e); [rewrite IH|]; reflexivity.
Qed.

(** [emit] when every handler that the walk finds is inert: they are
    applied in the order of [eager] and nothing else changes. *)
Lemma emit_inert event params s parts l :
  split event (delimiter (world s)) = parts ->
  plain parts ->
  eager (world s) parts (Some (_events (world s))) = Some l ->
  Forall (inert_value behaviour) l ->
  emit behaviour event params s
  = (Return params, logged l params (announced event s)).
Proof.
  intros Hs Hp He Hall. rewrite (emit_split _ _ _ _ Hs).
  rewrite_walk (_emit_eager params parts (Some (_events (world s)))
                  (announced event s) l Hp
                  (eq_trans (eager_announced _ _ _ _) He) Hall).
  reflexivity.
Qed.

(** [emitAsyncSequential] when every handler that the walk finds is inert:
    they are applied in the order of [gather]. *)
Lemma emitAsyncSequential_inert event params s parts l :
  split event (delimiter (world s)) = parts ->
  plain parts ->
  gather (world s) parts (Some (_events (world s))) = Some l ->
  Forall (inert_value behaviour) l ->
  emitAsyncSequential behaviour event params s
  = (Return (Resolved params), logged l params (announced event s)).
Proof.
  intros Hs Hp Hg Hall.
  rewrite emitAsyncSequential_eq, (collect_split _ _ _ Hs).
  rewrite_walk (_emit_gather parts (Some (_events (world s))) []
                  (announced event s) l Hp
                  (eq_trans (gather_announced _ _ _ _) Hg)).
  simpl. apply await_each_inert. exact Hall.
Qed.

Lemma inert_user id : inert behaviour id -> inert_value behaviour (VUser id).
Proof. intros Hi. exists id. split; [reflexivity | exact Hi]. Qed.

(** ** Emission on small tries *)

(** On a given trie the lists [eager] and [gather] are computed, and the
    innermost [emit] of the goal is rewritten with [emit_inert]. *)
Ltac inert_list :=
  repeat (apply Forall_cons_2; [apply inert_user; assumption|]);
  apply Forall_nil_2.

Ltac emit_step :=
  match goal with
  | |- context [emit behaviour ?e ?p ?s] =>
      lazymatch s with context [behaviour] => fail | _ => idtac end;
      let parts := eval vm_compute in (split e (delimiter (world s))) in
      let found :=
        eval vm_compute in (eager (world s) parts (Some (_events (world s)))) in
      lazymatch found with
      | Some ?l =>
          let E := fresh "E" in
          assert (E : emit behaviour e p s
                      = (Return p, logged l p (announced e s)))
            by (apply (emit_inert e p s parts l);
                [vm_compute; reflexivity | vm_compute; reflexivity
                | vm_compute; reflexivity | inert_list]);
          rewrite E; clear E; cbn [snd]
      end
  end.

(** C2: a handler registered on ["a.**"] with the default delimiter and
    wildcard is applied exactly once by each of [emit("a")], [emit("a.b")]
    and [emit("a.b.c")], taken one by one from the state after the
    registration and also one after the other.  The handler is any inert
    function. *)
Theorem below_wildcard_fires_once id p1 p2 p3 :
  inert behaviour id ->
  let h := VUser id in
  let s := registered "a.**" h in
  calls (emit behaviour "a" p1 s).2 = [(h, p1)]
  /\ calls (emit behaviour "a.b" p2 s).2 = [(h, p2)]
  /\ calls (emit behaviour "a.b.c" p3 s).2 = [(h, p3)]
  /\ calls (emit behaviour "a.b.c" p3
             (emit behaviour "a.b" p2 (emit behaviour "a" p1 s).2).2).2
     = [(h, p1); (h, p2); (h, p3)].
Proof.
  intros Hi h s. subst h.
  repeat apply conj; repeat emit_step; vm_compute; reflexivity.
Qed.

(** C4: a handler registered on ["a.*.c"] is applied once by
    [emit("a.x.c")] and by [emit("a.y.c")], and by every event whose
    segments are [a], one segment of any text, and [c]; it is not applied
    by [emit("a.x.y.c")] nor by [emit("a.c")]. *)
Theorem single_wildcard_matches_one_segment id params :
  inert behaviour id ->
  let h := VUser id in
  let s := registered "a.*.c" h in
  calls (emit behaviour "a.x.c" params s).2 = [(h, params)]
  /\ calls (emit behaviour "a.y.c" params s).2 = [(h, params)]
  /\ calls (emit behaviour "a.x.y.c" params s).2 = []
  /\ calls (emit behaviour "a.c" params s).2 = []
  /\ forall event seg, split event "." = ["a"; seg; "c"] ->
       calls (emit behaviour event params s).2 = [(h, params)].
Proof.
  intros Hi h s. subst h.
  repeat apply conj; try (emit_step; vm_compute; reflexivity).
  intros event seg Hs.
  destruct (plain_key seg) eqn:Hseg.
  { rewrite (emit_inert event params s _ [VUser id] Hs);
      [vm_compute; reflexivity
      | unfold plain; cbn [forallb]; rewrite Hseg; reflexivity
      | vm_compute; reflexivity | inert_list]. }
  (* [seg] is inherited: the handler is applied in the wildcard entry
     before the walk comes to what [children[seg]] is *)
  rewrite (emit_split event params s _ Hs).
  change (_events (world s)) with 2.
  set (sa := announced event s).
  set (e2 := {| children := {["a" := 5]}; handlers := 0; allBelow := 1;
                _all := None |}).
  set (e5 := {| children := ∅; handlers := 3; allBelow := 4;
                _all := Some 8 |}).
  assert (He2 : entries (world sa) !! 2 = Some e2) by (vm_compute; reflexivity).
  assert (He5 : entries (world sa) !! 5 = Some e5) by (vm_compute; reflexivity).
  assert (Hb2 : arrays (world sa) !! 1 = Some []) by (vm_compute; reflexivity).
  assert (Hb5 : arrays (world sa) !! 4 = Some []) by (vm_compute; reflexivity).
  assert (Hwalk : exists c,
            _emit (Some (Entry 2)) ["a"; seg; "c"] None
                  (Some (call_with behaviour params)) sa
            = (c, logged [VUser id] params sa)).
  { rewrite _emit_call_cons.
    rewrite bind_eq, (read_entry_eq _ _ _ He2).
    rewrite bind_eq, (read_array_eq sa (allBelow e2) [] Hb2).
    rewrite bind_eq. cbn [length call_backward]. unfold mret at 1, M_ret at 1.
    rewrite bind_eq, (read_entry_eq _ _ _ He2), bind_eq.
    change (_all e2) with (@None nat). cbv iota.
    unfold mret at 1, M_ret at 1.
    rewrite bind_eq, (read_entry_eq _ _ _ He2).
    rewrite bind_eq, (child_of_own _ e2 "a" 5 eq_refl).
    rewrite _emit_call_cons.
    rewrite bind_eq, (read_entry_eq _ _ _ He5).
    rewrite bind_eq, (read_array_eq sa (allBelow e5) [] Hb5).
    rewrite bind_eq. cbn [length call_backward]. unfold mret at 1, M_ret at 1.
    rewrite bind_eq, (read_entry_eq _ _ _ He5), bind_eq.
    change (_all e5) with (Some 8). cbv iota.
    rewrite bind_eq, (getAll_existing _ _ _ _ He5 eq_refl).
    rewrite_walk (_emit_eager params ["c"] (Some 8) sa [VUser id]
                    eq_refl eq_refl ltac:(inert_list)).
    set (s1 := logged [VUser id] params sa).
    assert (He5' : entries (world s1) !! 5 = Some e5) by exact He5.
    rewrite bind_eq, (read_entry_eq _ _ _ He5').
    rewrite bind_eq. unfold child_of. rewrite bind_eq. cbn [get_world].
    unfold mret at 1, M_ret at 1.
    unfold lookup_child. change (children e5) with (∅ : gmap string nat).
    rewrite lookup_empty.
    unfold inherited, plain_key in *.
    destruct (is_member seg).
    - cbn [_emit]. eexists. reflexivity.
    - cbn [negb andb] in Hseg. apply negb_false_iff in Hseg. rewrite Hseg.
      eexists. reflexivity. }
  destruct Hwalk as [c ->]. destruct c; reflexivity.
Qed.

(** X3: on a new emitter with [H1] and then [H2] registered on ["a.**"],
    [emit] of any event below [a] whose segments are plain applies [H2]
    and then [H1] and nothing else, and [emitAsyncSequential] of the same
    event applies [H1] and then [H2] and nothing else.  The handlers are
    inert functions, so each lets the next one run. *)
Theorem below_bucket_order_on_new_emitter id1 id2 params event seg more :
  inert behaviour id1 -> inert behaviour id2 ->
  split event "." = "a" :: seg :: more ->
  plain (seg :: more) ->
  let H1 := VUser id1 in
  let H2 := VUser id2 in
  let s := (on (Name "a.**") H2 (registered "a.**" H1)).2 in
  calls (emit behaviour event params s).2 = [(H2, params); (H1, params)]
  /\ calls (emitAsyncSequential behaviour event params s).2
     = [(H1, params); (H2, params)].
Proof.
  intros Hi1 Hi2 Hs Hp H1 H2 s. subst H1 H2. split.
  - rewrite (emit_inert event params s _ [VUser id2; VUser id1] Hs Hp);
      [vm_compute; reflexivity | destruct more; vm_compute; reflexivity
      | inert_list].
  - rewrite (emitAsyncSequential_inert event params s _
               [VUser id1; VUser id2] Hs Hp);
      [vm_compute; reflexivity | destruct more; vm_compute; reflexivity
      | inert_list].
Qed.

(** C5, where the code departs from it: after [once("a.**", h)] the
    closure [process] sits in the [allBelow] bucket and in the [handlers]
    bucket of [a].  [emit("a")] applies it from [handlers]; its
    [off("a.**", process)] only looks at [allBelow], so the second
    [emit("a")] applies [process], and with it [h], again.  Here [h] does
    nothing but return. *)
Theorem once_on_double_wildcard_fires_again p1 p2 :
  let h := VUser 0 in
  let process := VProcess 0 (Name "a.**") h in
  let s := (once (Name "a.**") h (initial no_options)).2 in
  let s1 := (emit returning "a" p1 s).2 in
  let s2 := (emit returning "a" p2 s1).2 in
  bucket (world s) 3 = [process] /\ bucket (world s) 4 = [process]
  /\ calls s1 = [(process, p1); (h, p1)]
  /\ bucket (world s1) 3 = [process] /\ bucket (world s1) 4 = []
  /\ calls s2 = [(process, p1); (h, p1); (process, p2); (h, p2)].
Proof.
  intros h process s s1 s2. vm_compute. repeat apply conj; reflexivity.
Qed.

(** C6, where the code departs from it: on a new emitter the root has no
    wildcard entry, and [off("*", handler)] creates one (with its two
    arrays) through [getAll], for every [handler]. *)
Theorem off_creates_wildcard_entry handler :
  let s := initial no_options in
  let s' := (off (Name "*") handler s).2 in
  (_all <$> entries (world s) !! 2) = Some None
  /\ entries (world s) !! 5 = None
  /\ (_all <$> entries (world s') !! 2) = Some (Some 5)
  /\ entries (world s') !! 5
     = Some {| children := ∅; handlers := 3; allBelow := 4; _all := None |}
  /\ next (world s) = 3 /\ next (world s') = 6.
Proof.
  intros s s'. subst s s'.
  destruct handler; vm_compute; repeat apply conj; reflexivity.
Qed.

(** On a new emitter, [once("a", handler)] with a falsy [handler] puts
    the closure [process] in the bucket at location 3, whereas
    [on("a", handler)] does nothing; [emit("a")] then applies [process],
    which takes itself out of the bucket and throws a [TypeError] when it
    applies [handler]. *)
Lemma once_falsy_handler_trace handler params :
  truthy handler = false ->
  let process := VProcess 0 (Name "a") handler in
  let s := (once (Name "a") handler (initial no_options)).2 in
  (on (Name "a") handler (initial no_options)).2 = initial no_options
  /\ locate (world s) ["a"] (_events (world s)) = Some 5
  /\ (handlers <$> entries (world s) !! 5) = Some 3
  /\ bucket (world s) 3 = [process]
  /\ (emit behaviour "a" params s).1 = Throw TypeError
  /\ calls (emit behaviour "a" params s).2 = [(process, params)]
  /\ bucket (world (emit behaviour "a" params s).2) 3 = [].
Proof.
  intros Hf process s. subst process s.
  destruct handler; try discriminate Hf; simpl in Hf.
  - vm_compute; repeat apply conj; reflexivity.
  - vm_compute; repeat apply conj; reflexivity.
  - subst b. vm_compute; repeat apply conj; reflexivity.
  - apply negb_false_iff, Z.eqb_eq in Hf. subst n.
    vm_compute; repeat apply conj; reflexivity.
  - apply negb_false_iff, String.eqb_eq in Hf. subst s.
    vm_compute; repeat apply conj; reflexivity.
Qed.

(** ** The sequential loop *)

Lemma await_each_rejected params collected s reason s' :
  await_each behaviour collected params s = (Return (Rejected reason), s')
  <-> exists done handler rest s1,
        collected = done ++ handler :: rest
        /\ applied_in_order behaviour params done s s1
        /\ rejects_with behaviour handler params s1 reason s'.
Proof.
  revert s. induction collected as [|h l IH]; intros s.
  - split.
    + intros H. discriminate H.
    + intros (done & handler & rest & s1 & E & _). destruct done; discriminate E.
  - cbn [await_each]. rewrite bind_eq. unfold catch.
    destruct (fn_apply behaviour h params s) as [[r|e] s1] eqn:Eh.
    + destruct (fulfils r) eqn:Fr.
      * assert (E : (match r with
                     | VRejected e => mret (Rejected e)
                     | VPending => mret Pending
                     | _ => await_each behaviour l params
                     end) s1 = await_each behaviour l params s1)
          by (destruct r; try discriminate Fr; reflexivity).
        rewrite E, IH. split.
        -- intros (done & handler & rest & s2 & -> & Ha & Hr).
           exists (h :: done), handler, rest, s2.
           split; [reflexivity|]. split; [|exact Hr].
           econstructor; eassumption.
        -- intros (done & handler & rest & s2 & El & Ha & Hr).
           destruct done as [|h' done].
           ++ simpl in El. injection El as <- <-. inversion Ha; subst.
              destruct Hr as [Hr|Hr]; rewrite Eh in Hr;
                [discriminate Hr | inversion Hr; subst; discriminate Fr].
           ++ simpl in El. injection El as <- ->.
              inversion Ha as [|? ? ? r' s1' ? Hh Hf Hrest]; subst.
              rewrite Eh in Hh. injection Hh as <- <-.
              exists done, handler, rest, s2. auto.
      * destruct r; try discriminate Fr.
        -- split.
           ++ intros H. injection H as <- <-.
              exists [], h, l, s. split; [reflexivity|].
              split; [constructor | right; exact Eh].
           ++ intros (done & handler & rest & s2 & El & Ha & Hr).
              destruct done as [|h' done].
              ** simpl in El. injection El as <- <-. inversion Ha; subst.
                 destruct Hr as [Hr|Hr]; rewrite Eh in Hr;
                   [discriminate Hr | inversion Hr; subst; reflexivity].
              ** simpl in El. injection El as <- ->.
                 inversion Ha as [|? ? ? r' s1' ? Hh Hf Hrest]; subst.
                 rewrite Eh in Hh. injection Hh as <- <-. discriminate Hf.
        -- split.
           ++ intros H. discriminate H.
           ++ intros (done & handler & rest & s2 & El & Ha & Hr).
              destruct done as [|h' done].
              ** simpl in El. injection El as <- <-. inversion Ha; subst.
                 destruct Hr as [Hr|Hr]; rewrite Eh in Hr; discriminate Hr.
              ** simpl in El. injection El as <- ->.
                 inversion Ha as [|? ? ? r' s1' ? Hh Hf Hrest]; subst.
                 rewrite Eh in Hh. injection Hh as <- <-. discriminate Hf.
    + split.
      * intros H. injection H as <- <-.
        exists [], h, l, s. split; [reflexivity|].
        split; [constructor | left; exact Eh].
      * intros (done & handler & rest & s2 & El & Ha & Hr).
        destruct done as [|h' done].
        -- simpl in El. injection El as <- <-. inversion Ha; subst.
           destruct Hr as [Hr|Hr]; rewrite Eh in Hr;
             [inversion Hr; subst; reflexivity | discriminate Hr].
        -- simpl in El. injection El as <- ->.
           inversion Ha as [|? ? ? r' s1' ? Hh Hf Hrest]; subst.
           rewrite Eh in Hh. discriminate Hh.
Qed.

Lemma await_each_resolved params collected s result s' :
  await_each behaviour collected params s = (Return (Resolved result), s')
  <-> result = params /\ applied_in_order behaviour params collected s s'.
Proof.
  revert s. induction collected as [|h l IH]; intros s.
  - simpl. split.
    + intros H. injection H as <- <-. split; [reflexivity | constructor].
    + intros [-> Ha]. inversion Ha; subst. reflexivity.
  - cbn [await_each]. rewrite bind_eq. unfold catch.
    destruct (fn_apply behaviour h params s) as [[r|e] s1] eqn:Eh.
    + destruct (fulfils r) eqn:Fr.
      * assert (E : (match r with
                     | VRejected e => mret (Rejected e)
                     | VPending => mret Pending
                     | _ => await_each behaviour l params
                     end) s1 = await_each behaviour l params s1)
          by (destruct r; try discriminate Fr; reflexivity).
        rewrite E, IH. split.
        -- intros [-> Ha]. split; [reflexivity|]. econstructor; eassumption.
        -- intros [-> Ha]. split; [reflexivity|].
           inversion Ha as [|? ? ? r' s1' ? Hh Hf Hrest]; subst.
           rewrite Eh in Hh. injection Hh as <- <-. exact Hrest.
      * split.
        -- intros H. destruct r; try discriminate Fr; discriminate H.
        -- intros [-> Ha].
           inversion Ha as [|? ? ? r' s1' ? Hh Hf Hrest]; subst.
           rewrite Eh in Hh. injection Hh as <- <-.
           rewrite Fr in Hf. discriminate Hf.
    + split.
      * intros H. discriminate H.
      * intros [-> Ha].
        inversion Ha as [|? ? ? r' s1' ? Hh Hf Hrest]; subst.
        rewrite Eh in Hh. discriminate Hh.
Qed.

(** C7: [emitAsyncSequential] applies the collected handlers one at a
    time in the order of the list.  It rejects with [reason] exactly when
    some handler of the list rejects with it after all the handlers before
    it were applied in order and fulfilled, and the state it ends in is
    the state in which that handler ended: nothing after it in the list is
    applied.  It resolves, with the parameters, exactly when every handler
    of the list was applied in order and fulfilled. *)
Theorem sequential_rejection_aborts event params s collected s0 :
  collect event s = (Return collected, s0) ->
  (forall reason s',
     emitAsyncSequential behaviour event params s
     = (Return (Rejected reason), s')
     <-> exists done handler rest s1,
           collected = done ++ handler :: rest
           /\ applied_in_order behaviour params done s0 s1
           /\ rejects_with behaviour handler params s1 reason s')
  /\ (forall result s',
       emitAsyncSequential behaviour event params s
       = (Return (Resolved result), s')
       <-> result = params
           /\ applied_in_order behaviour params collected s0 s').
Proof.
  intros Hc. split; intros; rewrite emitAsyncSequential_eq, Hc.
  - apply await_each_rejected.
  - apply await_each_resolved.
Qed.

(** ** The keys of [children] *)

Lemma hoare_bind {A B} (P : State -> Prop) (Q : A -> State -> Prop)
    (Q' : B -> State -> Prop) (R : State -> Prop) (m : M A) (f : A -> M B) :
  hoare P m Q R -> (forall a, hoare (Q a) (f a) Q' R) ->
  hoare P (m ≫= f) Q' R.
Proof.
  intros Hm Hf s HP. rewrite bind_eq. specialize (Hm s HP).
  destruct (m s) as [[a|e] s1]; [apply Hf; exact Hm | exact Hm].
Qed.

Lemma hoare_conseq {A} (P P' : State -> Prop) (Q Q' : A -> State -> Prop)
    (R R' : State -> Prop) (m : M A) :
  hoare P m Q R ->
  (forall s, P' s -> P s) -> (forall a s, Q a s -> Q' a s) ->
  (forall s, R s -> R' s) ->
  hoare P' m Q' R'.
Proof.
  intros Hm HP HQ HR s Hs. specialize (Hm s (HP s Hs)).
  destruct (m s) as [[a|e] s1]; auto.
Qed.

Lemma keeps_bind {A B} (I : State -> Prop) (m : M A) (f : A -> M B) :
  keeps I m -> (forall a, keeps I (f a)) -> keeps I (m ≫= f).
Proof. intros Hm Hf. eapply hoare_bind; [exact Hm | exact Hf]. Qed.

Lemma keeps_ret {A} (I : State -> Prop) (a : A) : keeps I (mret a).
Proof. intros s Hs. exact Hs. Qed.

Lemma keeps_throw {A} (I : State -> Prop) (e : value) :
  keeps I (throw e : M A).
Proof. intros s Hs. exact Hs. Qed.

Lemma keeps_child_of (I : State -> Prop) e key : keeps I (child_of e key).
Proof. intros s Hs. exact Hs. Qed.

Lemma keeps_read_alien_below (I : State -> Prop) scan :
  keeps I (read_alien_below scan).
Proof.
  intros s Hs. unfold read_alien_below. rewrite bind_eq. cbn [get_world].
  destruct (alien_below (world s) scan); exact Hs.
Qed.

Lemma hoare_read_entry (P : State -> Prop) n :
  hoare P (read_entry n)
        (fun e s => P s /\ entries (world s) !! n = Some e) P.
Proof.
  intros s Hs. unfold read_entry. rewrite bind_eq. simpl.
  destruct (entries (world s) !! n) as [e|] eqn:He; simpl; auto.
Qed.

Lemma keeps_read_array (I : State -> Prop) a : keeps I (read_array a).
Proof.
  intros s Hs. unfold read_array. rewrite bind_eq. simpl.
  destruct (arrays (world s) !! a); simpl; auto.
Qed.

Lemma keeps_forEach {A} (I : State -> Prop) (f : A -> M unit) l :
  (forall x, keeps I (f x)) -> keeps I (forEach f l).
Proof.
  intros Hf. induction l as [|x l IH]; [apply keeps_ret|].
  cbn [forEach]. apply keeps_bind; [apply Hf | intros; exact IH].
Qed.

Section Tokens.

Variables wc dw : string.

Let I := tokens_kept wc dw.

Lemma keeps_write_array a l : keeps I (write_array a l).
Proof. intros s Hs. exact Hs. Qed.

Lemma keeps_new_array l : keeps I (new_array l).
Proof. intros s Hs. exact Hs. Qed.

Lemma keeps_write_alien_below scan b : keeps I (write_alien_below scan b).
Proof. intros s Hs. destruct scan; exact Hs. Qed.

Lemma keeps_write_entry n e :
  children e !! wc = None -> children e !! dw = None ->
  keeps I (write_entry n e).
Proof.
  intros H1 H2 s (Hw & Hd & Hk). split; [exact Hw|]. split; [exact Hd|].
  simpl. intros n' e' He'.
  destruct (decide (n = n')) as [->|Hne].
  - rewrite lookup_insert_eq in He'. injection He' as <-. auto.
  - rewrite lookup_insert_ne in He' by exact Hne. eauto.
Qed.

Lemma keeps_new_EventEntry : keeps I new_EventEntry.
Proof.
  intros s (Hw & Hd & Hk). split; [exact Hw|]. split; [exact Hd|].
  simpl. intros n' e' He'.
  match type of He' with <[?k := _]> _ !! _ = _ =>
    destruct (decide (k = n')) as [E|Hne] end.
  - rewrite E, lookup_insert_eq in He'. injection He' as <-.
    simpl. split; apply lookup_empty.
  - rewrite lookup_insert_ne in He' by exact Hne. eauto.
Qed.

Lemma hoare_assume {A} (phi : Prop) (P : State -> Prop) (m : M A)
    (Q : A -> State -> Prop) (R : State -> Prop) :
  (phi -> hoare P m Q R) -> hoare (fun s => P s /\ phi) m Q R.
Proof. intros H s [Hs Hphi]. apply H; assumption. Qed.

Lemma read_entry_keys n :
  hoare I (read_entry n)
        (fun e s => I s /\ (children e !! wc = None /\ children e !! dw = None))
        I.
Proof.
  eapply hoare_conseq; [apply (hoare_read_entry I n) | | | ]; auto.
  intros e s [Hs He]. split; [exact Hs|].
  destruct Hs as (_ & _ & Hk). eauto.
Qed.

Lemma get_world_tokens :
  hoare I get_world
        (fun w s => I s /\ (wildcard w = wc /\ doubleWild w = dw)) I.
Proof. intros s Hs. simpl. split; [exact Hs|]. destruct Hs as (? & ? & _); auto. Qed.

Lemma keeps_getChild n key :
  key <> wc -> key <> dw -> keeps I (getChild n key).
Proof.
  intros Hwc Hdw. unfold getChild.
  eapply hoare_bind; [apply read_entry_keys|].
  intros e. apply hoare_assume. intros [H1 H2].
  apply keeps_bind; [apply keeps_child_of|].
  intros [child|]; [apply keeps_ret|].
  apply keeps_bind; [apply keeps_new_EventEntry|]. intros result.
  apply keeps_bind; [|intros; apply keeps_ret].
  apply keeps_write_entry; simpl; rewrite lookup_insert_ne; auto.
Qed.

Lemma keeps_getExisting n key : keeps I (getExisting n key).
Proof.
  unfold getExisting. eapply hoare_bind; [apply read_entry_keys|].
  intros e s [Hs _]. exact Hs.
Qed.


Lemma keeps_getAll n : keeps I (getAll n).
Proof.
  unfold getAll. eapply hoare_bind; [apply read_entry_keys|].
  intros e. apply hoare_assume. intros [H1 H2].
  destruct (_all e) as [a|]; [apply keeps_ret|].
  apply keeps_bind; [apply keeps_new_EventEntry|]. intros a.
  apply keeps_bind; [|intros; apply keeps_ret].
  apply keeps_write_entry; assumption.
Qed.

Lemma keeps_push a x : keeps I (push a x).
Proof.
  unfold push. apply keeps_bind; [apply keeps_read_array|].
  intros l. apply keeps_write_array.
Qed.

Lemma keeps_splice1 a idx : keeps I (splice1 a idx).
Proof.
  unfold splice1. apply keeps_bind; [apply keeps_read_array|].
  intros l. apply keeps_write_array.
Qed.

Lemma keeps_stored hook b : keeps I (stored hook b).
Proof.
  destruct hook as [[f|f]|]; simpl.
  - apply keeps_bind; [apply keeps_read_array|]. intros l.
    apply keeps_bind; [apply keeps_write_array|]. intros; apply keeps_ret.
  - apply keeps_bind; [apply keeps_read_array|]. intros l.
    apply keeps_new_array.
  - apply keeps_ret.
Qed.

Lemma keeps_on_loop hook parts scan handler :
  keeps I (on_loop wc dw hook parts scan handler).
Proof.
  revert scan. induction parts as [|part rest IH]; intros scan.
  - apply keeps_ret.
  - cbn [on_loop]. destruct (decide (part = wc)) as [Hw|Hw].
    + destruct scan as [n|key|a]; try apply keeps_throw.
      apply keeps_bind; [apply keeps_getAll | intros; apply IH].
    + destruct (decide (part = dw)) as [Hd|Hd].
      * assert (Halien : forall scan : node,
                  keeps I (below ← read_alien_below scan;
                           push below handler;;
                           below' ← read_alien_below scan;
                           b ← stored hook below';
                           write_alien_below scan b;;
                           on_loop wc dw hook rest scan handler)).
        { intros scan'.
          apply keeps_bind; [apply keeps_read_alien_below|]. intros below.
          apply keeps_bind; [apply keeps_push|]. intros _.
          apply keeps_bind; [apply keeps_read_alien_below|]. intros below'.
          apply keeps_bind; [apply keeps_stored|]. intros b.
          apply keeps_bind; [apply keeps_write_alien_below|].
          intros; apply IH. }
        destruct scan as [n|key|a]; try apply Halien.
        eapply hoare_bind; [apply read_entry_keys|].
        intros e. apply hoare_assume. intros _.
        apply keeps_bind; [apply keeps_push|]. intros _.
        apply keeps_bind; [apply keeps_stored|]. intros b.
        eapply hoare_bind; [apply read_entry_keys|].
        intros e'. apply hoare_assume. intros [H1 H2].
        apply keeps_bind; [apply keeps_write_entry; assumption|].
        intros; apply IH.
      * destruct scan as [n|key|a]; try apply keeps_throw.
        apply keeps_bind; [apply keeps_getChild; assumption | intros; apply IH].
Qed.

Lemma keeps_on_name name handler : keeps I (on_name name handler).
Proof.
  unfold on_name. destruct (negb (truthy handler)); [apply keeps_ret|].
  eapply hoare_bind; [apply get_world_tokens|].
  intros w. apply hoare_assume. intros [-> ->].
  apply keeps_bind; [apply keeps_on_loop|].
  intros [scan|key|a]; try apply keeps_throw.
  eapply hoare_bind; [apply read_entry_keys|].
  intros e. apply hoare_assume. intros _.
  apply keeps_bind; [apply keeps_push|]. intros _.
  apply keeps_bind; [apply keeps_stored|]. intros h.
  eapply hoare_bind; [apply read_entry_keys|].
  intros e'. apply hoare_assume. intros [H1 H2].
  apply keeps_write_entry; assumption.
Qed.

Lemma keeps_on name handler : keeps I (on name handler).
Proof.
  unfold on. destruct (negb (truthy handler)); [apply keeps_ret|].
  destruct name as [name|names]; [apply keeps_on_name|].
  apply keeps_forEach. intros; apply keeps_on_name.
Qed.

Lemma keeps_once name handler : keeps I (once name handler).
Proof.
  intros s Hs. unfold once. rewrite bind_eq. cbn [get_world].
  rewrite bind_eq. cbn [put_world].
  match goal with |- context [on name ?p ≫= ?f] =>
    apply (keeps_bind I (on name p) f)
  end; [apply keeps_on | intros; apply keeps_ret | exact Hs].
Qed.

Lemma keeps_removeAllListeners : keeps I removeAllListeners.
Proof.
  unfold removeAllListeners.
  apply keeps_bind; [apply keeps_new_EventEntry|].
  intros root s Hs. exact Hs.
Qed.

Lemma keeps_remove_from a handler :
  keeps I (l ← read_array a;
           match indexOf l handler with
           | None => mret ()
           | Some idx => splice1 a idx
           end).
Proof.
  apply keeps_bind; [apply keeps_read_array|]. intros l.
  destruct (indexOf l handler); [apply keeps_splice1 | apply keeps_ret].
Qed.

Lemma keeps_off_loop parts scan handler :
  keeps I (off_loop wc dw parts scan handler).
Proof.
  revert scan. induction parts as [|part rest IH]; intros [scan|];
    try apply keeps_ret.
  - cbn [off_loop]. destruct scan as [n|key|a]; try apply keeps_throw.
    destruct (decide (handler = VUndefined)) as [Hu|Hu].
    + eapply hoare_bind; [apply read_entry_keys|].
      intros e. apply hoare_assume. intros _. apply keeps_write_array.
    + eapply hoare_bind; [apply read_entry_keys|].
      intros e. apply hoare_assume. intros _. apply keeps_remove_from.
  - cbn [off_loop]. destruct (decide (part = wc)) as [Hw|Hw].
    + destruct scan as [n|key|a]; try apply keeps_throw.
      apply keeps_bind; [apply keeps_getAll | intros; apply IH].
    + destruct (decide (part = dw)) as [Hd|Hd].
      * destruct (decide (handler = VUndefined)) as [Hu|Hu].
        -- apply keeps_bind; [apply keeps_new_array|]. intros b.
           destruct scan as [n|key|a]; try apply keeps_write_alien_below.
           eapply hoare_bind; [apply read_entry_keys|].
           intros e. apply hoare_assume. intros [H1 H2].
           apply keeps_write_entry; assumption.
        -- destruct scan as [n|key|a];
             try (apply keeps_bind; [apply keeps_read_alien_below|];
                  intros below; apply keeps_remove_from).
           eapply hoare_bind; [apply read_entry_keys|].
           intros e. apply hoare_assume. intros _. apply keeps_remove_from.
      * destruct scan as [n|key|a]; try apply keeps_throw.
        apply keeps_bind; [apply keeps_getExisting | intros; apply IH].
Qed.

Lemma keeps_off_name name handler : keeps I (off_name name handler).
Proof.
  unfold off_name. eapply hoare_bind; [apply get_world_tokens|].
  intros w. apply hoare_assume. intros [-> ->]. apply keeps_off_loop.
Qed.

Lemma keeps_off name handler : keeps I (off name handler).
Proof.
  destruct name as [name|names]; [apply keeps_off_name|].
  apply keeps_forEach. intros; apply keeps_off_name.
Qed.

End Tokens.

Lemma tokens_kept_iff s :
  no_wildcard_keys (world s)
  <-> tokens_kept (wildcard (world s)) (doubleWild (world s)) s.
Proof.
  split.
  - intros H. split; [reflexivity|]. split; [reflexivity|exact H].
  - intros (_ & _ & H). exact H.
Qed.

Lemma keeps_no_wildcard_keys {A} (m : M A) s :
  (forall wc dw, keeps (tokens_kept wc dw) m) ->
  no_wildcard_keys (world s) ->
  no_wildcard_keys (world (m s).2)
  /\ wildcard (world (m s).2) = wildcard (world s)
  /\ doubleWild (world (m s).2) = doubleWild (world s).
Proof.
  intros Hm Hs. apply tokens_kept_iff in Hs.
  specialize (Hm _ _ s Hs).
  assert (H : tokens_kept (wildcard (world s)) (doubleWild (world s)) (m s).2)
    by (destruct (m s) as [[a|e] s']; exact Hm).
  destruct H as (Hw & Hd & Hk). split; [|split; assumption].
  intros n e He. rewrite Hw, Hd. exact (Hk n e He).
Qed.

(** C8: no [children] map of a new emitter has the wildcard token or the
    double wildcard token as a key, and [on], [once], [off] and
    [removeAllListeners] keep it so, whatever their arguments and whether
    they return or throw; they also leave the two tokens as they are. *)
Theorem children_never_hold_wildcard_tokens s :
  no_wildcard_keys (world s) ->
  let kept (s' : State) :=
    no_wildcard_keys (world s')
    /\ wildcard (world s') = wildcard (world s)
    /\ doubleWild (world s') = doubleWild (world s) in
  (forall props, no_wildcard_keys (constructor props))
  /\ (forall name handler, kept (on name handler s).2)
  /\ (forall name handler, kept (once name handler s).2)
  /\ (forall name handler, kept (off name handler s).2)
  /\ kept (removeAllListeners s).2.
Proof.
  intros Hs kept. subst kept. cbv beta. split.
  - intros props n e He. simpl in He.
    apply lookup_singleton_Some in He as [_ <-]. simpl.
    split; apply lookup_empty.
  - split; [|split; [|split]]; intros.
    + apply keeps_no_wildcard_keys; [intros; apply keeps_on | exact Hs].
    + apply keeps_no_wildcard_keys; [intros; apply keeps_once | exact Hs].
    + apply keeps_no_wildcard_keys; [intros; apply keeps_off | exact Hs].
    + apply keeps_no_wildcard_keys;
        [intros; apply keeps_removeAllListeners | exact Hs].
Qed.

(** ** Well-formed stores *)

Lemma write_entry_eq s n e :
  write_entry n e s = (Return tt, in_world (with_entry n e (world s)) s).
Proof. reflexivity. Qed.

Lemma write_array_eq s a l :
  write_array a l s = (Return tt, in_world (with_array a l (world s)) s).
Proof. reflexivity. Qed.

Lemma new_EventEntry_eq s :
  new_EventEntry s
  = (Return (S (S (next (world s)))), in_world (with_new_entry (world s)) s).
Proof. reflexivity. Qed.

Lemma ext_refl w : ext w w.
Proof.
  split; try reflexivity.
  - intros n e He. exists e. auto.
  - intros a l Hl. exists []. rewrite app_nil_r. exact Hl.
Qed.

Lemma ext_trans w1 w2 w3 : ext w1 w2 -> ext w2 w3 -> ext w1 w3.
Proof.
  intros H12 H23. split.
  - rewrite (ext_delimiter _ _ H23). apply H12.
  - rewrite (ext_wildcard _ _ H23). apply H12.
  - rewrite (ext_doubleWild _ _ H23). apply H12.
  - rewrite (ext_events _ _ H23). apply H12.
  - rewrite (ext_storeHandlers _ _ H23). apply H12.
  - intros n e He.
    destruct (ext_entries _ _ H12 n e He) as (e2 & He2 & Hh2 & Hb2 & Hc2 & Ha2).
    destruct (ext_entries _ _ H23 n e2 He2) as (e3 & He3 & Hh3 & Hb3 & Hc3 & Ha3).
    exists e3. split; [exact He3|]. split; [congruence|]. split; [congruence|].
    split; auto.
  - intros a l Hl.
    destruct (ext_arrays _ _ H12 a l Hl) as (l2 & Hl2).
    destruct (ext_arrays _ _ H23 a _ Hl2) as (l3 & Hl3).
    exists (l2 ++ l3). rewrite app_assoc. exact Hl3.
Qed.

Lemma wf_with_array w a l :
  wf w -> is_Some (arrays w !! a) -> wf (with_array a l w).
Proof.
  intros Hwf Ha. split; simpl.
  - apply Hwf.
  - intros n e He. destruct (decide (a = handlers e)) as [->|Hne].
    + rewrite lookup_insert_eq. eauto.
    + rewrite lookup_insert_ne by exact Hne. eapply wf_handlers; eassumption.
  - intros n e He. destruct (decide (a = allBelow e)) as [->|Hne].
    + rewrite lookup_insert_eq. eauto.
    + rewrite lookup_insert_ne by exact Hne. eapply wf_allBelow; eassumption.
  - apply Hwf.
  - apply Hwf.
  - apply Hwf.
  - apply Hwf.
  - intros a' Ha'. destruct (decide (a = a')) as [<-|Hne].
    + apply (wf_arrays_next _ Hwf). exact Ha.
    + rewrite lookup_insert_ne in Ha' by exact Hne.
      apply (wf_arrays_next _ Hwf). exact Ha'.
Qed.

Lemma ext_with_array w a l x :
  arrays w !! a = Some l -> ext w (with_array a (l ++ x) w).
Proof.
  intros Hl. split; try reflexivity; simpl.
  - intros n e He. exists e. auto.
  - intros a' l' Hl'. destruct (decide (a = a')) as [<-|Hne].
    + rewrite lookup_insert_eq. exists x. congruence.
    + rewrite lookup_insert_ne by exact Hne. exists [].
      rewrite app_nil_r. exact Hl'.
Qed.

Lemma wf_with_new_entry w : wf w -> wf (with_new_entry w).
Proof.
  intros Hwf.
  assert (Hfe : forall n, is_Some (entries w !! n) -> n < next w)
    by apply Hwf.
  assert (Hfa : forall a, is_Some (arrays w !! a) -> a < next w)
    by apply Hwf.
  assert (Hold : forall a, is_Some (arrays w !! a) ->
            is_Some ((<[S (next w) := []]> (<[next w := []]> (arrays w)))
                       !! a)).
  { intros a Ha. specialize (Hfa a Ha).
    rewrite !lookup_insert_ne by lia. exact Ha. }
  assert (Hnew : forall n e,
            (<[S (S (next w)) :=
                 {| children := ∅; handlers := next w; allBelow := S (next w);
                    _all := None |}]> (entries w)) !! n = Some e ->
            (n = S (S (next w))
             /\ e = {| children := ∅; handlers := next w;
                       allBelow := S (next w); _all := None |})
            \/ (n <> S (S (next w)) /\ entries w !! n = Some e)).
  { intros n e He. destruct (decide (S (S (next w)) = n)) as [<-|Hne].
    - rewrite lookup_insert_eq in He. injection He as <-. left. auto.
    - rewrite lookup_insert_ne in He by exact Hne. right. auto. }
  assert (Hkeep : forall n, is_Some (entries w !! n) ->
            is_Some ((<[S (S (next w)) :=
                 {| children := ∅; handlers := next w; allBelow := S (next w);
                    _all := None |}]> (entries w)) !! n)).
  { intros n Hn. specialize (Hfe n Hn).
    rewrite lookup_insert_ne by lia. exact Hn. }
  split; simpl.
  - apply Hkeep. apply Hwf.
  - intros n e He. destruct (Hnew n e He) as [[-> ->]|[_ Hn]]; simpl.
    + rewrite lookup_insert_ne by lia. rewrite lookup_insert_eq. eauto.
    + apply Hold. eapply wf_handlers; eassumption.
  - intros n e He. destruct (Hnew n e He) as [[-> ->]|[_ Hn]]; simpl.
    + rewrite lookup_insert_eq. eauto.
    + apply Hold. eapply wf_allBelow; eassumption.
  - intros n e k c He Hc. destruct (Hnew n e He) as [[-> ->]|[_ Hn]].
    + simpl in Hc. rewrite lookup_empty in Hc. discriminate Hc.
    + apply Hkeep. eapply wf_children; eassumption.
  - intros n e a He Ha. destruct (Hnew n e He) as [[-> ->]|[_ Hn]].
    + discriminate Ha.
    + apply Hkeep. eapply wf_all; eassumption.
  - intros n e He. destruct (Hnew n e He) as [[-> ->]|[_ Hn]]; simpl.
    + lia.
    + eapply wf_buckets; eassumption.
  - intros n [e He]. destruct (Hnew n e He) as [[-> ->]|[_ Hn]].
    + lia.
    + assert (n < next w) by (apply Hfe; eauto). lia.
  - intros a Ha.
    destruct (decide (S (next w) = a)) as [<-|Hne1]; [lia|].
    rewrite lookup_insert_ne in Ha by exact Hne1.
    destruct (decide (next w = a)) as [<-|Hne2]; [lia|].
    rewrite lookup_insert_ne in Ha by exact Hne2.
    specialize (Hfa a Ha). lia.
Qed.

Lemma ext_with_new_entry w : wf w -> ext w (with_new_entry w).
Proof.
  intros Hwf. split; try reflexivity; simpl.
  - intros n e He. exists e.
    assert (n < next w) by (apply (wf_entries_next _ Hwf); eauto).
    rewrite lookup_insert_ne by lia. auto.
  - intros a l Hl. exists [].
    assert (a < next w) by (apply (wf_arrays_next _ Hwf); eauto).
    rewrite !lookup_insert_ne by lia. rewrite app_nil_r. exact Hl.
Qed.

Lemma wf_with_entry w n e e' :
  wf w -> entries w !! n = Some e ->
  handlers e' = handlers e -> allBelow e' = allBelow e ->
  (forall k c, children e' !! k = Some c -> is_Some (entries w !! c)) ->
  (forall a, _all e' = Some a -> is_Some (entries w !! a)) ->
  wf (with_entry n e' w).
Proof.
  intros Hwf He Hh Hb Hc Ha.
  assert (Hkeep : forall m, is_Some (entries w !! m) ->
            is_Some (<[n := e']> (entries w) !! m)).
  { intros m Hm. destruct (decide (n = m)) as [<-|Hne].
    - rewrite lookup_insert_eq. eauto.
    - rewrite lookup_insert_ne by exact Hne. exact Hm. }
  assert (Hcase : forall m x, <[n := e']> (entries w) !! m = Some x ->
            (m = n /\ x = e') \/ entries w !! m = Some x).
  { intros m x Hx. destruct (decide (n = m)) as [<-|Hne].
    - rewrite lookup_insert_eq in Hx. injection Hx as <-. left. auto.
    - rewrite lookup_insert_ne in Hx by exact Hne. right. exact Hx. }
  split; simpl.
  - apply Hkeep. apply Hwf.
  - intros m x Hx. destruct (Hcase m x Hx) as [[-> ->]|Hm].
    + rewrite Hh. eapply wf_handlers; eassumption.
    + eapply wf_handlers; eassumption.
  - intros m x Hx. destruct (Hcase m x Hx) as [[-> ->]|Hm].
    + rewrite Hb. eapply wf_allBelow; eassumption.
    + eapply wf_allBelow; eassumption.
  - intros m x k c Hx Hk. apply Hkeep.
    destruct (Hcase m x Hx) as [[-> ->]|Hm].
    + eapply Hc; eassumption.
    + eapply wf_children; eassumption.
  - intros m x a Hx Hxa. apply Hkeep.
    destruct (Hcase m x Hx) as [[-> ->]|Hm].
    + eapply Ha; eassumption.
    + eapply wf_all; eassumption.
  - intros m x Hx. destruct (Hcase m x Hx) as [[-> ->]|Hm].
    + rewrite Hh, Hb. eapply wf_buckets; eassumption.
    + eapply wf_buckets; eassumption.
  - intros m [x Hx]. destruct (Hcase m x Hx) as [[-> ->]|Hm];
      apply (wf_entries_next _ Hwf); eauto.
  - apply Hwf.
Qed.

Lemma ext_with_entry w n e e' :
  entries w !! n = Some e ->
  handlers e' = handlers e -> allBelow e' = allBelow e ->
  (forall k c, children e !! k = Some c -> children e' !! k = Some c) ->
  (forall a, _all e = Some a -> _all e' = Some a) ->
  ext w (with_entry n e' w).
Proof.
  intros He Hh Hb Hc Ha. split; try reflexivity; simpl.
  - intros m x Hx. destruct (decide (n = m)) as [<-|Hne].
    + rewrite lookup_insert_eq. exists e'.
      assert (x = e) by congruence. subst x. auto.
    + rewrite lookup_insert_ne by exact Hne. exists x. auto.
  - intros a l Hl. exists []. rewrite app_nil_r. exact Hl.
Qed.

Lemma push_eq s a x l :
  arrays (world s) !! a = Some l ->
  push a x s = (Return tt, in_world (with_array a (l ++ [x]) (world s)) s).
Proof.
  intros Hl. unfold push. rewrite bind_eq, (read_array_eq _ _ _ Hl).
  apply write_array_eq.
Qed.

Lemma getAll_spec s n :
  wf (world s) -> is_Some (entries (world s) !! n) ->
  exists a s',
    getAll n s = (Return a, s')
    /\ wf (world s') /\ ext (world s) (world s') /\ calls s' = calls s
    /\ is_Some (entries (world s') !! a)
    /\ exists e', entries (world s') !! n = Some e' /\ _all e' = Some a.
Proof.
  intros Hwf [e He]. unfold getAll. rewrite bind_eq, (read_entry_eq _ _ _ He).
  destruct (_all e) as [a|] eqn:Ha.
  - exists a, s. split; [reflexivity|]. split; [exact Hwf|].
    split; [apply ext_refl|]. split; [reflexivity|].
    split; [eapply wf_all; eassumption|]. eauto.
  - rewrite bind_eq, new_EventEntry_eq, bind_eq, write_entry_eq.
    set (w := world s) in *. set (a := S (S (next w))).
    assert (Hn : n < next w) by (apply (wf_entries_next _ Hwf); eauto).
    assert (He1 : entries (with_new_entry w) !! n = Some e).
    { simpl. rewrite lookup_insert_ne by lia. exact He. }
    assert (Ha1 : is_Some (entries (with_new_entry w) !! a)).
    { simpl. rewrite lookup_insert_eq. eauto. }
    eexists a, _. split; [reflexivity|]. simpl.
    split; [|split; [|split; [reflexivity|split]]].
    + eapply wf_with_entry; [apply wf_with_new_entry; exact Hwf | exact He1
                            | reflexivity | reflexivity | |].
      * intros k c Hc. simpl in Hc.
        destruct (wf_children _ Hwf n e k c He Hc) as [x Hx].
        assert (c < next w) by (apply (wf_entries_next _ Hwf); eauto).
        simpl. rewrite lookup_insert_ne by lia. eauto.
      * intros a' Ha'. simpl in Ha'. injection Ha' as <-. exact Ha1.
    + eapply ext_trans; [apply ext_with_new_entry; exact Hwf|].
      eapply ext_with_entry; [exact He1 | reflexivity | reflexivity | |].
      * intros k c Hc. exact Hc.
      * intros a' Ha'. congruence.
    + destruct (decide (n = a)) as [->|Hne].
      * rewrite lookup_insert_eq. eauto.
      * rewrite lookup_insert_ne by exact Hne. exact Ha1.
    + exists (set_all a e). rewrite lookup_insert_eq. auto.
Qed.

Lemma getChild_spec s n key :
  plain_key key = true ->
  wf (world s) -> is_Some (entries (world s) !! n) ->
  exists c s',
    getChild n key s = (Return (Entry c), s')
    /\ wf (world s') /\ ext (world s) (world s') /\ calls s' = calls s
    /\ is_Some (entries (world s') !! c)
    /\ exists e', entries (world s') !! n = Some e'
                  /\ children e' !! key = Some c.
Proof.
  intros Hkey Hwf [e He]. unfold getChild.
  rewrite bind_eq, (read_entry_eq _ _ _ He).
  rewrite bind_eq, (child_of_plain _ _ _ Hkey).
  destruct (children e !! key) as [c|] eqn:Hk;
    cbn [fmap option_fmap option_map].
  - exists c, s. split; [reflexivity|]. split; [exact Hwf|].
    split; [apply ext_refl|]. split; [reflexivity|].
    split; [eapply wf_children; eassumption|]. eauto.
  - rewrite bind_eq, new_EventEntry_eq, bind_eq, write_entry_eq.
    set (w := world s) in *. set (c := S (S (next w))).
    assert (Hn : n < next w) by (apply (wf_entries_next _ Hwf); eauto).
    assert (He1 : entries (with_new_entry w) !! n = Some e).
    { simpl. rewrite lookup_insert_ne by lia. exact He. }
    assert (Hc1 : is_Some (entries (with_new_entry w) !! c)).
    { simpl. rewrite lookup_insert_eq. eauto. }
    eexists c, _. split; [reflexivity|]. simpl.
    split; [|split; [|split; [reflexivity|split]]].
    + eapply wf_with_entry; [apply wf_with_new_entry; exact Hwf | exact He1
                            | reflexivity | reflexivity | |].
      * intros k c' Hc'. simpl in Hc'.
        destruct (decide (key = k)) as [<-|Hne].
        -- rewrite lookup_insert_eq in Hc'. injection Hc' as <-. exact Hc1.
        -- rewrite lookup_insert_ne in Hc' by exact Hne.
           destruct (wf_children _ Hwf n e k c' He Hc') as [x Hx].
           assert (c' < next w) by (apply (wf_entries_next _ Hwf); eauto).
           simpl. rewrite lookup_insert_ne by lia. eauto.
      * intros a' Ha'. simpl in Ha'.
        destruct (wf_all _ Hwf n e a' He Ha') as [x Hx].
        assert (a' < next w) by (apply (wf_entries_next _ Hwf); eauto).
        simpl. rewrite lookup_insert_ne by lia. eauto.
    + eapply ext_trans; [apply ext_with_new_entry; exact Hwf|].
      eapply ext_with_entry; [exact He1 | reflexivity | reflexivity | |].
      * intros k c' Hc'. simpl.
        destruct (decide (key = k)) as [<-|Hne]; [congruence|].
        rewrite lookup_insert_ne by exact Hne. exact Hc'.
      * intros a' Ha'. exact Ha'.
    + destruct (decide (n = c)) as [->|Hne].
      * rewrite lookup_insert_eq. eauto.
      * rewrite lookup_insert_ne by exact Hne. exact Hc1.
    + exists (set_children (<[key := c]> (children e)) e).
      rewrite lookup_insert_eq. split; [reflexivity|].
      simpl. apply lookup_insert_eq.
Qed.

(** [bucket.push(handler)] followed by the assignment of the bucket to
    itself, which is what is left of the two statements without a hook. *)
Lemma push_bucket_spec s n e (field : EventEntry -> loc)
    (set : loc -> EventEntry -> EventEntry) h :
  wf (world s) -> entries (world s) !! n = Some e ->
  (field = handlers /\ set = set_handlers)
  \/ (field = allBelow /\ set = set_allBelow) ->
  exists l s',
    (push (field e) h;;
     b ← stored None (field e);
     e' ← read_entry n;
     write_entry n (set b e')) s = (Return tt, s')
    /\ wf (world s') /\ ext (world s) (world s') /\ calls s' = calls s
    /\ arrays (world s) !! field e = Some l
    /\ arrays (world s') !! field e = Some (l ++ [h])
    /\ exists e', entries (world s') !! n = Some e'
                  /\ handlers e' = handlers e /\ allBelow e' = allBelow e.
Proof.
  intros Hwf He Hf.
  assert (Hl : is_Some (arrays (world s) !! field e)).
  { destruct Hf as [[-> _]|[-> _]];
      [eapply wf_handlers | eapply wf_allBelow]; eassumption. }
  destruct Hl as [l Hl]. exists l.
  rewrite bind_eq, (push_eq _ _ _ _ Hl). cbn [stored].
  rewrite bind_eq. unfold mret at 1, M_ret at 1.
  set (s1 := in_world (with_array (field e) (l ++ [h]) (world s)) s).
  assert (He1 : entries (world s1) !! n = Some e) by exact He.
  rewrite bind_eq, (read_entry_eq _ _ _ He1), write_entry_eq.
  assert (Hwf1 : wf (world s1))
    by (apply wf_with_array; [exact Hwf | eauto]).
  eexists. split; [reflexivity|]. simpl.
  assert (Hsame : handlers (set (field e) e) = handlers e
                  /\ allBelow (set (field e) e) = allBelow e
                  /\ children (set (field e) e) = children e
                  /\ _all (set (field e) e) = _all e).
  { destruct Hf as [[-> ->]|[-> ->]]; auto. }
  destruct Hsame as (Hsh & Hsb & Hsc & Hsa).
  split; [|split; [|split; [reflexivity|split; [exact Hl|split]]]].
  - eapply (wf_with_entry _ n e); [exact Hwf1 | exact He1 | exact Hsh
                                   | exact Hsb | |].
    + intros k c Hc. rewrite Hsc in Hc. eapply (wf_children _ Hwf1); eassumption.
    + intros a Ha. rewrite Hsa in Ha. eapply (wf_all _ Hwf1); eassumption.
  - eapply ext_trans; [apply (ext_with_array _ _ _ [h] Hl)|].
    eapply (ext_with_entry _ n e); [exact He1 | exact Hsh | exact Hsb | |].
    + intros k c Hc. rewrite Hsc. exact Hc.
    + intros a Ha. rewrite Hsa. exact Ha.
  - apply lookup_insert_eq.
  - exists (set (field e) e). rewrite lookup_insert_eq. auto.
Qed.

Lemma locate_ext w w' parts n m :
  ext w w' -> locate w parts n = Some m -> locate w' parts n = Some m.
Proof.
  intros Hext. revert n. induction parts as [|part rest IH]; intros n H.
  - exact H.
  - cbn [locate] in *.
    rewrite (ext_wildcard _ _ Hext), (ext_doubleWild _ _ Hext).
    destruct (decide (part = wildcard w)) as [Hw|Hw].
    + destruct (entries w !! n) as [e|] eqn:He; [|discriminate H].
      simpl in H. destruct (_all e) as [a|] eqn:Ha; [|discriminate H].
      simpl in H.
      destruct (ext_entries _ _ Hext n e He) as (e' & He' & _ & _ & _ & Ha').
      rewrite He'. simpl. rewrite (Ha' a Ha). simpl. apply IH. exact H.
    + destruct (decide (part = doubleWild w)) as [Hd|Hd]; [apply IH; exact H|].
      destruct (entries w !! n) as [e|] eqn:He; [|discriminate H].
      simpl in H. destruct (children e !! part) as [c|] eqn:Hc;
        [|discriminate H].
      simpl in H.
      destruct (ext_entries _ _ Hext n e He) as (e' & He' & _ & _ & Hc' & _).
      rewrite He'. simpl. rewrite (Hc' _ _ Hc). simpl. apply IH. exact H.
Qed.

(** ** Registration without a hook *)

Lemma on_loop_spec parts : forall s scan h,
  plain parts ->
  wf (world s) -> is_Some (entries (world s) !! scan) ->
  exists m s',
    on_loop (wildcard (world s)) (doubleWild (world s)) None parts
            (Entry scan) h s
    = (Return (Entry m), s')
    /\ wf (world s') /\ ext (world s) (world s') /\ calls s' = calls s
    /\ is_Some (entries (world s') !! m)
    /\ locate (world s') parts scan = Some m
    /\ (doubleWild (world s) <> wildcard (world s) ->
        forall pre post,
          parts = pre ++ doubleWild (world s) :: post ->
          doubleWild (world s) ∉ pre ->
          exists n e l,
            locate (world s') pre scan = Some n
            /\ entries (world s') !! n = Some e
            /\ arrays (world s') !! allBelow e = Some l
            /\ h ∈ l
            /\ locate (world s') post n = Some m).
Proof.
  induction parts as [|part rest IH]; intros s scan h Hplain Hwf Hscan.
  - exists scan, s. split; [reflexivity|]. split; [exact Hwf|].
    split; [apply ext_refl|]. split; [reflexivity|]. split; [exact Hscan|].
    split; [reflexivity|].
    intros _ pre post E _. destruct pre; discriminate E.
  - apply plain_cons in Hplain as [Hkey Hplain]. cbn [on_loop].
    destruct (decide (part = wildcard (world s))) as [Hw|Hw].
    + destruct (getAll_spec s scan Hwf Hscan)
        as (a & s1 & E1 & Hwf1 & Hext1 & Hc1 & Ha1 & e1 & He1 & Hall1).
      rewrite bind_eq, E1.
      destruct (IH s1 a h Hplain Hwf1 Ha1)
        as (m & s' & E & Hwf' & Hext' & Hc' & Hm & Hloc & Hdw).
      rewrite (ext_wildcard _ _ Hext1), (ext_doubleWild _ _ Hext1) in E, Hdw.
      exists m, s'. split; [exact E|]. split; [exact Hwf'|].
      split; [eapply ext_trans; eassumption|]. split; [congruence|].
      split; [exact Hm|].
      assert (Hstep : forall rest' x, locate (world s') rest' a = Some x ->
                locate (world s') (part :: rest') scan = Some x).
      { intros rest' x Hx. cbn [locate].
        rewrite (ext_wildcard _ _ Hext'), (ext_wildcard _ _ Hext1).
        destruct (decide (part = wildcard (world s))) as [_|Hn]; [|contradiction].
        destruct (ext_entries _ _ Hext' scan e1 He1)
          as (e' & He' & _ & _ & _ & Ha').
        rewrite He'. simpl. rewrite (Ha' a Hall1). simpl. exact Hx. }
      split; [apply Hstep; exact Hloc|].
      intros Hne pre post Ep Hpre.
      destruct pre as [|p pre].
      * simpl in Ep. injection Ep as Ep _. congruence.
      * simpl in Ep. injection Ep as <- ->.
        apply not_elem_of_cons in Hpre as [_ Hpre].
        destruct (Hdw Hne pre post eq_refl Hpre)
          as (n & e & l & Hn & He & Hl & Hin & Hpost).
        exists n, e, l. split; [apply Hstep; exact Hn|]. auto.
    + destruct (decide (part = doubleWild (world s))) as [Hd|Hd].
      * destruct Hscan as [e He].
        destruct (push_bucket_spec s scan e allBelow set_allBelow h Hwf He)
          as (l & s1 & E1 & Hwf1 & Hext1 & Hc1 & Hl & Hl1 & e1 & He1 & _ & Hb1);
          [right; auto|].
        rewrite bind_eq, (read_entry_eq _ _ _ He).
        rewrite bind_eq in E1.
        destruct (push (allBelow e) h s) as [[[]|x] sp] eqn:Ep;
          [|discriminate E1].
        rewrite bind_eq, Ep.
        rewrite bind_eq in E1.
        destruct (stored None (allBelow e) sp) as [[b|x] sb] eqn:Eb;
          [|discriminate E1].
        rewrite bind_eq, Eb.
        rewrite bind_eq in E1.
        destruct (read_entry scan sb) as [[e'|x] sr] eqn:Er;
          [|discriminate E1].
        rewrite bind_eq, Er, bind_eq, E1.
        destruct (IH s1 scan h Hplain Hwf1 (ex_intro _ e1 He1))
          as (m & s' & E & Hwf' & Hext' & Hc' & Hm & Hloc & Hdw).
        rewrite (ext_wildcard _ _ Hext1), (ext_doubleWild _ _ Hext1) in E, Hdw.
        exists m, s'. split; [exact E|]. split; [exact Hwf'|].
        split; [eapply ext_trans; eassumption|]. split; [congruence|].
        split; [exact Hm|].
        assert (Hstep : forall rest' x,
                  locate (world s') rest' scan = Some x ->
                  locate (world s') (part :: rest') scan = Some x).
        { intros rest' x Hx. cbn [locate].
          rewrite (ext_wildcard _ _ Hext'), (ext_wildcard _ _ Hext1).
          rewrite (ext_doubleWild _ _ Hext'), (ext_doubleWild _ _ Hext1).
          destruct (decide (part = wildcard (world s))); [contradiction|].
          destruct (decide (part = doubleWild (world s))); [|contradiction].
          exact Hx. }
        split; [apply Hstep; exact Hloc|].
        intros Hne pre post Ep' Hpre.
        destruct pre as [|p pre].
        -- simpl in Ep'. injection Ep' as _ <-.
           destruct (ext_entries _ _ Hext' scan e1 He1)
             as (e2 & He2 & _ & Hb2 & _ & _).
           destruct (ext_arrays _ _ Hext' _ _ Hl1) as (l' & Hl').
           exists scan, e2, ((l ++ [h]) ++ l').
           split; [reflexivity|]. split; [exact He2|].
           split; [rewrite Hb2, Hb1; exact Hl'|].
           split; [|exact Hloc].
           apply elem_of_app. left. apply elem_of_app. right.
           apply list_elem_of_singleton. reflexivity.
        -- simpl in Ep'. injection Ep' as <- ->.
           apply not_elem_of_cons in Hpre as [Hp _]. congruence.
      * destruct (getChild_spec s scan part Hkey Hwf Hscan)
          as (c & s1 & E1 & Hwf1 & Hext1 & Hc1 & Hcv & e1 & He1 & Hk1).
        rewrite bind_eq, E1.
        destruct (IH s1 c h Hplain Hwf1 Hcv)
          as (m & s' & E & Hwf' & Hext' & Hc' & Hm & Hloc & Hdw).
        rewrite (ext_wildcard _ _ Hext1), (ext_doubleWild _ _ Hext1) in E, Hdw.
        exists m, s'. split; [exact E|]. split; [exact Hwf'|].
        split; [eapply ext_trans; eassumption|]. split; [congruence|].
        split; [exact Hm|].
        assert (Hstep : forall rest' x, locate (world s') rest' c = Some x ->
                  locate (world s') (part :: rest') scan = Some x).
        { intros rest' x Hx. cbn [locate].
          rewrite (ext_wildcard _ _ Hext'), (ext_wildcard _ _ Hext1).
          rewrite (ext_doubleWild _ _ Hext'), (ext_doubleWild _ _ Hext1).
          destruct (decide (part = wildcard (world s))); [contradiction|].
          destruct (decide (part = doubleWild (world s))); [contradiction|].
          destruct (ext_entries _ _ Hext' scan e1 He1)
            as (e' & He' & _ & _ & Hk' & _).
          rewrite He'. simpl. rewrite (Hk' _ _ Hk1). simpl. exact Hx. }
        split; [apply Hstep; exact Hloc|].
        intros Hne pre post Ep Hpre.
        destruct pre as [|p pre].
        -- simpl in Ep. injection Ep as Ep _. congruence.
        -- simpl in Ep. injection Ep as <- ->.
           apply not_elem_of_cons in Hpre as [_ Hpre].
           destruct (Hdw Hne pre post eq_refl Hpre)
             as (n & e & l & Hn & He & Hl & Hin & Hpost).
           exists n, e, l. split; [apply Hstep; exact Hn|]. auto.
Qed.

Lemma on_spec s name h :
  plain (split name (delimiter (world s))) ->
  wf (world s) -> storeHandlers (world s) = None -> truthy h = true ->
  exists m e l s',
    on (Name name) h s = (Return tt, s')
    /\ wf (world s') /\ ext (world s) (world s') /\ calls s' = calls s
    /\ locate (world s') (split name (delimiter (world s))) (_events (world s))
       = Some m
    /\ entries (world s') !! m = Some e
    /\ arrays (world s') !! handlers e = Some (l ++ [h])
    /\ (doubleWild (world s) <> wildcard (world s) ->
        forall pre post,
          split name (delimiter (world s)) = pre ++ doubleWild (world s) :: post ->
          doubleWild (world s) ∉ pre ->
          exists n en ln,
            locate (world s') pre (_events (world s)) = Some n
            /\ entries (world s') !! n = Some en
            /\ arrays (world s') !! allBelow en = Some ln
            /\ h ∈ ln
            /\ locate (world s') post n = Some m).
Proof.
  intros Hplain Hwf Hhook Ht. unfold on, on_name. rewrite Ht. cbn [negb].
  rewrite bind_eq. cbn [get_world]. rewrite Hhook.
  destruct (on_loop_spec (split name (delimiter (world s))) s (_events (world s))
              h Hplain Hwf (wf_root _ Hwf))
    as (m & s1 & E1 & Hwf1 & Hext1 & Hc1 & [e He] & Hloc & Hdw).
  rewrite bind_eq, E1.
  destruct (push_bucket_spec s1 m e handlers set_handlers h Hwf1 He)
    as (l & s' & E & Hwf' & Hext' & Hc' & Hl & Hl' & e' & He' & Hh' & _);
    [left; auto|].
  rewrite bind_eq, (read_entry_eq _ _ _ He).
  exists m, e', l, s'. split; [exact E|]. split; [exact Hwf'|].
  split; [eapply ext_trans; eassumption|]. split; [congruence|].
  split; [eapply locate_ext; eassumption|]. split; [exact He'|].
  split; [rewrite Hh'; exact Hl'|].
  intros Hne pre post Ep Hpre.
  destruct (Hdw Hne pre post Ep Hpre) as (n & en & ln & Hn & Hen & Hln & Hin & Hpost).
  destruct (ext_entries _ _ Hext' n en Hen) as (en' & Hen' & _ & Hb' & _ & _).
  destruct (ext_arrays _ _ Hext' _ _ Hln) as (x & Hx).
  exists n, en', (ln ++ x).
  split; [eapply locate_ext; eassumption|]. split; [exact Hen'|].
  split; [rewrite Hb'; exact Hx|].
  split; [apply elem_of_app; left; exact Hin|].
  eapply locate_ext; eassumption.
Qed.

Lemma wf_constructor props : wf (constructor props).
Proof.
  assert (He : forall n e, entries (constructor props) !! n = Some e ->
            n = 2 /\ e = {| children := ∅; handlers := 0; allBelow := 1;
                            _all := None |}).
  { intros n e H. simpl in H. apply lookup_singleton_Some in H as [<- <-]. auto. }
  assert (Ha : forall a, is_Some (arrays (constructor props) !! a) ->
            a = 0 \/ a = 1).
  { intros a [l H]. simpl in H.
    destruct (decide (a = 0)) as [->|H0]; [auto|].
    rewrite lookup_insert_ne in H by auto.
    apply lookup_singleton_Some in H as [<- _]. auto. }
  split.
  - simpl. rewrite lookup_singleton_eq. eauto.
  - intros n e H. destruct (He n e H) as [-> ->]. simpl.
    rewrite lookup_insert_eq. eauto.
  - intros n e H. destruct (He n e H) as [-> ->]. simpl.
    rewrite lookup_insert_ne by lia. rewrite lookup_singleton_eq. eauto.
  - intros n e k c H Hk. destruct (He n e H) as [-> ->]. simpl in Hk.
    rewrite lookup_empty in Hk. discriminate Hk.
  - intros n e a H Hall. destruct (He n e H) as [-> ->]. discriminate Hall.
  - intros n e H. destruct (He n e H) as [-> ->]. simpl. lia.
  - intros n [e H]. destruct (He n e H) as [-> ->]. simpl. lia.
  - intros a H. destruct (Ha a H) as [->| ->]; simpl; lia.
Qed.

(** ** Removal after registration *)

Lemma indexOf_elem l (x : value) :
  x ∈ l -> exists idx, indexOf l x = Some idx.
Proof.
  induction l as [|y l IH]; intros H.
  - apply elem_of_nil in H. destruct H.
  - simpl. destruct (decide (y = x)) as [_|Hne]; [eauto|].
    apply elem_of_cons in H as [->|H]; [contradiction|].
    destruct (IH H) as [idx ->]. simpl. eauto.
Qed.

Lemma locate_with_array w a l parts n :
  locate (with_array a l w) parts n = locate w parts n.
Proof.
  revert n. induction parts as [|part rest IH]; intros n; [reflexivity|].
  cbn [locate]. simpl wildcard. simpl doubleWild. simpl entries.
  destruct (decide (part = wildcard w)) as [Hw|Hw].
  - destruct (entries w !! n) as [e|]; [|reflexivity]. simpl.
    destruct (_all e); [|reflexivity]. simpl. apply IH.
  - destruct (decide (part = doubleWild w)) as [Hd|Hd]; [apply IH|].
    destruct (entries w !! n) as [e|]; [|reflexivity]. simpl.
    destruct (children e !! part); [|reflexivity]. simpl. apply IH.
Qed.

(** [off] with the pattern of a registration that ends in the double
    wildcard: the walk finds the entries that [on] made, and takes the
    first [h] out of the [allBelow] bucket. *)
Lemma off_loop_spec pre : forall s scan h n en ln,
  doubleWild (world s) <> wildcard (world s) ->
  doubleWild (world s) ∉ pre ->
  h <> VUndefined ->
  locate (world s) pre scan = Some n ->
  entries (world s) !! n = Some en ->
  arrays (world s) !! allBelow en = Some ln ->
  h ∈ ln ->
  exists idx,
    indexOf ln h = Some idx
    /\ off_loop (wildcard (world s)) (doubleWild (world s))
                (pre ++ [doubleWild (world s)]) (Some (Entry scan)) h s
       = (Return tt,
          in_world (with_array (allBelow en) (delete idx ln) (world s)) s).
Proof.
  induction pre as [|p pre IH]; intros s scan h n en ln Hne Hpre Hu Hloc Hen Hln Hin.
  - simpl in Hloc. injection Hloc as ->.
    destruct (indexOf_elem _ _ Hin) as [idx Hidx]. exists idx.
    split; [exact Hidx|]. cbn [app off_loop].
    destruct (decide (doubleWild (world s) = wildcard (world s))) as [H1|H1];
      [contradiction|].
    destruct (decide (doubleWild (world s) = doubleWild (world s))) as [H2|H2];
      [|contradiction].
    destruct (decide (h = VUndefined)) as [H3|H3]; [contradiction|].
    rewrite bind_eq, (read_entry_eq _ _ _ Hen).
    rewrite bind_eq, (read_array_eq _ _ _ Hln), Hidx.
    unfold splice1. rewrite bind_eq, (read_array_eq _ _ _ Hln).
    apply write_array_eq.
  - apply not_elem_of_cons in Hpre as [Hp Hpre].
    cbn [app off_loop]. cbn [locate] in Hloc.
    destruct (decide (p = wildcard (world s))) as [Hw|Hw].
    + destruct (entries (world s) !! scan) as [e|] eqn:He; [|discriminate Hloc].
      simpl in Hloc. destruct (_all e) as [a|] eqn:Ha; [|discriminate Hloc].
      simpl in Hloc.
      rewrite bind_eq, (getAll_existing _ _ _ _ He Ha).
      apply (IH s a h n en ln); assumption.
    + destruct (decide (p = doubleWild (world s))) as [Hd|Hd]; [congruence|].
      destruct (entries (world s) !! scan) as [e|] eqn:He; [|discriminate Hloc].
      simpl in Hloc.
      destruct (children e !! p) as [c|] eqn:Hc; [|discriminate Hloc].
      simpl in Hloc.
      rewrite bind_eq, (getExisting_own _ _ _ _ _ He Hc).
      apply (IH s c h n en ln); assumption.
Qed.

(** ** What the walk of an event finds *)

Lemma gather_total w parts scan :
  wf w -> (forall n, scan = Some n -> is_Some (entries w !! n)) ->
  is_Some (gather w parts scan).
Proof.
  intros Hwf. revert scan.
  induction parts as [|part rest IH]; intros [n|] Hn; try (simpl; eauto; fail).
  - destruct (Hn n eq_refl) as [e He]. simpl. rewrite He. simpl.
    eapply wf_handlers; eassumption.
  - destruct (Hn n eq_refl) as [e He]. simpl. rewrite He. simpl.
    destruct (wf_allBelow _ Hwf n e He) as [below ->]. simpl.
    assert (Hw : is_Some (if _all e is Some a then gather w rest (Some a)
                          else Some [])).
    { destruct (_all e) as [a|] eqn:Ha; [|eauto].
      apply IH. intros ? [= <-]. eapply wf_all; eassumption. }
    destruct Hw as [wild ->]. simpl.
    assert (Hc : is_Some (gather w rest (children e !! part))).
    { apply IH. intros c Hc. eapply wf_children; eassumption. }
    destruct Hc as [child ->]. simpl. eauto.
Qed.

Lemma eager_total w parts scan :
  wf w -> (forall n, scan = Some n -> is_Some (entries w !! n)) ->
  is_Some (eager w parts scan).
Proof.
  intros Hwf. revert scan.
  induction parts as [|part rest IH]; intros [n|] Hn; try (simpl; eauto; fail).
  - destruct (Hn n eq_refl) as [e He]. simpl. rewrite He. simpl.
    destruct (wf_handlers _ Hwf n e He) as [l ->]. simpl. eauto.
  - destruct (Hn n eq_refl) as [e He]. simpl. rewrite He. simpl.
    destruct (wf_allBelow _ Hwf n e He) as [below ->]. simpl.
    assert (Hw : is_Some (if _all e is Some a then eager w rest (Some a)
                          else Some [])).
    { destruct (_all e) as [a|] eqn:Ha; [|eauto].
      apply IH. intros ? [= <-]. eapply wf_all; eassumption. }
    destruct Hw as [wild ->]. simpl.
    assert (Hc : is_Some (eager w rest (children e !! part))).
    { apply IH. intros c Hc. eapply wf_children; eassumption. }
    destruct Hc as [child ->]. simpl. eauto.
Qed.

(** A handler in the [handlers] bucket of the entry that a pattern without
    double wildcard leads to is found by the walk of the event that has
    the segments of the pattern. *)
Lemma gather_locate w pre : forall scan m e l h g,
  doubleWild w ∉ pre ->
  locate w pre scan = Some m ->
  entries w !! m = Some e ->
  arrays w !! handlers e = Some l ->
  h ∈ l ->
  gather w pre (Some scan) = Some g ->
  h ∈ g.
Proof.
  induction pre as [|p pre IH]; intros scan m e l h g Hpre Hloc He Hl Hin Hg.
  - simpl in Hloc. injection Hloc as ->. simpl in Hg. rewrite He in Hg.
    simpl in Hg. congruence.
  - apply not_elem_of_cons in Hpre as [Hp Hpre].
    cbn [locate] in Hloc. cbn [gather] in Hg.
    destruct (entries w !! scan) as [e0|] eqn:He0;
      [|destruct (decide (p = wildcard w)) as [H1|H1];
        [|destruct (decide (p = doubleWild w)) as [H2|H2]; [congruence|]];
        discriminate Hloc].
    simpl in Hg.
    destruct (arrays w !! allBelow e0) as [below|]; [|discriminate Hg].
    simpl in Hg.
    destruct (if _all e0 is Some a then gather w pre (Some a) else Some [])
      as [wild|] eqn:Hw; [|discriminate Hg].
    simpl in Hg.
    destruct (gather w pre (children e0 !! p)) as [child|] eqn:Hc;
      [|discriminate Hg].
    simpl in Hg. injection Hg as <-.
    destruct (decide (p = wildcard w)) as [Hpw|Hpw].
    + simpl in Hloc. destruct (_all e0) as [a|]; [|discriminate Hloc].
      simpl in Hloc.
      apply elem_of_app. right. apply elem_of_app. left.
      eapply IH; eassumption.
    + destruct (decide (p = doubleWild w)) as [H2|H2]; [congruence|].
      simpl in Hloc. destruct (children e0 !! p) as [c|]; [|discriminate Hloc].
      simpl in Hloc.
      apply elem_of_app. right. apply elem_of_app. right.
      eapply IH; eassumption.
Qed.

Lemma truthy_only_elem h l :
  h ∈ l -> truthy h = true -> h ∈ truthy_only l.
Proof.
  intros Hin Ht. apply list_elem_of_In. unfold truthy_only.
  apply filter_In. split; [apply list_elem_of_In; exact Hin | exact Ht].
Qed.

Lemma eager_locate w pre : forall scan m e l h g,
  doubleWild w ∉ pre ->
  locate w pre scan = Some m ->
  entries w !! m = Some e ->
  arrays w !! handlers e = Some l ->
  h ∈ l -> truthy h = true ->
  eager w pre (Some scan) = Some g ->
  h ∈ g.
Proof.
  induction pre as [|p pre IH]; intros scan m e l h g Hpre Hloc He Hl Hin Ht Hg.
  - simpl in Hloc. injection Hloc as ->. simpl in Hg. rewrite He in Hg.
    simpl in Hg. rewrite Hl in Hg. simpl in Hg. injection Hg as <-.
    apply truthy_only_elem; assumption.
  - apply not_elem_of_cons in Hpre as [Hp Hpre].
    cbn [locate] in Hloc. cbn [eager] in Hg.
    destruct (entries w !! scan) as [e0|] eqn:He0;
      [|destruct (decide (p = wildcard w)) as [H1|H1];
        [|destruct (decide (p = doubleWild w)) as [H2|H2]; [congruence|]];
        discriminate Hloc].
    simpl in Hg.
    destruct (arrays w !! allBelow e0) as [below|]; [|discriminate Hg].
    simpl in Hg.
    destruct (if _all e0 is Some a then eager w pre (Some a) else Some [])
      as [wild|] eqn:Hw; [|discriminate Hg].
    simpl in Hg.
    destruct (eager w pre (children e0 !! p)) as [child|] eqn:Hc;
      [|discriminate Hg].
    simpl in Hg. injection Hg as <-.
    destruct (decide (p = wildcard w)) as [Hpw|Hpw].
    + simpl in Hloc. destruct (_all e0) as [a|]; [|discriminate Hloc].
      simpl in Hloc.
      apply elem_of_app. right. apply elem_of_app. left.
      eapply IH; eassumption.
    + destruct (decide (p = doubleWild w)) as [H2|H2]; [congruence|].
      simpl in Hloc. destruct (children e0 !! p) as [c|]; [|discriminate Hloc].
      simpl in Hloc.
      apply elem_of_app. right. apply elem_of_app. right.
      eapply IH; eassumption.
Qed.

(** Whatever [eager] finds is a truthy value of some array. *)
Lemma eager_elements w parts : forall scan g v,
  eager w parts scan = Some g -> v ∈ g ->
  truthy v = true /\ exists a l, arrays w !! a = Some l /\ v ∈ l.
Proof.
  assert (Hf : forall l v, v ∈ truthy_only l -> truthy v = true /\ v ∈ l).
  { intros l v Hv. apply list_elem_of_In in Hv. unfold truthy_only in Hv.
    apply filter_In in Hv as [Hv Ht]. split; [exact Ht|].
    apply list_elem_of_In. exact Hv. }
  induction parts as [|part rest IH]; intros [n|] g v Hg Hv;
    try (simpl in Hg; injection Hg as <-; apply elem_of_nil in Hv; destruct Hv).
  - simpl in Hg. destruct (entries w !! n) as [e|]; [|discriminate Hg].
    simpl in Hg. destruct (arrays w !! handlers e) as [l|] eqn:Hl;
      [|discriminate Hg].
    simpl in Hg. injection Hg as <-. destruct (Hf _ _ Hv). eauto.
  - cbn [eager] in Hg. destruct (entries w !! n) as [e|]; [|discriminate Hg].
    simpl in Hg.
    destruct (arrays w !! allBelow e) as [below|] eqn:Hb; [|discriminate Hg].
    simpl in Hg.
    destruct (if _all e is Some a then eager w rest (Some a) else Some [])
      as [wild|] eqn:Hw; [|discriminate Hg].
    simpl in Hg.
    destruct (eager w rest (children e !! part)) as [child|] eqn:Hc;
      [|discriminate Hg].
    simpl in Hg. injection Hg as <-.
    apply elem_of_app in Hv as [Hv|Hv].
    + apply list_elem_of_In in Hv. apply <- in_rev in Hv.
      apply list_elem_of_In in Hv. destruct (Hf _ _ Hv). eauto.
    + apply elem_of_app in Hv as [Hv|Hv].
      * destruct (_all e) as [a|].
        -- exact (IH _ _ _ Hw Hv).
        -- injection Hw as <-. apply elem_of_nil in Hv. destruct Hv.
      * exact (IH _ _ _ Hc Hv).
Qed.

(** ** What the arrays hold *)

Section Stored.

Variable good : value -> Prop.

Let J := all_good_unhooked good.

Lemma stored_write_entry n e : keeps J (write_entry n e).
Proof. intros s Hs. exact Hs. Qed.

Lemma stored_write_array a l :
  (forall v, v ∈ l -> good v) ->
  keeps J (write_array a l).
Proof.
  intros Hl s [Hh Hs]. split; [exact Hh|]. simpl. intros a' l' v Hl' Hv.
  destruct (decide (a = a')) as [<-|Hne].
  - rewrite lookup_insert_eq in Hl'. injection Hl' as <-. auto.
  - rewrite lookup_insert_ne in Hl' by exact Hne. eauto.
Qed.

Lemma stored_new_array : keeps J (new_array []).
Proof.
  intros s [Hh Hs]. split; [exact Hh|]. simpl. intros a' l' v Hl' Hv.
  match type of Hl' with <[?k := _]> _ !! _ = _ =>
    destruct (decide (k = a')) as [E|Hne] end.
  - rewrite E, lookup_insert_eq in Hl'. injection Hl' as <-.
    apply elem_of_nil in Hv. destruct Hv.
  - rewrite lookup_insert_ne in Hl' by exact Hne. eauto.
Qed.

Lemma stored_new_EventEntry : keeps J new_EventEntry.
Proof.
  unfold new_EventEntry.
  apply keeps_bind; [apply stored_new_array|]. intros h.
  apply keeps_bind; [apply stored_new_array|]. intros b.
  intros s Hs. exact Hs.
Qed.

Lemma stored_hoare_read_array a :
  hoare J (read_array a)
        (fun l s => J s /\ forall v, v ∈ l -> good v) J.
Proof.
  intros s Hs. unfold read_array. rewrite bind_eq. simpl.
  destruct (arrays (world s) !! a) as [l|] eqn:Hl; simpl; [|exact Hs].
  split; [exact Hs|]. destruct Hs as [_ Hs]. eauto.
Qed.

Lemma stored_push a x : good x -> keeps J (push a x).
Proof.
  intros Hx. unfold push. eapply hoare_bind; [apply stored_hoare_read_array|].
  intros l. apply hoare_assume. intros Hl. apply stored_write_array.
  intros v Hv. apply elem_of_app in Hv as [Hv|Hv]; [auto|].
  apply list_elem_of_singleton in Hv. subst v. exact Hx.
Qed.

Lemma stored_remove_from a handler :
  keeps J (l ← read_array a;
           match indexOf l handler with
           | None => mret ()
           | Some idx => splice1 a idx
           end).
Proof.
  eapply hoare_bind; [apply stored_hoare_read_array|].
  intros l. apply hoare_assume. intros _.
  destruct (indexOf l handler) as [idx|]; [|apply keeps_ret].
  unfold splice1. eapply hoare_bind; [apply stored_hoare_read_array|].
  intros l'. apply hoare_assume. intros Hl'. apply stored_write_array.
  intros v Hv. apply Hl'. eapply list_elem_of_delete_inv. exact Hv.
Qed.

Lemma stored_getAll n : keeps J (getAll n).
Proof.
  unfold getAll. eapply hoare_bind; [apply (hoare_read_entry J)|].
  intros e. destruct (_all e) as [a|]; [intros s [Hs _]; exact Hs|].
  eapply hoare_conseq with (P := J) (Q := fun _ => J) (R := J);
    [|intros s [Hs _]; exact Hs|auto|auto].
  apply keeps_bind; [apply stored_new_EventEntry|]. intros a.
  apply keeps_bind; [apply stored_write_entry | intros; apply keeps_ret].
Qed.

Lemma stored_getChild n key : keeps J (getChild n key).
Proof.
  unfold getChild. eapply hoare_bind; [apply (hoare_read_entry J)|].
  intros e.
  eapply hoare_conseq with (P := J) (Q := fun _ => J) (R := J);
    [|intros s [Hs _]; exact Hs|auto|auto].
  apply keeps_bind; [apply keeps_child_of|].
  intros [child|]; [apply keeps_ret|].
  apply keeps_bind; [apply stored_new_EventEntry|]. intros c.
  apply keeps_bind; [apply stored_write_entry | intros; apply keeps_ret].
Qed.

Lemma stored_getExisting n key : keeps J (getExisting n key).
Proof.
  unfold getExisting. eapply hoare_bind; [apply (hoare_read_entry J)|].
  intros e s [Hs _]. exact Hs.
Qed.

Lemma stored_write_alien_below scan b : keeps J (write_alien_below scan b).
Proof. intros s Hs. destruct scan; exact Hs. Qed.

Lemma stored_read_entry {A} n (f : EventEntry -> M A) :
  (forall e, keeps J (f e)) -> keeps J (read_entry n ≫= f).
Proof.
  intros Hf. eapply hoare_bind; [apply (hoare_read_entry J)|].
  intros e s [Hs _]. apply Hf. exact Hs.
Qed.

Lemma stored_on_loop wc dw parts scan handler :
  good handler ->
  keeps J (on_loop wc dw None parts scan handler).
Proof.
  intros Hh. revert scan. induction parts as [|part rest IH]; intros scan.
  - apply keeps_ret.
  - cbn [on_loop]. destruct (decide (part = wc)) as [Hw|Hw].
    + destruct scan as [n|key|a]; try apply keeps_throw.
      apply keeps_bind; [apply stored_getAll | intros; apply IH].
    + destruct (decide (part = dw)) as [Hd|Hd].
      * assert (Halien : forall scan : node,
                  keeps J (below ← read_alien_below scan;
                           push below handler;;
                           below' ← read_alien_below scan;
                           b ← stored None below';
                           write_alien_below scan b;;
                           on_loop wc dw None rest scan handler)).
        { intros scan'.
          apply keeps_bind; [apply keeps_read_alien_below|]. intros below.
          apply keeps_bind; [apply stored_push; exact Hh|]. intros _.
          apply keeps_bind; [apply keeps_read_alien_below|]. intros below'.
          apply keeps_bind; [apply keeps_ret|]. intros b.
          apply keeps_bind; [apply stored_write_alien_below|].
          intros; apply IH. }
        destruct scan as [n|key|a]; try apply Halien.
        apply stored_read_entry. intros e.
        apply keeps_bind; [apply stored_push; exact Hh|]. intros _.
        apply keeps_bind; [apply keeps_ret|]. intros b.
        apply stored_read_entry. intros e'.
        apply keeps_bind; [apply stored_write_entry | intros; apply IH].
      * destruct scan as [n|key|a]; try apply keeps_throw.
        apply keeps_bind; [apply stored_getChild | intros; apply IH].
Qed.

Lemma stored_get_world {A} (f : World -> M A) :
  (forall w, storeHandlers w = None -> keeps J (f w)) ->
  keeps J (get_world ≫= f).
Proof.
  intros Hf s Hs. rewrite bind_eq. cbn [get_world].
  apply Hf; [apply Hs | exact Hs].
Qed.

Lemma stored_on_name name handler :
  good handler -> keeps J (on_name name handler).
Proof.
  intros Hh. unfold on_name.
  destruct (negb (truthy handler)); [apply keeps_ret|].
  apply stored_get_world. intros w ->.
  apply keeps_bind; [apply stored_on_loop; exact Hh|].
  intros [scan|key|a]; try apply keeps_throw.
  apply stored_read_entry. intros e.
  apply keeps_bind; [apply stored_push; exact Hh|]. intros _.
  apply keeps_bind; [apply keeps_ret|]. intros b.
  apply stored_read_entry. intros e'. apply stored_write_entry.
Qed.

Lemma stored_on name handler :
  good handler -> keeps J (on name handler).
Proof.
  intros Hh. unfold on. destruct (negb (truthy handler)); [apply keeps_ret|].
  destruct name as [name|names]; [apply stored_on_name; exact Hh|].
  apply keeps_forEach. intros; apply stored_on_name; exact Hh.
Qed.

Lemma stored_off_loop wc dw parts scan handler :
  keeps J (off_loop wc dw parts scan handler).
Proof.
  revert scan. induction parts as [|part rest IH]; intros [scan|];
    try apply keeps_ret.
  - cbn [off_loop]. destruct scan as [n|key|a]; try apply keeps_throw.
    destruct (decide (handler = VUndefined)) as [Hu|Hu].
    + apply stored_read_entry. intros e. apply stored_write_array.
      intros v Hv. apply elem_of_nil in Hv. destruct Hv.
    + apply stored_read_entry. intros e. apply stored_remove_from.
  - cbn [off_loop]. destruct (decide (part = wc)) as [Hw|Hw].
    + destruct scan as [n|key|a]; try apply keeps_throw.
      apply keeps_bind; [apply stored_getAll | intros; apply IH].
    + destruct (decide (part = dw)) as [Hd|Hd].
      * destruct (decide (handler = VUndefined)) as [Hu|Hu].
        -- apply keeps_bind; [apply stored_new_array|]. intros b.
           destruct scan as [n|key|a]; try apply stored_write_alien_below.
           apply stored_read_entry. intros e. apply stored_write_entry.
        -- destruct scan as [n|key|a];
             try (apply keeps_bind; [apply keeps_read_alien_below|];
                  intros below; apply stored_remove_from).
           apply stored_read_entry. intros e. apply stored_remove_from.
      * destruct scan as [n|key|a]; try apply keeps_throw.
        apply keeps_bind; [apply stored_getExisting | intros; apply IH].
Qed.

Lemma stored_off name handler : keeps J (off name handler).
Proof.
  assert (H : forall name, keeps J (off_name name handler)).
  { intros n. unfold off_name. apply stored_get_world. intros w _.
    apply stored_off_loop. }
  destruct name as [name|names]; [apply H|].
  apply keeps_forEach. exact H.
Qed.

End Stored.

(** ** Registration and removal of a pattern that ends in the double
    wildcard *)

Lemma truthy_not_undefined h : truthy h = true -> h <> VUndefined.
Proof. intros Ht ->. discriminate Ht. Qed.

(** The state after [on(name, h)] and [off(name, h)]: [h] has left the
    [allBelow] bucket of the entry that [pre] leads to, and is still the
    last element of its [handlers] bucket. *)
Lemma on_off_spec s name h pre :
  plain (split name (delimiter (world s))) ->
  wf (world s) ->
  storeHandlers (world s) = None ->
  doubleWild (world s) <> wildcard (world s) ->
  truthy h = true ->
  split name (delimiter (world s)) = pre ++ [doubleWild (world s)] ->
  doubleWild (world s) ∉ pre ->
  exists s1 s2 n e l,
    on (Name name) h s = (Return tt, s1)
    /\ off (Name name) h s1 = (Return tt, s2)
    /\ wf (world s2)
    /\ delimiter (world s2) = delimiter (world s)
    /\ doubleWild (world s2) = doubleWild (world s)
    /\ locate (world s2) pre (_events (world s2)) = Some n
    /\ entries (world s2) !! n = Some e
    /\ arrays (world s2) !! handlers e = Some (l ++ [h]).
Proof.
  intros Hplain Hwf Hhook Hne Ht Hs Hpre.
  destruct (on_spec s name h Hplain Hwf Hhook Ht)
    as (m & em & lm & s1 & E1 & Hwf1 & Hext1 & _ & _ & Hem & Hlm & Hdw).
  destruct (Hdw Hne pre [] Hs Hpre)
    as (n & en & ln & Hn & Hen & Hln & Hin & Hm).
  simpl in Hm. injection Hm as <-.
  assert (em = en) by congruence. subst em.
  assert (Hne1 : doubleWild (world s1) <> wildcard (world s1))
    by (rewrite (ext_doubleWild _ _ Hext1), (ext_wildcard _ _ Hext1); exact Hne).
  assert (Hpre1 : doubleWild (world s1) ∉ pre)
    by (rewrite (ext_doubleWild _ _ Hext1); exact Hpre).
  rewrite <- (ext_events _ _ Hext1) in Hn.
  destruct (off_loop_spec pre s1 (_events (world s1)) h n en ln Hne1 Hpre1
              (truthy_not_undefined h Ht) Hn Hen Hln Hin)
    as (idx & Hidx & E2).
  exists s1, (in_world (with_array (allBelow en) (delete idx ln) (world s1)) s1),
    n, en, lm.
  split; [exact E1|]. split.
  { unfold off, off_name. rewrite bind_eq. cbn [get_world].
    rewrite (ext_delimiter _ _ Hext1), Hs, <- (ext_doubleWild _ _ Hext1).
    exact E2. }
  split; [apply wf_with_array; [exact Hwf1 | eauto]|].
  split; [apply (ext_delimiter _ _ Hext1)|].
  split; [apply (ext_doubleWild _ _ Hext1)|].
  split; [cbn [world in_world]; rewrite locate_with_array; exact Hn|].
  split; [exact Hen|].
  simpl. rewrite lookup_insert_ne; [exact Hlm|].
  intros E. symmetry in E. revert E. eapply wf_buckets; eassumption.
Qed.

(** C9, as amended: on an emitter without hook, after [on(p, h)] and
    [off(p, h)] for a pattern [p] of plain segments [pre] followed by the
    double wildcard and a truthy [h], [h] is still the last element of
    the [handlers] bucket of the entry that [pre] leads to.  An event
    with the segments [pre], which has at least one, therefore still
    reaches it: [h] is among the handlers that [emitAsyncSequential]
    collects, and when [h] and everything else that is registered is
    inert, [emit] applies it. *)
Theorem handler_survives_off s name h pre event params :
  wf (world s) ->
  plain (split name (delimiter (world s))) ->
  storeHandlers (world s) = None ->
  doubleWild (world s) <> wildcard (world s) ->
  truthy h = true ->
  split name (delimiter (world s)) = pre ++ [doubleWild (world s)] ->
  doubleWild (world s) ∉ pre ->
  split event (delimiter (world s)) = pre ->
  let s2 := (off (Name name) h (on (Name name) h s).2).2 in
  (exists n e l,
     locate (world s2) pre (_events (world s2)) = Some n
     /\ entries (world s2) !! n = Some e
     /\ arrays (world s2) !! handlers e = Some (l ++ [h]))
  /\ (exists collected,
        collect event s2 = (Return collected, announced event s2)
        /\ h ∈ collected)
  /\ (all_inert_unhooked behaviour s -> inert_value behaviour h ->
      exists found,
        emit behaviour event params s2
        = (Return params, logged found params (announced event s2))
        /\ h ∈ found).
Proof.
  intros Hwf Hplain Hhook Hne Ht Hs Hpre He s2.
  destruct (on_off_spec s name h pre Hplain Hwf Hhook Hne Ht Hs Hpre)
    as (s1 & s2' & n & e & l & E1 & E2 & Hwf2 & Hd2 & Hdw2 & Hn & Hen & Hl).
  assert (Hppre : plain pre)
    by (rewrite Hs in Hplain; apply plain_app in Hplain as [H _]; exact H).
  assert (Es2 : s2 = s2') by (subst s2; rewrite E1; cbn [snd]; rewrite E2; reflexivity).
  assert (Hin : h ∈ l ++ [h])
    by (apply elem_of_app; right; apply list_elem_of_singleton; reflexivity).
  assert (Hpre2 : doubleWild (world s2') ∉ pre) by (rewrite Hdw2; exact Hpre).
  assert (He2 : split event (delimiter (world s2')) = pre)
    by (rewrite Hd2; exact He).
  rewrite Es2. clear s2 Es2.
  assert (Hroot : forall r, Some (_events (world s2')) = Some r ->
            is_Some (entries (world s2') !! r))
    by (intros ? [= <-]; apply Hwf2).
  split; [exists n, e, l; auto|]. split.
  - destruct (gather_total (world s2') pre _ Hwf2 Hroot) as [g Hg].
    exists g. split.
    + rewrite (collect_split _ _ _ He2).
      rewrite_walk (_emit_gather pre (Some (_events (world s2'))) []
                      (announced event s2') g Hppre
                      (eq_trans (gather_announced _ _ _ _) Hg)).
      reflexivity.
    + eapply gather_locate; eassumption.
  - intros Hall Hh.
    assert (Hih : inert_if_truthy behaviour h) by (intros _; exact Hh).
    assert (J1 : all_inert_unhooked behaviour s1).
    { pose proof (stored_on _ (Name name) h Hih s Hall) as H.
      rewrite E1 in H. exact H. }
    assert (J2 : all_inert_unhooked behaviour s2').
    { pose proof (stored_off _ (Name name) h s1 J1) as H.
      rewrite E2 in H. exact H. }
    destruct (eager_total (world s2') pre _ Hwf2 Hroot) as [found Hf].
    exists found. split.
    + apply (emit_inert event params s2' pre found He2 Hppre Hf).
      apply Forall_forall. intros v Hv.
      destruct (eager_elements _ _ _ _ _ Hf Hv) as (Hvt & a & lv & Hlv & Hvin).
      destruct J2 as [_ J2]. exact (J2 a lv v Hlv Hvin Hvt).
    + eapply eager_locate; eassumption.
Qed.

(** ** What [off] leaves alone *)

Lemma silent_ret {A} (a : A) : silent (mret a).
Proof. intros s. reflexivity. Qed.

Lemma silent_bind {A B} (m : M A) (f : A -> M B) :
  silent m -> (forall a, silent (f a)) -> silent (m ≫= f).
Proof.
  intros Hm Hf s. rewrite bind_eq. specialize (Hm s).
  destruct (m s) as [[a|e] s1]; [|exact Hm].
  specialize (Hf a s1). destruct (f a s1) as [[b|e] s2].
  - congruence.
  - destruct Hf as [-> Hf]. split; [reflexivity | congruence].
Qed.

Lemma silent_read_entry n : silent (read_entry n).
Proof.
  intros s. unfold read_entry. rewrite bind_eq. simpl.
  destruct (entries (world s) !! n); simpl; auto.
Qed.

Lemma silent_read_array a : silent (read_array a).
Proof.
  intros s. unfold read_array. rewrite bind_eq. simpl.
  destruct (arrays (world s) !! a); simpl; auto.
Qed.

Lemma silent_write_entry n e : silent (write_entry n e).
Proof. intros s. reflexivity. Qed.

Lemma silent_write_array a l : silent (write_array a l).
Proof. intros s. reflexivity. Qed.

Lemma silent_new_array l : silent (new_array l).
Proof. intros s. reflexivity. Qed.

Lemma silent_new_EventEntry : silent new_EventEntry.
Proof. intros s. reflexivity. Qed.

Lemma silent_getAll n : silent (getAll n).
Proof.
  unfold getAll. apply silent_bind; [apply silent_read_entry|]. intros e.
  destruct (_all e); [apply silent_ret|].
  apply silent_bind; [apply silent_new_EventEntry|]. intros a.
  apply silent_bind; [apply silent_write_entry | intros; apply silent_ret].
Qed.

Lemma silent_throw {A} : silent (@throw A TypeError).
Proof. intros s. split; reflexivity. Qed.

Lemma silent_child_of e key : silent (child_of e key).
Proof. intros s. reflexivity. Qed.

Lemma silent_read_alien_below scan : silent (read_alien_below scan).
Proof.
  intros s. unfold read_alien_below. rewrite bind_eq. simpl.
  destruct (alien_below (world s) scan); simpl; auto.
Qed.

Lemma silent_write_alien_below scan b : silent (write_alien_below scan b).
Proof. intros s. destruct scan; reflexivity. Qed.

Lemma silent_getExisting n key : silent (getExisting n key).
Proof.
  unfold getExisting. apply silent_bind; [apply silent_read_entry|].
  intros; apply silent_child_of.
Qed.

Lemma silent_remove_from a handler :
  silent (l ← read_array a;
          match indexOf l handler with
          | None => mret ()
          | Some idx => splice1 a idx
          end).
Proof.
  apply silent_bind; [apply silent_read_array|]. intros l.
  destruct (indexOf l handler); [|apply silent_ret].
  unfold splice1. apply silent_bind; [apply silent_read_array|].
  intros; apply silent_write_array.
Qed.

Lemma silent_off_loop wc dw parts scan handler :
  silent (off_loop wc dw parts scan handler).
Proof.
  revert scan. induction parts as [|part rest IH]; intros [scan|];
    try apply silent_ret.
  - cbn [off_loop]. destruct scan as [n|key|a]; try apply silent_throw.
    destruct (decide (handler = VUndefined)) as [Hu|Hu];
      (apply silent_bind; [apply silent_read_entry|]; intros e);
      [apply silent_write_array | apply silent_remove_from].
  - cbn [off_loop]. destruct (decide (part = wc)) as [Hw|Hw].
    + destruct scan as [n|key|a]; try apply silent_throw.
      apply silent_bind; [apply silent_getAll | intros; apply IH].
    + destruct (decide (part = dw)) as [Hd|Hd].
      * destruct (decide (handler = VUndefined)) as [Hu|Hu].
        -- apply silent_bind; [apply silent_new_array|]. intros b.
           destruct scan as [n|key|a]; try apply silent_write_alien_below.
           apply silent_bind; [apply silent_read_entry|]. intros e.
           apply silent_write_entry.
        -- destruct scan as [n|key|a];
             try (apply silent_bind; [apply silent_read_alien_below|];
                  intros below; apply silent_remove_from).
           apply silent_bind; [apply silent_read_entry|]. intros e.
           apply silent_remove_from.
      * destruct scan as [n|key|a]; try apply silent_throw.
        apply silent_bind; [apply silent_getExisting | intros; apply IH].
Qed.

Lemma silent_forEach {A} (f : A -> M unit) l :
  (forall x, silent (f x)) -> silent (forEach f l).
Proof.
  intros Hf. induction l as [|x l IH]; [apply silent_ret|].
  cbn [forEach]. apply silent_bind; [apply Hf | intros; exact IH].
Qed.

Lemma silent_off name handler : silent (off name handler).
Proof.
  assert (H : forall name, silent (off_name name handler)).
  { intros n s. unfold off_name. rewrite bind_eq. cbn [get_world].
    apply silent_off_loop. }
  destruct name as [name|names]; [apply H | apply silent_forEach; exact H].
Qed.

(** ** The closure of [once] around a falsy handler *)

Lemma fn_apply_falsy handler params s :
  truthy handler = false ->
  fn_apply behaviour handler params s = (Throw TypeError, s).
Proof. intros Hf. destruct handler; try discriminate Hf; reflexivity. Qed.

Lemma process_throws id name handler params :
  truthy handler = false ->
  thrower behaviour (VProcess id name handler) params.
Proof.
  intros Hf s. unfold call_with. rewrite bind_eq. cbn [fn_apply].
  rewrite bind_eq. unfold record_call at 1.
  set (process := VProcess id name handler).
  set (s0 := {| world := world s; calls := calls s ++ [(process, params)] |}).
  rewrite bind_eq.
  pose proof (silent_off name process s0) as Hoff.
  destruct (off name process s0) as [[[]|e] s1].
  - rewrite bind_eq, (fn_apply_falsy _ _ _ Hf). eauto.
  - destruct Hoff as [-> Hoff]. eauto.
Qed.

(** ** A walk that comes to a thrower *)

Section Thrower.

Variables (v : value) (params : list value).
Hypothesis v_truthy : truthy v = true.
Hypothesis v_throws : thrower behaviour v params.

Let only_v (s : State) : Prop :=
  forall a l x, arrays (world s) !! a = Some l -> x ∈ l -> x = v.

Let thrown (r : completion (option (list value)) * State) (s : State)
  : Prop :=
  exists s', r = (Throw TypeError, s') /\ calls s' = calls s ++ [(v, params)].

Let lone (r : completion (option (list value)) * State) (s : State)
  : Prop :=
  r = (Return None, s) \/ thrown r s.

Lemma call_backward_thrower b x l i s :
  only_v s -> arrays (world s) !! b = Some (x :: l) -> i = length (x :: l) ->
  exists s', call_backward (call_with behaviour params) b i s
             = (Throw TypeError, s')
             /\ calls s' = calls s ++ [(v, params)].
Proof.
  intros Ho Hb ->. cbn [length call_backward].
  rewrite bind_eq, (read_array_eq _ _ _ Hb), bind_eq.
  destruct (lookup_lt_is_Some_2 (x :: l) (length l)) as [y Hy];
    [simpl; lia|].
  rewrite Hy. cbn [from_option id].
  assert (y = v) by (eapply Ho; [exact Hb | eapply list_elem_of_lookup_2; exact Hy]).
  subst y. rewrite v_truthy.
  destruct (v_throws s) as (s' & -> & Hc). eauto.
Qed.

Lemma call_forward_thrower b x l s :
  only_v s -> arrays (world s) !! b = Some (x :: l) ->
  exists s', call_forward (call_with behaviour params) b 0 (length (x :: l)) s
             = (Throw TypeError, s')
             /\ calls s' = calls s ++ [(v, params)].
Proof.
  intros Ho Hb. cbn [length call_forward].
  rewrite bind_eq, (read_array_eq _ _ _ Hb), bind_eq.
  cbn [lookup list_lookup from_option id].
  assert (x = v) by (eapply Ho; [exact Hb | apply elem_of_cons; auto]).
  subst x. rewrite v_truthy.
  destruct (v_throws s) as (s' & -> & Hc). eauto.
Qed.

(** Any walk either applies nothing and changes nothing, or throws at
    the first bucket that is not empty. *)
Lemma walk_lone_thrower parts : forall scan s,
  plain parts ->
  wf (world s) -> only_v s ->
  (forall n, scan = Some n -> is_Some (entries (world s) !! n)) ->
  lone (_emit (Entry <$> scan) parts None
          (Some (call_with behaviour params)) s) s.
Proof.
  induction parts as [|part rest IH]; intros [n|] s Hplain Hwf Ho Hn;
    cbn [fmap option_fmap option_map];
    try (left; apply _emit_None).
  - destruct (Hn n eq_refl) as [e He].
    destruct (wf_handlers _ Hwf n e He) as [l Hl].
    cbn [_emit].
    rewrite bind_eq, (read_entry_eq _ _ _ He), bind_eq, (read_array_eq _ _ _ Hl).
    rewrite bind_eq.
    destruct l as [|x l].
    + left. reflexivity.
    + right. destruct (call_forward_thrower _ x l s Ho Hl) as (s' & E & Hc).
      rewrite E. exists s'. auto.
  - destruct (Hn n eq_refl) as [e He].
    destruct (plain_cons _ _ Hplain) as [Hkey Hrest].
    destruct (wf_allBelow _ Hwf n e He) as [l Hl].
    rewrite _emit_call_cons.
    rewrite bind_eq, (read_entry_eq _ _ _ He), bind_eq, (read_array_eq _ _ _ Hl).
    rewrite bind_eq.
    destruct l as [|x l].
    + cbn [length call_backward]. unfold mret at 1, M_ret at 1.
      rewrite bind_eq, (read_entry_eq _ _ _ He), bind_eq.
      assert (Hchild : forall c, children e !! part = Some c ->
                is_Some (entries (world s) !! c))
        by (intros c Hc; eapply wf_children; eassumption).
      destruct (_all e) as [a|] eqn:Ha.
      * rewrite bind_eq, (getAll_existing _ _ _ _ He Ha).
        destruct (IH (Some a) s Hrest Hwf Ho) as [E|(s' & E & Hc)];
          [intros ? [= <-]; eapply wf_all; eassumption| |];
          cbn [fmap option_fmap option_map] in E.
        -- rewrite E, bind_eq, (read_entry_eq _ _ _ He).
           rewrite bind_eq, (child_of_plain _ _ _ Hkey).
           exact (IH (children e !! part) s Hrest Hwf Ho Hchild).
        -- right. exists s'. rewrite E. auto.
      * unfold mret at 1, M_ret at 1.
        rewrite bind_eq, (read_entry_eq _ _ _ He).
        rewrite bind_eq, (child_of_plain _ _ _ Hkey).
        exact (IH (children e !! part) s Hrest Hwf Ho Hchild).
    + right.
      destruct (call_backward_thrower _ x l _ s Ho Hl eq_refl) as (s' & E & Hc).
      rewrite E. exists s'. auto.
Qed.

(** A walk that meets a bucket which is not empty throws there. *)
Lemma walk_meets_thrower parts : forall n s,
  plain parts ->
  wf (world s) -> only_v s -> meets (world s) parts n ->
  exists s',
    _emit (Some (Entry n)) parts None (Some (call_with behaviour params)) s
    = (Throw TypeError, s')
    /\ calls s' = calls s ++ [(v, params)].
Proof.
  induction parts as [|part rest IH]; intros n s Hplain Hwf Ho Hm.
  - destruct Hm as (e & x & l & He & Hl).
    cbn [_emit].
    rewrite bind_eq, (read_entry_eq _ _ _ He), bind_eq, (read_array_eq _ _ _ Hl).
    rewrite bind_eq.
    destruct (call_forward_thrower _ x l s Ho Hl) as (s' & E & Hc).
    rewrite E. exists s'. auto.
  - destruct Hm as (e & He & Hm).
    destruct (plain_cons _ _ Hplain) as [Hkey Hrest].
    destruct (wf_allBelow _ Hwf n e He) as [l Hl].
    rewrite _emit_call_cons.
    rewrite bind_eq, (read_entry_eq _ _ _ He), bind_eq, (read_array_eq _ _ _ Hl).
    rewrite bind_eq.
    destruct l as [|x l].
    + cbn [length call_backward]. unfold mret at 1, M_ret at 1.
      rewrite bind_eq, (read_entry_eq _ _ _ He), bind_eq.
      destruct Hm as [(x & l & Hl')|Hm]; [congruence|].
      destruct (_all e) as [a|] eqn:Ha.
      * rewrite bind_eq, (getAll_existing _ _ _ _ He Ha).
        destruct Hm as [(a' & Ha' & Hm)|(c & Hc & Hm)].
        -- injection Ha' as <-.
           destruct (IH a s Hrest Hwf Ho Hm) as (s' & E & Hc). rewrite E.
           exists s'. auto.
        -- destruct (walk_lone_thrower rest (Some a) s Hrest Hwf Ho)
             as [E|(s' & E & Hc')];
             [intros ? [= <-]; eapply wf_all; eassumption| |];
             cbn [fmap option_fmap option_map] in E.
           ++ rewrite E, bind_eq, (read_entry_eq _ _ _ He).
              rewrite bind_eq, (child_of_own _ _ _ _ Hc).
              apply (IH c s Hrest Hwf Ho Hm).
           ++ rewrite E. exists s'. auto.
      * unfold mret at 1, M_ret at 1.
        rewrite bind_eq, (read_entry_eq _ _ _ He).
        destruct Hm as [(a' & Ha' & Hm)|(c & Hc & Hm)]; [discriminate Ha'|].
        rewrite bind_eq, (child_of_own _ _ _ _ Hc).
        apply (IH c s Hrest Hwf Ho Hm).
    + destruct (call_backward_thrower _ x l _ s Ho Hl eq_refl) as (s' & E & Hc).
      rewrite E. exists s'. auto.
Qed.

End Thrower.

(** The entry that a pattern without double wildcard leads to, or the
    entry before its first double wildcard, is met by the walk of the
    event that is spelled like the pattern. *)
Lemma locate_meets w parts : forall scan m e x l,
  doubleWild w = wildcard w \/ doubleWild w ∉ parts ->
  locate w parts scan = Some m ->
  entries w !! m = Some e -> arrays w !! handlers e = Some (x :: l) ->
  meets w parts scan.
Proof.
  induction parts as [|p parts IH]; intros scan m e x l Hp Hloc He Hl.
  - simpl in Hloc. injection Hloc as ->. simpl. eauto.
  - assert (Hparts : doubleWild w = wildcard w \/ doubleWild w ∉ parts).
    { destruct Hp as [Hp|Hp]; [left; exact Hp|].
      right. apply not_elem_of_cons in Hp as [_ Hp]. exact Hp. }
    cbn [locate] in Hloc. cbn [meets].
    destruct (decide (p = wildcard w)) as [Hw|Hw].
    + destruct (entries w !! scan) as [e0|] eqn:He0; [|discriminate Hloc].
      simpl in Hloc. destruct (_all e0) as [a|] eqn:Ha; [|discriminate Hloc].
      simpl in Hloc. exists e0. split; [reflexivity|].
      right. left. exists a. split; [exact Ha|]. eapply IH; eassumption.
    + destruct (decide (p = doubleWild w)) as [Hd|Hd].
      { exfalso. destruct Hp as [Hp|Hp]; [congruence|].
        apply Hp. rewrite Hd. apply elem_of_cons. auto. }
      destruct (entries w !! scan) as [e0|] eqn:He0; [|discriminate Hloc].
      simpl in Hloc.
      destruct (children e0 !! p) as [c|] eqn:Hc; [|discriminate Hloc].
      simpl in Hloc. exists e0. split; [reflexivity|].
      right. right. exists c. split; [exact Hc|]. eapply IH; eassumption.
Qed.

Lemma locate_meets_below w pre post : forall scan n e x l,
  doubleWild w ∉ pre ->
  locate w pre scan = Some n ->
  entries w !! n = Some e -> arrays w !! allBelow e = Some (x :: l) ->
  meets w (pre ++ doubleWild w :: post) scan.
Proof.
  induction pre as [|p pre IH]; intros scan n e x l Hp Hloc He Hl.
  - simpl in Hloc. injection Hloc as ->. cbn [app meets].
    exists e. split; [exact He|]. left. eauto.
  - apply not_elem_of_cons in Hp as [Hp Hpre].
    cbn [locate] in Hloc. cbn [app meets].
    destruct (decide (p = wildcard w)) as [Hw|Hw].
    + destruct (entries w !! scan) as [e0|] eqn:He0; [|discriminate Hloc].
      simpl in Hloc. destruct (_all e0) as [a|] eqn:Ha; [|discriminate Hloc].
      simpl in Hloc. exists e0. split; [reflexivity|].
      right. left. exists a. split; [exact Ha|]. eapply IH; eassumption.
    + destruct (decide (p = doubleWild w)) as [Hd|Hd]; [congruence|].
      destruct (entries w !! scan) as [e0|] eqn:He0; [|discriminate Hloc].
      simpl in Hloc.
      destruct (children e0 !! p) as [c|] eqn:Hc; [|discriminate Hloc].
      simpl in Hloc. exists e0. split; [reflexivity|].
      right. right. exists c. split; [exact Hc|]. eapply IH; eassumption.
Qed.

Lemma wf_same w w' :
  entries w' = entries w -> arrays w' = arrays w -> next w' = next w ->
  _events w' = _events w -> wf w -> wf w'.
Proof.
  intros He Ha Hn Hr [H1 H2 H3 H4 H5 H6 H7 H8].
  split; rewrite ?He, ?Ha, ?Hn, ?Hr; assumption.
Qed.

Lemma meets_same w w' parts : forall n,
  entries w' = entries w -> arrays w' = arrays w ->
  meets w parts n -> meets w' parts n.
Proof.
  induction parts as [|p parts IH]; intros n He Ha; cbn [meets];
    rewrite He, Ha; [auto|].
  intros (e & Hn & [H|[(a & Hall & H)|(c & Hc & H)]]); exists e; split; auto.
  - right. left. exists a. auto.
  - right. right. exists c. auto.
Qed.

(** ** Patterns without double wildcard *)

Lemma single_only_cons wc dw part parts :
  single_only wc dw (part :: parts) ->
  (part = wc \/ part <> dw) /\ single_only wc dw parts.
Proof.
  intros H. split; [apply H; apply elem_of_cons; auto|].
  intros x Hx. apply H. apply elem_of_cons. auto.
Qed.

Lemma single_only_tokens w parts :
  doubleWild w = wildcard w \/ doubleWild w ∉ parts ->
  single_only (wildcard w) (doubleWild w) parts.
Proof.
  intros [H|H] part Hp.
  - destruct (decide (part = wildcard w)); [auto | right; congruence].
  - right. intros ->. contradiction.
Qed.

Section Empty.

Let E (s : State) : Prop := all_empty (world s).

Lemma empty_write_entry n e : keeps E (write_entry n e).
Proof. intros s Hs. exact Hs. Qed.

Lemma empty_new_EventEntry : keeps E new_EventEntry.
Proof.
  intros s Hs a l. simpl. intros Hl.
  apply lookup_insert_Some in Hl as [[_ <-]|[_ Hl]]; [reflexivity|].
  apply lookup_insert_Some in Hl as [[_ <-]|[_ Hl]]; [reflexivity|].
  exact (Hs a l Hl).
Qed.

Lemma empty_read_entry n : keeps E (read_entry n).
Proof.
  eapply hoare_conseq; [apply (hoare_read_entry E n) | | | ]; auto.
  intros e s [Hs _]. exact Hs.
Qed.

Lemma empty_getAll n : keeps E (getAll n).
Proof.
  unfold getAll. apply keeps_bind; [apply empty_read_entry|]. intros e.
  destruct (_all e); [apply keeps_ret|].
  apply keeps_bind; [apply empty_new_EventEntry|]. intros a.
  apply keeps_bind; [apply empty_write_entry | intros; apply keeps_ret].
Qed.

Lemma empty_getChild n key : keeps E (getChild n key).
Proof.
  unfold getChild. apply keeps_bind; [apply empty_read_entry|]. intros e.
  apply keeps_bind; [apply keeps_child_of|]. intros [c|]; [apply keeps_ret|].
  apply keeps_bind; [apply empty_new_EventEntry|]. intros a.
  apply keeps_bind; [apply empty_write_entry | intros; apply keeps_ret].
Qed.

Lemma empty_on_loop wc dw hook parts : forall scan h,
  single_only wc dw parts -> keeps E (on_loop wc dw hook parts scan h).
Proof.
  induction parts as [|part rest IH]; intros scan h Hp; [apply keeps_ret|].
  apply single_only_cons in Hp as [Hpart Hrest].
  cbn [on_loop]. destruct (decide (part = wc)) as [Hw|Hw].
  - destruct scan as [n|key|a]; try apply keeps_throw.
    apply keeps_bind; [apply empty_getAll | intros; apply IH; exact Hrest].
  - destruct (decide (part = dw)) as [Hd|Hd];
      [destruct Hpart; contradiction|].
    destruct scan as [n|key|a]; try apply keeps_throw.
    apply keeps_bind; [apply empty_getChild | intros; apply IH; exact Hrest].
Qed.

End Empty.

Lemma push_bucket_eq s n e (field : EventEntry -> loc)
    (set : loc -> EventEntry -> EventEntry) h l :
  entries (world s) !! n = Some e -> arrays (world s) !! field e = Some l ->
  (push (field e) h;;
   b ← stored None (field e);
   e' ← read_entry n;
   write_entry n (set b e')) s
  = (Return tt,
     in_world (with_entry n (set (field e) e)
                 (with_array (field e) (l ++ [h]) (world s))) s).
Proof.
  intros He Hl. rewrite bind_eq, (push_eq _ _ _ _ Hl). cbn [stored].
  rewrite bind_eq. unfold mret at 1, M_ret at 1.
  set (s1 := in_world (with_array (field e) (l ++ [h]) (world s)) s).
  assert (He1 : entries (world s1) !! n = Some e) by exact He.
  rewrite bind_eq, (read_entry_eq _ _ _ He1), write_entry_eq. reflexivity.
Qed.

(** On a store of empty buckets, [on] with a pattern without double
    wildcard leaves the handler alone in the [handlers] bucket of the
    entry the pattern leads to. *)
Lemma on_lone s name h :
  plain (split name (delimiter (world s))) ->
  wf (world s) -> storeHandlers (world s) = None -> truthy h = true ->
  all_empty (world s) ->
  single_only (wildcard (world s)) (doubleWild (world s))
    (split name (delimiter (world s))) ->
  exists m e s',
    on (Name name) h s = (Return tt, s')
    /\ wf (world s') /\ ext (world s) (world s') /\ calls s' = calls s
    /\ locate (world s') (split name (delimiter (world s))) (_events (world s))
       = Some m
    /\ entries (world s') !! m = Some e
    /\ lone_in (handlers e) h (world s').
Proof.
  intros Hplain Hwf Hhook Ht Hempty Hp.
  set (parts := split name (delimiter (world s))) in *.
  destruct (on_loop_spec parts s (_events (world s)) h Hplain Hwf
              (wf_root _ Hwf))
    as (m & s1 & E1 & Hwf1 & Hext1 & Hc1 & [e He] & Hloc & _).
  assert (Hempty1 : all_empty (world s1)).
  { pose proof (empty_on_loop (wildcard (world s)) (doubleWild (world s)) None
                  parts (Entry (_events (world s))) h Hp s Hempty) as H.
    rewrite E1 in H. exact H. }
  destruct (wf_handlers _ Hwf1 m e He) as [l Hl].
  assert (l = []) by exact (Hempty1 _ _ Hl). subst l.
  destruct (push_bucket_spec s1 m e handlers set_handlers h Hwf1 He)
    as (l & s' & E & Hwf' & Hext' & Hc' & _ & _ & _);
    [left; auto|].
  pose proof (push_bucket_eq s1 m e handlers set_handlers h [] He Hl) as E'.
  rewrite E' in E. injection E as <-.
  exists m, (set_handlers (handlers e) e). eexists.
  split.
  - unfold on, on_name. rewrite Ht. cbn [negb].
    rewrite bind_eq. cbn [get_world]. rewrite Hhook. fold parts.
    rewrite bind_eq, E1, bind_eq, (read_entry_eq _ _ _ He). exact E'.
  - split; [exact Hwf'|]. split; [eapply ext_trans; eassumption|].
    split; [exact Hc1|]. split; [eapply locate_ext; eassumption|].
    split; [simpl; apply lookup_insert_eq|].
    split; simpl.
    + apply lookup_insert_eq.
    + intros b lb Hb Hbl. rewrite lookup_insert_ne in Hbl by auto.
      exact (Hempty1 _ _ Hbl).
Qed.

Lemma locate_same w w' parts : forall n,
  entries w' = entries w -> wildcard w' = wildcard w ->
  doubleWild w' = doubleWild w ->
  locate w' parts n = locate w parts n.
Proof.
  intros n He Hw Hd. revert n.
  induction parts as [|part rest IH]; intros n; [reflexivity|].
  cbn [locate]. rewrite He, Hw, Hd.
  destruct (decide (part = wildcard w)) as [H1|H1].
  - destruct (entries w !! n) as [e|]; [|reflexivity]. simpl.
    destruct (_all e) as [a|]; [|reflexivity]. simpl. apply IH.
  - destruct (decide (part = doubleWild w)) as [H2|H2]; [apply IH|].
    destruct (entries w !! n) as [e|]; [|reflexivity]. simpl.
    destruct (children e !! part) as [c|]; [|reflexivity]. simpl. apply IH.
Qed.

(** [off] with a pattern without double wildcard takes the handler out
    of the [handlers] bucket of the entry the pattern leads to. *)
Lemma off_loop_handlers parts : forall s scan h m e l,
  single_only (wildcard (world s)) (doubleWild (world s)) parts ->
  h <> VUndefined ->
  locate (world s) parts scan = Some m ->
  entries (world s) !! m = Some e ->
  arrays (world s) !! handlers e = Some l ->
  h ∈ l ->
  exists idx,
    indexOf l h = Some idx
    /\ off_loop (wildcard (world s)) (doubleWild (world s)) parts
         (Some (Entry scan)) h s
       = (Return tt,
          in_world (with_array (handlers e) (delete idx l) (world s)) s).
Proof.
  induction parts as [|p parts IH]; intros s scan h m e l Hp Hu Hloc He Hl Hin.
  - simpl in Hloc. injection Hloc as ->.
    destruct (indexOf_elem _ _ Hin) as [idx Hidx]. exists idx.
    split; [exact Hidx|]. cbn [off_loop].
    destruct (decide (h = VUndefined)) as [H3|H3]; [contradiction|].
    rewrite bind_eq, (read_entry_eq _ _ _ He).
    rewrite bind_eq, (read_array_eq _ _ _ Hl), Hidx.
    unfold splice1. rewrite bind_eq, (read_array_eq _ _ _ Hl).
    apply write_array_eq.
  - apply single_only_cons in Hp as [Hpart Hrest].
    cbn [off_loop]. cbn [locate] in Hloc.
    destruct (decide (p = wildcard (world s))) as [Hw|Hw].
    + destruct (entries (world s) !! scan) as [e0|] eqn:He0; [|discriminate Hloc].
      simpl in Hloc. destruct (_all e0) as [a|] eqn:Ha; [|discriminate Hloc].
      simpl in Hloc.
      rewrite bind_eq, (getAll_existing _ _ _ _ He0 Ha).
      apply (IH s a h m e l); assumption.
    + destruct (decide (p = doubleWild (world s))) as [Hd|Hd];
        [destruct Hpart; contradiction|].
      destruct (entries (world s) !! scan) as [e0|] eqn:He0; [|discriminate Hloc].
      simpl in Hloc.
      destruct (children e0 !! p) as [c|] eqn:Hc; [|discriminate Hloc].
      simpl in Hloc.
      rewrite bind_eq, (getExisting_own _ _ _ _ _ He0 Hc).
      apply (IH s c h m e l); assumption.
Qed.

Section Once.

Variables (hid pid : nat) (name : string) (params : list value).
Hypothesis h_inert : inert behaviour hid.

Let h := VUser hid.
Let process := VProcess pid (Name name) h.

(** The closure of [once] is alone in the store, in the [handlers]
    bucket [T] of the entry that its pattern leads to. *)
Let armed (T : loc) (s : State) : Prop :=
  wf (world s)
  /\ lone_in T process (world s)
  /\ single_only (wildcard (world s)) (doubleWild (world s))
       (split name (delimiter (world s)))
  /\ exists m e,
       locate (world s) (split name (delimiter (world s))) (_events (world s))
       = Some m
       /\ entries (world s) !! m = Some e /\ handlers e = T.

(** The closure and then the handler were applied, and the closure is
    gone from its bucket. *)
Let spent (T : loc) (s s' : State) : Prop :=
  world s' = with_array T [] (world s)
  /\ calls s' = calls s ++ [(process, params); (h, params)].

Lemma process_fires T s :
  armed T s ->
  exists s', call_with behaviour params process s = (Return tt, s')
             /\ spent T s s'.
Proof.
  intros (Hwf & [HT Hrest] & Hp & m & e & Hloc & He & <-).
  unfold call_with. rewrite bind_eq. unfold process at 1. cbn [fn_apply].
  fold process. rewrite bind_eq. unfold record_call at 1.
  set (s0 := {| world := world s; calls := calls s ++ [(process, params)] |}).
  assert (Hin : process ∈ [process]) by (apply list_elem_of_singleton; reflexivity).
  destruct (off_loop_handlers _ s0 (_events (world s0)) process m e [process]
              Hp ltac:(discriminate) Hloc He HT Hin) as (idx & Hidx & Eoff).
  assert (idx = 0).
  { cbn [indexOf] in Hidx. destruct (decide (process = process)) as [_|Hne];
      [congruence | contradiction]. }
  subst idx. cbn [delete list_delete] in Eoff.
  rewrite bind_eq.
  assert (E : off (Name name) process s0
              = (Return tt, in_world (with_array (handlers e) [] (world s0)) s0))
    by exact Eoff.
  rewrite E, bind_eq.
  destruct (fn_apply_inert hid params
              (in_world (with_array (handlers e) [] (world s0)) s0) h_inert)
    as (r & _ & Eh).
  fold h in Eh. rewrite Eh. eexists. split; [reflexivity|].
  split; [reflexivity|]. simpl. rewrite <- app_assoc. reflexivity.
Qed.

Lemma spent_store T s s' :
  armed T s -> spent T s s' ->
  wf (world s') /\ all_empty (world s')
  /\ entries (world s') = entries (world s).
Proof.
  intros (Hwf & [HT Hrest] & _) [Hw _]. rewrite Hw. split.
  - apply wf_with_array; [exact Hwf | eauto].
  - split; [|reflexivity]. intros a l. simpl. intros Hl.
    destruct (decide (T = a)) as [<-|Hne].
    + rewrite lookup_insert_eq in Hl. congruence.
    + rewrite lookup_insert_ne in Hl by exact Hne.
      eapply Hrest; [|exact Hl]. auto.
Qed.

Lemma bucket_cases T s b l :
  armed T s -> arrays (world s) !! b = Some l -> l = [process] \/ l = [].
Proof.
  intros (_ & [HT Hrest] & _) Hl. destruct (decide (b = T)) as [->|Hne].
  - left. congruence.
  - right. exact (Hrest b l Hne Hl).
Qed.

Lemma fire_backward T s b :
  armed T s -> arrays (world s) !! b = Some [process] ->
  exists s', call_backward (call_with behaviour params) b 1 s = (Return tt, s')
             /\ spent T s s'.
Proof.
  intros Ha Hb. cbn [call_backward].
  rewrite bind_eq, (read_array_eq _ _ _ Hb), bind_eq.
  cbn [lookup list_lookup from_option id].
  destruct (process_fires T s Ha) as (s' & E & Hs).
  change (truthy process) with true. cbv iota. rewrite E.
  exists s'. split; [reflexivity | exact Hs].
Qed.

Lemma fire_forward T s b :
  armed T s -> arrays (world s) !! b = Some [process] ->
  exists s', call_forward (call_with behaviour params) b 0 1 s = (Return tt, s')
             /\ spent T s s'.
Proof.
  intros Ha Hb. cbn [call_forward].
  rewrite bind_eq, (read_array_eq _ _ _ Hb), bind_eq.
  cbn [lookup list_lookup from_option id].
  destruct (process_fires T s Ha) as (s' & E & Hs).
  change (truthy process) with true. cbv iota. rewrite E.
  exists s'. split; [reflexivity | exact Hs].
Qed.

(** On a store of empty buckets a walk applies nothing. *)
Lemma walk_empty parts : forall scan s,
  plain parts ->
  wf (world s) -> all_empty (world s) ->
  (forall n, scan = Some n -> is_Some (entries (world s) !! n)) ->
  _emit (Entry <$> scan) parts None (Some (call_with behaviour params)) s
  = (Return None, s).
Proof.
  induction parts as [|part rest IH]; intros [n|] s Hplain Hwf Hemp Hn;
    cbn [fmap option_fmap option_map];
    try apply _emit_None.
  - destruct (Hn n eq_refl) as [e He].
    destruct (wf_handlers _ Hwf n e He) as [l Hl].
    assert (l = []) by exact (Hemp _ _ Hl). subst l.
    cbn [_emit].
    rewrite bind_eq, (read_entry_eq _ _ _ He), bind_eq, (read_array_eq _ _ _ Hl).
    reflexivity.
  - destruct (Hn n eq_refl) as [e He].
    destruct (plain_cons _ _ Hplain) as [Hkey Hrest].
    destruct (wf_allBelow _ Hwf n e He) as [l Hl].
    assert (l = []) by exact (Hemp _ _ Hl). subst l.
    assert (Hchild : forall c, children e !! part = Some c ->
              is_Some (entries (world s) !! c))
      by (intros c Hc; exact (wf_children _ Hwf _ _ _ _ He Hc)).
    rewrite _emit_call_cons.
    rewrite bind_eq, (read_entry_eq _ _ _ He), bind_eq, (read_array_eq _ _ _ Hl).
    rewrite bind_eq. cbn [length call_backward]. unfold mret at 1, M_ret at 1.
    rewrite bind_eq, (read_entry_eq _ _ _ He), bind_eq.
    destruct (_all e) as [a|] eqn:Ha.
    + rewrite bind_eq, (getAll_existing _ _ _ _ He Ha).
      assert (Hall : forall n0, Some a = Some n0 ->
                is_Some (entries (world s) !! n0))
        by (intros ? [= <-]; exact (wf_all _ Hwf _ _ _ He Ha)).
      rewrite_walk (IH (Some a) s Hrest Hwf Hemp Hall).
      rewrite bind_eq, (read_entry_eq _ _ _ He).
      rewrite bind_eq, (child_of_plain _ _ _ Hkey).
      exact (IH (children e !! part) s Hrest Hwf Hemp Hchild).
    + unfold mret at 1, M_ret at 1.
      rewrite bind_eq, (read_entry_eq _ _ _ He).
      rewrite bind_eq, (child_of_plain _ _ _ Hkey).
      exact (IH (children e !! part) s Hrest Hwf Hemp Hchild).
Qed.

Let outcome (T : loc) (r : completion (option (list value)) * State)
    (s : State) : Prop :=
  r = (Return None, s) \/ exists s', r = (Return None, s') /\ spent T s s'.

(** A walk of an armed store applies nothing, or it comes to the closure
    once, and what is left of the walk finds the buckets empty. *)
Lemma walk_armed T parts : forall scan s,
  plain parts ->
  armed T s ->
  (forall n, scan = Some n -> is_Some (entries (world s) !! n)) ->
  outcome T (_emit (Entry <$> scan) parts None
               (Some (call_with behaviour params)) s) s.
Proof.
  induction parts as [|part rest IH]; intros [n|] s Hplain Harm Hn;
    cbn [fmap option_fmap option_map];
    try (left; apply _emit_None).
  - pose proof Harm as (Hwf & _).
    destruct (Hn n eq_refl) as [e He].
    destruct (wf_handlers _ Hwf n e He) as [l Hl].
    cbn [_emit].
    rewrite bind_eq, (read_entry_eq _ _ _ He), bind_eq, (read_array_eq _ _ _ Hl).
    rewrite bind_eq.
    destruct (bucket_cases T s _ l Harm Hl) as [-> | ->].
    + right. cbn [length].
      destruct (fire_forward T s _ Harm Hl) as (s1 & E & Hs).
      rewrite E. exists s1. split; [reflexivity | exact Hs].
    + left. reflexivity.
  - pose proof Harm as (Hwf & _).
    destruct (Hn n eq_refl) as [e He].
    destruct (plain_cons _ _ Hplain) as [Hkey Hrest].
    destruct (wf_allBelow _ Hwf n e He) as [l Hl].
    assert (Hchild : forall c, children e !! part = Some c ->
              is_Some (entries (world s) !! c))
      by (intros c Hc; exact (wf_children _ Hwf _ _ _ _ He Hc)).
    rewrite _emit_call_cons.
    rewrite bind_eq, (read_entry_eq _ _ _ He), bind_eq, (read_array_eq _ _ _ Hl).
    rewrite bind_eq.
    destruct (bucket_cases T s _ l Harm Hl) as [-> | ->].
    + right. cbn [length].
      destruct (fire_backward T s _ Harm Hl) as (s1 & E & Hs).
      rewrite E. exists s1. split; [|exact Hs].
      destruct (spent_store T s s1 Harm Hs) as (Hwf1 & Hemp1 & Hent1).
      assert (He1 : entries (world s1) !! n = Some e) by (rewrite Hent1; exact He).
      assert (Hchild1 : forall c, children e !! part = Some c ->
                is_Some (entries (world s1) !! c))
        by (intros c Hc; exact (wf_children _ Hwf1 _ _ _ _ He1 Hc)).
      rewrite bind_eq, (read_entry_eq _ _ _ He1), bind_eq.
      destruct (_all e) as [a|] eqn:Ha.
      * rewrite bind_eq, (getAll_existing _ _ _ _ He1 Ha).
        assert (Hall : forall n0, Some a = Some n0 ->
                  is_Some (entries (world s1) !! n0))
          by (intros ? [= <-]; exact (wf_all _ Hwf1 _ _ _ He1 Ha)).
        rewrite_walk (walk_empty rest (Some a) s1 Hrest Hwf1 Hemp1 Hall).
        rewrite bind_eq, (read_entry_eq _ _ _ He1).
        rewrite bind_eq, (child_of_plain _ _ _ Hkey).
        exact (walk_empty rest (children e !! part) s1 Hrest Hwf1 Hemp1
                 Hchild1).
      * unfold mret at 1, M_ret at 1.
        rewrite bind_eq, (read_entry_eq _ _ _ He1).
        rewrite bind_eq, (child_of_plain _ _ _ Hkey).
        exact (walk_empty rest (children e !! part) s1 Hrest Hwf1 Hemp1
                 Hchild1).
    + cbn [length call_backward]. unfold mret at 1, M_ret at 1.
      rewrite bind_eq, (read_entry_eq _ _ _ He), bind_eq.
      destruct (_all e) as [a|] eqn:Ha.
      * rewrite bind_eq, (getAll_existing _ _ _ _ He Ha).
        destruct (IH (Some a) s Hrest Harm) as [E|(s1 & E & Hs)];
          [intros ? [= <-]; exact (wf_all _ Hwf _ _ _ He Ha)| |];
          cbn [fmap option_fmap option_map] in E; rewrite E.
        -- rewrite bind_eq, (read_entry_eq _ _ _ He).
           rewrite bind_eq, (child_of_plain _ _ _ Hkey).
           exact (IH (children e !! part) s Hrest Harm Hchild).
        -- right. exists s1. split; [|exact Hs].
           destruct (spent_store T s s1 Harm Hs) as (Hwf1 & Hemp1 & Hent1).
           assert (He1 : entries (world s1) !! n = Some e)
             by (rewrite Hent1; exact He).
           rewrite bind_eq, (read_entry_eq _ _ _ He1).
           rewrite bind_eq, (child_of_plain _ _ _ Hkey).
           apply (walk_empty rest (children e !! part) s1 Hrest Hwf1 Hemp1).
           intros c Hc. exact (wf_children _ Hwf1 _ _ _ _ He1 Hc).
      * unfold mret at 1, M_ret at 1.
        rewrite bind_eq, (read_entry_eq _ _ _ He).
        rewrite bind_eq, (child_of_plain _ _ _ Hkey).
        exact (IH (children e !! part) s Hrest Harm Hchild).
Qed.

(** A walk that comes to a bucket which is not empty applies the
    closure. *)
Lemma walk_fires T parts : forall n s,
  plain parts ->
  armed T s -> meets (world s) parts n ->
  exists s',
    _emit (Some (Entry n)) parts None (Some (call_with behaviour params)) s
    = (Return None, s')
    /\ spent T s s'.
Proof.
  induction parts as [|part rest IH]; intros n s Hplain Harm Hm.
  - destruct Hm as (e & x & l & He & Hl).
    destruct (bucket_cases T s _ _ Harm Hl) as [Hx|Hx]; [|discriminate Hx].
    rewrite Hx in Hl.
    destruct (walk_armed T [] (Some n) s Hplain Harm) as [E|H];
      [intros ? [= <-]; eauto | | exact H].
    exfalso. revert E. cbn [fmap option_fmap option_map _emit].
    rewrite bind_eq, (read_entry_eq _ _ _ He), bind_eq, (read_array_eq _ _ _ Hl).
    rewrite bind_eq. cbn [length].
    destruct (fire_forward T s _ Harm Hl) as (s1 & -> & _ & Hc).
    intros [= <-]. apply (f_equal length) in Hc.
    rewrite length_app in Hc. simpl in Hc. lia.
  - pose proof Harm as (Hwf & _).
    destruct Hm as (e & He & Hm).
    destruct (plain_cons _ _ Hplain) as [Hkey Hrest].
    destruct (walk_armed T (part :: rest) (Some n) s Hplain Harm) as [E|H];
      [intros ? [= <-]; eauto | | exact H].
    exfalso. revert E.
    destruct (wf_allBelow _ Hwf n e He) as [l Hl].
    cbn [fmap option_fmap option_map]. rewrite _emit_call_cons.
    rewrite bind_eq, (read_entry_eq _ _ _ He), bind_eq, (read_array_eq _ _ _ Hl).
    rewrite bind_eq.
    assert (Hgrow : forall s1 s2 : State,
              spent T s s1 -> calls s2 = calls s1 -> s2 <> s).
    { intros s1 s2 [_ Hc] H2 ->. rewrite Hc in H2.
      apply (f_equal length) in H2. rewrite length_app in H2.
      simpl in H2. lia. }
    destruct (bucket_cases T s _ l Harm Hl) as [-> | ->].
    + cbn [length].
      destruct (fire_backward T s _ Harm Hl) as (s1 & E & Hs). rewrite E.
      destruct (spent_store T s s1 Harm Hs) as (Hwf1 & Hemp1 & Hent1).
      assert (He1 : entries (world s1) !! n = Some e) by (rewrite Hent1; exact He).
      assert (Hchild1 : forall c, children e !! part = Some c ->
                is_Some (entries (world s1) !! c))
        by (intros c Hc; exact (wf_children _ Hwf1 _ _ _ _ He1 Hc)).
      rewrite bind_eq, (read_entry_eq _ _ _ He1), bind_eq.
      destruct (_all e) as [a|] eqn:Ha.
      * rewrite bind_eq, (getAll_existing _ _ _ _ He1 Ha).
        assert (Hall : forall n0, Some a = Some n0 ->
                  is_Some (entries (world s1) !! n0))
          by (intros ? [= <-]; exact (wf_all _ Hwf1 _ _ _ He1 Ha)).
        rewrite_walk (walk_empty rest (Some a) s1 Hrest Hwf1 Hemp1 Hall).
        rewrite bind_eq, (read_entry_eq _ _ _ He1).
        rewrite bind_eq, (child_of_plain _ _ _ Hkey).
        rewrite (walk_empty rest (children e !! part) s1 Hrest Hwf1 Hemp1
                   Hchild1).
        intros [= E1]. exact (Hgrow s1 s1 Hs eq_refl E1).
      * unfold mret at 1, M_ret at 1.
        rewrite bind_eq, (read_entry_eq _ _ _ He1).
        rewrite bind_eq, (child_of_plain _ _ _ Hkey).
        rewrite (walk_empty rest (children e !! part) s1 Hrest Hwf1 Hemp1
                   Hchild1).
        intros [= E1]. exact (Hgrow s1 s1 Hs eq_refl E1).
    + destruct Hm as [(x & l & Hl')|Hm]; [congruence|].
      cbn [length call_backward]. unfold mret at 1, M_ret at 1.
      rewrite bind_eq, (read_entry_eq _ _ _ He), bind_eq.
      destruct (_all e) as [a|] eqn:Ha.
      * rewrite bind_eq, (getAll_existing _ _ _ _ He Ha).
        destruct (walk_armed T rest (Some a) s Hrest Harm)
          as [E|(s1 & E & Hs)];
          [intros ? [= <-]; exact (wf_all _ Hwf _ _ _ He Ha)| |];
          cbn [fmap option_fmap option_map] in E; rewrite E.
        -- rewrite bind_eq, (read_entry_eq _ _ _ He).
           destruct Hm as [(a' & Ha' & Hm)|(c & Hc & Hm)].
           ++ injection Ha' as <-.
              destruct (IH a s Hrest Harm Hm) as (s1 & E1 & Hs).
              rewrite E1 in E. injection E as ->.
              exfalso. exact (Hgrow s s Hs eq_refl eq_refl).
           ++ rewrite bind_eq, (child_of_own _ _ _ _ Hc).
              destruct (IH c s Hrest Harm Hm) as (s1 & -> & Hs).
              intros [= E1]. exact (Hgrow s1 s1 Hs eq_refl E1).
        -- destruct (spent_store T s s1 Harm Hs) as (Hwf1 & Hemp1 & Hent1).
           assert (He1 : entries (world s1) !! n = Some e)
             by (rewrite Hent1; exact He).
           assert (Hchild1 : forall c, children e !! part = Some c ->
                     is_Some (entries (world s1) !! c))
             by (intros c Hc; exact (wf_children _ Hwf1 _ _ _ _ He1 Hc)).
           rewrite bind_eq, (read_entry_eq _ _ _ He1).
           rewrite bind_eq, (child_of_plain _ _ _ Hkey).
           rewrite (walk_empty rest (children e !! part) s1 Hrest Hwf1 Hemp1
                      Hchild1).
           intros [= E1]. exact (Hgrow s1 s1 Hs eq_refl E1).
      * unfold mret at 1, M_ret at 1.
        rewrite bind_eq, (read_entry_eq _ _ _ He).
        destruct Hm as [(a' & Ha' & Hm)|(c & Hc & Hm)]; [discriminate Ha'|].
        rewrite bind_eq, (child_of_own _ _ _ _ Hc).
        destruct (IH c s Hrest Harm Hm) as (s1 & -> & Hs).
        intros [= E1]. exact (Hgrow s1 s1 Hs eq_refl E1).
Qed.

End Once.

(** X2: on a new emitter without hook, a function [h] that returns and
    leaves the emitter alone, registered with [once] on a pattern of
    plain segments none of which is the double wildcard, fires once: the
    first [emit] of the event spelled like the pattern applies the
    closure [process] and then [h], and nothing else; the second applies
    nothing. *)
Theorem once_fires_once props name hid p1 p2 :
  plain (split name (delimiter (constructor props))) ->
  opt_storeHandlers props = None ->
  inert behaviour hid ->
  doubleWild (constructor props) = wildcard (constructor props)
  \/ doubleWild (constructor props)
     ∉ split name (delimiter (constructor props)) ->
  let h := VUser hid in
  let process := VProcess 0 (Name name) h in
  let s := (once (Name name) h (initial props)).2 in
  exists s1 s2,
    emit behaviour name p1 s = (Return p1, s1)
    /\ calls s1 = [(process, p1); (h, p1)]
    /\ emit behaviour name p2 s1 = (Return p2, s2)
    /\ calls s2 = calls s1.
Proof.
  intros Hplain Hhook Hi Hdw h process s.
  set (w0 := constructor props) in *.
  set (s0 := {| world :=
                  {| delimiter := delimiter w0; wildcard := wildcard w0;
                     doubleWild := doubleWild w0; _events := _events w0;
                     storeHandlers := storeHandlers w0; event := event w0;
                     entries := entries w0; arrays := arrays w0;
                     next := next w0; next_fn := S (next_fn w0);
                     member_below := member_below w0;
                     array_below := array_below w0 |};
                calls := [] |}).
  set (parts := split name (delimiter w0)) in *.
  assert (Hwf0 : wf (world s0))
    by (apply (wf_same w0); [reflexivity .. | apply wf_constructor]).
  assert (Hemp0 : all_empty (world s0)).
  { intros a l Ha. simpl in Ha.
    apply lookup_insert_Some in Ha as [[_ <-]|[_ Ha]]; [reflexivity|].
    apply lookup_singleton_Some in Ha as [_ <-]. reflexivity. }
  assert (Hp0 : single_only (wildcard (world s0)) (doubleWild (world s0)) parts)
    by exact (single_only_tokens w0 parts Hdw).
  destruct (on_lone s0 name process Hplain Hwf0 Hhook eq_refl Hemp0 Hp0)
    as (m & e & s' & E & Hwf' & Hext & Hc & Hloc & He & Hlone).
  assert (Eonce : once (Name name) h (initial props)
                  = (Return (VCancel (Name name) process), s')).
  { transitivity
      (match on (Name name) process s0 with
       | (Return _, s') => (Return (VCancel (Name name) process), s')
       | (Throw e0, s') => (Throw e0, s')
       end); [reflexivity | rewrite E; reflexivity]. }
  assert (Es : s = s') by (subst s; rewrite Eonce; reflexivity).
  rewrite Es. clear s Es Eonce.
  pose proof (ext_delimiter _ _ Hext) as Hd.
  pose proof (ext_wildcard _ _ Hext) as Hw.
  pose proof (ext_doubleWild _ _ Hext) as Hdd.
  pose proof (ext_events _ _ Hext) as Hr.
  assert (Ep : split name (delimiter (world s')) = parts)
    by (rewrite Hd; reflexivity).
  assert (Hm : meets (world s') parts (_events (world s'))).
  { rewrite Hr. destruct Hlone as [HT _].
    apply (locate_meets _ _ _ m e process []); auto.
    rewrite Hdd, Hw. exact Hdw. }
  set (sa := announced name s').
  assert (Harm : wf (world sa)
            /\ lone_in (handlers e) process (world sa)
            /\ single_only (wildcard (world sa)) (doubleWild (world sa))
                 (split name (delimiter (world sa)))
            /\ exists m e0,
                 locate (world sa) (split name (delimiter (world sa)))
                   (_events (world sa)) = Some m
                 /\ entries (world sa) !! m = Some e0
                 /\ handlers e0 = handlers e).
  { split; [apply (wf_same (world s')); [reflexivity .. | exact Hwf']|].
    split; [exact Hlone|].
    split.
    - change (single_only (wildcard (world s')) (doubleWild (world s'))
                (split name (delimiter (world s')))).
      rewrite Ep, Hw, Hdd. exact Hp0.
    - exists m, e. split; [|split; [exact He | reflexivity]].
      rewrite (locate_same (world s')); [|reflexivity ..].
      change (locate (world s') (split name (delimiter (world s')))
                (_events (world s')) = Some m).
      rewrite Ep, Hr. exact Hloc. }
  destruct (walk_fires hid 0 name p1 Hi (handlers e) parts (_events (world s'))
              sa Hplain Harm)
    as (s1 & E1 & Hw1 & Hc1);
    [apply (meets_same (world s')); [reflexivity .. | exact Hm]|].
  exists s1.
  destruct (spent_store hid 0 name p1 (handlers e) sa s1 Harm (conj Hw1 Hc1))
    as (Hwf1 & Hemp1 & Hent1).
  set (sb := announced name s1).
  assert (Ep1 : split name (delimiter (world s1)) = parts)
    by (rewrite Hw1; exact Ep).
  exists sb.
  split; [rewrite (emit_split name p1 s' parts Ep); fold sa; rewrite E1;
          reflexivity|].
  split; [rewrite Hc1; cbn [sa announced calls]; rewrite Hc; reflexivity|].
  split; [|reflexivity].
  rewrite (emit_split name p2 s1 parts Ep1). fold sb.
  assert (Hwfb : wf (world sb))
    by (apply (wf_same (world s1)); [reflexivity .. | exact Hwf1]).
  assert (Hroot : forall n, Some (_events (world s1)) = Some n ->
            is_Some (entries (world sb) !! n))
    by (intros ? [= <-]; apply (wf_root _ Hwf1)).
  rewrite_walk (walk_empty p2 parts (Some (_events (world s1))) sb Hplain
                  Hwfb Hemp1 Hroot).
  reflexivity.
Qed.

(** ** Two handlers in one [allBelow] bucket *)

Lemma getChild_existing s n e key c :
  entries (world s) !! n = Some e -> children e !! key = Some c ->
  getChild n key s = (Return (Entry c), s).
Proof.
  intros H Hc. unfold getChild. rewrite bind_eq, (read_entry_eq _ _ _ H).
  rewrite bind_eq, (child_of_own _ _ _ _ Hc). reflexivity.
Qed.

(** Where the entries of the pattern are there already, the loop of
    [on] creates nothing and pushes the handler onto the end of the
    [allBelow] bucket. *)
Lemma on_loop_existing pre : forall s scan h n en l0,
  doubleWild (world s) <> wildcard (world s) ->
  doubleWild (world s) ∉ pre ->
  locate (world s) pre scan = Some n ->
  entries (world s) !! n = Some en ->
  arrays (world s) !! allBelow en = Some l0 ->
  on_loop (wildcard (world s)) (doubleWild (world s)) None
          (pre ++ [doubleWild (world s)]) (Entry scan) h s
  = (Return (Entry n),
     in_world (with_entry n (set_allBelow (allBelow en) en)
                 (with_array (allBelow en) (l0 ++ [h]) (world s))) s).
Proof.
  induction pre as [|p pre IH]; intros s scan h n en l0 Hne Hpre Hloc Hen Hl.
  - simpl in Hloc. injection Hloc as ->. cbn [app on_loop].
    destruct (decide (doubleWild (world s) = wildcard (world s))) as [H1|H1];
      [contradiction|].
    destruct (decide (doubleWild (world s) = doubleWild (world s))) as [H2|H2];
      [|contradiction].
    rewrite bind_eq, (read_entry_eq _ _ _ Hen).
    rewrite bind_eq, (push_eq _ _ _ _ Hl). cbn [stored].
    rewrite bind_eq. unfold mret at 1, M_ret at 1.
    set (s1 := in_world (with_array (allBelow en) (l0 ++ [h]) (world s)) s).
    assert (He1 : entries (world s1) !! n = Some en) by exact Hen.
    rewrite bind_eq, (read_entry_eq _ _ _ He1), bind_eq, write_entry_eq.
    reflexivity.
  - apply not_elem_of_cons in Hpre as [Hp Hpre].
    cbn [app on_loop]. cbn [locate] in Hloc.
    destruct (decide (p = wildcard (world s))) as [Hw|Hw].
    + destruct (entries (world s) !! scan) as [e|] eqn:He; [|discriminate Hloc].
      simpl in Hloc. destruct (_all e) as [a|] eqn:Ha; [|discriminate Hloc].
      simpl in Hloc.
      rewrite bind_eq, (getAll_existing _ _ _ _ He Ha).
      apply (IH s a h n en l0); assumption.
    + destruct (decide (p = doubleWild (world s))) as [Hd|Hd]; [congruence|].
      destruct (entries (world s) !! scan) as [e|] eqn:He; [|discriminate Hloc].
      simpl in Hloc.
      destruct (children e !! p) as [c|] eqn:Hc; [|discriminate Hloc].
      simpl in Hloc.
      rewrite bind_eq, (getChild_existing _ _ _ _ _ He Hc).
      apply (IH s c h n en l0); assumption.
Qed.

Lemma on_existing_below s name h pre n en l0 :
  wf (world s) -> storeHandlers (world s) = None ->
  doubleWild (world s) <> wildcard (world s) ->
  truthy h = true ->
  split name (delimiter (world s)) = pre ++ [doubleWild (world s)] ->
  doubleWild (world s) ∉ pre ->
  locate (world s) pre (_events (world s)) = Some n ->
  entries (world s) !! n = Some en ->
  arrays (world s) !! allBelow en = Some l0 ->
  exists s',
    on (Name name) h s = (Return tt, s')
    /\ arrays (world s') !! allBelow en = Some (l0 ++ [h]).
Proof.
  intros Hwf Hhook Hne Ht Hs Hpre Hloc Hen Hl.
  destruct (wf_handlers _ Hwf n en Hen) as [lh Hlh].
  pose proof (wf_buckets _ Hwf n en Hen) as Hdiff.
  set (e1 := set_allBelow (allBelow en) en).
  set (s1 := in_world (with_entry n e1
                         (with_array (allBelow en) (l0 ++ [h]) (world s))) s).
  assert (He1 : entries (world s1) !! n = Some e1)
    by (simpl; apply lookup_insert_eq).
  assert (Hlh1 : arrays (world s1) !! handlers e1 = Some lh)
    by (simpl; rewrite lookup_insert_ne by auto; exact Hlh).
  eexists. split.
  - unfold on, on_name. rewrite Ht. cbn [negb].
    rewrite bind_eq. cbn [get_world]. rewrite Hhook, Hs.
    rewrite bind_eq, (on_loop_existing pre s _ h n en l0 Hne Hpre Hloc Hen Hl).
    fold e1 s1. rewrite bind_eq, (read_entry_eq _ _ _ He1).
    apply (push_bucket_eq s1 n e1 handlers set_handlers h lh He1 Hlh1).
  - simpl. rewrite lookup_insert_ne by auto. apply lookup_insert_eq.
Qed.

Lemma gather_through w pre : forall ev scan n en b seg more g,
  doubleWild w ∉ pre -> fits (wildcard w) pre ev ->
  locate w pre scan = Some n ->
  entries w !! n = Some en -> arrays w !! allBelow en = Some b ->
  gather w (ev ++ seg :: more) (Some scan) = Some g ->
  exists l1 l2, g = l1 ++ b ++ l2.
Proof.
  induction pre as [|p pre IH];
    intros ev scan n en b seg more g Hpre Hfit Hloc Hen Hb Hg;
    inversion Hfit as [|? x ? ev' Hpx Hfit']; subst.
  - simpl in Hloc. injection Hloc as ->. cbn [app gather] in Hg.
    rewrite Hen in Hg. simpl in Hg. rewrite Hb in Hg. simpl in Hg.
    destruct (if _all en is Some a then gather w more (Some a) else Some [])
      as [wild|]; [|discriminate Hg].
    simpl in Hg.
    destruct (gather w more (children en !! seg)) as [child|];
      [|discriminate Hg].
    simpl in Hg. injection Hg as <-. exists [], (wild ++ child). reflexivity.
  - apply not_elem_of_cons in Hpre as [Hp Hpre].
    cbn [locate] in Hloc. cbn [app gather] in Hg.
    destruct (entries w !! scan) as [e0|] eqn:He0; [|discriminate Hg].
    simpl in Hg.
    destruct (arrays w !! allBelow e0) as [below|]; [|discriminate Hg].
    simpl in Hg.
    destruct (if _all e0 is Some a
              then gather w (ev' ++ seg :: more) (Some a) else Some [])
      as [wild|] eqn:Hw; [|discriminate Hg].
    simpl in Hg.
    destruct (gather w (ev' ++ seg :: more) (children e0 !! x))
      as [child|] eqn:Hc; [|discriminate Hg].
    simpl in Hg. injection Hg as <-.
    destruct (decide (p = wildcard w)) as [Hpw|Hpw].
    + simpl in Hloc. destruct (_all e0) as [a|]; [|discriminate Hloc].
      simpl in Hloc.
      destruct (IH ev' a n en b seg more wild Hpre Hfit' Hloc Hen Hb Hw)
        as (l1 & l2 & ->).
      exists (below ++ l1), (l2 ++ child). rewrite <- !app_assoc. reflexivity.
    + destruct (decide (p = doubleWild w)) as [H2|H2]; [congruence|].
      destruct Hpx as [Hpx|Hpx]; [contradiction|]. subst x.
      simpl in Hloc. destruct (children e0 !! p) as [c|]; [|discriminate Hloc].
      simpl in Hloc.
      destruct (IH ev' c n en b seg more child Hpre Hfit' Hloc Hen Hb Hc)
        as (l1 & l2 & ->).
      exists (below ++ wild ++ l1), l2. rewrite <- !app_assoc. reflexivity.
Qed.

Lemma eager_through w pre : forall ev scan n en b seg more g,
  doubleWild w ∉ pre -> fits (wildcard w) pre ev ->
  locate w pre scan = Some n ->
  entries w !! n = Some en -> arrays w !! allBelow en = Some b ->
  eager w (ev ++ seg :: more) (Some scan) = Some g ->
  exists l1 l2, g = l1 ++ rev (truthy_only b) ++ l2.
Proof.
  induction pre as [|p pre IH];
    intros ev scan n en b seg more g Hpre Hfit Hloc Hen Hb Hg;
    inversion Hfit as [|? x ? ev' Hpx Hfit']; subst.
  - simpl in Hloc. injection Hloc as ->. cbn [app eager] in Hg.
    rewrite Hen in Hg. simpl in Hg. rewrite Hb in Hg. simpl in Hg.
    destruct (if _all en is Some a then eager w more (Some a) else Some [])
      as [wild|]; [|discriminate Hg].
    simpl in Hg.
    destruct (eager w more (children en !! seg)) as [child|];
      [|discriminate Hg].
    simpl in Hg. injection Hg as <-. exists [], (wild ++ child). reflexivity.
  - apply not_elem_of_cons in Hpre as [Hp Hpre].
    cbn [locate] in Hloc. cbn [app eager] in Hg.
    destruct (entries w !! scan) as [e0|] eqn:He0; [|discriminate Hg].
    simpl in Hg.
    destruct (arrays w !! allBelow e0) as [below|]; [|discriminate Hg].
    simpl in Hg.
    destruct (if _all e0 is Some a
              then eager w (ev' ++ seg :: more) (Some a) else Some [])
      as [wild|] eqn:Hw; [|discriminate Hg].
    simpl in Hg.
    destruct (eager w (ev' ++ seg :: more) (children e0 !! x))
      as [child|] eqn:Hc; [|discriminate Hg].
    simpl in Hg. injection Hg as <-.
    destruct (decide (p = wildcard w)) as [Hpw|Hpw].
    + simpl in Hloc. destruct (_all e0) as [a|]; [|discriminate Hloc].
      simpl in Hloc.
      destruct (IH ev' a n en b seg more wild Hpre Hfit' Hloc Hen Hb Hw)
        as (l1 & l2 & ->).
      exists (rev (truthy_only below) ++ l1), (l2 ++ child).
      rewrite <- !app_assoc. reflexivity.
    + destruct (decide (p = doubleWild w)) as [H2|H2]; [congruence|].
      destruct Hpx as [Hpx|Hpx]; [contradiction|]. subst x.
      simpl in Hloc. destruct (children e0 !! p) as [c|]; [|discriminate Hloc].
      simpl in Hloc.
      destruct (IH ev' c n en b seg more child Hpre Hfit' Hloc Hen Hb Hc)
        as (l1 & l2 & ->).
      exists (rev (truthy_only below) ++ wild ++ l1), l2.
      rewrite <- !app_assoc. reflexivity.
Qed.

Lemma gather_elements w parts : forall scan g v,
  gather w parts scan = Some g -> v ∈ g ->
  exists a l, arrays w !! a = Some l /\ v ∈ l.
Proof.
  induction parts as [|part rest IH]; intros [n|] g v Hg Hv;
    try (simpl in Hg; injection Hg as <-; apply elem_of_nil in Hv;
         contradiction).
  - simpl in Hg. destruct (entries w !! n) as [e|]; [|discriminate Hg].
    simpl in Hg. eauto.
  - cbn [gather] in Hg.
    destruct (entries w !! n) as [e|]; [|discriminate Hg]. simpl in Hg.
    destruct (arrays w !! allBelow e) as [below|] eqn:Hb; [|discriminate Hg].
    simpl in Hg.
    destruct (if _all e is Some a then gather w rest (Some a) else Some [])
      as [wild|] eqn:Hw; [|discriminate Hg].
    simpl in Hg.
    destruct (gather w rest (children e !! part)) as [child|] eqn:Hc;
      [|discriminate Hg].
    simpl in Hg. injection Hg as <-.
    apply elem_of_app in Hv as [Hv|Hv]; [eauto|].
    apply elem_of_app in Hv as [Hv|Hv].
    + destruct (_all e) as [a|].
      * exact (IH (Some a) wild v Hw Hv).
      * injection Hw as <-. apply elem_of_nil in Hv. contradiction.
    + exact (IH (children e !! part) child v Hc Hv).
Qed.

Lemma before_fmap {A B} (f : A -> B) x y l :
  before x y l -> before (f x) (f y) (f <$> l).
Proof.
  intros (a & b & c & ->). exists (f <$> a), (f <$> b), (f <$> c).
  rewrite fmap_app, fmap_cons, fmap_app, fmap_cons. reflexivity.
Qed.

Lemma before_app {A} (x y : A) l1 l l2 :
  before x y l -> before x y (l1 ++ l ++ l2).
Proof.
  intros (a & b & c & ->). exists (l1 ++ a), b, (c ++ l2).
  rewrite <- !app_assoc. simpl. rewrite <- !app_assoc. reflexivity.
Qed.

(** C3, as amended: on any well-formed emitter without hook whose stored
    handlers are functions that return and leave the emitter alone, let
    [H1] and then [H2] be registered on a pattern of plain segments that
    ends in the double wildcard.  For every event of plain segments that
    fits the segments before the double wildcard and has at least one
    segment more, [emit] applies the handlers of a list in which [H2]
    comes before [H1], and [emitAsyncSequential] those of a list in which
    [H1] comes before [H2]. *)
Theorem below_bucket_order s name id1 id2 pre event ev seg more params :
  wf (world s) ->
  plain (split name (delimiter (world s))) ->
  plain (split event (delimiter (world s))) ->
  all_good_unhooked (inert_value behaviour) s ->
  doubleWild (world s) <> wildcard (world s) ->
  inert behaviour id1 -> inert behaviour id2 ->
  split name (delimiter (world s)) = pre ++ [doubleWild (world s)] ->
  doubleWild (world s) ∉ pre ->
  split event (delimiter (world s)) = ev ++ seg :: more ->
  fits (wildcard (world s)) pre ev ->
  let H1 := VUser id1 in
  let H2 := VUser id2 in
  let s2 := (on (Name name) H2 (on (Name name) H1 s).2).2 in
  (exists found,
     emit behaviour event params s2
     = (Return params, logged found params (announced event s2))
     /\ before H2 H1 found)
  /\ (exists collected,
        emitAsyncSequential behaviour event params s2
        = (Return (Resolved params),
           logged collected params (announced event s2))
        /\ before H1 H2 collected).
Proof.
  intros Hwf Hplain Hpev Hall Hne Hi1 Hi2 Hs Hpre Hev Hfit H1 H2 s2.
  rewrite Hev in Hpev.
  pose proof Hall as [Hhook _].
  destruct (on_spec s name H1 Hplain Hwf Hhook eq_refl)
    as (m1 & e1 & l1 & s1 & E1 & Hwf1 & Hext1 & _ & _ & _ & _ & Hdw1).
  destruct (Hdw1 Hne pre [] Hs Hpre) as (n & en & ln & Hn & Hen & Hln & Hin & _).
  pose proof (ext_delimiter _ _ Hext1) as Hd1.
  pose proof (ext_wildcard _ _ Hext1) as Hw1.
  pose proof (ext_doubleWild _ _ Hext1) as Hdd1.
  pose proof (ext_events _ _ Hext1) as Hr1.
  pose proof (ext_storeHandlers _ _ Hext1) as Hh1.
  assert (Hhook1 : storeHandlers (world s1) = None) by congruence.
  assert (Hne1 : doubleWild (world s1) <> wildcard (world s1)) by congruence.
  assert (Hs1 : split name (delimiter (world s1))
                = pre ++ [doubleWild (world s1)]) by (rewrite Hd1, Hdd1; exact Hs).
  assert (Hpre1 : doubleWild (world s1) ∉ pre) by (rewrite Hdd1; exact Hpre).
  assert (Hn1 : locate (world s1) pre (_events (world s1)) = Some n)
    by (rewrite Hr1; exact Hn).
  assert (Hplain1 : plain (split name (delimiter (world s1))))
    by (rewrite Hd1; exact Hplain).
  destruct (on_spec s1 name H2 Hplain1 Hwf1 Hhook1 eq_refl)
    as (m2 & e2 & l2 & s2' & E2 & Hwf2 & Hext2 & _).
  destruct (on_existing_below s1 name H2 pre n en ln Hwf1 Hhook1 Hne1 eq_refl
              Hs1 Hpre1 Hn1 Hen Hln) as (sx & Ex & Hbucket).
  rewrite E2 in Ex. injection Ex as <-.
  assert (Es2 : s2 = s2')
    by (subst s2; rewrite E1; cbn [snd]; rewrite E2; reflexivity).
  rewrite Es2. clear s2 Es2.
  assert (J1 : all_good_unhooked (inert_value behaviour) s1).
  { pose proof (stored_on _ (Name name) H1 (inert_user id1 Hi1) s Hall) as H.
    rewrite E1 in H. exact H. }
  assert (J2 : all_good_unhooked (inert_value behaviour) s2').
  { pose proof (stored_on _ (Name name) H2 (inert_user id2 Hi2) s1 J1) as H.
    rewrite E2 in H. exact H. }
  pose proof (ext_delimiter _ _ Hext2) as Hd2.
  pose proof (ext_wildcard _ _ Hext2) as Hw2.
  pose proof (ext_doubleWild _ _ Hext2) as Hdd2.
  pose proof (ext_events _ _ Hext2) as Hr2.
  destruct (ext_entries _ _ Hext2 n en Hen) as (en2 & Hen2 & _ & Hb2 & _).
  assert (Hbucket2 : arrays (world s2') !! allBelow en2 = Some (ln ++ [H2]))
    by (rewrite Hb2; exact Hbucket).
  assert (Hn2 : locate (world s2') pre (_events (world s2')) = Some n)
    by (rewrite Hr2; eapply locate_ext; eassumption).
  assert (Hpre2 : doubleWild (world s2') ∉ pre) by (rewrite Hdd2; exact Hpre1).
  assert (Hfit2 : fits (wildcard (world s2')) pre ev)
    by (rewrite Hw2, Hw1; exact Hfit).
  assert (Hev2 : split event (delimiter (world s2')) = ev ++ seg :: more)
    by (rewrite Hd2, Hd1; exact Hev).
  assert (Hroot : forall r, Some (_events (world s2')) = Some r ->
            is_Some (entries (world s2') !! r))
    by (intros ? [= <-]; apply Hwf2).
  apply list_elem_of_split in Hin as (u & v & ->).
  split.
  - destruct (eager_total (world s2') (ev ++ seg :: more) _ Hwf2 Hroot)
      as [found Hf].
    exists found. split.
    + apply (emit_inert event params s2' _ found Hev2 Hpev Hf).
      apply Forall_forall. intros x Hx.
      destruct (eager_elements _ _ _ _ _ Hf Hx) as (_ & a & lx & Hlx & Hxin).
      destruct J2 as [_ J2]. exact (J2 a lx x Hlx Hxin).
    + destruct (eager_through _ _ _ _ _ _ _ _ _ _ Hpre2 Hfit2 Hn2 Hen2
                  Hbucket2 Hf) as (a & c & ->).
      apply before_app. unfold truthy_only.
      rewrite <- app_assoc, !List.filter_app. cbn [List.filter app].
      change (truthy H1) with true. change (truthy H2) with true. cbv iota.
      rewrite !rev_app_distr. cbn [rev app].
      exists [], (rev (List.filter truthy v)), (rev (List.filter truthy u)).
      rewrite <- !app_assoc. reflexivity.
  - destruct (gather_total (world s2') (ev ++ seg :: more) _ Hwf2 Hroot)
      as [collected Hg].
    exists collected. split.
    + apply (emitAsyncSequential_inert event params s2' _ collected Hev2 Hpev
               Hg).
      apply Forall_forall. intros x Hx.
      destruct (gather_elements _ _ _ _ _ Hg Hx) as (a & lx & Hlx & Hxin).
      destruct J2 as [_ J2]. exact (J2 a lx x Hlx Hxin).
    + destruct (gather_through _ _ _ _ _ _ _ _ _ _ Hpre2 Hfit2 Hn2 Hen2
                  Hbucket2 Hg) as (a & c & ->).
      apply before_app. exists u, v, []. rewrite <- app_assoc. reflexivity.
Qed.

(** ** Registration and removal on a well-formed store *)

Lemma lands_bind {A B} (m : M A) (f : A -> M B) s
    (Q : A -> State -> Prop) (Q' : B -> State -> Prop) :
  lands m s Q -> (forall a s1, wf (world s1) -> Q a s1 -> lands (f a) s1 Q') ->
  lands (m ≫= f) s Q'.
Proof.
  intros (a & s1 & E & Hwf1 & Hc1 & Hd1 & Hk1 & Hq) Hf.
  destruct (Hf a s1 Hwf1 Hq) as (b & s2 & E2 & Hwf2 & Hc2 & Hd2 & Hk2 & Hq2).
  exists b, s2. rewrite bind_eq, E. split; [exact E2|].
  split; [exact Hwf2|]. split; [congruence|]. split; [congruence|].
  split; [|exact Hq2].
  intros n Hn. apply Hk2, Hk1, Hn.
Qed.

Lemma lands_ret {A} (a : A) s (Q : A -> State -> Prop) :
  wf (world s) -> Q a s -> lands (mret a) s Q.
Proof. intros Hwf Hq. exists a, s. auto 10. Qed.

Lemma new_array_eq l s :
  new_array l s
  = (Return (next (world s)), in_world (with_new_array l (world s)) s).
Proof. reflexivity. Qed.

Lemma wf_with_new_array l w : wf w -> wf (with_new_array l w).
Proof.
  intros Hwf.
  assert (Hold : forall a, is_Some (arrays w !! a) ->
            is_Some (<[next w := l]> (arrays w) !! a)).
  { intros a Ha. destruct (decide (next w = a)) as [<-|Hne].
    - rewrite lookup_insert_eq. eauto.
    - rewrite lookup_insert_ne by exact Hne. exact Ha. }
  split; simpl.
  - apply Hwf.
  - intros n e He. apply Hold. eapply wf_handlers; eassumption.
  - intros n e He. apply Hold. eapply wf_allBelow; eassumption.
  - apply Hwf.
  - apply Hwf.
  - apply Hwf.
  - intros n Hn. pose proof (wf_entries_next _ Hwf n Hn). lia.
  - intros a Ha. destruct (decide (next w = a)) as [<-|Hne]; [lia|].
    rewrite lookup_insert_ne in Ha by exact Hne.
    pose proof (wf_arrays_next _ Hwf a Ha). lia.
Qed.

(** The entry at [n] may be given other buckets, as long as they are two
    arrays of the store. *)
Lemma wf_with_buckets w n e' :
  wf w -> is_Some (entries w !! n) ->
  is_Some (arrays w !! handlers e') -> is_Some (arrays w !! allBelow e') ->
  handlers e' <> allBelow e' ->
  (forall k c, children e' !! k = Some c -> is_Some (entries w !! c)) ->
  (forall a, _all e' = Some a -> is_Some (entries w !! a)) ->
  wf (with_entry n e' w).
Proof.
  intros Hwf Hn Hh Hb Hne Hc Ha.
  assert (Hkeep : forall m, is_Some (entries w !! m) ->
            is_Some (<[n := e']> (entries w) !! m)).
  { intros m Hm. destruct (decide (n = m)) as [<-|Hnm].
    - rewrite lookup_insert_eq. eauto.
    - rewrite lookup_insert_ne by exact Hnm. exact Hm. }
  assert (Hcase : forall m x, <[n := e']> (entries w) !! m = Some x ->
            (m = n /\ x = e') \/ entries w !! m = Some x).
  { intros m x Hx. destruct (decide (n = m)) as [<-|Hnm].
    - rewrite lookup_insert_eq in Hx. injection Hx as <-. left. auto.
    - rewrite lookup_insert_ne in Hx by exact Hnm. right. exact Hx. }
  split; simpl.
  - apply Hkeep. apply Hwf.
  - intros m x Hx. destruct (Hcase m x Hx) as [[-> ->]|Hm];
      [exact Hh | eapply wf_handlers; eassumption].
  - intros m x Hx. destruct (Hcase m x Hx) as [[-> ->]|Hm];
      [exact Hb | eapply wf_allBelow; eassumption].
  - intros m x k c Hx Hk. apply Hkeep.
    destruct (Hcase m x Hx) as [[-> ->]|Hm];
      [eapply Hc | eapply wf_children]; eassumption.
  - intros m x a Hx Hxa. apply Hkeep.
    destruct (Hcase m x Hx) as [[-> ->]|Hm];
      [eapply Ha | eapply wf_all]; eassumption.
  - intros m x Hx. destruct (Hcase m x Hx) as [[-> ->]|Hm];
      [exact Hne | eapply wf_buckets; eassumption].
  - intros m [x Hx]. destruct (Hcase m x Hx) as [[-> ->]|Hm];
      apply (wf_entries_next _ Hwf); eauto.
  - apply Hwf.
Qed.

(** [storeHandlers ? storeHandlers(bucket) : bucket] gives the bucket
    itself or a new array, and leaves the entries alone. *)
Lemma stored_lands hook a s :
  wf (world s) -> is_Some (arrays (world s) !! a) ->
  lands (stored hook a) s
    (fun b s' =>
       entries (world s') = entries (world s)
       /\ is_Some (arrays (world s') !! b)
       /\ (b = a \/ next (world s) <= b)).
Proof.
  intros Hwf [l Hl]. destruct hook as [[f|f]|]; cbn [stored].
  - exists a. eexists.
    rewrite bind_eq, (read_array_eq _ _ _ Hl), bind_eq, write_array_eq.
    split; [reflexivity|]. simpl.
    split; [apply wf_with_array; [exact Hwf | eauto]|].
    split; [reflexivity|]. split; [reflexivity|].
    split; [auto|]. split; [reflexivity|].
    split; [rewrite lookup_insert_eq; eauto | auto].
  - eexists. eexists.
    rewrite bind_eq, (read_array_eq _ _ _ Hl), new_array_eq.
    split; [reflexivity|]. simpl.
    split; [apply wf_with_new_array; exact Hwf|].
    split; [reflexivity|]. split; [reflexivity|].
    split; [auto|]. split; [reflexivity|].
    split; [rewrite lookup_insert_eq; eauto | auto].
  - apply lands_ret; [exact Hwf|]. split; [reflexivity|]. eauto.
Qed.

(** The two statements that put a handler in a bucket: the [push], and
    the assignment of what the hook made of the bucket. *)
Lemma push_bucket_lands hook s n e (field : EventEntry -> loc)
    (set : loc -> EventEntry -> EventEntry) h :
  wf (world s) -> entries (world s) !! n = Some e ->
  (field = handlers /\ set = set_handlers)
  \/ (field = allBelow /\ set = set_allBelow) ->
  lands (push (field e) h;;
         b ← stored hook (field e);
         e' ← read_entry n;
         write_entry n (set b e')) s (fun _ _ => True).
Proof.
  intros Hwf He Hf.
  assert (Hl : is_Some (arrays (world s) !! field e)).
  { destruct Hf as [[-> _]|[-> _]];
      [eapply wf_handlers | eapply wf_allBelow]; eassumption. }
  destruct Hl as [l Hl].
  set (s1 := in_world (with_array (field e) (l ++ [h]) (world s)) s).
  assert (Hwf1 : wf (world s1))
    by (apply wf_with_array; [exact Hwf | eauto]).
  assert (Hl1 : is_Some (arrays (world s1) !! field e))
    by (simpl; rewrite lookup_insert_eq; eauto).
  destruct (stored_lands hook (field e) s1 Hwf1 Hl1)
    as (b & s2 & E2 & Hwf2 & Hc2 & Hd2 & _ & He2 & Hb & Hfresh).
  assert (Hn2 : entries (world s2) !! n = Some e) by (rewrite He2; exact He).
  exists tt. eexists.
  rewrite bind_eq, (push_eq _ _ _ _ Hl). fold s1.
  rewrite bind_eq, E2, bind_eq, (read_entry_eq _ _ _ Hn2), write_entry_eq.
  split; [reflexivity|]. simpl.
  split; [|split; [exact Hc2|split; [exact Hd2|split; [|exact I]]]].
  - assert (Hother : forall a, is_Some (arrays (world s1) !! a) ->
              a < next (world s1)) by apply Hwf1.
    assert (Hh1 : is_Some (arrays (world s1) !! handlers e))
      by (eapply (wf_handlers _ Hwf1); exact He).
    assert (Hb1 : is_Some (arrays (world s1) !! allBelow e))
      by (eapply (wf_allBelow _ Hwf1); exact He).
    pose proof (wf_buckets _ Hwf n e He) as Hne.
    pose proof (Hother _ Hh1) as Hhn. pose proof (Hother _ Hb1) as Hbn.
    apply wf_with_buckets; [exact Hwf2 | eauto | | | | |].
    + destruct Hf as [[-> ->]|[-> ->]]; simpl;
        [exact Hb | eapply wf_handlers; eassumption].
    + destruct Hf as [[-> ->]|[-> ->]]; simpl;
        [eapply wf_allBelow; eassumption | exact Hb].
    + destruct Hf as [[-> ->]|[-> ->]]; simpl;
        (destruct Hfresh as [->|Hfresh]; [auto | lia]).
    + intros k c Hc. eapply (wf_children _ Hwf2 n e); [exact Hn2|].
      destruct Hf as [[-> ->]|[-> ->]]; exact Hc.
    + intros a Ha. eapply (wf_all _ Hwf2 n e); [exact Hn2|].
      destruct Hf as [[-> ->]|[-> ->]]; exact Ha.
  - intros m Hm. destruct (decide (n = m)) as [<-|Hnm].
    + rewrite lookup_insert_eq. eauto.
    + rewrite lookup_insert_ne by exact Hnm. rewrite He2. exact Hm.
Qed.

Lemma getAll_lands s n :
  wf (world s) -> is_Some (entries (world s) !! n) ->
  lands (getAll n) s (fun a s' => is_Some (entries (world s') !! a)).
Proof.
  intros Hwf Hn.
  destruct (getAll_spec s n Hwf Hn) as (a & s' & E & Hwf' & Hext & Hc & Ha & _).
  exists a, s'. repeat (split; [assumption|]).
  split; [exact (ext_delimiter _ _ Hext)|]. split; [|exact Ha].
  intros m [e He]. destruct (ext_entries _ _ Hext m e He) as (e' & He' & _).
  eauto.
Qed.

Lemma getChild_lands s n key :
  plain_key key = true ->
  wf (world s) -> is_Some (entries (world s) !! n) ->
  lands (getChild n key) s
    (fun c s' => exists m, c = Entry m /\ is_Some (entries (world s') !! m)).
Proof.
  intros Hkey Hwf Hn.
  destruct (getChild_spec s n key Hkey Hwf Hn)
    as (c & s' & E & Hwf' & Hext & Hc & Hin & _).
  exists (Entry c), s'. repeat (split; [assumption|]).
  split; [exact (ext_delimiter _ _ Hext)|]. split; [|eauto].
  intros m [e He]. destruct (ext_entries _ _ Hext m e He) as (e' & He' & _).
  eauto.
Qed.

Lemma on_loop_lands wc dw hook parts : forall s scan h,
  plain parts ->
  wf (world s) -> is_Some (entries (world s) !! scan) ->
  lands (on_loop wc dw hook parts (Entry scan) h) s
    (fun m s' => exists n, m = Entry n /\ is_Some (entries (world s') !! n)).
Proof.
  induction parts as [|part rest IH]; intros s scan h Hplain Hwf Hscan.
  - apply lands_ret; eauto.
  - destruct (plain_cons _ _ Hplain) as [Hkey Hrest].
    cbn [on_loop]. destruct (decide (part = wc)) as [Hw|Hw].
    + eapply lands_bind; [apply getAll_lands; assumption|].
      intros a s1 Hwf1 Ha. apply IH; assumption.
    + destruct (decide (part = dw)) as [Hd|Hd].
      * destruct Hscan as [e He].
        pose proof (push_bucket_lands hook s scan e allBelow set_allBelow h
                      Hwf He (or_intror (conj eq_refl eq_refl))) as Hp.
        destruct Hp as ([] & s1 & E1 & Hwf1 & Hc1 & Hd1 & Hk1 & _).
        assert (Hs1 : is_Some (entries (world s1) !! scan)) by (apply Hk1; eauto).
        destruct (IH s1 scan h Hrest Hwf1 Hs1)
          as (m & s2 & E2 & Hwf2 & Hc2 & Hd2 & Hk2 & Hm).
        exists m, s2. split.
        -- rewrite bind_eq, (read_entry_eq _ _ _ He).
           revert E1. rewrite !bind_eq.
           destruct (push (allBelow e) h s) as [[[]|x] sa]; [|discriminate].
           rewrite !bind_eq.
           destruct (stored hook (allBelow e) sa) as [[b|x] sb]; [|discriminate].
           rewrite !bind_eq.
           destruct (read_entry scan sb) as [[e'|x] sc]; [|discriminate].
           rewrite bind_eq. intros ->. exact E2.
        -- split; [exact Hwf2|]. split; [congruence|]. split; [congruence|].
           split; [|exact Hm].
           intros n Hn. apply Hk2, Hk1, Hn.
      * eapply lands_bind; [apply getChild_lands; assumption|].
        intros c s1 Hwf1 (m & -> & Hm). apply IH; assumption.
Qed.

Lemma on_name_lands name h s :
  plain (split name (delimiter (world s))) ->
  wf (world s) -> lands (on_name name h) s (fun _ _ => True).
Proof.
  intros Hplain Hwf. unfold on_name.
  destruct (negb (truthy h)); [apply lands_ret; auto|].
  set (w := world s).
  destruct (on_loop_lands (wildcard w) (doubleWild w) (storeHandlers w)
              (split name (delimiter w)) s (_events w) h Hplain Hwf
              (wf_root _ Hwf))
    as (m' & s1 & E1 & Hwf1 & Hc1 & Hd1 & Hk1 & m & -> & [e He]).
  destruct (push_bucket_lands (storeHandlers w) s1 m e handlers set_handlers h
              Hwf1 He (or_introl (conj eq_refl eq_refl)))
    as ([] & s2 & E2 & Hwf2 & Hc2 & Hd2 & Hk2 & _).
  exists tt, s2. split.
  - rewrite bind_eq. cbn [get_world]. fold w.
    rewrite bind_eq, E1, bind_eq, (read_entry_eq _ _ _ He). exact E2.
  - split; [exact Hwf2|]. split; [congruence|]. split; [congruence|].
    split; [|exact I].
    intros n Hn. apply Hk2, Hk1, Hn.
Qed.

Lemma forEach_lands (f : string -> M unit) l :
  (forall x s, plain (split x (delimiter (world s))) -> wf (world s) ->
               lands (f x) s (fun _ _ => True)) ->
  forall s, plain_name (world s) (Names l) -> wf (world s) ->
            lands (forEach f l) s (fun _ _ => True).
Proof.
  intros Hf. induction l as [|x l IH]; intros s Hl Hwf.
  - apply lands_ret; auto.
  - cbn [plain_name] in Hl. apply Forall_cons in Hl as [Hx Hl].
    cbn [forEach].
    destruct (Hf x s Hx Hwf) as ([] & s1 & E1 & Hwf1 & Hc1 & Hd1 & Hk1 & _).
    assert (Hl1 : plain_name (world s1) (Names l))
      by (cbn [plain_name]; rewrite Hd1; exact Hl).
    destruct (IH s1 Hl1 Hwf1) as ([] & s2 & E2 & Hwf2 & Hc2 & Hd2 & Hk2 & _).
    exists tt, s2. rewrite bind_eq, E1. split; [exact E2|].
    split; [exact Hwf2|]. split; [congruence|]. split; [congruence|].
    split; [|exact I]. intros n Hn. apply Hk2, Hk1, Hn.
Qed.

Lemma on_lands name h s :
  plain_name (world s) name ->
  wf (world s) -> lands (on name h) s (fun _ _ => True).
Proof.
  intros Hplain Hwf. unfold on.
  destruct (negb (truthy h)); [apply lands_ret; auto|].
  destruct name as [name|names]; [apply on_name_lands; assumption|].
  apply forEach_lands; [|exact Hplain|exact Hwf].
  intros; apply on_name_lands; assumption.
Qed.










(** C10, as amended: on a new emitter without hook, [on(name, handler)]
    with a falsy [handler] does nothing, whereas [once(name, handler)]
    with a pattern of plain segments registers its closure [process],
    which is a function: it is the last element of the [handlers] bucket
    of the entry that the pattern leads to.  [emit] of the event spelled
    like the pattern then applies [process], and nothing else, and throws
    the [TypeError] of the call of [handler]. *)
Theorem once_falsy_handler props name handler params :
  plain (split name (delimiter (constructor props))) ->
  opt_storeHandlers props = None ->
  truthy handler = false ->
  let process := VProcess 0 (Name name) handler in
  let s := (once (Name name) handler (initial props)).2 in
  on (Name name) handler (initial props) = (Return tt, initial props)
  /\ (once (Name name) handler (initial props)).1
     = Return (VCancel (Name name) process)
  /\ (exists m e l,
        locate (world s) (split name (delimiter (world s))) (_events (world s))
        = Some m
        /\ entries (world s) !! m = Some e
        /\ arrays (world s) !! handlers e = Some (l ++ [process]))
  /\ exists s',
       emit behaviour name params s = (Throw TypeError, s')
       /\ calls s' = [(process, params)].
Proof.
  intros Hplain Hhook Hf process s.
  split; [unfold on; rewrite Hf; reflexivity|].
  set (w0 := constructor props).
  set (s0 := {| world :=
                  {| delimiter := delimiter w0; wildcard := wildcard w0;
                     doubleWild := doubleWild w0; _events := _events w0;
                     storeHandlers := storeHandlers w0; event := event w0;
                     entries := entries w0; arrays := arrays w0;
                     next := next w0; next_fn := S (next_fn w0);
                     member_below := member_below w0;
                     array_below := array_below w0 |};
                calls := [] |}).
  assert (Hwf0 : wf (world s0))
    by (apply (wf_same w0); [reflexivity .. | apply wf_constructor]).
  destruct (on_spec s0 name process Hplain Hwf0 Hhook eq_refl)
    as (m & e & l & s1 & E & Hwf1 & Hext & Hc & Hloc & He & Hl & Hdw).
  assert (Eonce : once (Name name) handler (initial props)
                  = (Return (VCancel (Name name) process), s1)).
  { transitivity
      (match on (Name name) process s0 with
       | (Return _, s') => (Return (VCancel (Name name) process), s')
       | (Throw e0, s') => (Throw e0, s')
       end); [reflexivity | rewrite E; reflexivity]. }
  split; [rewrite Eonce; reflexivity|].
  assert (Es : s = s1) by (subst s; rewrite Eonce; reflexivity).
  rewrite Es. clear s Es Eonce.
  rewrite (ext_delimiter _ _ Hext), (ext_events _ _ Hext).
  split; [exists m, e, l; auto|].
  set (parts := split name (delimiter (world s0))) in *.
  assert (J0 : all_good_unhooked (fun x => x = process) s0).
  { split; [exact Hhook|]. intros a b x Ha Hx. simpl in Ha.
    apply lookup_insert_Some in Ha as [[_ <-]|[_ Ha]];
      [apply elem_of_nil in Hx; contradiction|].
    apply lookup_singleton_Some in Ha as [_ <-].
    apply elem_of_nil in Hx; contradiction. }
  assert (J1 : all_good_unhooked (fun x => x = process) s1).
  { pose proof (stored_on _ (Name name) process eq_refl s0 J0) as H.
    rewrite E in H. exact H. }
  assert (Hm : meets (world s1) parts (_events (world s0))).
  { destruct (decide (doubleWild (world s0) = wildcard (world s0))) as [Heq|Hne].
    - destruct l as [|x l].
      + apply (locate_meets _ _ _ m e process []); auto.
        left. rewrite (ext_doubleWild _ _ Hext), (ext_wildcard _ _ Hext).
        exact Heq.
      + apply (locate_meets _ _ _ m e x (l ++ [process])); auto.
        left. rewrite (ext_doubleWild _ _ Hext), (ext_wildcard _ _ Hext).
        exact Heq.
    - destruct (decide (doubleWild (world s0) ∈ parts)) as [Hin|Hout].
      + apply list_elem_of_split_l in Hin as (pre & post & Ep & Hpre).
        destruct (Hdw Hne pre post Ep Hpre)
          as (n & en & ln & Hn & Hen & Hln & Hp & _).
        destruct ln as [|x ln]; [apply elem_of_nil in Hp; contradiction|].
        rewrite Ep, <- (ext_doubleWild _ _ Hext).
        apply (locate_meets_below _ _ _ _ n en x ln); auto.
        rewrite (ext_doubleWild _ _ Hext). exact Hpre.
      + destruct l as [|x l].
        * apply (locate_meets _ _ _ m e process []); auto.
          right. rewrite (ext_doubleWild _ _ Hext). exact Hout.
        * apply (locate_meets _ _ _ m e x (l ++ [process])); auto.
          right. rewrite (ext_doubleWild _ _ Hext). exact Hout. }
  assert (Ep : split name (delimiter (world s1)) = parts)
    by (rewrite (ext_delimiter _ _ Hext); reflexivity).
  rewrite (emit_split name params s1 parts Ep), (ext_events _ _ Hext).
  destruct (walk_meets_thrower process params eq_refl
              (process_throws 0 (Name name) handler params Hf)
              parts (_events (world s0)) (announced name s1) Hplain)
    as (s' & E' & Hc').
  - apply (wf_same (world s1)); [reflexivity .. | exact Hwf1].
  - intros a b x Ha Hx. destruct J1 as [_ J1]. exact (J1 a b x Ha Hx).
  - apply (meets_same (world s1)); [reflexivity .. | exact Hm].
  - rewrite E'. exists s'. split; [reflexivity|].
    rewrite Hc'. cbn [announced calls]. rewrite Hc. reflexivity.
Qed.

Lemma wf_on name h s :
  plain_name (world s) name -> wf (world s) -> wf (world (on name h s).2).
Proof.
  intros Hplain Hwf.
  destruct (on_lands name h s Hplain Hwf) as ([] & s' & E & Hwf' & _).
  rewrite E. exact Hwf'.
Qed.

(** ** After [removeAllListeners] *)

Lemma gather_None w parts : gather w parts None = Some [].
Proof. destruct parts; reflexivity. Qed.

Lemma eager_None w parts : eager w parts None = Some [].
Proof. destruct parts; reflexivity. Qed.

(** An entry as [new EventEntry()] leaves it gives no handler to any
    walk. *)
Lemma blank_entry_walks w n e parts :
  entries w !! n = Some e -> children e = ∅ -> _all e = None ->
  arrays w !! handlers e = Some [] -> arrays w !! allBelow e = Some [] ->
  gather w parts (Some n) = Some [] /\ eager w parts (Some n) = Some [].
Proof.
  intros He Hc Ha Hh Hb. destruct parts as [|p rest]; cbn [gather eager].
  - rewrite He. simpl. rewrite Hh. auto.
  - rewrite He. simpl. rewrite Hb. simpl. rewrite Ha, Hc, lookup_empty.
    rewrite gather_None, eager_None. auto.
Qed.

(** X4: after [removeAllListeners], whatever was registered and whatever
    the handlers would do, [emit] of any event of plain segments applies
    no function and returns its parameters, and [emitAsyncSequential]
    resolves with them without applying any; both only assign
    [this.event]. *)
Theorem removeAllListeners_silences s event params :
  plain (split event (delimiter (world s))) ->
  let s' := (removeAllListeners s).2 in
  removeAllListeners s = (Return tt, s')
  /\ emit behaviour event params s' = (Return params, announced event s')
  /\ emitAsyncSequential behaviour event params s'
     = (Return (Resolved params), announced event s').
Proof.
  intros Hplain s'. split; [reflexivity|].
  set (root := S (S (next (world s)))).
  set (e := {| children := ∅; handlers := next (world s);
               allBelow := S (next (world s)); _all := None |}).
  assert (Hroot : _events (world s') = root) by reflexivity.
  assert (He : entries (world s') !! root = Some e)
    by (simpl; apply lookup_insert_eq).
  assert (Hh : arrays (world s') !! handlers e = Some []).
  { simpl. rewrite lookup_insert_ne by lia. apply lookup_insert_eq. }
  assert (Hb : arrays (world s') !! allBelow e = Some [])
    by (simpl; apply lookup_insert_eq).
  set (parts := split event (delimiter (world s'))).
  destruct (blank_entry_walks (world s') root e parts He eq_refl eq_refl Hh Hb)
    as [Hg Hf].
  split.
  - rewrite (emit_inert event params s' parts [] eq_refl);
      [rewrite logged_nil; reflexivity | exact Hplain
      | rewrite Hroot; exact Hf | apply Forall_nil_2].
  - rewrite (emitAsyncSequential_inert event params s' parts [] eq_refl);
      [rewrite logged_nil; reflexivity | exact Hplain
      | rewrite Hroot; exact Hg | apply Forall_nil_2].
Qed.

(** ** The function that [once] returns *)

(** X5: on a new emitter without hook, for a pattern of plain segments
    none of which is the double wildcard, the function that [once]
    returns takes the closure out again: after it was called, [emit] of
    any event of plain segments applies nothing.  The handler may be any
    value. *)
Theorem once_cancel_unregisters props name handler evt params :
  plain (split name (delimiter (constructor props))) ->
  plain (split evt (delimiter (constructor props))) ->
  opt_storeHandlers props = None ->
  doubleWild (constructor props) = wildcard (constructor props)
  \/ doubleWild (constructor props)
     ∉ split name (delimiter (constructor props)) ->
  let process := VProcess 0 (Name name) handler in
  let cancel := VCancel (Name name) process in
  let s := (once (Name name) handler (initial props)).2 in
  let s1 := (fn_apply behaviour cancel [] s).2 in
  once (Name name) handler (initial props) = (Return cancel, s)
  /\ fn_apply behaviour cancel [] s = (Return VUndefined, s1)
  /\ calls s1 = [(cancel, [])]
  /\ all_empty (world s1)
  /\ emit behaviour evt params s1 = (Return params, announced evt s1).
Proof.
  intros Hplain Hpevt Hhook Hdw process cancel s s1.
  set (w0 := constructor props) in *.
  set (s0 := {| world :=
                  {| delimiter := delimiter w0; wildcard := wildcard w0;
                     doubleWild := doubleWild w0; _events := _events w0;
                     storeHandlers := storeHandlers w0; event := event w0;
                     entries := entries w0; arrays := arrays w0;
                     next := next w0; next_fn := S (next_fn w0);
                     member_below := member_below w0;
                     array_below := array_below w0 |};
                calls := [] |}).
  set (parts := split name (delimiter w0)) in *.
  assert (Hwf0 : wf (world s0))
    by (apply (wf_same w0); [reflexivity .. | apply wf_constructor]).
  assert (Hemp0 : all_empty (world s0)).
  { intros a l Ha. simpl in Ha.
    apply lookup_insert_Some in Ha as [[_ <-]|[_ Ha]]; [reflexivity|].
    apply lookup_singleton_Some in Ha as [_ <-]. reflexivity. }
  assert (Hp0 : single_only (wildcard (world s0)) (doubleWild (world s0)) parts)
    by exact (single_only_tokens w0 parts Hdw).
  destruct (on_lone s0 name process Hplain Hwf0 Hhook eq_refl Hemp0 Hp0)
    as (m & e & s' & E & Hwf' & Hext & Hc & Hloc & He & [HT Hrest]).
  assert (Eonce : once (Name name) handler (initial props) = (Return cancel, s')).
  { transitivity
      (match on (Name name) process s0 with
       | (Return _, s') => (Return cancel, s')
       | (Throw e0, s') => (Throw e0, s')
       end); [reflexivity | rewrite E; reflexivity]. }
  assert (Es : s = s') by (subst s; rewrite Eonce; reflexivity).
  split; [rewrite Es; exact Eonce|].
  revert s1. rewrite Es. clear s Es Eonce. intros s1.
  pose proof (ext_delimiter _ _ Hext) as Hd.
  pose proof (ext_wildcard _ _ Hext) as Hw.
  pose proof (ext_doubleWild _ _ Hext) as Hdd.
  pose proof (ext_events _ _ Hext) as Hr.
  set (sr := {| world := world s'; calls := calls s' ++ [(cancel, [])] |}).
  assert (Hpr : single_only (wildcard (world sr)) (doubleWild (world sr))
                  (split name (delimiter (world sr)))).
  { change (single_only (wildcard (world s')) (doubleWild (world s'))
              (split name (delimiter (world s')))).
    rewrite Hd, Hw, Hdd. exact Hp0. }
  assert (Hlocr : locate (world sr) (split name (delimiter (world sr)))
                    (_events (world sr)) = Some m).
  { change (locate (world s') (split name (delimiter (world s')))
              (_events (world s')) = Some m).
    rewrite Hd, Hr. exact Hloc. }
  assert (Hin : process ∈ [process]) by (apply list_elem_of_singleton; reflexivity).
  destruct (off_loop_handlers _ sr (_events (world sr)) process m e [process]
              Hpr ltac:(discriminate) Hlocr He HT Hin) as (idx & Hidx & Eoff).
  assert (idx = 0).
  { cbn [indexOf] in Hidx. destruct (decide (process = process)) as [_|Hne];
      [congruence | contradiction]. }
  subst idx. cbn [delete list_delete] in Eoff.
  assert (Eoff' : off (Name name) process sr
                  = (Return tt, in_world (with_array (handlers e) [] (world sr)) sr))
    by exact Eoff.
  assert (Ecancel : fn_apply behaviour cancel [] s'
                    = (Return VUndefined,
                       in_world (with_array (handlers e) [] (world sr)) sr)).
  { unfold cancel. cbn [fn_apply]. rewrite bind_eq. unfold record_call at 1.
    fold cancel. fold sr. rewrite bind_eq, Eoff'. reflexivity. }
  assert (Es1 : s1 = in_world (with_array (handlers e) [] (world sr)) sr)
    by (subst s1; rewrite Ecancel; reflexivity).
  split; [rewrite Es1; exact Ecancel|]. rewrite Es1. clear s1 Es1.
  set (s1 := in_world (with_array (handlers e) [] (world sr)) sr).
  assert (Hwf1 : wf (world s1)) by (apply wf_with_array; [exact Hwf' | eauto]).
  assert (Hemp1 : all_empty (world s1)).
  { intros a l. simpl. intros Hl.
    destruct (decide (handlers e = a)) as [<-|Hne].
    - rewrite lookup_insert_eq in Hl. congruence.
    - rewrite lookup_insert_ne in Hl by exact Hne.
      eapply Hrest; [|exact Hl]. auto. }
  split; [simpl; rewrite Hc; reflexivity|].
  split; [exact Hemp1|].
  rewrite (emit_split evt params s1 _ eq_refl).
  assert (Hpe : plain (split evt (delimiter (world s1))))
    by (change (plain (split evt (delimiter (world s')))); rewrite Hd;
        exact Hpevt).
  assert (Hwfa : wf (world (announced evt s1)))
    by (apply (wf_same (world s1)); [reflexivity .. | exact Hwf1]).
  assert (Hroot : forall n, Some (_events (world s1)) = Some n ->
            is_Some (entries (world (announced evt s1)) !! n))
    by (intros ? [= <-]; apply (wf_root _ Hwf1)).
  rewrite_walk (walk_empty params _ (Some (_events (world s1)))
                  (announced evt s1) Hpe Hwfa Hemp1 Hroot).
  reflexivity.
Qed.

(** ** Removal of what is not there, and of everything *)

Lemma indexOf_absent l (x : value) : x ∉ l -> indexOf l x = None.
Proof.
  induction l as [|y l IH]; intros Hx; [reflexivity|].
  apply not_elem_of_cons in Hx as [Hxy Hx]. cbn [indexOf].
  destruct (decide (y = x)) as [->|_]; [contradiction|].
  rewrite (IH Hx). reflexivity.
Qed.

Lemma off_loop_literal_absent parts : forall s scan h,
  plain parts ->
  wf (world s) ->
  wildcard (world s) ∉ parts -> doubleWild (world s) ∉ parts ->
  h <> VUndefined ->
  (forall n, scan = Some n -> is_Some (entries (world s) !! n)) ->
  (forall n m e l, scan = Some n -> locate (world s) parts n = Some m ->
     entries (world s) !! m = Some e ->
     arrays (world s) !! handlers e = Some l -> h ∉ l) ->
  off_loop (wildcard (world s)) (doubleWild (world s)) parts
           (Entry <$> scan) h s
  = (Return tt, s).
Proof.
  induction parts as [|p parts IH];
    intros s [n|] h Hplain Hwf Hw Hd Hu Hn Hreg;
    cbn [fmap option_fmap option_map]; try reflexivity.
  - destruct (Hn n eq_refl) as [e He].
    destruct (wf_handlers _ Hwf n e He) as [l Hl].
    cbn [off_loop].
    destruct (decide (h = VUndefined)) as [H3|H3]; [contradiction|].
    rewrite bind_eq, (read_entry_eq _ _ _ He).
    rewrite bind_eq, (read_array_eq _ _ _ Hl).
    rewrite (indexOf_absent l h); [reflexivity|].
    exact (Hreg n n e l eq_refl eq_refl He Hl).
  - apply not_elem_of_cons in Hw as [Hpw Hw].
    apply not_elem_of_cons in Hd as [Hpd Hd].
    destruct (Hn n eq_refl) as [e He].
    destruct (plain_cons _ _ Hplain) as [Hkey Hrest].
    cbn [off_loop].
    destruct (decide (p = wildcard (world s))) as [H1|H1]; [congruence|].
    destruct (decide (p = doubleWild (world s))) as [H2|H2]; [congruence|].
    unfold getExisting.
    rewrite bind_eq, bind_eq, (read_entry_eq _ _ _ He).
    rewrite (child_of_plain _ _ _ Hkey).
    apply IH; try assumption.
    + intros c Hc. exact (wf_children _ Hwf _ _ _ _ He Hc).
    + intros c m em lm Hc Hloc. apply (Hreg n m em lm eq_refl).
      cbn [locate].
      destruct (decide (p = wildcard (world s))) as [H1'|_]; [contradiction|].
      destruct (decide (p = doubleWild (world s))) as [H2'|_]; [contradiction|].
      rewrite He. simpl. rewrite Hc. simpl. exact Hloc.
Qed.

(** X6: on a well-formed store, [off(name, handler)] with a pattern of
    plain segments without wildcard segments changes nothing and applies
    nothing when the handler is not in the [handlers] bucket of the entry
    the pattern leads to, and so also when the pattern leads to no entry
    at all. *)
Theorem off_unregistered_changes_nothing s name h :
  plain (split name (delimiter (world s))) ->
  wf (world s) ->
  wildcard (world s) ∉ split name (delimiter (world s)) ->
  doubleWild (world s) ∉ split name (delimiter (world s)) ->
  h <> VUndefined ->
  (forall m e l,
     locate (world s) (split name (delimiter (world s))) (_events (world s))
     = Some m ->
     entries (world s) !! m = Some e ->
     arrays (world s) !! handlers e = Some l -> h ∉ l) ->
  off (Name name) h s = (Return tt, s).
Proof.
  intros Hplain Hwf Hw Hd Hu Hreg.
  apply (off_loop_literal_absent _ s (Some (_events (world s))) h Hplain Hwf
           Hw Hd Hu).
  - intros ? [= <-]. apply Hwf.
  - intros n m e l [= <-]. apply Hreg.
Qed.

(** [off] without a handler, with a pattern without double wildcard that
    leads to an entry: the [handlers] array of that entry is cut to no
    element, in place. *)
Lemma off_loop_all parts : forall s scan m e,
  single_only (wildcard (world s)) (doubleWild (world s)) parts ->
  locate (world s) parts scan = Some m ->
  entries (world s) !! m = Some e ->
  off_loop (wildcard (world s)) (doubleWild (world s)) parts
           (Some (Entry scan)) VUndefined s
  = (Return tt, in_world (with_array (handlers e) [] (world s)) s).
Proof.
  induction parts as [|p parts IH]; intros s scan m e Hp Hloc He.
  - simpl in Hloc. injection Hloc as ->. cbn [off_loop].
    destruct (decide (VUndefined = VUndefined)) as [_|H3]; [|contradiction].
    rewrite bind_eq, (read_entry_eq _ _ _ He). apply write_array_eq.
  - apply single_only_cons in Hp as [Hpart Hrest].
    cbn [off_loop]. cbn [locate] in Hloc.
    destruct (decide (p = wildcard (world s))) as [Hw|Hw].
    + destruct (entries (world s) !! scan) as [e0|] eqn:He0; [|discriminate Hloc].
      simpl in Hloc. destruct (_all e0) as [a|] eqn:Ha; [|discriminate Hloc].
      simpl in Hloc.
      rewrite bind_eq, (getAll_existing _ _ _ _ He0 Ha).
      apply (IH s a m e); assumption.
    + destruct (decide (p = doubleWild (world s))) as [Hd|Hd];
        [destruct Hpart; contradiction|].
      destruct (entries (world s) !! scan) as [e0|] eqn:He0; [|discriminate Hloc].
      simpl in Hloc.
      destruct (children e0 !! p) as [c|] eqn:Hc; [|discriminate Hloc].
      simpl in Hloc.
      rewrite bind_eq, (getExisting_own _ _ _ _ _ He0 Hc).
      apply (IH s c m e); assumption.
Qed.

(** X7: [off(name)] without a handler, with a pattern without double
    wildcard that leads to an entry, returns, applies nothing, and cuts
    the [handlers] bucket of that entry to no element; every other bucket
    and every entry stays as it is. *)
Theorem off_without_handler_empties_bucket s name m e :
  single_only (wildcard (world s)) (doubleWild (world s))
    (split name (delimiter (world s))) ->
  locate (world s) (split name (delimiter (world s))) (_events (world s))
  = Some m ->
  entries (world s) !! m = Some e ->
  let s' := (off (Name name) VUndefined s).2 in
  off (Name name) VUndefined s = (Return tt, s')
  /\ arrays (world s') !! handlers e = Some []
  /\ (forall a, a <> handlers e ->
        arrays (world s') !! a = arrays (world s) !! a)
  /\ entries (world s') = entries (world s)
  /\ calls s' = calls s.
Proof.
  intros Hp Hloc He s'.
  assert (E : off (Name name) VUndefined s
              = (Return tt, in_world (with_array (handlers e) [] (world s)) s))
    by exact (off_loop_all _ s (_events (world s)) m e Hp Hloc He).
  subst s'. rewrite E. cbn [snd]. split; [reflexivity|]. simpl.
  split; [apply lookup_insert_eq|].
  split; [intros a Ha; apply lookup_insert_ne; auto | auto].
Qed.

(** ** Children and the wildcard entry are created once *)

(** X9: on a well-formed store [getChild(key)] and [getAll()] return, and
    what they return is what a second call returns without changing
    anything; after [getChild(key)], [getExisting(key)] is what it
    returned, a child or what is inherited under [key], and
    [getExisting] of any other key is what it was. *)
Theorem lazy_entries_are_created_once s n key :
  wf (world s) -> is_Some (entries (world s) !! n) ->
  (exists c s1,
     getChild n key s = (Return c, s1)
     /\ getChild n key s1 = (Return c, s1)
     /\ getExisting n key s1 = (Return (Some c), s1)
     /\ forall k, k <> key ->
          (getExisting n k s1).1 = (getExisting n k s).1)
  /\ (exists a s2,
        getAll n s = (Return a, s2)
        /\ getAll n s2 = (Return a, s2)).
Proof.
  intros Hwf [e He]. split.
  - assert (Hex : forall s0 e0, entries (world s0) !! n = Some e0 ->
              forall k, getExisting n k s0
                        = (Return (lookup_child (world s0) e0 k), s0)).
    { intros s0 e0 H0 k. unfold getExisting.
      rewrite bind_eq, (read_entry_eq _ _ _ H0). reflexivity. }
    destruct (lookup_child (world s) e key) as [c|] eqn:Hk.
    + assert (E : getChild n key s = (Return c, s)).
      { unfold getChild. rewrite bind_eq, (read_entry_eq _ _ _ He).
        rewrite bind_eq. unfold child_of. rewrite bind_eq. cbn [get_world].
        rewrite Hk. reflexivity. }
      exists c, s. rewrite E, (Hex s e He), Hk. auto.
    + set (c := S (S (next (world s)))).
      set (e' := set_children (<[key := c]> (children e)) e).
      set (s1 := in_world (with_entry n e' (with_new_entry (world s))) s).
      assert (E : getChild n key s = (Return (Entry c), s1)).
      { unfold getChild. rewrite bind_eq, (read_entry_eq _ _ _ He).
        rewrite bind_eq. unfold child_of. rewrite bind_eq. cbn [get_world].
        rewrite Hk.
        unfold mret at 1, M_ret at 1.
        rewrite bind_eq, new_EventEntry_eq, bind_eq, write_entry_eq.
        reflexivity. }
      assert (He1 : entries (world s1) !! n = Some e')
        by (simpl; apply lookup_insert_eq).
      assert (Hc : children e' !! key = Some c)
        by (simpl; apply lookup_insert_eq).
      exists (Entry c), s1. split; [exact E|].
      split; [exact (getChild_existing _ _ _ _ _ He1 Hc)|].
      split; [rewrite (Hex s1 e' He1), (lookup_child_own _ _ _ _ Hc);
              reflexivity|].
      intros k Hne. rewrite (Hex s1 e' He1), (Hex s e He).
      cbn [fst]. f_equal. unfold lookup_child. simpl.
      rewrite lookup_insert_ne by auto. reflexivity.
  - destruct (getAll_spec s n Hwf (ex_intro _ e He))
      as (a & s2 & E & _ & _ & _ & _ & e2 & He2 & Ha2).
    exists a, s2. split; [exact E|].
    exact (getAll_existing _ _ _ _ He2 Ha2).
Qed.

(** ** Handlers that throw *)

Lemma run_until_prefix params w l applied c :
  run_until behaviour params w l applied c ->
  exists rest, l = applied ++ rest /\ (c = Return tt -> rest = []).
Proof.
  induction 1 as [|id r rest applied c Hb Hr IH|id e rest Hb].
  - exists []. auto.
  - destruct IH as (rest' & -> & Hc). exists rest'. auto.
  - exists rest. split; [reflexivity | discriminate].
Qed.

Lemma run_until_app params w l1 l2 applied c :
  run_until behaviour params w (l1 ++ l2) applied c ->
  (exists a1 a2, run_until behaviour params w l1 a1 (Return tt)
                 /\ run_until behaviour params w l2 a2 c
                 /\ applied = a1 ++ a2)
  \/ (exists e, c = Throw e /\ run_until behaviour params w l1 applied (Throw e)).
Proof.
  revert applied c. induction l1 as [|v l1 IH]; intros applied c H.
  - left. exists [], applied. split; [constructor | auto].
  - inversion H as [|id r rest a c' Hb Hr|id e rest Hb]; subst.
    + destruct (IH _ _ Hr) as [(a1 & a2 & H1 & H2 & ->)|(e & -> & H1)].
      * left. exists (VUser id :: a1), a2.
        split; [econstructor; eassumption | auto].
      * right. exists e. split; [reflexivity | econstructor; eassumption].
    + right. exists e. split; [reflexivity | constructor; exact Hb].
Qed.

Lemma call_run id params s c0 :
  behaviour id params (world s) = (c0, world s) ->
  call_with behaviour params (VUser id) s
  = (match c0 with Return _ => Return tt | Throw e => Throw e end,
     logged [VUser id] params s).
Proof.
  intros Hb. unfold call_with. rewrite bind_eq. cbn [fn_apply].
  rewrite bind_eq. unfold record_call at 1, run_user. cbn [world calls].
  rewrite Hb. destruct c0; reflexivity.
Qed.

Lemma call_backward_run params b l i : forall s applied c,
  arrays (world s) !! b = Some l ->
  run_until behaviour params (world s) (rev (truthy_only (take i l))) applied c ->
  call_backward (call_with behaviour params) b i s
  = (c, logged applied params s).
Proof.
  induction i as [|i IH]; intros s applied c Hl Hrun.
  - simpl in Hrun. inversion Hrun; subst. simpl. rewrite logged_nil. reflexivity.
  - cbn [call_backward]. rewrite bind_eq, (read_array_eq _ _ _ Hl), bind_eq.
    destruct (l !! i) as [v|] eqn:Hv.
    + rewrite (take_S_r _ _ _ Hv) in Hrun.
      unfold truthy_only in Hrun.
      rewrite List.filter_app, rev_app_distr in Hrun. simpl in Hrun.
      cbn [from_option id].
      destruct (truthy v) eqn:Ht.
      * simpl in Hrun.
        inversion Hrun as [|hid r rest a c' Hb Hr|hid e rest Hb]; subst.
        -- rewrite (call_run _ _ _ _ Hb).
           change (VUser hid :: a) with ([VUser hid] ++ a).
           rewrite logged_app. apply IH; [exact Hl | exact Hr].
        -- rewrite (call_run _ _ _ _ Hb). reflexivity.
      * simpl in Hrun. unfold mret at 1, M_ret at 1.
        apply IH; [exact Hl | exact Hrun].
    + cbn [from_option id truthy]. unfold mret at 1, M_ret at 1.
      apply lookup_ge_None in Hv.
      rewrite take_ge in Hrun by lia.
      apply IH; [exact Hl|]. rewrite take_ge by lia. exact Hrun.
Qed.

Lemma call_forward_run params b l n : forall i s applied c,
  arrays (world s) !! b = Some l ->
  run_until behaviour params (world s) (truthy_only (take n (drop i l))) applied c ->
  call_forward (call_with behaviour params) b i n s
  = (c, logged applied params s).
Proof.
  induction n as [|n IH]; intros i s applied c Hl Hrun.
  - simpl in Hrun. inversion Hrun; subst. simpl. rewrite logged_nil. reflexivity.
  - cbn [call_forward]. rewrite bind_eq, (read_array_eq _ _ _ Hl), bind_eq.
    destruct (l !! i) as [v|] eqn:Hv.
    + rewrite (drop_S _ _ _ Hv) in Hrun. simpl in Hrun.
      cbn [from_option id].
      destruct (truthy v) eqn:Ht.
      * inversion Hrun as [|hid r rest a c' Hb Hr|hid e rest Hb]; subst.
        -- rewrite (call_run _ _ _ _ Hb).
           change (VUser hid :: a) with ([VUser hid] ++ a).
           rewrite logged_app. apply IH; [exact Hl | exact Hr].
        -- rewrite (call_run _ _ _ _ Hb). reflexivity.
      * unfold mret at 1, M_ret at 1.
        apply IH; [exact Hl | exact Hrun].
    + cbn [from_option id truthy]. unfold mret at 1, M_ret at 1.
      apply lookup_ge_None in Hv.
      rewrite drop_ge, take_nil in Hrun by lia.
      apply IH; [exact Hl|]. rewrite drop_ge, take_nil by lia. exact Hrun.
Qed.

Lemma _emit_run params parts : forall scan s l applied c,
  plain parts ->
  eager (world s) parts scan = Some l ->
  run_until behaviour params (world s) l applied c ->
  _emit (Entry <$> scan) parts None (Some (call_with behaviour params)) s
  = (match c with Return _ => Return None | Throw e => Throw e end,
     logged applied params s).
Proof.
  induction parts as [|part rest IH];
    intros [n|] s l applied c Hplain H Hrun;
    cbn [fmap option_fmap option_map];
    try (rewrite _emit_None; simpl in H; injection H as <-;
         inversion Hrun; subst; rewrite logged_nil; reflexivity).
  - simpl in H.
    destruct (entries (world s) !! n) as [e|] eqn:He; [|discriminate H].
    simpl in H.
    destruct (arrays (world s) !! handlers e) as [hs|] eqn:Hh;
      [|discriminate H].
    simpl in H. injection H as <-. cbn [_emit].
    rewrite bind_eq, (read_entry_eq _ _ _ He), bind_eq, (read_array_eq _ _ _ Hh).
    rewrite bind_eq.
    rewrite (call_forward_run params _ hs (length hs) 0 s applied c Hh);
      [destruct c; reflexivity|].
    rewrite drop_0, firstn_all. exact Hrun.
  - simpl in H.
    destruct (entries (world s) !! n) as [e|] eqn:He; [|discriminate H].
    simpl in H.
    destruct (arrays (world s) !! allBelow e) as [below|] eqn:Hb;
      [|discriminate H].
    simpl in H.
    destruct (if _all e is Some a then eager (world s) rest (Some a)
              else Some []) as [wild|] eqn:Hw; [|discriminate H].
    simpl in H.
    destruct (eager (world s) rest (children e !! part)) as [child|] eqn:Hc;
      [|discriminate H].
    simpl in H. injection H as <-.
    destruct (plain_cons _ _ Hplain) as [Hkey Hrest].
    rewrite _emit_call_cons.
    rewrite bind_eq, (read_entry_eq _ _ _ He), bind_eq, (read_array_eq _ _ _ Hb).
    rewrite bind_eq.
    apply run_until_app in Hrun as [(a1 & a23 & H1 & H23 & ->)|(x & -> & H1)].
    2:{ rewrite (call_backward_run params _ below (length below) s applied
                   (Throw x) Hb); [reflexivity|].
        rewrite firstn_all. exact H1. }
    rewrite (call_backward_run params _ below (length below) s a1 (Return tt) Hb);
      [|rewrite firstn_all; exact H1].
    set (s1 := logged a1 params s).
    assert (He1 : entries (world s1) !! n = Some e) by exact He.
    rewrite bind_eq, (read_entry_eq _ _ _ He1), bind_eq.
    apply run_until_app in H23 as [(a2 & a3 & H2 & H3 & ->)|(x & -> & H2)].
    + destruct (_all e) as [a|] eqn:Ha.
      * rewrite bind_eq, (getAll_existing _ _ _ _ He1 Ha).
        rewrite_walk (IH (Some a) s1 wild a2 (Return tt) Hrest Hw H2).
        rewrite bind_eq, (read_entry_eq (logged a2 params s1) n e He).
        rewrite bind_eq, (child_of_plain _ _ _ Hkey).
        rewrite (IH _ (logged a2 params s1) child a3 c Hrest Hc H3).
        subst s1. rewrite !logged_app. reflexivity.
      * injection Hw as <-. inversion H2; subst.
        unfold mret at 1, M_ret at 1.
        rewrite bind_eq, (read_entry_eq _ _ _ He1).
        rewrite bind_eq, (child_of_plain _ _ _ Hkey).
        rewrite (IH _ s1 child a3 c Hrest Hc H3).
        subst s1. rewrite !logged_app, logged_nil. reflexivity.
    + destruct (_all e) as [a|] eqn:Ha.
      * rewrite bind_eq, (getAll_existing _ _ _ _ He1 Ha).
        rewrite_walk (IH (Some a) s1 wild a23 (Throw x) Hrest Hw H2).
        subst s1. rewrite !logged_app. reflexivity.
      * injection Hw as <-. inversion H2.
Qed.

(** X8: when the handlers that the walk of an event of plain segments
    finds leave the emitter alone, [emit] applies them one after the
    other until one throws: the exception leaves [emit], and the handlers
    after the one that threw are not applied, whatever they would do.
    When none throws, [emit] returns its parameters. *)
Theorem emit_stops_at_first_throw s event params found applied c :
  plain (split event (delimiter (world s))) ->
  eager (world s) (split event (delimiter (world s))) (Some (_events (world s)))
  = Some found ->
  run_until behaviour params (world (announced event s)) found applied c ->
  emit behaviour event params s
  = (match c with Return _ => Return params | Throw e => Throw e end,
     logged applied params (announced event s))
  /\ exists rest, found = applied ++ rest /\ (c = Return tt -> rest = []).
Proof.
  intros Hplain Hf Hrun. split; [|eapply run_until_prefix; exact Hrun].
  rewrite (emit_split event params s _ eq_refl).
  rewrite_walk (_emit_run params _ (Some (_events (world s)))
                  (announced event s) found applied c Hplain
                  (eq_trans (eager_announced _ _ _ _) Hf) Hrun).
  destruct c; reflexivity.
Qed.

(** ** Parallel emission *)

Lemma eager_agree w w' parts : forall scan,
  entries w' = entries w ->
  (forall n e, entries w !! n = Some e ->
     arrays w' !! handlers e = arrays w !! handlers e
     /\ arrays w' !! allBelow e = arrays w !! allBelow e) ->
  eager w' parts scan = eager w parts scan.
Proof.
  intros scan He Ha. revert scan.
  induction parts as [|part rest IH]; intros [n|]; try reflexivity.
  - cbn [eager]. rewrite He.
    destruct (entries w !! n) as [e|] eqn:Hn; [|reflexivity]. simpl.
    destruct (Ha n e Hn) as [-> _]. reflexivity.
  - cbn [eager]. rewrite He.
    destruct (entries w !! n) as [e|] eqn:Hn; [|reflexivity]. simpl.
    destruct (Ha n e Hn) as [_ ->].
    destruct (arrays w !! allBelow e) as [below|]; [|reflexivity]. simpl.
    rewrite (IH (children e !! part)).
    destruct (_all e) as [a|]; [rewrite (IH (Some a))|]; reflexivity.
Qed.

Lemma carried_refl h params s :
  is_Some (arrays (world s) !! h) -> carried h params s s [] [].
Proof.
  intros [l Hl]. unfold carried.
  split; [reflexivity|]. split; [reflexivity|]. split; [reflexivity|].
  split; [auto|].
  split; [|simpl; rewrite app_nil_r; reflexivity].
  exists l. simpl. rewrite app_nil_r. auto.
Qed.

Lemma carried_trans h params s1 s2 s3 a1 r1 a2 r2 :
  carried h params s1 s2 a1 r1 -> carried h params s2 s3 a2 r2 ->
  carried h params s1 s3 (a1 ++ a2) (r1 ++ r2).
Proof.
  intros (He1 & Hd1 & Hr1 & Ho1 & (l1 & Hl1 & Hl1') & Hc1)
         (He2 & Hd2 & Hr2 & Ho2 & (l2 & Hl2 & Hl2') & Hc2).
  split; [congruence|]. split; [congruence|]. split; [congruence|].
  split; [intros a Ha; rewrite (Ho2 a Ha); apply Ho1; exact Ha|].
  split.
  - exists l1. split; [exact Hl1|]. rewrite Hl2'.
    assert (l2 = l1 ++ (promise_resolve <$> r1)) by congruence. subst l2.
    rewrite fmap_app, app_assoc. reflexivity.
  - rewrite Hc2, Hc1, fmap_app, app_assoc. reflexivity.
Qed.

Lemma run_anywhere_app params l1 l2 applied results c :
  run_anywhere behaviour params (l1 ++ l2) applied results c ->
  (exists a1 r1 a2 r2,
     run_anywhere behaviour params l1 a1 r1 (Return tt)
     /\ run_anywhere behaviour params l2 a2 r2 c
     /\ applied = a1 ++ a2 /\ results = r1 ++ r2)
  \/ (exists e, c = Throw e
                /\ run_anywhere behaviour params l1 applied results (Throw e)).
Proof.
  revert applied results c. induction l1 as [|v l1 IH]; intros applied results c H.
  - left. exists [], [], applied, results. split; [constructor | auto].
  - inversion H as [|id r rest a rs c' Hb Hr|id e rest Hb]; subst.
    + destruct (IH _ _ _ Hr)
        as [(a1 & r1 & a2 & r2 & H1 & H2 & -> & ->)|(e & -> & H1)].
      * left. exists (VUser id :: a1), (r :: r1), a2, r2.
        split; [econstructor; eassumption | auto].
      * right. exists e. split; [reflexivity | econstructor; eassumption].
    + right. exists e. split; [reflexivity | constructor; exact Hb].
Qed.

Section Pushing.

Variables (h : loc) (params : list value).

Let f := call_pushing behaviour h params.

Lemma call_pushing_return id r s :
  (forall w, behaviour id params w = (Return r, w)) ->
  is_Some (arrays (world s) !! h) ->
  exists s', f (VUser id) s = (Return tt, s')
             /\ carried h params s s' [VUser id] [r].
Proof.
  intros Hb [l Hl]. unfold f, call_pushing. rewrite bind_eq. cbn [fn_apply].
  rewrite bind_eq. unfold record_call at 1, run_user. cbn [world calls].
  rewrite Hb.
  set (s1 := {| world := world s; calls := calls s ++ [(VUser id, params)] |}).
  assert (Hl1 : arrays (world s1) !! h = Some l) by exact Hl.
  rewrite (push_eq _ _ _ _ Hl1). eexists. split; [reflexivity|].
  unfold carried. simpl.
  split; [reflexivity|]. split; [reflexivity|]. split; [reflexivity|].
  split; [intros a Ha; apply lookup_insert_ne; auto|].
  split; [|reflexivity]. exists l. split; [exact Hl | apply lookup_insert_eq].
Qed.

Lemma call_pushing_throw id e s :
  (forall w, behaviour id params w = (Throw e, w)) ->
  is_Some (arrays (world s) !! h) ->
  exists s', f (VUser id) s = (Throw e, s')
             /\ carried h params s s' [VUser id] [].
Proof.
  intros Hb [l Hl]. unfold f, call_pushing. rewrite bind_eq. cbn [fn_apply].
  rewrite bind_eq. unfold record_call at 1, run_user. cbn [world calls].
  rewrite Hb. eexists. split; [reflexivity|].
  unfold carried. simpl.
  split; [reflexivity|]. split; [reflexivity|]. split; [reflexivity|].
  split; [auto|]. split; [|reflexivity].
  exists l. rewrite app_nil_r. auto.
Qed.

Lemma carried_array s s' applied results b l :
  carried h params s s' applied results -> b <> h ->
  arrays (world s) !! b = Some l -> arrays (world s') !! b = Some l.
Proof. intros (_ & _ & _ & Ho & _) Hb Hl. rewrite (Ho b Hb). exact Hl. Qed.

Lemma carried_local s s' applied results :
  carried h params s s' applied results ->
  is_Some (arrays (world s') !! h).
Proof. intros (_ & _ & _ & _ & (l & _ & Hl) & _). eauto. Qed.

Lemma pushing_backward b l i : forall s applied results c,
  arrays (world s) !! b = Some l -> b <> h ->
  is_Some (arrays (world s) !! h) ->
  run_anywhere behaviour params (rev (truthy_only (take i l))) applied results c ->
  exists s', call_backward f b i s = (c, s')
             /\ carried h params s s' applied results.
Proof.
  induction i as [|i IH]; intros s applied results c Hl Hb Hh Hrun.
  - simpl in Hrun. inversion Hrun; subst. exists s.
    split; [reflexivity | apply carried_refl; exact Hh].
  - cbn [call_backward]. rewrite bind_eq, (read_array_eq _ _ _ Hl), bind_eq.
    destruct (l !! i) as [v|] eqn:Hv.
    + rewrite (take_S_r _ _ _ Hv) in Hrun.
      unfold truthy_only in Hrun.
      rewrite List.filter_app, rev_app_distr in Hrun. simpl in Hrun.
      cbn [from_option id].
      destruct (truthy v) eqn:Ht.
      * simpl in Hrun.
        inversion Hrun as [|hid r rest a rs c' Hbv Hr|hid e rest Hbv]; subst.
        -- destruct (call_pushing_return hid r s Hbv Hh) as (s1 & -> & Hc1).
           destruct (IH s1 a rs c (carried_array _ _ _ _ _ _ Hc1 Hb Hl) Hb
                       (carried_local _ _ _ _ Hc1) Hr) as (s2 & E2 & Hc2).
           exists s2. split; [exact E2|].
           exact (carried_trans _ _ _ _ _ [VUser hid] [r] a rs Hc1 Hc2).
        -- destruct (call_pushing_throw hid e s Hbv Hh) as (s1 & -> & Hc1).
           exists s1. split; [reflexivity | exact Hc1].
      * simpl in Hrun. unfold mret at 1, M_ret at 1.
        apply IH; assumption.
    + cbn [from_option id truthy]. unfold mret at 1, M_ret at 1.
      apply lookup_ge_None in Hv.
      rewrite take_ge in Hrun by lia.
      apply IH; try assumption. rewrite take_ge by lia. exact Hrun.
Qed.

Lemma pushing_forward b l n : forall i s applied results c,
  arrays (world s) !! b = Some l -> b <> h ->
  is_Some (arrays (world s) !! h) ->
  run_anywhere behaviour params (truthy_only (take n (drop i l))) applied results c ->
  exists s', call_forward f b i n s = (c, s')
             /\ carried h params s s' applied results.
Proof.
  induction n as [|n IH]; intros i s applied results c Hl Hb Hh Hrun.
  - simpl in Hrun. inversion Hrun; subst. exists s.
    split; [reflexivity | apply carried_refl; exact Hh].
  - cbn [call_forward]. rewrite bind_eq, (read_array_eq _ _ _ Hl), bind_eq.
    destruct (l !! i) as [v|] eqn:Hv.
    + rewrite (drop_S _ _ _ Hv) in Hrun. simpl in Hrun.
      cbn [from_option id].
      destruct (truthy v) eqn:Ht.
      * inversion Hrun as [|hid r rest a rs c' Hbv Hr|hid e rest Hbv]; subst.
        -- destruct (call_pushing_return hid r s Hbv Hh) as (s1 & -> & Hc1).
           destruct (IH (S i) s1 a rs c (carried_array _ _ _ _ _ _ Hc1 Hb Hl) Hb
                       (carried_local _ _ _ _ Hc1) Hr) as (s2 & E2 & Hc2).
           exists s2. split; [exact E2|].
           exact (carried_trans _ _ _ _ _ [VUser hid] [r] a rs Hc1 Hc2).
        -- destruct (call_pushing_throw hid e s Hbv Hh) as (s1 & -> & Hc1).
           exists s1. split; [reflexivity | exact Hc1].
      * unfold mret at 1, M_ret at 1. apply IH; assumption.
    + cbn [from_option id truthy]. unfold mret at 1, M_ret at 1.
      apply lookup_ge_None in Hv.
      rewrite drop_ge, take_nil in Hrun by lia.
      apply IH; try assumption. rewrite drop_ge, take_nil by lia. exact Hrun.
Qed.

End Pushing.

Lemma carried_eager h params s s' applied results parts scan :
  carried h params s s' applied results ->
  (forall n e, entries (world s) !! n = Some e ->
     handlers e <> h /\ allBelow e <> h) ->
  eager (world s') parts scan = eager (world s) parts scan.
Proof.
  intros (He & _ & _ & Ho & _) Hnb. apply eager_agree; [exact He|].
  intros n e Hn. destruct (Hnb n e Hn) as [H1 H2].
  split; apply Ho; assumption.
Qed.

Lemma pushing_walk h params parts : forall scan s l applied results c,
  plain parts ->
  eager (world s) parts scan = Some l ->
  (forall n e, entries (world s) !! n = Some e ->
     handlers e <> h /\ allBelow e <> h) ->
  is_Some (arrays (world s) !! h) ->
  run_anywhere behaviour params l applied results c ->
  exists s',
    _emit (Entry <$> scan) parts None
          (Some (call_pushing behaviour h params)) s
    = (match c with Return _ => Return None | Throw e => Throw e end, s')
    /\ carried h params s s' applied results.
Proof.
  induction parts as [|part rest IH];
    intros [n|] s l applied results c Hplain H Hnb Hh Hrun;
    cbn [fmap option_fmap option_map];
    try (rewrite _emit_None; simpl in H; injection H as <-;
         inversion Hrun; subst; exists s;
         split; [reflexivity | apply carried_refl; exact Hh]).
  - simpl in H.
    destruct (entries (world s) !! n) as [e|] eqn:He; [|discriminate H].
    simpl in H.
    destruct (arrays (world s) !! handlers e) as [hs|] eqn:Hhs;
      [|discriminate H].
    simpl in H. injection H as <-. cbn [_emit].
    rewrite bind_eq, (read_entry_eq _ _ _ He), bind_eq, (read_array_eq _ _ _ Hhs).
    rewrite bind_eq.
    destruct (Hnb n e He) as [Hne _].
    destruct (pushing_forward h params _ hs (length hs) 0 s applied results c
                Hhs Hne Hh) as (s' & -> & Hc);
      [rewrite drop_0, firstn_all; exact Hrun|].
    exists s'. split; [destruct c; reflexivity | exact Hc].
  - simpl in H.
    destruct (entries (world s) !! n) as [e|] eqn:He; [|discriminate H].
    simpl in H.
    destruct (arrays (world s) !! allBelow e) as [below|] eqn:Hb;
      [|discriminate H].
    simpl in H.
    destruct (if _all e is Some a then eager (world s) rest (Some a)
              else Some []) as [wild|] eqn:Hw; [|discriminate H].
    simpl in H.
    destruct (eager (world s) rest (children e !! part)) as [child|] eqn:Hc;
      [|discriminate H].
    simpl in H. injection H as <-.
    destruct (Hnb n e He) as [_ Hne].
    destruct (plain_cons _ _ Hplain) as [Hkey Hrest].
    rewrite _emit_call_cons.
    rewrite bind_eq, (read_entry_eq _ _ _ He), bind_eq, (read_array_eq _ _ _ Hb).
    rewrite bind_eq.
    apply run_anywhere_app in Hrun
      as [(a1 & r1 & a23 & r23 & H1 & H23 & -> & ->)|(x & -> & H1)].
    2:{ destruct (pushing_backward h params _ below (length below) s applied
                    results (Throw x) Hb Hne Hh) as (s' & -> & Hc');
          [rewrite firstn_all; exact H1|].
        exists s'. split; [reflexivity | exact Hc']. }
    destruct (pushing_backward h params _ below (length below) s a1 r1
                (Return tt) Hb Hne Hh) as (s1 & -> & Hc1);
      [rewrite firstn_all; exact H1|].
    assert (He1 : entries (world s1) !! n = Some e)
      by (destruct Hc1 as (E & _); rewrite E; exact He).
    assert (Hnb1 : forall n e, entries (world s1) !! n = Some e ->
              handlers e <> h /\ allBelow e <> h)
      by (destruct Hc1 as (E & _); rewrite E; exact Hnb).
    pose proof (carried_local _ _ _ _ _ _ Hc1) as Hh1.
    rewrite bind_eq, (read_entry_eq _ _ _ He1), bind_eq.
    apply run_anywhere_app in H23
      as [(a2 & r2 & a3 & r3 & H2 & H3 & -> & ->)|(x & -> & H2)].
    + assert (Hc' : eager (world s1) rest (children e !! part) = Some child)
        by (rewrite (carried_eager _ _ _ _ _ _ _ _ Hc1 Hnb); exact Hc).
      destruct (_all e) as [a|] eqn:Ha.
      * rewrite bind_eq, (getAll_existing _ _ _ _ He1 Ha).
        assert (Hw' : eager (world s1) rest (Some a) = Some wild)
          by (rewrite (carried_eager _ _ _ _ _ _ _ _ Hc1 Hnb); exact Hw).
        destruct (IH (Some a) s1 wild a2 r2 (Return tt) Hrest Hw' Hnb1 Hh1 H2)
          as (s2 & E2 & Hc2).
        cbn [fmap option_fmap option_map] in E2. rewrite E2.
        assert (He2 : entries (world s2) !! n = Some e)
          by (destruct Hc2 as (E & _); rewrite E; exact He1).
        assert (Hnb2 : forall n e, entries (world s2) !! n = Some e ->
                  handlers e <> h /\ allBelow e <> h)
          by (destruct Hc2 as (E & _); rewrite E; exact Hnb1).
        rewrite bind_eq, (read_entry_eq _ _ _ He2).
        rewrite bind_eq, (child_of_plain _ _ _ Hkey).
        assert (Hc'' : eager (world s2) rest (children e !! part) = Some child)
          by (rewrite (carried_eager _ _ _ _ _ _ _ _ Hc2 Hnb1); exact Hc').
        destruct (IH _ s2 child a3 r3 c Hrest Hc'' Hnb2
                    (carried_local _ _ _ _ _ _ Hc2) H3) as (s3 & -> & Hc3).
        exists s3. split; [reflexivity|].
        exact (carried_trans _ _ _ _ _ _ _ _ _ Hc1
                 (carried_trans _ _ _ _ _ _ _ _ _ Hc2 Hc3)).
      * injection Hw as <-. inversion H2; subst.
        unfold mret at 1, M_ret at 1.
        rewrite bind_eq, (read_entry_eq _ _ _ He1).
        rewrite bind_eq, (child_of_plain _ _ _ Hkey).
        destruct (IH _ s1 child a3 r3 c Hrest Hc' Hnb1 Hh1 H3)
          as (s3 & -> & Hc3).
        exists s3. split; [reflexivity|].
        exact (carried_trans _ _ _ _ _ _ _ _ _ Hc1 Hc3).
    + destruct (_all e) as [a|] eqn:Ha.
      * rewrite bind_eq, (getAll_existing _ _ _ _ He1 Ha).
        assert (Hw' : eager (world s1) rest (Some a) = Some wild)
          by (rewrite (carried_eager _ _ _ _ _ _ _ _ Hc1 Hnb); exact Hw).
        destruct (IH (Some a) s1 wild a23 r23 (Throw x) Hrest Hw' Hnb1 Hh1 H2)
          as (s2 & E2 & Hc2).
        cbn [fmap option_fmap option_map] in E2. rewrite E2.
        exists s2. split; [reflexivity|].
        exact (carried_trans _ _ _ _ _ _ _ _ _ Hc1 Hc2).
      * injection Hw as <-. inversion H2.
Qed.

(** X10: on a well-formed emitter, when the handlers that the walk of an
    event of plain segments finds leave the emitter alone, [emitAsync]
    applies them all, in the order in which [emit] does, whatever
    promises they return: a rejected promise does not keep the handlers
    after it from being applied.  The call is rejected when one of the
    promises is, with the reason of the one that is rejected first in
    time, whatever the clock [earliest]; it stays pending when none is
    rejected and one never settles, and resolves with the parameters
    otherwise.  A handler that throws ends the walk: the call is rejected
    with what was thrown and the handlers after it are not applied.  The
    trie is left as it was. *)
Theorem emitAsync_applies_all earliest s event params found applied
    results c :
  wf (world s) ->
  plain (split event (delimiter (world s))) ->
  eager (world s) (split event (delimiter (world s))) (Some (_events (world s)))
  = Some found ->
  run_anywhere behaviour params found applied results c ->
  exists s',
    emitAsync behaviour earliest event params s
    = (Return (match c with
               | Return _ =>
                   await_all earliest (promise_resolve <$> results) params
               | Throw e => Rejected e
               end), s')
    /\ calls s' = calls s ++ ((fun fn => (fn, params)) <$> applied)
    /\ entries (world s') = entries (world s)
    /\ (forall a l, arrays (world s) !! a = Some l ->
          arrays (world s') !! a = Some l)
    /\ (c = Return tt -> applied = found).
Proof.
  intros Hwf Hplain Hf Hrun.
  set (h := next (world s)).
  set (s0 := in_world (with_new_array [] (world s)) s).
  set (sa := announced event s0).
  assert (Ebody :
    emitAsync behaviour earliest event params s
    = match _emit (Some (Entry (_events (world s))))
              (split event (delimiter (world s))) None
              (Some (call_pushing behaviour h params)) sa with
      | (Return _, s') =>
          match read_array h s' with
          | (Return promises, s'') =>
              (Return (await_all earliest promises params), s'')
          | (Throw e, s'') => (Return (Rejected e), s'')
          end
      | (Throw e, s') => (Return (Rejected e), s')
      end).
  { unfold emitAsync, catch. rewrite bind_eq.
    rewrite (bind_eq (new_array [])), new_array_eq. fold h s0.
    assert (Es : set_event event s0 = (Return tt, sa)) by reflexivity.
    rewrite bind_eq, Es.
    assert (Eg : get_world sa = (Return (world sa), sa)) by reflexivity.
    rewrite bind_eq, Eg, bind_eq.
    change (_events (world sa)) with (_events (world s)).
    change (delimiter (world sa)) with (delimiter (world s)).
    destruct (_emit (Some (Entry (_events (world s))))
                (split event (delimiter (world s))) None
                (Some (call_pushing behaviour h params)) sa) as [[x|e] s'];
      [|reflexivity].
    destruct (read_array h s') as [[promises|e] s'']; reflexivity. }
  assert (Hfresh : forall a, is_Some (arrays (world s) !! a) -> a <> h).
  { intros a Ha. pose proof (wf_arrays_next _ Hwf a Ha). unfold h. lia. }
  assert (Hnb : forall n e, entries (world sa) !! n = Some e ->
            handlers e <> h /\ allBelow e <> h).
  { intros n e He. split; apply Hfresh;
      [exact (wf_handlers _ Hwf n e He) | exact (wf_allBelow _ Hwf n e He)]. }
  assert (Hh : is_Some (arrays (world sa) !! h))
    by (simpl; rewrite lookup_insert_eq; eauto).
  assert (Hfa : eager (world sa) (split event (delimiter (world s)))
                  (Some (_events (world s))) = Some found).
  { rewrite <- Hf. apply eager_agree; [reflexivity|].
    intros n e He. simpl.
    destruct (Hnb n e He) as [H1 H2].
    rewrite !lookup_insert_ne by auto. auto. }
  destruct (pushing_walk h params _ (Some (_events (world s))) sa found
              applied results c Hplain Hfa Hnb Hh Hrun)
    as (s1 & E1 & Hc1).
  cbn [fmap option_fmap option_map] in E1.
  destruct Hc1 as (He1 & Hd1 & Hr1 & Ho1 & (l0 & Hl0 & Hl1) & Hcalls).
  assert (l0 = []).
  { simpl in Hl0. unfold h in Hl0. rewrite lookup_insert_eq in Hl0. congruence. }
  subst l0. simpl in Hl1.
  assert (Hold : forall a l, arrays (world s) !! a = Some l ->
            arrays (world s1) !! a = Some l).
  { intros a l Hl. assert (a <> h) by (apply Hfresh; eauto).
    rewrite (Ho1 a) by assumption. simpl.
    rewrite lookup_insert_ne by auto. exact Hl. }
  exists s1. split.
  - rewrite Ebody, E1.
    destruct c as [[]|e].
    + rewrite (read_array_eq _ _ _ Hl1). reflexivity.
    + reflexivity.
  - split; [exact Hcalls|]. split; [exact He1|]. split; [exact Hold|].
    intros ->. clear -Hrun.
    remember (Return ()) as c eqn:Ec.
    induction Hrun as [|id r rest a rs c Hb Hr IH|id e rest Hb];
      [reflexivity | rewrite (IH Ec); reflexivity | discriminate Ec].
Qed.

Lemma stored_after_on good name h s :
  good h -> all_good_unhooked good s -> all_good_unhooked good (on name h s).2.
Proof.
  intros Hh Hs. pose proof (stored_on good name h Hh s Hs) as H.
  destruct (on name h s) as [[[]|x] s']; exact H.
Qed.

(** ** The same handlers in every mode *)

Lemma eager_gather w parts : forall scan f g,
  eager w parts scan = Some f -> gather w parts scan = Some g ->
  f ≡ₚ truthy_only g.
Proof.
  induction parts as [|part rest IH]; intros [n|] f g Hf Hg;
    try (simpl in Hf, Hg; injection Hf as <-; injection Hg as <-; reflexivity).
  - simpl in Hf, Hg.
    destruct (entries w !! n) as [e|]; [|discriminate Hf]. simpl in Hf, Hg.
    rewrite Hg in Hf. simpl in Hf. injection Hf as <-. reflexivity.
  - cbn [eager] in Hf. cbn [gather] in Hg.
    destruct (entries w !! n) as [e|]; [|discriminate Hf]. simpl in Hf, Hg.
    destruct (arrays w !! allBelow e) as [below|]; [|discriminate Hf].
    simpl in Hf, Hg.
    destruct (if _all e is Some a then eager w rest (Some a) else Some [])
      as [fw|] eqn:Hfw; [|discriminate Hf].
    destruct (if _all e is Some a then gather w rest (Some a) else Some [])
      as [gw|] eqn:Hgw; [|discriminate Hg].
    simpl in Hf, Hg.
    destruct (eager w rest (children e !! part)) as [fc|] eqn:Hfc;
      [|discriminate Hf].
    destruct (gather w rest (children e !! part)) as [gc|] eqn:Hgc;
      [|discriminate Hg].
    simpl in Hf, Hg. injection Hf as <-. injection Hg as <-.
    unfold truthy_only. rewrite !List.filter_app.
    apply Permutation_app; [symmetry; apply Permutation_rev|].
    apply Permutation_app.
    + destruct (_all e) as [a|].
      * exact (IH (Some a) fw gw Hfw Hgw).
      * injection Hfw as <-. injection Hgw as <-. reflexivity.
    + exact (IH _ fc gc Hfc Hgc).
Qed.

(** X11: on a well-formed emitter whose stored handlers are functions
    that return fulfilling values and leave the emitter alone, [emit] and
    [emitAsyncSequential] of an event of plain segments apply the same
    handlers the same number of times; only the order may differ. *)
Theorem emit_and_sequential_apply_the_same s event params :
  wf (world s) ->
  plain (split event (delimiter (world s))) ->
  (forall a l v, arrays (world s) !! a = Some l -> v ∈ l ->
     inert_value behaviour v) ->
  exists found collected,
    emit behaviour event params s
    = (Return params, logged found params (announced event s))
    /\ emitAsyncSequential behaviour event params s
       = (Return (Resolved params),
          logged collected params (announced event s))
    /\ found ≡ₚ collected.
Proof.
  intros Hwf Hplain Hall.
  set (parts := split event (delimiter (world s))) in *.
  assert (Hroot : forall r, Some (_events (world s)) = Some r ->
            is_Some (entries (world s) !! r))
    by (intros ? [= <-]; apply Hwf).
  destruct (eager_total (world s) parts _ Hwf Hroot) as [found Hf].
  destruct (gather_total (world s) parts _ Hwf Hroot) as [collected Hg].
  assert (Hic : Forall (inert_value behaviour) collected).
  { apply Forall_forall. intros x Hx.
    destruct (gather_elements _ _ _ _ _ Hg Hx) as (a & lx & Hlx & Hxin).
    exact (Hall a lx x Hlx Hxin). }
  assert (Hif : Forall (inert_value behaviour) found).
  { apply Forall_forall. intros x Hx.
    destruct (eager_elements _ _ _ _ _ Hf Hx) as (_ & a & lx & Hlx & Hxin).
    exact (Hall a lx x Hlx Hxin). }
  exists found, collected.
  split; [exact (emit_inert event params s parts found eq_refl Hplain Hf
                   Hif)|].
  split; [exact (emitAsyncSequential_inert event params s parts collected
                   eq_refl Hplain Hg Hic)|].
  rewrite (eager_gather _ _ _ _ _ Hf Hg).
  unfold truthy_only.
  assert (G : forall l : list value,
            Forall (inert_value behaviour) l -> List.filter truthy l = l).
  { induction l as [|v l IH]; intros Hl; [reflexivity|].
    simpl. destruct (Forall_inv Hl) as (id & -> & _). simpl.
    rewrite (IH (Forall_inv_tail Hl)). reflexivity. }
  rewrite (G collected Hic). reflexivity.
Qed.

(** ** Registration with a [storeHandlers] hook *)

(** Where the pattern has no double wildcard and its entries are there
    already, the loop of [on] changes nothing. *)
Lemma on_loop_found hook parts : forall s scan h m,
  single_only (wildcard (world s)) (doubleWild (world s)) parts ->
  locate (world s) parts scan = Some m ->
  on_loop (wildcard (world s)) (doubleWild (world s)) hook parts
          (Entry scan) h s
  = (Return (Entry m), s).
Proof.
  induction parts as [|p parts IH]; intros s scan h m Hp Hloc.
  - simpl in Hloc. injection Hloc as ->. reflexivity.
  - apply single_only_cons in Hp as [Hpart Hrest].
    cbn [on_loop]. cbn [locate] in Hloc.
    destruct (decide (p = wildcard (world s))) as [Hw|Hw].
    + destruct (entries (world s) !! scan) as [e|] eqn:He; [|discriminate Hloc].
      simpl in Hloc. destruct (_all e) as [a|] eqn:Ha; [|discriminate Hloc].
      simpl in Hloc.
      rewrite bind_eq, (getAll_existing _ _ _ _ He Ha).
      apply IH; assumption.
    + destruct (decide (p = doubleWild (world s))) as [Hd|Hd];
        [destruct Hpart; contradiction|].
      destruct (entries (world s) !! scan) as [e|] eqn:He; [|discriminate Hloc].
      simpl in Hloc.
      destruct (children e !! p) as [c|] eqn:Hc; [|discriminate Hloc].
      simpl in Hloc.
      rewrite bind_eq, (getChild_existing _ _ _ _ _ He Hc).
      apply IH; assumption.
Qed.

(** X12: with a [storeHandlers] hook, [on] of a truthy handler on a
    pattern without double wildcard whose entry is there already gives the
    bucket with the handler pushed onto it to the hook, and what the hook
    returns becomes the [handlers] bucket of the entry: a hook that
    rearranges the array leaves its result in the same array, and for a
    hook that returns another array the entry gets a new array, while the
    old one keeps the pushed handler.  Nothing else changes. *)
Theorem on_stores_what_the_hook_returns s name h hook m e l :
  storeHandlers (world s) = Some hook ->
  truthy h = true ->
  single_only (wildcard (world s)) (doubleWild (world s))
    (split name (delimiter (world s))) ->
  locate (world s) (split name (delimiter (world s))) (_events (world s))
  = Some m ->
  entries (world s) !! m = Some e ->
  arrays (world s) !! handlers e = Some l ->
  let s' := (on (Name name) h s).2 in
  on (Name name) h s = (Return tt, s')
  /\ calls s' = calls s
  /\ (forall n, n <> m -> entries (world s') !! n = entries (world s) !! n)
  /\ match hook with
     | InPlace f =>
         entries (world s') !! m = Some (set_handlers (handlers e) e)
         /\ arrays (world s') !! handlers e = Some (f (l ++ [h]))
         /\ (forall a, a <> handlers e ->
               arrays (world s') !! a = arrays (world s) !! a)
     | Copying f =>
         entries (world s') !! m = Some (set_handlers (next (world s)) e)
         /\ arrays (world s') !! next (world s) = Some (f (l ++ [h]))
         /\ (handlers e <> next (world s) ->
             arrays (world s') !! handlers e = Some (l ++ [h]))
         /\ (forall a, a <> handlers e -> a <> next (world s) ->
               arrays (world s') !! a = arrays (world s) !! a)
     end.
Proof.
  intros Hhook Ht Hp Hloc He Hl s'.
  set (s1 := in_world (with_array (handlers e) (l ++ [h]) (world s)) s).
  assert (He1 : entries (world s1) !! m = Some e) by exact He.
  assert (Hl1 : arrays (world s1) !! handlers e = Some (l ++ [h]))
    by (simpl; apply lookup_insert_eq).
  assert (Estart :
    on (Name name) h s
    = (b ← stored (Some hook) (handlers e);
       e' ← read_entry m;
       write_entry m (set_handlers b e')) s1).
  { unfold on, on_name. rewrite Ht. cbn [negb].
    rewrite bind_eq. cbn [get_world]. rewrite Hhook.
    rewrite bind_eq, (on_loop_found _ _ s _ h m Hp Hloc).
    rewrite bind_eq, (read_entry_eq _ _ _ He).
    rewrite bind_eq, (push_eq _ _ _ _ Hl). reflexivity. }
  destruct hook as [f|f].
  - set (s2 := in_world (with_array (handlers e) (f (l ++ [h])) (world s1)) s1).
    assert (He2 : entries (world s2) !! m = Some e) by exact He.
    assert (E : on (Name name) h s
                = (Return tt,
                   in_world (with_entry m (set_handlers (handlers e) e)
                               (world s2)) s2)).
    { rewrite Estart. cbn [stored].
      rewrite bind_eq, bind_eq, (read_array_eq _ _ _ Hl1).
      rewrite bind_eq, write_array_eq. fold s2.
      unfold mret at 1, M_ret at 1.
      rewrite bind_eq, (read_entry_eq _ _ _ He2). apply write_entry_eq. }
    subst s'. rewrite E. cbn [snd]. split; [reflexivity|].
    split; [reflexivity|]. simpl.
    split; [intros n Hn; apply lookup_insert_ne; auto|].
    split; [apply lookup_insert_eq|].
    split; [apply lookup_insert_eq|].
    intros a Ha. rewrite !lookup_insert_ne by auto. reflexivity.
  - set (b := next (world s)).
    set (s2 := in_world (with_new_array (f (l ++ [h])) (world s1)) s1).
    assert (He2 : entries (world s2) !! m = Some e) by exact He.
    assert (E : on (Name name) h s
                = (Return tt,
                   in_world (with_entry m (set_handlers b e) (world s2)) s2)).
    { rewrite Estart. cbn [stored].
      rewrite bind_eq, bind_eq, (read_array_eq _ _ _ Hl1), new_array_eq.
      fold s2.
      rewrite bind_eq, (read_entry_eq _ _ _ He2). apply write_entry_eq. }
    subst s'. rewrite E. cbn [snd]. split; [reflexivity|].
    split; [reflexivity|]. simpl.
    split; [intros n Hn; apply lookup_insert_ne; auto|].
    split; [apply lookup_insert_eq|].
    split; [apply lookup_insert_eq|].
    split.
    + intros Hne. rewrite lookup_insert_ne by auto. apply lookup_insert_eq.
    + intros a Ha Hb. rewrite !lookup_insert_ne by auto. reflexivity.
Qed.

(** ** Registration and then removal *)

Lemma grown_refl w : grown w w.
Proof.
  split; [lia|]. split; [auto|]. split; [intros a l H1 H2; congruence|].
  split; [|intros n e H1 H2; congruence].
  intros n e He. exists e. auto 10.
Qed.

Lemma wf_past_entries w n : wf w -> next w <= n -> entries w !! n = None.
Proof.
  intros Hwf Hn. destruct (entries w !! n) as [e|] eqn:He; [|reflexivity].
  assert (n < next w) by (apply (wf_entries_next _ Hwf); eauto). lia.
Qed.

Lemma wf_past_arrays w a : wf w -> next w <= a -> arrays w !! a = None.
Proof.
  intros Hwf Ha. destruct (arrays w !! a) as [l|] eqn:Hl; [|reflexivity].
  assert (a < next w) by (apply (wf_arrays_next _ Hwf); eauto). lia.
Qed.

(** One more entry, linked from the entry at [n]. *)
Lemma grown_link w w1 n e e' :
  wf w -> wf w1 -> grown w w1 -> entries w1 !! n = Some e ->
  handlers e' = handlers e -> allBelow e' = allBelow e ->
  (forall k, children e' !! k = children e !! k
             \/ (children e !! k = None
                 /\ children e' !! k = Some (S (S (next w1))))) ->
  (_all e' = _all e
   \/ (_all e = None /\ _all e' = Some (S (S (next w1))))) ->
  grown w (with_entry n e' (with_new_entry w1)).
Proof.
  intros Hwf Hwf1 (Hnext & Hold & Hnew & Hent & Hne) He Hh Hb Hc Ha.
  set (a := S (S (next w1))) in *.
  assert (Hn : n < next w1) by (apply (wf_entries_next _ Hwf1); eauto).
  split; [simpl; lia|]. split; [|split; [|split]].
  - intros x l Hx. simpl.
    assert (x < next w) by (apply (wf_arrays_next _ Hwf); eauto).
    rewrite !lookup_insert_ne by lia. exact (Hold _ _ Hx).
  - intros x l Hx. simpl. intros Hl.
    apply lookup_insert_Some in Hl as [[<- <-]|[_ Hl]]; [split; [auto|lia]|].
    apply lookup_insert_Some in Hl as [[<- <-]|[_ Hl]]; [split; [auto|lia]|].
    exact (Hnew _ _ Hx Hl).
  - intros m e0 Hm.
    assert (m < next w) by (apply (wf_entries_next _ Hwf); eauto).
    destruct (Hent m e0 Hm) as (e1 & He1 & Hh1 & Hb1 & Hc1 & Ha1).
    simpl. destruct (decide (n = m)) as [->|Hnm].
    + rewrite lookup_insert_eq. exists e'. split; [reflexivity|].
      assert (e1 = e) by congruence. subst e1.
      split; [congruence|]. split; [congruence|]. split.
      * intros k. destruct (Hc k) as [Hk|[Hk0 Hk']].
        -- rewrite Hk. exact (Hc1 k).
        -- right. split.
           ++ destruct (Hc1 k) as [E|[E _]]; congruence.
           ++ exists a. split; [exact Hk' | unfold a; lia].
      * destruct Ha as [Ha|[Ha0 Ha']].
        -- rewrite Ha. exact Ha1.
        -- right. split.
           ++ destruct Ha1 as [E|[E _]]; congruence.
           ++ exists a. split; [exact Ha' | unfold a; lia].
    + rewrite lookup_insert_ne by exact Hnm.
      rewrite lookup_insert_ne by (unfold a; lia).
      exists e1. auto.
  - intros m x Hm. simpl. intros Hx.
    apply lookup_insert_Some in Hx as [[<- <-]|[Hnm Hx]].
    + destruct (Hne n e Hm He) as (H1 & H2 & H3 & H4 & H5).
      split; [exact H1|]. split; [congruence|]. split; [congruence|]. split.
      * intros k c Hk. destruct (Hc k) as [E|[_ E]].
        -- rewrite E in Hk. exact (H4 k c Hk).
        -- assert (c = a) by congruence. subst c. unfold a. lia.
      * intros y Hy. destruct Ha as [E|[_ E]].
        -- rewrite E in Hy. exact (H5 y Hy).
        -- assert (y = a) by congruence. subst y. unfold a. lia.
    + apply lookup_insert_Some in Hx as [[<- <-]|[_ Hx]].
      * simpl. split; [lia|]. split; [lia|]. split; [lia|].
        split; [intros k c Hk; rewrite lookup_empty in Hk; discriminate Hk|].
        intros y Hy. discriminate Hy.
      * exact (Hne m x Hm Hx).
Qed.

Lemma getAll_new s n e :
  entries (world s) !! n = Some e -> _all e = None ->
  getAll n s
  = (Return (S (S (next (world s)))),
     in_world (with_entry n (set_all (S (S (next (world s)))) e)
                 (with_new_entry (world s))) s).
Proof.
  intros He Ha. unfold getAll. rewrite bind_eq, (read_entry_eq _ _ _ He), Ha.
  rewrite bind_eq, new_EventEntry_eq, bind_eq, write_entry_eq. reflexivity.
Qed.

Lemma getChild_new s n e key :
  plain_key key = true ->
  entries (world s) !! n = Some e -> children e !! key = None ->
  getChild n key s
  = (Return (Entry (S (S (next (world s))))),
     in_world (with_entry n
                 (set_children (<[key := S (S (next (world s)))]> (children e)) e)
                 (with_new_entry (world s))) s).
Proof.
  intros Hkey He Hk. unfold getChild.
  rewrite bind_eq, (read_entry_eq _ _ _ He).
  rewrite bind_eq, (child_of_plain _ _ _ Hkey), Hk.
  cbn [fmap option_fmap option_map].
  rewrite bind_eq, new_EventEntry_eq, bind_eq, write_entry_eq. reflexivity.
Qed.

(** A walk from a new entry finds nothing. *)
Lemma walk_new w w' parts :
  wf w -> wf w' -> grown w w' ->
  forall n, next w <= n -> is_Some (entries w' !! n) ->
    gather w' parts (Some n) = Some [] /\ eager w' parts (Some n) = Some [].
Proof.
  intros Hwf Hwf' (_ & _ & Hnew & _ & Hne).
  induction parts as [|part rest IH]; intros n Hn [e' He'];
    destruct (Hne n e' (wf_past_entries _ _ Hwf Hn) He')
      as (_ & Hh & Hb & Hc & Ha).
  - destruct (wf_handlers _ Hwf' n e' He') as [l Hl].
    destruct (Hnew _ l (wf_past_arrays _ _ Hwf Hh) Hl) as [-> _].
    simpl. rewrite He'. simpl. rewrite Hl. auto.
  - destruct (wf_allBelow _ Hwf' n e' He') as [l Hl].
    destruct (Hnew _ l (wf_past_arrays _ _ Hwf Hb) Hl) as [-> _].
    assert (Hwild :
      (if _all e' is Some a then gather w' rest (Some a) else Some []) = Some []
      /\ (if _all e' is Some a then eager w' rest (Some a) else Some [])
         = Some []).
    { destruct (_all e') as [a|] eqn:Hall; [|auto].
      apply IH; [exact (Ha a eq_refl) | exact (wf_all _ Hwf' _ _ _ He' Hall)]. }
    assert (Hchild :
      gather w' rest (children e' !! part) = Some []
      /\ eager w' rest (children e' !! part) = Some []).
    { destruct (children e' !! part) as [c|] eqn:Hcp.
      - apply IH; [exact (Hc part c Hcp)
                  | exact (wf_children _ Hwf' _ _ _ _ He' Hcp)].
      - rewrite gather_None, eager_None. auto. }
    cbn [gather eager]. rewrite He'. simpl. rewrite Hl. simpl.
    destruct Hwild as [-> ->]. destruct Hchild as [-> ->]. auto.
Qed.

(** A walk from an entry of [w] finds in [w'] what it finds in [w]. *)
Lemma walk_grown w w' parts :
  wf w -> wf w' -> grown w w' ->
  forall n, is_Some (entries w !! n) ->
    gather w' parts (Some n) = gather w parts (Some n)
    /\ eager w' parts (Some n) = eager w parts (Some n).
Proof.
  intros Hwf Hwf' Hg. pose proof Hg as (_ & Hold & _ & Hent & _).
  induction parts as [|part rest IH]; intros n [e He];
    destruct (Hent n e He) as (e' & He' & Hh & Hb & Hc & Ha).
  - destruct (wf_handlers _ Hwf n e He) as [l Hl].
    simpl. rewrite He, He'. simpl. rewrite Hh, Hl, (Hold _ _ Hl). auto.
  - destruct (wf_allBelow _ Hwf n e He) as [l Hl].
    assert (Hwild :
      (if _all e' is Some a then gather w' rest (Some a) else Some [])
      = (if _all e is Some a then gather w rest (Some a) else Some [])
      /\ (if _all e' is Some a then eager w' rest (Some a) else Some [])
         = (if _all e is Some a then eager w rest (Some a) else Some [])).
    { destruct Ha as [Ha|(Ha0 & a & Ha' & Hna)].
      - rewrite Ha. destruct (_all e) as [a|] eqn:Hall; [|auto].
        apply IH. exact (wf_all _ Hwf _ _ _ He Hall).
      - rewrite Ha0, Ha'.
        exact (walk_new w w' rest Hwf Hwf' Hg a Hna
                 (wf_all _ Hwf' _ _ _ He' Ha')). }
    assert (Hchild :
      gather w' rest (children e' !! part) = gather w rest (children e !! part)
      /\ eager w' rest (children e' !! part)
         = eager w rest (children e !! part)).
    { destruct (Hc part) as [Hcp|(Hc0 & c & Hc' & Hnc)].
      - rewrite Hcp. destruct (children e !! part) as [c|] eqn:Hcc.
        + apply IH. exact (wf_children _ Hwf _ _ _ _ He Hcc).
        + rewrite !gather_None, !eager_None. auto.
      - rewrite Hc0, Hc', gather_None, eager_None.
        exact (walk_new w w' rest Hwf Hwf' Hg c Hnc
                 (wf_children _ Hwf' _ _ _ _ He' Hc')). }
    cbn [gather eager]. rewrite He, He'. simpl.
    rewrite Hb, Hl, (Hold _ _ Hl). simpl.
    destruct Hwild as [-> ->]. destruct Hchild as [-> ->]. auto.
Qed.

(** The walks read the entries and the arrays only. *)
Lemma walk_same w w' parts : forall scan,
  entries w' = entries w -> arrays w' = arrays w ->
  gather w' parts scan = gather w parts scan
  /\ eager w' parts scan = eager w parts scan.
Proof.
  intros scan He Ha. revert scan.
  induction parts as [|part rest IH]; intros [n|]; try (split; reflexivity).
  - simpl. rewrite He, Ha. auto.
  - cbn [gather eager]. rewrite He, Ha.
    destruct (entries w !! n) as [e|]; [|auto]. simpl.
    destruct (arrays w !! allBelow e) as [below|]; [|auto]. simpl.
    destruct (IH (children e !! part)) as [-> ->].
    destruct (_all e) as [a|]; [destruct (IH (Some a)) as [-> ->]|]; auto.
Qed.

(** The loop of [on] with a pattern without double wildcard only adds
    entries, and no handler. *)
Lemma on_loop_grown w parts : forall s scan h,
  plain parts ->
  wf w -> wf (world s) -> grown w (world s) ->
  is_Some (entries (world s) !! scan) ->
  single_only (wildcard (world s)) (doubleWild (world s)) parts ->
  exists m s',
    on_loop (wildcard (world s)) (doubleWild (world s)) None parts
            (Entry scan) h s
    = (Return (Entry m), s')
    /\ grown w (world s').
Proof.
  induction parts as [|part rest IH];
    intros s scan h Hplain Hwf Hwfs Hg [e He] Hp.
  - exists scan, s. split; [reflexivity | exact Hg].
  - apply single_only_cons in Hp as [Hpart Hrest].
    destruct (plain_cons _ _ Hplain) as [Hkey Hplrest]. cbn [on_loop].
    destruct (decide (part = wildcard (world s))) as [Hw|Hw].
    + destruct (getAll_spec s scan Hwfs (ex_intro _ e He))
        as (a & s1 & E & Hwf1 & Hext & _ & Ha & _).
      assert (Hg1 : grown w (world s1)).
      { destruct (_all e) as [a0|] eqn:Hall.
        - rewrite (getAll_existing _ _ _ _ He Hall) in E.
          injection E as <- <-. exact Hg.
        - rewrite (getAll_new _ _ _ He Hall) in E. injection E as <- <-.
          apply (grown_link w (world s) scan e);
            [exact Hwf | exact Hwfs | exact Hg | exact He | reflexivity
            | reflexivity | intros k; left; reflexivity |].
          right. split; [exact Hall | reflexivity]. }
      rewrite bind_eq, E.
      rewrite <- (ext_wildcard _ _ Hext), <- (ext_doubleWild _ _ Hext) in Hrest |- *.
      exact (IH s1 a h Hplrest Hwf Hwf1 Hg1 Ha Hrest).
    + destruct (decide (part = doubleWild (world s))) as [Hd|Hd];
        [destruct Hpart; contradiction|].
      destruct (getChild_spec s scan part Hkey Hwfs (ex_intro _ e He))
        as (c & s1 & E & Hwf1 & Hext & _ & Hc & _).
      assert (Hg1 : grown w (world s1)).
      { destruct (children e !! part) as [c0|] eqn:Hk.
        - rewrite (getChild_existing _ _ _ _ _ He Hk) in E.
          injection E as <- <-. exact Hg.
        - rewrite (getChild_new _ _ _ _ Hkey He Hk) in E.
          injection E as <- <-.
          apply (grown_link w (world s) scan e);
            [exact Hwf | exact Hwfs | exact Hg | exact He | reflexivity
            | reflexivity | | left; reflexivity].
          intros k. simpl. destruct (decide (part = k)) as [<-|Hne].
          + right. split; [exact Hk | apply lookup_insert_eq].
          + left. apply lookup_insert_ne. exact Hne. }
      rewrite bind_eq, E.
      rewrite <- (ext_wildcard _ _ Hext), <- (ext_doubleWild _ _ Hext) in Hrest |- *.
      exact (IH s1 c h Hplrest Hwf Hwf1 Hg1 Hc Hrest).
Qed.

(** From a new entry a pattern leads to new entries only. *)
Lemma locate_new w w' parts :
  wf w -> grown w w' ->
  forall n m, next w <= n -> locate w' parts n = Some m -> next w <= m.
Proof.
  intros Hwf (_ & _ & _ & _ & Hne).
  induction parts as [|part rest IH]; intros n m Hn H.
  - simpl in H. injection H as <-. exact Hn.
  - cbn [locate] in H.
    destruct (decide (part = wildcard w')) as [Hw|Hw].
    + destruct (entries w' !! n) as [e'|] eqn:He'; [|discriminate H].
      simpl in H. destruct (_all e') as [a|] eqn:Ha; [|discriminate H].
      simpl in H.
      destruct (Hne n e' (wf_past_entries _ _ Hwf Hn) He') as (_ & _ & _ & _ & Hall).
      exact (IH a m (Hall a Ha) H).
    + destruct (decide (part = doubleWild w')) as [Hd|Hd];
        [exact (IH n m Hn H)|].
      destruct (entries w' !! n) as [e'|] eqn:He'; [|discriminate H].
      simpl in H. destruct (children e' !! part) as [c|] eqn:Hc;
        [|discriminate H].
      simpl in H.
      destruct (Hne n e' (wf_past_entries _ _ Hwf Hn) He') as (_ & _ & _ & Hch & _).
      exact (IH c m (Hch part c Hc) H).
Qed.

(** An entry of [w] that a pattern leads to in [w'] is the one that it
    leads to in [w]. *)
Lemma locate_grown w w' parts :
  wf w -> grown w w' ->
  wildcard w' = wildcard w -> doubleWild w' = doubleWild w ->
  forall n m, is_Some (entries w !! n) -> is_Some (entries w !! m) ->
    locate w' parts n = Some m -> locate w parts n = Some m.
Proof.
  intros Hwf Hg Hwc Hdw. pose proof Hg as (_ & _ & _ & Hent & _).
  induction parts as [|part rest IH]; intros n m [e He] Hm H; [exact H|].
  assert (Hlt : m < next w) by exact (wf_entries_next _ Hwf m Hm).
  destruct (Hent n e He) as (e' & He' & _ & _ & Hc & Ha).
  cbn [locate] in *. rewrite Hwc, Hdw in H. rewrite He' in H. rewrite He.
  simpl in *.
  destruct (decide (part = wildcard w)) as [Hw|Hw].
  - destruct (_all e') as [a|] eqn:Ha'; [|discriminate H]. simpl in H.
    destruct Ha as [Ha|(_ & a0 & Ha0 & Hna)].
    + rewrite <- Ha. simpl.
      apply IH; [|exact Hm|exact H].
      apply (wf_all _ Hwf n e a He). congruence.
    + injection Ha0 as <-.
      pose proof (locate_new w w' rest Hwf Hg a m Hna H). lia.
  - destruct (decide (part = doubleWild w)) as [Hd|Hd].
    + apply IH; [eauto|exact Hm|exact H].
    + destruct (children e' !! part) as [c|] eqn:Hc'; [|discriminate H].
      simpl in H.
      destruct (Hc part) as [Hcp|(_ & c0 & Hc0 & Hnc)].
      * rewrite <- Hcp, Hc'. simpl.
        apply IH; [|exact Hm|exact H].
        apply (wf_children _ Hwf n e part c He). congruence.
      * rewrite Hc' in Hc0. injection Hc0 as <-.
        pose proof (locate_new w w' rest Hwf Hg c m Hnc H). lia.
Qed.

Lemma set_handlers_same e : set_handlers (handlers e) e = e.
Proof. destruct e. reflexivity. Qed.

Lemma indexOf_last l (x : value) :
  x ∉ l -> indexOf (l ++ [x]) x = Some (length l).
Proof.
  induction l as [|y l IH]; intros H; simpl.
  - destruct (decide (x = x)); [reflexivity | contradiction].
  - destruct (decide (y = x)) as [->|_].
    + exfalso. apply H. apply elem_of_cons. auto.
    + rewrite IH; [reflexivity|]. intros Hin. apply H. apply elem_of_cons. auto.
Qed.

Lemma delete_last (l : list value) x : delete (length l) (l ++ [x]) = l.
Proof. induction l as [|y l IH]; simpl; [reflexivity | rewrite IH; reflexivity]. Qed.


(** X13: on a well-formed emitter without hook, [on] with a pattern of
    plain segments without double wildcard and a handler that is not yet
    in the bucket of that pattern, followed by [off] with the same
    pattern and handler, both return, and afterwards every bucket of
    before holds what it held and every event of plain segments finds the
    handlers it found before, in the same order: the entries that [on]
    has created stay, and hold nothing. *)
Theorem on_then_off_restores s name h :
  plain (split name (delimiter (world s))) ->
  wf (world s) -> storeHandlers (world s) = None -> truthy h = true ->
  single_only (wildcard (world s)) (doubleWild (world s))
    (split name (delimiter (world s))) ->
  (forall m e l,
     locate (world s) (split name (delimiter (world s))) (_events (world s))
     = Some m ->
     entries (world s) !! m = Some e ->
     arrays (world s) !! handlers e = Some l -> h ∉ l) ->
  exists s1 s2,
    on (Name name) h s = (Return tt, s1)
    /\ off (Name name) h s1 = (Return tt, s2)
    /\ wf (world s2) /\ calls s2 = calls s
    /\ (forall a l, arrays (world s) !! a = Some l ->
                    arrays (world s2) !! a = Some l)
    /\ forall evt,
         plain (split evt (delimiter (world s))) ->
         (collect evt s2).1 = (collect evt s).1
         /\ eager (world s2) (split evt (delimiter (world s2)))
                  (Some (_events (world s2)))
            = eager (world s) (split evt (delimiter (world s)))
                    (Some (_events (world s))).
Proof.
  intros Hplain Hwf Hhook Ht Hp Hnot.
  set (parts := split name (delimiter (world s))) in *.
  destruct (on_loop_spec parts s (_events (world s)) h Hplain Hwf
              (wf_root _ Hwf))
    as (m & s1 & E1 & Hwf1 & Hext1 & Hc1 & [e He] & Hloc & _).
  destruct (on_loop_grown (world s) parts s (_events (world s)) h Hplain Hwf
              Hwf (grown_refl _) (wf_root _ Hwf) Hp)
    as (m' & s1' & E1' & Hg1).
  rewrite E1 in E1'. injection E1' as <- <-.
  destruct (wf_handlers _ Hwf1 m e He) as [l Hl].
  assert (Hnin : h ∉ l).
  { destruct (entries (world s) !! m) as [e0|] eqn:He0.
    - pose proof Hg1 as (_ & Hold & _ & Hent & _).
      destruct (Hent m e0 He0) as (e' & He' & Hh & _).
      assert (e' = e) by congruence. subst e'.
      destruct (wf_handlers _ Hwf m e0 He0) as [l0 Hl0].
      pose proof (Hold _ _ Hl0) as Hl0'. rewrite <- Hh in Hl0'.
      assert (l0 = l) by congruence. subst l0.
      apply (Hnot m e0 l); [|exact He0|exact Hl0].
      apply (locate_grown (world s) (world s1) parts Hwf Hg1
               (ext_wildcard _ _ Hext1) (ext_doubleWild _ _ Hext1));
        [exact (wf_root _ Hwf) | rewrite He0; eauto | exact Hloc].
    - pose proof Hg1 as (_ & _ & Hnew & _ & Hne).
      destruct (Hne m e He0 He) as (_ & Hh & _).
      destruct (Hnew _ l (wf_past_arrays _ _ Hwf Hh) Hl) as [-> _].
      apply not_elem_of_nil. }
  pose proof (push_bucket_eq s1 m e handlers set_handlers h l He Hl) as E2.
  set (s1b := in_world (with_entry m (set_handlers (handlers e) e)
                          (with_array (handlers e) (l ++ [h]) (world s1))) s1)
    in *.
  assert (Eon : on (Name name) h s = (Return tt, s1b)).
  { unfold on, on_name. rewrite Ht. cbn [negb].
    rewrite bind_eq. cbn [get_world]. rewrite Hhook. fold parts.
    rewrite bind_eq, E1, bind_eq, (read_entry_eq _ _ _ He). exact E2. }
  assert (Hent1b : entries (world s1b) = entries (world s1)).
  { simpl. rewrite set_handlers_same. apply insert_id. exact He. }
  assert (Hparts : split name (delimiter (world s1b)) = parts).
  { unfold parts. rewrite <- (ext_delimiter _ _ Hext1). reflexivity. }
  assert (Hroot : _events (world s1b) = _events (world s))
    by exact (ext_events _ _ Hext1).
  assert (Hwc : wildcard (world s1b) = wildcard (world s))
    by exact (ext_wildcard _ _ Hext1).
  assert (Hdw : doubleWild (world s1b) = doubleWild (world s))
    by exact (ext_doubleWild _ _ Hext1).
  assert (Hloc1b : locate (world s1b) parts (_events (world s)) = Some m).
  { rewrite (locate_same (world s1) (world s1b) parts _ Hent1b eq_refl eq_refl).
    exact Hloc. }
  assert (He1b : entries (world s1b) !! m = Some e)
    by (rewrite Hent1b; exact He).
  assert (Hl1b : arrays (world s1b) !! handlers e = Some (l ++ [h]))
    by (simpl; apply lookup_insert_eq).
  assert (Hp1b : single_only (wildcard (world s1b)) (doubleWild (world s1b))
                   parts) by (rewrite Hwc, Hdw; exact Hp).
  destruct (off_loop_handlers parts s1b (_events (world s)) h m e (l ++ [h])
              Hp1b (truthy_not_undefined _ Ht) Hloc1b He1b Hl1b)
    as (idx & Hidx & Eoff).
  { apply elem_of_app. right. apply elem_of_cons. left. reflexivity. }
  rewrite (indexOf_last _ _ Hnin) in Hidx. injection Hidx as <-.
  rewrite delete_last in Eoff.
  set (s2 := in_world (with_array (handlers e) l (world s1b)) s1b) in *.
  assert (Eoff' : off (Name name) h s1b = (Return tt, s2)).
  { rewrite <- Eoff. unfold off, off_name.
    rewrite bind_eq. cbn [get_world]. rewrite Hparts, Hroot. reflexivity. }
  assert (Hent2 : entries (world s2) = entries (world s1)) by exact Hent1b.
  assert (Harr2 : arrays (world s2) = arrays (world s1)).
  { simpl. rewrite insert_insert_eq. apply insert_id. exact Hl. }
  assert (Hwf2 : wf (world s2))
    by (apply (wf_same (world s1)); [exact Hent2|exact Harr2|reflexivity
                                    |reflexivity|exact Hwf1]).
  exists s1b, s2.
  split; [exact Eon|]. split; [exact Eoff'|]. split; [exact Hwf2|].
  split; [exact Hc1|]. split.
  { intros a la Ha. rewrite Harr2.
    destruct Hg1 as (_ & Hold & _). exact (Hold _ _ Ha). }
  intros evt Hpevt.
  assert (Hd2 : delimiter (world s2) = delimiter (world s))
    by exact (ext_delimiter _ _ Hext1).
  assert (Hr2 : _events (world s2) = _events (world s)) by exact Hroot.
  set (ev := split evt (delimiter (world s))).
  destruct (walk_same (world s1) (world s2) ev (Some (_events (world s)))
              Hent2 Harr2) as [Hg2 Hf2].
  destruct (walk_grown (world s) (world s1) ev Hwf Hwf1 Hg1
              (_events (world s)) (wf_root _ Hwf)) as [Hg3 Hf3].
  split.
  - destruct (gather_total (world s) ev (Some (_events (world s))) Hwf)
      as [g Hg]; [intros ? [= <-]; apply Hwf|].
    rewrite (collect_split evt s ev eq_refl).
    rewrite (collect_split evt s2 ev) by (rewrite Hd2; reflexivity).
    rewrite Hr2.
    rewrite_walk (_emit_gather ev (Some (_events (world s))) []
                    (announced evt s) g Hpevt
                    (eq_trans (gather_announced _ _ _ _) Hg)).
    assert (Hg' : gather (world (announced evt s2)) ev
                    (Some (_events (world s))) = Some g)
      by (rewrite gather_announced, Hg2, Hg3; exact Hg).
    rewrite_walk (_emit_gather ev (Some (_events (world s))) []
                    (announced evt s2) g Hpevt Hg').
    reflexivity.
  - rewrite Hd2, Hr2. fold ev. rewrite Hf2. exact Hf3.
Qed.


(** ** Two [once] listeners on one pattern *)

(** From an entry without children and wildcard entry, the loop of [on]
    with a pattern without double wildcard makes a chain, and changes no
    other entry that was there. *)
Lemma on_loop_blank parts : forall s scan e h,
  plain parts ->
  wf (world s) -> entries (world s) !! scan = Some e ->
  children e = ∅ -> _all e = None ->
  single_only (wildcard (world s)) (doubleWild (world s)) parts ->
  exists m em s',
    on_loop (wildcard (world s)) (doubleWild (world s)) None parts
            (Entry scan) h s
    = (Return (Entry m), s')
    /\ wf (world s')
    /\ entries (world s') !! m = Some em
    /\ chain (world s') parts scan (handlers em)
    /\ (handlers em = handlers e \/ next (world s) <= handlers em)
    /\ next (world s) <= next (world s')
    /\ wildcard (world s') = wildcard (world s)
    /\ next_fn (world s') = next_fn (world s)
    /\ (forall n, n < next (world s) -> n <> scan ->
          entries (world s') !! n = entries (world s) !! n).
Proof.
  induction parts as [|part rest IH];
    intros s scan e h Hplain Hwf He Hch Hall Hp.
  - exists scan, e, s. split; [reflexivity|]. split; [exact Hwf|].
    split; [exact He|]. split; [exists e; auto|].
    split; [auto|]. split; [auto|]. split; [auto|]. split; auto.
  - apply single_only_cons in Hp as [Hpart Hrest].
    destruct (plain_cons _ _ Hplain) as [Hkey Hplrest]. cbn [on_loop].
    assert (Hscan : scan < next (world s))
      by (apply (wf_entries_next _ Hwf); eauto).
    assert (Hb : allBelow e < next (world s))
      by (apply (wf_arrays_next _ Hwf); exact (wf_allBelow _ Hwf _ _ He)).
    assert (Hh : handlers e < next (world s))
      by (apply (wf_arrays_next _ Hwf); exact (wf_handlers _ Hwf _ _ He)).
    set (a := S (S (next (world s)))).
    destruct (decide (part = wildcard (world s))) as [Hw|Hw].
    + destruct (getAll_spec s scan Hwf (ex_intro _ e He))
        as (a' & s1 & E & Hwf1 & Hext & _).
      rewrite (getAll_new _ _ _ He Hall) in E. injection E as <- <-.
      rewrite bind_eq, (getAll_new _ _ _ He Hall). fold a.
      set (s1 := in_world (with_entry scan (set_all a e)
                             (with_new_entry (world s))) s) in *.
      assert (Ha : entries (world s1) !! a
                   = Some {| children := ∅; handlers := next (world s);
                             allBelow := S (next (world s)); _all := None |}).
      { simpl. rewrite lookup_insert_ne by (unfold a; lia).
        apply lookup_insert_eq. }
      destruct (IH s1 a _ h Hplrest Hwf1 Ha eq_refl eq_refl Hrest)
        as (m & em & s' & E' & Hwf' & Hem & Hchain & HT & Hn & Hwc & Hfn
            & Hframe).
      exists m, em, s'. split; [exact E'|]. split; [exact Hwf'|].
      split; [exact Hem|].
      assert (HT' : next (world s) <= handlers em)
        by (destruct HT as [HT|HT]; simpl in HT; lia).
      assert (Hs' : entries (world s') !! scan = Some (set_all a e)).
      { rewrite Hframe; [|simpl; lia|unfold a; lia].
        simpl. apply lookup_insert_eq. }
      split.
      { cbn [chain]. exists (set_all a e). split; [exact Hs'|].
        split; [simpl; lia|]. split; [simpl; lia|]. rewrite Hwc.
        change (wildcard (world s1)) with (wildcard (world s)).
        destruct (decide (part = wildcard (world s))) as [_|Hne];
          [|contradiction].
        split; [exact Hch|].
        exists a. split; [reflexivity | exact Hchain]. }
      split; [right; exact HT'|]. split; [simpl in Hn; lia|].
      split; [exact Hwc|]. split; [exact Hfn|].
      intros n Hn1 Hn2. rewrite Hframe; [|simpl; lia|unfold a; lia].
      simpl. rewrite lookup_insert_ne by auto.
      apply lookup_insert_ne. unfold a. lia.
    + destruct (decide (part = doubleWild (world s))) as [Hd|Hd];
        [destruct Hpart; contradiction|].
      assert (Hk : children e !! part = None)
        by (rewrite Hch; apply lookup_empty).
      destruct (getChild_spec s scan part Hkey Hwf (ex_intro _ e He))
        as (a' & s1 & E & Hwf1 & Hext & _).
      rewrite (getChild_new _ _ _ _ Hkey He Hk) in E. injection E as <- <-.
      rewrite bind_eq, (getChild_new _ _ _ _ Hkey He Hk). fold a.
      set (e1 := set_children (<[part := a]> (children e)) e) in *.
      set (s1 := in_world (with_entry scan e1 (with_new_entry (world s))) s)
        in *.
      assert (Ha : entries (world s1) !! a
                   = Some {| children := ∅; handlers := next (world s);
                             allBelow := S (next (world s)); _all := None |}).
      { simpl. rewrite lookup_insert_ne by (unfold a; lia).
        apply lookup_insert_eq. }
      destruct (IH s1 a _ h Hplrest Hwf1 Ha eq_refl eq_refl Hrest)
        as (m & em & s' & E' & Hwf' & Hem & Hchain & HT & Hn & Hwc & Hfn
            & Hframe).
      exists m, em, s'. split; [exact E'|]. split; [exact Hwf'|].
      split; [exact Hem|].
      assert (HT' : next (world s) <= handlers em)
        by (destruct HT as [HT|HT]; simpl in HT; lia).
      assert (Hs' : entries (world s') !! scan = Some e1).
      { rewrite Hframe; [|simpl; lia|unfold a; lia].
        simpl. apply lookup_insert_eq. }
      split.
      { cbn [chain]. exists e1. split; [exact Hs'|].
        split; [simpl; lia|]. split; [simpl; lia|]. rewrite Hwc.
        change (wildcard (world s1)) with (wildcard (world s)).
        destruct (decide (part = wildcard (world s))) as [Heq|_];
          [contradiction|].
        split; [exact Hall|].
        exists a. split; [simpl; rewrite Hch; apply insert_empty
                         | exact Hchain]. }
      split; [right; exact HT'|]. split; [simpl in Hn; lia|].
      split; [exact Hwc|]. split; [exact Hfn|].
      intros n Hn1 Hn2. rewrite Hframe; [|simpl; lia|unfold a; lia].
      simpl. rewrite lookup_insert_ne by auto.
      apply lookup_insert_ne. unfold a. lia.
Qed.


Lemma chain_same w w' parts T : forall n,
  entries w' = entries w -> wildcard w' = wildcard w ->
  chain w parts n T -> chain w' parts n T.
Proof.
  intros n He Hw. revert n.
  induction parts as [|part rest IH]; intros n; cbn [chain]; rewrite He;
    [auto|].
  rewrite Hw. intros (e & Hn & Hnh & Hne & H). exists e.
  split; [exact Hn|]. split; [exact Hnh|]. split; [exact Hne|].
  destruct (decide (part = wildcard w)).
  - destruct H as (Hk & a & Ha & H). split; [exact Hk|]. exists a. auto.
  - destruct H as (Hall & c & Hc & H). split; [exact Hall|]. exists c. auto.
Qed.

Lemma ready_same w w' parts m T l :
  entries w' = entries w -> arrays w' = arrays w -> next w' = next w ->
  _events w' = _events w -> wildcard w' = wildcard w ->
  doubleWild w' = doubleWild w ->
  ready parts m T l w -> ready parts m T l w'.
Proof.
  intros He Ha Hn Hr Hw Hd (Hwf & HT & Hrest & Hch & Hloc & Hm).
  split; [exact (wf_same w w' He Ha Hn Hr Hwf)|].
  rewrite Ha, Hr, He. split; [exact HT|]. split; [exact Hrest|].
  split; [exact (chain_same w w' parts T _ He Hw Hch)|].
  split; [|exact Hm].
  rewrite (locate_same w w' parts _ He Hw Hd). exact Hloc.
Qed.

(** The statements of [on] after its loop, on a ready store. *)
Lemma ready_push s parts m T l y :
  ready parts m T l (world s) ->
  exists s',
    (e ← read_entry m;
     push (handlers e) y;;
     h ← stored None (handlers e);
     e' ← read_entry m;
     write_entry m (set_handlers h e')) s = (Return tt, s')
    /\ calls s' = calls s
    /\ ready parts m T (l ++ [y]) (world s')
    /\ same_instance (world s) (world s').
Proof.
  intros (Hwf & HT & Hrest & Hch & Hloc & e & He & Hh). subst T.
  destruct (push_bucket_spec s m e handlers set_handlers y Hwf He)
    as (l0 & s' & E & Hwf' & _); [left; auto|].
  rewrite (push_bucket_eq s m e handlers set_handlers y l He HT) in E.
  rewrite bind_eq, (read_entry_eq _ _ _ He).
  rewrite (push_bucket_eq s m e handlers set_handlers y l He HT).
  injection E as <-.
  eexists. split; [reflexivity|]. split; [reflexivity|].
  assert (Hent : <[m := set_handlers (handlers e) e]> (entries (world s))
                 = entries (world s))
    by (rewrite set_handlers_same; apply insert_id; exact He).
  split; [|repeat split].
  split; [exact Hwf'|]. simpl. rewrite Hent.
  split; [apply lookup_insert_eq|].
  split; [intros b lb Hb Hlb; rewrite lookup_insert_ne in Hlb by auto;
          exact (Hrest b lb Hb Hlb)|].
  split; [apply (chain_same (world s)); [exact Hent|reflexivity|exact Hch]|].
  split; [|exists e; auto].
  rewrite <- Hloc. apply locate_same; [exact Hent|reflexivity|reflexivity].
Qed.

(** [on] where the pattern leads along a chain: the handler goes to the
    end of the bucket, and nothing else changes. *)
Lemma on_ready s name y m T l :
  storeHandlers (world s) = None -> truthy y = true ->
  single_only (wildcard (world s)) (doubleWild (world s))
    (split name (delimiter (world s))) ->
  ready (split name (delimiter (world s))) m T l (world s) ->
  exists s',
    on (Name name) y s = (Return tt, s')
    /\ calls s' = calls s
    /\ ready (split name (delimiter (world s))) m T (l ++ [y]) (world s')
    /\ same_instance (world s) (world s').
Proof.
  intros Hhook Ht Hp Hr.
  destruct (ready_push s _ m T l y Hr) as (s' & E & H).
  exists s'. split; [|exact H].
  destruct Hr as (_ & _ & _ & _ & Hloc & _).
  unfold on, on_name. rewrite Ht. cbn [negb].
  rewrite bind_eq. cbn [get_world]. rewrite Hhook.
  rewrite bind_eq, (on_loop_found None _ s _ y m Hp Hloc). exact E.
Qed.

(** [on] on a store of empty buckets whose root has no child and no
    wildcard entry. *)
Lemma on_blank s name y e0 :
  plain (split name (delimiter (world s))) ->
  wf (world s) -> storeHandlers (world s) = None -> truthy y = true ->
  single_only (wildcard (world s)) (doubleWild (world s))
    (split name (delimiter (world s))) ->
  all_empty (world s) ->
  entries (world s) !! _events (world s) = Some e0 ->
  children e0 = ∅ -> _all e0 = None ->
  exists m T s',
    on (Name name) y s = (Return tt, s')
    /\ calls s' = calls s
    /\ ready (split name (delimiter (world s))) m T [y] (world s')
    /\ same_instance (world s) (world s').
Proof.
  intros Hplain Hwf Hhook Ht Hp Hemp He0 Hch Hall.
  set (parts := split name (delimiter (world s))) in *.
  destruct (on_loop_blank parts s (_events (world s)) e0 y Hplain Hwf He0 Hch
              Hall Hp)
    as (m & em & s1 & E1 & Hwf1 & Hem & Hchain & _ & _ & _ & Hfn & _).
  destruct (on_loop_spec parts s (_events (world s)) y Hplain Hwf
              (wf_root _ Hwf))
    as (m' & s1' & E1' & _ & Hext & Hc1 & _ & Hloc & _).
  rewrite E1 in E1'. injection E1' as <- <-.
  assert (Hemp1 : all_empty (world s1)).
  { pose proof (empty_on_loop (wildcard (world s)) (doubleWild (world s)) None
                  parts (Entry (_events (world s))) y Hp s Hemp) as H.
    rewrite E1 in H. exact H. }
  destruct (wf_handlers _ Hwf1 m em Hem) as [l Hl].
  assert (l = []) by exact (Hemp1 _ _ Hl). subst l.
  pose proof (ext_events _ _ Hext) as Hr.
  assert (Hready : ready parts m (handlers em) [] (world s1)).
  { split; [exact Hwf1|]. split; [exact Hl|].
    split; [intros b lb _ Hlb; exact (Hemp1 _ _ Hlb)|].
    rewrite Hr. split; [exact Hchain|]. split; [exact Hloc|].
    exists em. auto. }
  destruct (ready_push s1 parts m (handlers em) [] y Hready)
    as (s' & E & Hc & Hready' & Hi1).
  exists m, (handlers em), s'.
  split.
  { unfold on, on_name. rewrite Ht. cbn [negb].
    rewrite bind_eq. cbn [get_world]. rewrite Hhook. fold parts.
    rewrite bind_eq, E1. exact E. }
  split; [congruence|]. split; [exact Hready'|].
  destruct Hi1 as (H1 & H2 & H3 & H4 & H5 & H6).
  unfold same_instance.
  rewrite H1, H2, H3, H4, H5, H6, Hfn.
  split; [exact (ext_delimiter _ _ Hext)|].
  split; [exact (ext_wildcard _ _ Hext)|].
  split; [exact (ext_doubleWild _ _ Hext)|].
  split; [exact Hr|].
  split; [exact (ext_storeHandlers _ _ Hext) | reflexivity].
Qed.


Section Twice.

Variables (hid1 hid2 pid1 pid2 : nat) (name : string) (params : list value).
Hypothesis h1_inert : inert behaviour hid1.

Let h1 := VUser hid1.
Let process1 := VProcess pid1 (Name name) h1.
Let process2 := VProcess pid2 (Name name) (VUser hid2).

(** The two closures of [once] are in the [handlers] bucket [T] of the
    entry that their pattern leads to, and every other bucket is
    empty. *)
Let paired (T : loc) (s : State) : Prop :=
  wf (world s)
  /\ arrays (world s) !! T = Some [process1; process2]
  /\ (forall b l, b <> T -> arrays (world s) !! b = Some l -> l = [])
  /\ single_only (wildcard (world s)) (doubleWild (world s))
       (split name (delimiter (world s)))
  /\ exists m e,
       locate (world s) (split name (delimiter (world s))) (_events (world s))
       = Some m
       /\ entries (world s) !! m = Some e /\ handlers e = T.

(** The first closure and then its handler were applied, and the second
    closure is what is left in the bucket. *)
Let skipped (T : loc) (s s' : State) : Prop :=
  world s' = with_array T [process2] (world s)
  /\ calls s' = calls s ++ [(process1, params); (h1, params)].

Lemma first_fires T s :
  paired T s ->
  exists s', call_with behaviour params process1 s = (Return tt, s')
             /\ skipped T s s'.
Proof.
  intros (Hwf & HT & Hrest & Hp & m & e & Hloc & He & <-).
  unfold call_with. rewrite bind_eq. unfold process1 at 1. cbn [fn_apply].
  fold process1. rewrite bind_eq. unfold record_call at 1.
  set (s0 := {| world := world s; calls := calls s ++ [(process1, params)] |}).
  assert (Hin : process1 ∈ [process1; process2])
    by (apply elem_of_cons; left; reflexivity).
  destruct (off_loop_handlers _ s0 (_events (world s0)) process1 m e
              [process1; process2] Hp ltac:(discriminate) Hloc He HT Hin)
    as (idx & Hidx & Eoff).
  assert (idx = 0).
  { cbn [indexOf] in Hidx. destruct (decide (process1 = process1)) as [_|Hne];
      [congruence | contradiction]. }
  subst idx. cbn [delete list_delete] in Eoff.
  rewrite bind_eq.
  assert (E : off (Name name) process1 s0
              = (Return tt,
                 in_world (with_array (handlers e) [process2] (world s0)) s0))
    by exact Eoff.
  rewrite E, bind_eq.
  destruct (fn_apply_inert hid1 params
              (in_world (with_array (handlers e) [process2] (world s0)) s0)
              h1_inert)
    as (r & _ & Eh).
  fold h1 in Eh. rewrite Eh. eexists. split; [reflexivity|].
  split; [reflexivity|]. simpl. rewrite <- app_assoc. reflexivity.
Qed.

(** Along a chain the walk of the event spelled like the pattern comes to
    the bucket of the two closures once, and its loop applies the first
    of them only: the closure takes itself out of the bucket, so that
    the second is at index 0 when the loop reads index 1. *)
Lemma walk_chain T parts : forall n s,
  plain parts ->
  paired T s -> chain (world s) parts n T ->
  exists s',
    _emit (Some (Entry n)) parts None (Some (call_with behaviour params)) s
    = (Return None, s')
    /\ skipped T s s'.
Proof.
  induction parts as [|part rest IH]; intros n s Hplain Hpair Hch.
  - destruct Hch as (e & He & HT & _).
    pose proof Hpair as (Hwf & Harr & _).
    rewrite <- HT in Harr.
    cbn [_emit].
    rewrite bind_eq, (read_entry_eq _ _ _ He), bind_eq, (read_array_eq _ _ _ Harr).
    rewrite bind_eq. cbn [length call_forward].
    rewrite bind_eq, (read_array_eq _ _ _ Harr), bind_eq.
    cbn [lookup list_lookup from_option id].
    destruct (first_fires T s Hpair) as (s1 & E & Hs).
    change (truthy process1) with true. cbv iota. rewrite E.
    assert (Harr1 : arrays (world s1) !! handlers e = Some [process2]).
    { destruct Hs as [-> _]. simpl. rewrite HT. apply lookup_insert_eq. }
    rewrite bind_eq, (read_array_eq _ _ _ Harr1).
    exists s1. split; [reflexivity | exact Hs].
  - destruct Hch as (e & He & _ & Hne & Hcase).
    pose proof Hpair as (Hwf & _ & Hrest & _).
    destruct (wf_allBelow _ Hwf n e He) as [l Hl].
    assert (l = []) by exact (Hrest _ _ Hne Hl). subst l.
    destruct (plain_cons _ _ Hplain) as [Hkey Hplrest].
    rewrite _emit_call_cons.
    rewrite bind_eq, (read_entry_eq _ _ _ He), bind_eq, (read_array_eq _ _ _ Hl).
    rewrite bind_eq. cbn [length call_backward]. unfold mret at 1, M_ret at 1.
    rewrite bind_eq, (read_entry_eq _ _ _ He), bind_eq.
    destruct (decide (part = wildcard (world s))) as [Hw|Hw].
    + destruct Hcase as (Hk & a & Ha & Hch'). rewrite Ha.
      rewrite bind_eq, (getAll_existing _ _ _ _ He Ha).
      destruct (IH a s Hplrest Hpair Hch') as (s1 & E & Hs). rewrite E.
      assert (He1 : entries (world s1) !! n = Some e)
        by (destruct Hs as [-> _]; exact He).
      rewrite bind_eq, (read_entry_eq _ _ _ He1).
      rewrite bind_eq, (child_of_plain _ _ _ Hkey), Hk, lookup_empty.
      cbn [fmap option_fmap option_map]. rewrite _emit_None.
      exists s1. split; [reflexivity | exact Hs].
    + destruct Hcase as (Hall & c & Hc & Hch'). rewrite Hall.
      unfold mret at 1, M_ret at 1.
      rewrite bind_eq, (read_entry_eq _ _ _ He).
      assert (Hcc : children e !! part = Some c)
        by (rewrite Hc; apply lookup_singleton_eq).
      rewrite bind_eq, (child_of_own _ _ _ _ Hcc).
      exact (IH c s Hplrest Hpair Hch').
Qed.

End Twice.


(** Along a chain the collecting walk finds the bucket at its end. *)
Lemma gather_chain w parts T l : forall n,
  wf w -> arrays w !! T = Some l ->
  (forall b lb, b <> T -> arrays w !! b = Some lb -> lb = []) ->
  chain w parts n T -> gather w parts (Some n) = Some l.
Proof.
  intros n Hwf HT Hrest. revert n.
  induction parts as [|part rest IH]; intros n Hch.
  - destruct Hch as (e & He & <- & _). simpl. rewrite He. exact HT.
  - destruct Hch as (e & He & _ & Hne & Hcase).
    destruct (wf_allBelow _ Hwf n e He) as [lb Hlb].
    assert (lb = []) by exact (Hrest _ _ Hne Hlb). subst lb.
    cbn [gather]. rewrite He. simpl. rewrite Hlb. simpl.
    destruct (decide (part = wildcard w)) as [Hw|Hw].
    + destruct Hcase as (Hk & a & Ha & Hch).
      rewrite Ha, Hk, lookup_empty, (IH a Hch), gather_None.
      simpl. rewrite app_nil_r. reflexivity.
    + destruct Hcase as (Hall & c & Hc & Hch).
      rewrite Hall, Hc, lookup_singleton_eq, (IH c Hch). reflexivity.
Qed.

(** Applying the closure of [once] where it is registered: it takes
    itself out of the bucket and applies its handler. *)
Lemma process_apply pid name hid params s m e l :
  inert behaviour hid ->
  let process := VProcess pid (Name name) (VUser hid) in
  single_only (wildcard (world s)) (doubleWild (world s))
    (split name (delimiter (world s))) ->
  locate (world s) (split name (delimiter (world s))) (_events (world s))
  = Some m ->
  entries (world s) !! m = Some e ->
  arrays (world s) !! handlers e = Some l ->
  process ∈ l ->
  exists idx s',
    indexOf l process = Some idx
    /\ fn_apply behaviour process params s = (Return VUndefined, s')
    /\ world s' = with_array (handlers e) (delete idx l) (world s)
    /\ calls s' = calls s ++ [(process, params); (VUser hid, params)].
Proof.
  intros Hi process Hp Hloc He Hl Hin.
  set (h := VUser hid) in *.
  unfold process at 2. cbn [fn_apply]. fold process.
  rewrite bind_eq. unfold record_call at 1.
  set (s0 := {| world := world s; calls := calls s ++ [(process, params)] |}).
  destruct (off_loop_handlers _ s0 (_events (world s0)) process m e l
              Hp ltac:(discriminate) Hloc He Hl Hin) as (idx & Hidx & Eoff).
  exists idx.
  assert (E : off (Name name) process s0
              = (Return tt,
                 in_world (with_array (handlers e) (delete idx l) (world s0)) s0))
    by exact Eoff.
  rewrite bind_eq, E, bind_eq.
  destruct (fn_apply_inert hid params
              (in_world (with_array (handlers e) (delete idx l) (world s0)) s0)
              Hi)
    as (r & _ & Eh).
  fold h in Eh. rewrite Eh.
  eexists. split; [exact Hidx|]. split; [reflexivity|].
  split; [reflexivity|]. simpl. rewrite <- app_assoc. reflexivity.
Qed.

(** Two [once] on one pattern without double wildcard, on a new emitter
    without hook: the two closures are in one bucket, in the order of
    registration. *)
Lemma once_twice props name h1 h2 :
  plain (split name (delimiter (constructor props))) ->
  opt_storeHandlers props = None ->
  doubleWild (constructor props) = wildcard (constructor props)
  \/ doubleWild (constructor props)
     ∉ split name (delimiter (constructor props)) ->
  let w0 := constructor props in
  let process1 := VProcess 0 (Name name) h1 in
  let process2 := VProcess 1 (Name name) h2 in
  exists m T sB,
    (once (Name name) h2 (once (Name name) h1 (initial props)).2).2 = sB
    /\ calls sB = []
    /\ ready (split name (delimiter w0)) m T [process1; process2] (world sB)
    /\ delimiter (world sB) = delimiter w0
    /\ wildcard (world sB) = wildcard w0
    /\ doubleWild (world sB) = doubleWild w0
    /\ single_only (wildcard w0) (doubleWild w0) (split name (delimiter w0)).
Proof.
  intros Hplain Hhook Hdw w0 process1 process2.
  set (s := (once (Name name) h2 (once (Name name) h1 (initial props)).2).2).
  set (s0 := {| world :=
                  {| delimiter := delimiter w0; wildcard := wildcard w0;
                     doubleWild := doubleWild w0; _events := _events w0;
                     storeHandlers := storeHandlers w0; event := event w0;
                     entries := entries w0; arrays := arrays w0;
                     next := next w0; next_fn := S (next_fn w0);
                     member_below := member_below w0;
                     array_below := array_below w0 |};
                calls := [] |}).
  set (parts := split name (delimiter w0)) in *.
  assert (Hwf0 : wf (world s0))
    by (apply (wf_same w0); [reflexivity .. | apply wf_constructor]).
  assert (Hemp0 : all_empty (world s0)).
  { intros a l Ha. simpl in Ha.
    apply lookup_insert_Some in Ha as [[_ <-]|[_ Ha]]; [reflexivity|].
    apply lookup_singleton_Some in Ha as [_ <-]. reflexivity. }
  assert (Hp0 : single_only (wildcard (world s0)) (doubleWild (world s0)) parts)
    by exact (single_only_tokens w0 parts Hdw).
  destruct (on_blank s0 name process1 _ Hplain Hwf0 Hhook eq_refl Hp0 Hemp0
              (lookup_singleton_eq _ _) eq_refl eq_refl)
    as (m & T & sA & EA & HcA & HrA & HdA & HwA & HddA & HevA & HhA & HfA).
  change (split name (delimiter (world s0))) with parts in HrA.
  assert (Eonce1 : once (Name name) h1 (initial props)
                   = (Return (VCancel (Name name) process1), sA)).
  { transitivity
      (match on (Name name) process1 s0 with
       | (Return _, s') => (Return (VCancel (Name name) process1), s')
       | (Throw e0, s') => (Throw e0, s')
       end); [reflexivity | rewrite EA; reflexivity]. }
  set (sA' := {| world :=
                   {| delimiter := delimiter (world sA);
                      wildcard := wildcard (world sA);
                      doubleWild := doubleWild (world sA);
                      _events := _events (world sA);
                      storeHandlers := storeHandlers (world sA);
                      event := event (world sA);
                      entries := entries (world sA);
                      arrays := arrays (world sA);
                      next := next (world sA);
                      next_fn := S (next_fn (world sA));
                      member_below := member_below (world sA);
                      array_below := array_below (world sA) |};
                 calls := calls sA |}).
  assert (HrA' : ready parts m T [process1] (world sA'))
    by (apply (ready_same (world sA)); [reflexivity .. | exact HrA]).
  assert (HpA : split name (delimiter (world sA')) = parts)
    by (change (split name (delimiter (world sA))
                = split name (delimiter (world s0)));
        rewrite HdA; reflexivity).
  assert (HsoA : single_only (wildcard (world sA')) (doubleWild (world sA'))
                   (split name (delimiter (world sA')))).
  { rewrite HpA.
    change (single_only (wildcard (world sA)) (doubleWild (world sA)) parts).
    rewrite HwA, HddA. exact Hp0. }
  rewrite <- HpA in HrA'.
  destruct (on_ready sA' name process2 m T [process1]
              (eq_trans HhA Hhook) eq_refl HsoA HrA')
    as (sB & EB & HcB & HrB & HdB & HwB & HddB & HevB & HhB & HfB).
  rewrite HpA in HrB. cbn [app] in HrB.
  assert (Hfn : next_fn (world sA) = 1) by exact HfA.
  assert (Eonce2 : once (Name name) h2 sA
                   = (Return (VCancel (Name name) process2), sB)).
  { transitivity
      (match on (Name name) (VProcess (next_fn (world sA)) (Name name) h2) sA'
       with
       | (Return _, s') =>
           (Return (VCancel (Name name)
                      (VProcess (next_fn (world sA)) (Name name) h2)), s')
       | (Throw e0, s') => (Throw e0, s')
       end); [reflexivity|].
    rewrite Hfn. fold process2. rewrite EB. reflexivity. }
  assert (Es : s = sB).
  { subst s. rewrite Eonce1. cbn [snd]. rewrite Eonce2. reflexivity. }
  assert (HdB' : delimiter (world sB) = delimiter w0)
    by (rewrite HdB; exact HdA).
  assert (HwB' : wildcard (world sB) = wildcard w0)
    by (rewrite HwB; exact HwA).
  assert (HddB' : doubleWild (world sB) = doubleWild w0)
    by (rewrite HddB; exact HddA).
  exists m, T, sB. split; [exact Es|].
  split; [rewrite HcB; cbn [sA' calls]; exact HcA|].
  split; [exact HrB|]. split; [exact HdB'|]. split; [exact HwB'|].
  split; [exact HddB'|]. exact Hp0.
Qed.

(** X14: on a new emitter without hook, two functions that return and
    leave the emitter alone, registered with [once] one after the other
    on the same pattern of plain segments without double wildcard, do
    not both fire on the first [emit] of the event spelled like the
    pattern: it applies the
    first closure and its handler only, because the closure takes itself
    out of the bucket while the loop of [_emit] goes through it by index.
    The second fires on the second [emit]. *)
Theorem second_once_waits props name hid1 hid2 p1 p2 :
  plain (split name (delimiter (constructor props))) ->
  opt_storeHandlers props = None ->
  inert behaviour hid1 -> inert behaviour hid2 ->
  doubleWild (constructor props) = wildcard (constructor props)
  \/ doubleWild (constructor props)
     ∉ split name (delimiter (constructor props)) ->
  let h1 := VUser hid1 in
  let h2 := VUser hid2 in
  let process1 := VProcess 0 (Name name) h1 in
  let process2 := VProcess 1 (Name name) h2 in
  let s := (once (Name name) h2 (once (Name name) h1 (initial props)).2).2 in
  exists s1 s2,
    emit behaviour name p1 s = (Return p1, s1)
    /\ calls s1 = [(process1, p1); (h1, p1)]
    /\ emit behaviour name p2 s1 = (Return p2, s2)
    /\ calls s2 = calls s1 ++ [(process2, p2); (h2, p2)].
Proof.
  intros Hplain Hhook Hi1 Hi2 Hdw h1 h2 process1 process2 s.
  destruct (once_twice props name h1 h2 Hplain Hhook Hdw)
    as (m & T & sB & Es & HcB & HrB & HdB' & HwB' & HddB' & Hp0).
  set (w0 := constructor props) in *.
  set (parts := split name (delimiter w0)) in *.
  fold process1 process2 in HrB.
  assert (Ep : split name (delimiter (world sB)) = parts)
    by (rewrite HdB'; reflexivity).
  replace s with sB by (symmetry; exact Es). clear s Es.
  set (sa := announced name sB).
  assert (Hra : ready parts m T [process1; process2] (world sa))
    by (apply (ready_same (world sB)); [reflexivity .. | exact HrB]).
  pose proof Hra as (Hwfa & HTa & Hresta & Hcha & Hloca & ea & Hea & Hha).
  assert (Hsoa : single_only (wildcard (world sa)) (doubleWild (world sa))
                   (split name (delimiter (world sa)))).
  { change (single_only (wildcard (world sB)) (doubleWild (world sB))
              (split name (delimiter (world sB)))).
    rewrite Ep, HwB', HddB'. exact Hp0. }
  assert (Epa : split name (delimiter (world sa)) = parts) by exact Ep.
  destruct (walk_chain hid1 hid2 0 1 name p1 Hi1 T parts (_events (world sB)) sa)
    as (s1 & E1 & Hw1 & Hc1).
  { exact Hplain. }
  { split; [exact Hwfa|]. split; [exact HTa|]. split; [exact Hresta|].
    split; [exact Hsoa|]. exists m, ea. rewrite Epa. auto. }
  { exact Hcha. }
  exists s1.
  set (sb := announced name s1).
  assert (Ep1 : split name (delimiter (world s1)) = parts)
    by (rewrite Hw1; exact Ep).
  assert (Hwfb : wf (world sb)).
  { apply (wf_same (world s1)); [reflexivity ..|]. rewrite Hw1.
    apply wf_with_array; [exact Hwfa | eauto]. }
  assert (Harm : wf (world sb)
            /\ lone_in T process2 (world sb)
            /\ single_only (wildcard (world sb)) (doubleWild (world sb))
                 (split name (delimiter (world sb)))
            /\ exists m e0,
                 locate (world sb) (split name (delimiter (world sb)))
                   (_events (world sb)) = Some m
                 /\ entries (world sb) !! m = Some e0
                 /\ handlers e0 = T).
  { split; [exact Hwfb|].
    split.
    { split.
      - change (arrays (world s1) !! T = Some [process2]).
        rewrite Hw1. simpl. apply lookup_insert_eq.
      - intros b l Hb. change (arrays (world s1) !! b = Some l -> l = []).
        rewrite Hw1. simpl. rewrite lookup_insert_ne by auto.
        exact (Hresta b l Hb). }
    split.
    { change (single_only (wildcard (world s1)) (doubleWild (world s1))
                (split name (delimiter (world s1)))).
      rewrite Ep1, Hw1. exact (eq_ind _ (fun p => single_only _ _ p) Hsoa _ Epa). }
    exists m, ea.
    change (locate (world sb) (split name (delimiter (world s1)))
              (_events (world s1)) = Some m
            /\ entries (world s1) !! m = Some ea /\ handlers ea = T).
    rewrite Ep1, Hw1.
    split; [|split; [exact Hea | exact Hha]].
    rewrite <- Hloca. apply locate_same.
    - change (entries (world s1) = entries (world sa)).
      rewrite Hw1. reflexivity.
    - change (wildcard (world s1) = wildcard (world sa)).
      rewrite Hw1. reflexivity.
    - change (doubleWild (world s1) = doubleWild (world sa)).
      rewrite Hw1. reflexivity. }
  assert (Hmb : meets (world sb) parts (_events (world sb))).
  { destruct Harm as (_ & [HTb _] & _ & mb & eb & Hlocb & Heb & Hhb).
    apply (locate_meets _ _ _ mb eb process2 []).
    - change (doubleWild (world s1) = wildcard (world s1)
              \/ doubleWild (world s1) ∉ parts).
      rewrite Hw1.
      change (doubleWild (world sB) = wildcard (world sB)
              \/ doubleWild (world sB) ∉ parts).
      rewrite HddB', HwB'. exact Hdw.
    - rewrite <- Ep1. exact Hlocb.
    - exact Heb.
    - rewrite Hhb. exact HTb. }
  destruct (walk_fires hid2 1 name p2 Hi2 T parts (_events (world s1)) sb
              Hplain Harm Hmb)
    as (s2 & E2 & Hw2 & Hc2).
  exists s2.
  split; [rewrite (emit_split name p1 sB parts Ep); fold sa; rewrite E1;
          reflexivity|].
  split.
  { rewrite Hc1. cbn [sa announced calls]. rewrite HcB. reflexivity. }
  split; [rewrite (emit_split name p2 s1 parts Ep1); fold sb; rewrite E2;
          reflexivity|].
  exact Hc2.
Qed.


(** X15: on a new emitter without hook, with two functions that return
    fulfilling values and leave the emitter alone registered with [once]
    one after the other on one pattern of plain segments without double
    wildcard, [emitAsyncSequential] of the event spelled like the pattern fires
    both in the one emission: it collects the bucket before it applies
    anything, so that a closure that takes itself out of the bucket hides
    no other.  The promise resolves with the parameters. *)
Theorem sequential_fires_both_once props name hid1 hid2 params :
  plain (split name (delimiter (constructor props))) ->
  opt_storeHandlers props = None ->
  inert behaviour hid1 -> inert behaviour hid2 ->
  doubleWild (constructor props) = wildcard (constructor props)
  \/ doubleWild (constructor props)
     ∉ split name (delimiter (constructor props)) ->
  let h1 := VUser hid1 in
  let h2 := VUser hid2 in
  let process1 := VProcess 0 (Name name) h1 in
  let process2 := VProcess 1 (Name name) h2 in
  let s := (once (Name name) h2 (once (Name name) h1 (initial props)).2).2 in
  exists s1,
    emitAsyncSequential behaviour name params s = (Return (Resolved params), s1)
    /\ calls s1 = [(process1, params); (h1, params);
                   (process2, params); (h2, params)].
Proof.
  intros Hplain Hhook Hi1 Hi2 Hdw h1 h2 process1 process2 s.
  destruct (once_twice props name h1 h2 Hplain Hhook Hdw)
    as (m & T & sB & Es & HcB & HrB & HdB' & HwB' & HddB' & Hp0).
  set (w0 := constructor props) in *.
  set (parts := split name (delimiter w0)) in *.
  assert (Ep : split name (delimiter (world sB)) = parts)
    by (rewrite HdB'; reflexivity).
  replace s with sB by (symmetry; exact Es). clear s Es.
  subst process1 process2 h1 h2.
  set (process1 := VProcess 0 (Name name) (VUser hid1)) in *.
  set (process2 := VProcess 1 (Name name) (VUser hid2)) in *.
  set (sa := announced name sB).
  assert (Hra : ready parts m T [process1; process2] (world sa))
    by (apply (ready_same (world sB)); [reflexivity .. | exact HrB]).
  pose proof Hra as (Hwfa & HTa & Hresta & Hcha & Hloca & ea & Hea & Hha).
  subst T.
  assert (Hsoa : single_only (wildcard (world sa)) (doubleWild (world sa))
                   (split name (delimiter (world sa)))).
  { change (single_only (wildcard (world sB)) (doubleWild (world sB))
              (split name (delimiter (world sB)))).
    rewrite Ep, HwB', HddB'. exact Hp0. }
  assert (Epa : split name (delimiter (world sa)) = parts) by exact Ep.
  rewrite emitAsyncSequential_eq, (collect_split name sB parts Ep). fold sa.
  rewrite_walk (_emit_gather parts (Some (_events (world sB))) [] sa
                  [process1; process2] Hplain
                  (gather_chain _ _ _ _ _ Hwfa HTa Hresta Hcha)).
  cbn [default from_option id app].
  (* the first closure *)
  destruct (process_apply 0 name hid1 params sa m ea [process1; process2] Hi1
              Hsoa)
    as (i1 & s1 & Hi & E1 & Hw1 & Hc1);
    [rewrite Epa; exact Hloca | exact Hea | exact HTa
    | apply elem_of_cons; left; reflexivity |].
  fold process1 in Hi, E1, Hc1.
  assert (i1 = 0).
  { cbn [indexOf] in Hi. destruct (decide (process1 = process1)) as [_|Hne];
      [congruence | contradiction]. }
  subst i1. cbn [delete list_delete] in Hw1.
  cbn [await_each]. rewrite bind_eq. unfold catch at 1. rewrite E1.
  (* the second closure *)
  assert (Hso1 : single_only (wildcard (world s1)) (doubleWild (world s1))
                   (split name (delimiter (world s1))))
    by (rewrite Hw1; exact Hsoa).
  assert (Hloc1 : locate (world s1) (split name (delimiter (world s1)))
                    (_events (world s1)) = Some m).
  { rewrite Hw1, locate_with_array.
    change (locate (world sa) (split name (delimiter (world sa)))
              (_events (world sa)) = Some m).
    rewrite Epa. exact Hloca. }
  assert (He1 : entries (world s1) !! m = Some ea)
    by (rewrite Hw1; exact Hea).
  assert (HT1 : arrays (world s1) !! handlers ea = Some [process2])
    by (rewrite Hw1; simpl; apply lookup_insert_eq).
  destruct (process_apply 1 name hid2 params s1 m ea [process2] Hi2
              Hso1 Hloc1 He1 HT1)
    as (i2 & s2 & _ & E2 & Hw2 & Hc2);
    [apply elem_of_cons; left; reflexivity|].
  fold process2 in E2, Hc2.
  cbn [await_each]. rewrite bind_eq. unfold catch at 1. rewrite E2.
  exists s2. split; [reflexivity|].
  rewrite Hc2, Hc1. cbn [sa announced calls]. rewrite HcB. reflexivity.
Qed.


(** ** One pattern on a new emitter: what it matches *)

(** Along a chain the walk of an event finds the bucket at the end when
    the segments of the event fit the pattern one for one, and nothing
    otherwise. *)
Lemma walk_fits w T l :
  wf w -> arrays w !! T = Some l ->
  (forall b lb, b <> T -> arrays w !! b = Some lb -> lb = []) ->
  forall parts ev n, chain w parts n T ->
    (fits (wildcard w) parts ev ->
     gather w ev (Some n) = Some l
     /\ eager w ev (Some n) = Some (truthy_only l))
    /\ (~ fits (wildcard w) parts ev ->
        gather w ev (Some n) = Some [] /\ eager w ev (Some n) = Some []).
Proof.
  intros Hwf HT Hrest.
  induction parts as [|p rest IH]; intros [|x ev] n Hch.
  - destruct Hch as (e & He & <- & _). split.
    + intros _. simpl. rewrite He. simpl. rewrite HT. auto.
    + intros H. exfalso. apply H. constructor.
  - destruct Hch as (e & He & <- & Hk & Hall). split.
    + intros H. inversion H.
    + intros _.
      destruct (wf_allBelow _ Hwf n e He) as [lb Hlb].
      assert (lb = []).
      { apply (Hrest (allBelow e)); [|exact Hlb].
        intros Heq. exact (wf_buckets _ Hwf n e He (eq_sym Heq)). }
      subst lb. cbn [gather eager]. rewrite He. simpl. rewrite Hlb. simpl.
      rewrite Hall, Hk, lookup_empty, gather_None, eager_None. auto.
  - destruct Hch as (e & He & Hnh & _). split.
    + intros H. inversion H.
    + intros _.
      destruct (wf_handlers _ Hwf n e He) as [lh Hlh].
      assert (lh = []) by exact (Hrest _ _ Hnh Hlh). subst lh.
      simpl. rewrite He. simpl. rewrite Hlh. auto.
  - destruct Hch as (e & He & _ & Hne & Hcase).
    destruct (wf_allBelow _ Hwf n e He) as [lb Hlb].
    assert (lb = []) by exact (Hrest _ _ Hne Hlb). subst lb.
    cbn [gather eager]. rewrite He. simpl. rewrite Hlb. simpl.
    destruct (decide (p = wildcard w)) as [Hw|Hw].
    + destruct Hcase as (Hk & a & Ha & Hch).
      rewrite Ha, Hk, lookup_empty, gather_None, eager_None.
      destruct (IH ev a Hch) as [Hyes Hno]. split.
      * intros H. inversion H; subst.
        destruct (Hyes ltac:(assumption)) as [-> ->].
        simpl. rewrite !app_nil_r. auto.
      * intros H.
        destruct Hno as [-> ->]; [|auto].
        intros Hf. apply H. constructor; [left; exact Hw | exact Hf].
    + destruct Hcase as (Hall & c & Hc & Hch). rewrite Hall, Hc.
      destruct (decide (p = x)) as [<-|Hpx].
      * rewrite lookup_singleton_eq.
        destruct (IH ev c Hch) as [Hyes Hno]. split.
        -- intros H. inversion H; subst.
           destruct (Hyes ltac:(assumption)) as [-> ->]. auto.
        -- intros H.
           destruct Hno as [-> ->]; [|auto].
           intros Hf. apply H. constructor; [right; reflexivity | exact Hf].
      * rewrite lookup_singleton_ne by exact Hpx.
        rewrite gather_None, eager_None. split; [|auto].
        intros H. inversion H; subst.
        match goal with Hor : _ \/ _ |- _ => destruct Hor; contradiction end.
Qed.


(** X16: on a new emitter without hook and with a delimiter that is not
    empty, with one function that returns a fulfilling value and leaves
    the emitter alone registered with [on] on a pattern of plain
    segments without double wildcard, an event of plain segments reaches
    the function exactly when its segments fit those of the pattern:
    there are as many, and each is the same as the pattern's or the
    pattern has the wildcard there.  Then [emit] and
    [emitAsyncSequential] apply the function once; for every other such
    event they apply nothing. *)
Theorem pattern_matches_what_fits props name hid event params :
  delimiter (constructor props) <> "" ->
  plain (split name (delimiter (constructor props))) ->
  plain (split event (delimiter (constructor props))) ->
  opt_storeHandlers props = None ->
  inert behaviour hid ->
  doubleWild (constructor props) = wildcard (constructor props)
  \/ doubleWild (constructor props)
     ∉ split name (delimiter (constructor props)) ->
  let w0 := constructor props in
  let h := VUser hid in
  let s := (on (Name name) h (initial props)).2 in
  let pattern := split name (delimiter w0) in
  let ev := split event (delimiter w0) in
  (fits (wildcard w0) pattern ev ->
   emit behaviour event params s
   = (Return params, logged [h] params (announced event s))
   /\ emitAsyncSequential behaviour event params s
      = (Return (Resolved params), logged [h] params (announced event s)))
  /\ (~ fits (wildcard w0) pattern ev ->
      emit behaviour event params s = (Return params, announced event s)
      /\ emitAsyncSequential behaviour event params s
         = (Return (Resolved params), announced event s)).
Proof.
  intros _ Hplain Hpev Hhook Hi Hdw w0 h s pattern ev.
  assert (Hp0 : single_only (wildcard w0) (doubleWild w0) pattern)
    by exact (single_only_tokens w0 pattern Hdw).
  assert (Hemp0 : all_empty (world (initial props))).
  { intros a l Ha. simpl in Ha.
    apply lookup_insert_Some in Ha as [[_ <-]|[_ Ha]]; [reflexivity|].
    apply lookup_singleton_Some in Ha as [_ <-]. reflexivity. }
  destruct (on_blank (initial props) name h _ Hplain (wf_constructor props)
              Hhook eq_refl Hp0 Hemp0 (lookup_singleton_eq _ _) eq_refl
              eq_refl)
    as (m & T & s' & E & Hc & Hr & Hd & Hw & _).
  change (split name (delimiter (world (initial props)))) with pattern in Hr.
  assert (Es : s = s') by (subst s; rewrite E; reflexivity).
  rewrite Es. clear s Es.
  destruct Hr as (Hwf & HT & Hrest & Hch & _).
  assert (Hev : split event (delimiter (world s')) = ev)
    by (unfold ev; rewrite Hd; reflexivity).
  destruct (walk_fits (world s') T [h] Hwf HT Hrest pattern ev
              (_events (world s')) Hch) as [Hyes Hno].
  rewrite Hw in Hyes, Hno.
  assert (Hin : Forall (inert_value behaviour) [h])
    by (constructor; [exact (inert_user hid Hi) | constructor]).
  split.
  - intros Hf. destruct (Hyes Hf) as [Hg He]. split.
    + exact (emit_inert event params s' ev [h] Hev Hpev He Hin).
    + exact (emitAsyncSequential_inert event params s' ev [h] Hev Hpev Hg
               Hin).
  - intros Hf. destruct (Hno Hf) as [Hg He].
    assert (Hnone : Forall (inert_value behaviour) []) by constructor.
    rewrite <- (logged_nil params (announced event s')). split.
    + exact (emit_inert event params s' ev [] Hev Hpev He Hnone).
    + exact (emitAsyncSequential_inert event params s' ev [] Hev Hpev Hg
               Hnone).
Qed.


End Properties.

(** ** The statements on given emitters *)

(** C1, where the code departs from it: after [on("a.**.b", h)] on a
    new emitter the walk of [on] has gone on past the double wildcard.
    [h] is in the [allBelow] bucket of the entry of [a], the segment [b]
    has been consumed, so that the entry of [a] has a child [b], which a
    new emitter does not have, and [h] is in the [handlers] bucket of
    that child as well.  One [emit("a.b")] therefore applies [h] twice.
    [off] with the same pattern returns at the double wildcard: it takes
    [h] out of the [allBelow] bucket and leaves it in the [handlers]
    bucket of [b]. *)
Theorem on_goes_on_past_double_wildcard :
  let h := VUser 0 in
  let s := registered "a.**.b" h in
  let s' := (off (Name "a.**.b") h s).2 in
  locate (world (initial no_options)) ["a"; "b"] 2 = None
  /\ locate (world s) ["a"] 2 = Some 5
  /\ (allBelow <$> entries (world s) !! 5) = Some 4
  /\ bucket (world s) 4 = [h]
  /\ locate (world s) ["a"; "b"] 2 = Some 8
  /\ (handlers <$> entries (world s) !! 8) = Some 6
  /\ bucket (world s) 6 = [h]
  /\ calls (emit returning "a.b" [VNum 1] s).2
     = [(h, [VNum 1]); (h, [VNum 1])]
  /\ off (Name "a.**.b") h s = (Return tt, s')
  /\ bucket (world s') 4 = []
  /\ bucket (world s') 6 = [h].
Proof. vm_compute. repeat apply conj; reflexivity. Qed.

Lemma below_wildcard_fires_once_witness :
  inert returning 0
  /\ let h := VUser 0 in
     let s := registered "a.**" h in
     calls (emit returning "a" [VNum 1] s).2 = [(h, [VNum 1])]
     /\ calls (emit returning "a.b" [VNum 2] s).2 = [(h, [VNum 2])]
     /\ calls (emit returning "a.b.c" [VNum 3] s).2 = [(h, [VNum 3])]
     /\ calls (emit returning "a.b.c" [VNum 3]
                (emit returning "a.b" [VNum 2]
                   (emit returning "a" [VNum 1] s).2).2).2
        = [(h, [VNum 1]); (h, [VNum 2]); (h, [VNum 3])].
Proof.
  assert (H : inert returning 0)
    by (intros params w; exists VUndefined; split; reflexivity).
  split; [exact H|].
  exact (below_wildcard_fires_once returning 0 [VNum 1] [VNum 2] [VNum 3] H).
Defined.

Lemma below_bucket_order_on_new_emitter_witness :
  inert returning 1 /\ inert returning 2
  /\ split "a.b.c" "." = "a" :: "b" :: ["c"]
  /\ plain ("b" :: ["c"])
  /\ let H1 := VUser 1 in
     let H2 := VUser 2 in
     let s := (on (Name "a.**") H2 (registered "a.**" H1)).2 in
     calls (emit returning "a.b.c" [] s).2 = [(H2, []); (H1, [])]
     /\ calls (emitAsyncSequential returning "a.b.c" [] s).2
        = [(H1, []); (H2, [])].
Proof.
  assert (H : forall id, inert returning id)
    by (intros id params w; exists VUndefined; split; reflexivity).
  split; [apply H|]. split; [apply H|]. split; [reflexivity|].
  split; [reflexivity|].
  exact (below_bucket_order_on_new_emitter returning 1 2 [] "a.b.c" "b" ["c"]
           (H 1) (H 2) eq_refl eq_refl).
Defined.

Lemma single_wildcard_matches_one_segment_witness :
  inert returning 0
  /\ let h := VUser 0 in
     let s := registered "a.*.c" h in
     calls (emit returning "a.x.c" [] s).2 = [(h, [])]
     /\ calls (emit returning "a.y.c" [] s).2 = [(h, [])]
     /\ calls (emit returning "a.x.y.c" [] s).2 = []
     /\ calls (emit returning "a.c" [] s).2 = []
     /\ forall event seg, split event "." = ["a"; seg; "c"] ->
          calls (emit returning event [] s).2 = [(h, [])].
Proof.
  assert (H : inert returning 0)
    by (intros params w; exists VUndefined; split; reflexivity).
  split; [exact H|].
  exact (single_wildcard_matches_one_segment returning 0 [] H).
Defined.

Lemma sequential_rejection_aborts_witness :
  let s := (on (Name "a") (VUser 3)
              (on (Name "a") (VUser 2) (registered "a" (VUser 1))).2).2 in
  let s0 := announced "a" s in
  collect "a" s = (Return [VUser 1; VUser 2; VUser 3], s0)
  /\ emitAsyncSequential second_rejects "a" [] s
     = (Return (Rejected (VStr "no")),
        logged [VUser 1; VUser 2] [] s0)
  /\ calls (logged [VUser 1; VUser 2] [] s0) = [(VUser 1, []); (VUser 2, [])].
Proof.
  intros s s0.
  assert (Hc : collect "a" s = (Return [VUser 1; VUser 2; VUser 3], s0))
    by (vm_compute; reflexivity).
  split; [exact Hc|]. split; [|vm_compute; reflexivity].
  apply (proj1 (sequential_rejection_aborts second_rejects "a" [] s _ _ Hc)).
  exists [VUser 1], (VUser 2), [VUser 3], (logged [VUser 1] [] s0).
  split; [reflexivity|]. split.
  - apply (applied_cons second_rejects [] (VUser 1) [] s0 VUndefined
             (logged [VUser 1] [] s0));
      [vm_compute; reflexivity | reflexivity | constructor].
  - right. vm_compute. reflexivity.
Defined.

Lemma children_never_hold_wildcard_tokens_witness :
  let s := initial no_options in
  no_wildcard_keys (world s)
  /\ (forall name handler, no_wildcard_keys (world (on name handler s).2))
  /\ (forall name handler, no_wildcard_keys (world (once name handler s).2))
  /\ (forall name handler, no_wildcard_keys (world (off name handler s).2))
  /\ no_wildcard_keys (world (removeAllListeners s).2).
Proof.
  intros s.
  assert (H : no_wildcard_keys (world s)).
  { intros n e He. simpl in He.
    apply lookup_singleton_Some in He as [_ <-]. simpl.
    split; apply lookup_empty. }
  split; [exact H|].
  destruct (children_never_hold_wildcard_tokens s H) as (_ & H1 & H2 & H3 & H4).
  split; [intros name handler; apply H1|].
  split; [intros name handler; apply H2|].
  split; [intros name handler; apply H3|].
  apply H4.
Defined.

(** C9, against the claim as stated, at four patterns.  For ["**"],
    which has no segment before the double wildcard, [h] stays in the
    [handlers] bucket of the root after [on] and [off], and the event
    that is the prefix of the pattern, the empty string, has the one
    segment [""] and applies nothing.  For ["constructor.**"] the entry
    has no child [constructor] and [children["constructor"]] is the
    member that [{}] inherits: [on] throws and stores nothing, [off]
    throws, and [emit("constructor")] throws without applying [h].  For
    ["a.**.b.**"] the walk of the prefix event ["a.**.b"] looks for a
    child [**] of [a], which no entry has.  With the hook [() => []] the
    buckets of the entry of [a] are new empty arrays after [on]. *)
Lemma handler_not_reached_after_off :
  let h := VUser 0 in
  let s0 := initial no_options in
  let after p s := (off (Name p) h (on (Name p) h s).2).2 in
  split "**" (delimiter (world s0)) = [] ++ [doubleWild (world s0)]
  /\ split "" (delimiter (world s0)) = [""]
  /\ (handlers <$> entries (world (after "**" s0)) !! 2) = Some 0
  /\ bucket (world (after "**" s0)) 0 = [h]
  /\ emit returning "" [] (after "**" s0)
     = (Return [], announced "" (after "**" s0))
  /\ calls (emit returning "" [] (after "**" s0)).2 = []
  /\ split "constructor.**" (delimiter (world s0))
     = ["constructor"] ++ [doubleWild (world s0)]
  /\ on (Name "constructor.**") h s0 = (Throw TypeError, s0)
  /\ off (Name "constructor.**") h s0 = (Throw TypeError, s0)
  /\ (emit returning "constructor" [] s0).1 = Throw TypeError
  /\ calls (emit returning "constructor" [] s0).2 = []
  /\ split "a.**.b.**" (delimiter (world s0))
     = ["a"; "**"; "b"] ++ [doubleWild (world s0)]
  /\ split "a.**.b" (delimiter (world s0)) = ["a"; "**"; "b"]
  /\ emit returning "a.**.b" [] (after "a.**.b.**" s0)
     = (Return [], announced "a.**.b" (after "a.**.b.**" s0))
  /\ calls (emit returning "a.**.b" [] (after "a.**.b.**" s0)).2 = []
  /\ emit returning "a" [] (after "a.**" (initial dropping))
     = (Return [], announced "a" (after "a.**" (initial dropping)))
  /\ calls (emit returning "a" [] (after "a.**" (initial dropping))).2 = [].
Proof. vm_compute. repeat apply conj; reflexivity. Qed.

Lemma handler_survives_off_witness :
  let s := initial no_options in
  let h := VUser 0 in
  let s2 := (off (Name "a.**") h (on (Name "a.**") h s).2).2 in
  wf (world s)
  /\ plain (split "a.**" (delimiter (world s)))
  /\ storeHandlers (world s) = None
  /\ (doubleWild (world s) <> wildcard (world s))
  /\ truthy h = true
  /\ split "a.**" (delimiter (world s)) = ["a"] ++ [doubleWild (world s)]
  /\ (doubleWild (world s) ∉ ["a"])
  /\ split "a" (delimiter (world s)) = ["a"]
  /\ all_inert_unhooked returning s
  /\ inert_value returning h
  /\ (exists collected,
        collect "a" s2 = (Return collected, announced "a" s2)
        /\ h ∈ collected)
  /\ (exists found,
        emit returning "a" [VNum 7] s2
        = (Return [VNum 7], logged found [VNum 7] (announced "a" s2))
        /\ h ∈ found).
Proof.
  intros s h s2.
  assert (H1 : wf (world s)) by apply wf_constructor.
  assert (H3 : doubleWild (world s) <> wildcard (world s)) by discriminate.
  assert (H6 : doubleWild (world s) ∉ ["a"]).
  { intros H. apply list_elem_of_singleton in H. discriminate H. }
  assert (H8 : all_inert_unhooked returning s).
  { split; [reflexivity|]. intros a l v Hl Hv. simpl in Hl.
    destruct (decide (a = 0)) as [->|H0].
    - rewrite lookup_insert_eq in Hl. injection Hl as <-.
      apply elem_of_nil in Hv. destruct Hv.
    - rewrite lookup_insert_ne in Hl by auto.
      apply lookup_singleton_Some in Hl as [_ <-].
      apply elem_of_nil in Hv. destruct Hv. }
  assert (H9 : inert_value returning h).
  { exists 0. split; [reflexivity|].
    intros params w. exists VUndefined. split; reflexivity. }
  repeat (split; [first [exact H1 | exact H3 | exact H6 | exact H8 | exact H9
                        | reflexivity]|]).
  destruct (handler_survives_off returning s "a.**" h ["a"] "a" [VNum 7]
              H1 eq_refl eq_refl H3 eq_refl eq_refl H6 eq_refl)
    as (_ & Hc & He).
  split; [exact Hc | exact (He H8 H9)].
Defined.

(** C10, against the claim as stated.  [once("constructor", undefined)]
    on a new emitter throws inside [on], where [getChild] has returned
    the member that [{}] inherits under [constructor]: no closure is
    registered, every bucket is as it was, and [emit("constructor")]
    throws without applying anything.  With the hook [() => []],
    [once("a", undefined)] returns, but the [handlers] bucket of the
    entry of [a] is the empty array that the hook returned, and
    [emit("a")] returns without applying anything. *)
Lemma once_on_inherited_name_registers_nothing :
  let s0 := initial no_options in
  let s := (once (Name "constructor") VUndefined s0).2 in
  let s' := (once (Name "a") VUndefined (initial dropping)).2 in
  truthy VUndefined = false
  /\ (once (Name "constructor") VUndefined s0).1 = Throw TypeError
  /\ entries (world s) = entries (world s0)
  /\ arrays (world s) = arrays (world s0)
  /\ (emit returning "constructor" [VNum 1] s).1 = Throw TypeError
  /\ calls (emit returning "constructor" [VNum 1] s).2 = []
  /\ (once (Name "a") VUndefined (initial dropping)).1
     = Return (VCancel (Name "a") (VProcess 0 (Name "a") VUndefined))
  /\ locate (world s') ["a"] 2 = Some 5
  /\ (handlers <$> entries (world s') !! 5) = Some 6
  /\ bucket (world s') 6 = []
  /\ emit returning "a" [VNum 1] s' = (Return [VNum 1], announced "a" s')
  /\ calls (emit returning "a" [VNum 1] s').2 = [].
Proof. vm_compute. repeat apply conj; reflexivity. Qed.

Lemma once_falsy_handler_witness :
  plain (split "a.*.**" (delimiter (constructor no_options)))
  /\ opt_storeHandlers no_options = None
  /\ truthy VUndefined = false
  /\ let process := VProcess 0 (Name "a.*.**") VUndefined in
     let s := (once (Name "a.*.**") VUndefined (initial no_options)).2 in
     on (Name "a.*.**") VUndefined (initial no_options)
     = (Return tt, initial no_options)
     /\ (once (Name "a.*.**") VUndefined (initial no_options)).1
        = Return (VCancel (Name "a.*.**") process)
     /\ (exists m e l,
           locate (world s) (split "a.*.**" (delimiter (world s)))
             (_events (world s)) = Some m
           /\ entries (world s) !! m = Some e
           /\ arrays (world s) !! handlers e = Some (l ++ [process]))
     /\ exists s',
          emit returning "a.*.**" [VNum 1] s = (Throw TypeError, s')
          /\ calls s' = [(process, [VNum 1])].
Proof.
  split; [reflexivity|]. split; [reflexivity|]. split; [reflexivity|].
  exact (once_falsy_handler returning no_options "a.*.**" VUndefined [VNum 1]
           eq_refl eq_refl eq_refl).
Defined.


Lemma removeAllListeners_silences_witness :
  let s := registered "a.b" (VUser 1) in
  let s' := (removeAllListeners s).2 in
  plain (split "a.b" (delimiter (world s)))
  /\ bucket (world s) 6 = [VUser 1]
  /\ removeAllListeners s = (Return tt, s')
  /\ emit first_throws "a.b" [VNum 1] s'
     = (Return [VNum 1], announced "a.b" s')
  /\ emitAsyncSequential first_throws "a.b" [VNum 1] s'
     = (Return (Resolved [VNum 1]), announced "a.b" s').
Proof.
  intros s s'.
  assert (K0 : plain (split "a.b" (delimiter (world s))))
    by (vm_compute; reflexivity).
  split; [exact K0|]. split; [vm_compute; reflexivity|].
  exact (removeAllListeners_silences first_throws s "a.b" [VNum 1] K0).
Defined.

Lemma once_fires_once_witness :
  let props := no_options in
  let h := VUser 0 in
  let process := VProcess 0 (Name "a.*.c") h in
  let s := (once (Name "a.*.c") h (initial props)).2 in
  plain (split "a.*.c" (delimiter (constructor props)))
  /\ opt_storeHandlers props = None
  /\ inert returning 0
  /\ (doubleWild (constructor props) = wildcard (constructor props)
      \/ doubleWild (constructor props)
         ∉ split "a.*.c" (delimiter (constructor props)))
  /\ exists s1 s2,
       emit returning "a.*.c" [VNum 1] s = (Return [VNum 1], s1)
       /\ calls s1 = [(process, [VNum 1]); (h, [VNum 1])]
       /\ emit returning "a.*.c" [VNum 2] s1 = (Return [VNum 2], s2)
       /\ calls s2 = calls s1.
Proof.
  intros props h process s.
  assert (H2 : inert returning 0)
    by (intros params w; exists VUndefined; split; reflexivity).
  assert (H3 : doubleWild (constructor props) = wildcard (constructor props)
               \/ doubleWild (constructor props)
                  ∉ split "a.*.c" (delimiter (constructor props))).
  { right. vm_compute. intros H.
    repeat (apply elem_of_cons in H as [H|H]; [discriminate H|]).
    apply elem_of_nil in H. exact H. }
  split; [reflexivity|]. split; [reflexivity|]. split; [exact H2|].
  split; [exact H3|].
  exact (once_fires_once returning no_options "a.*.c" 0 [VNum 1] [VNum 2]
           eq_refl eq_refl H2 H3).
Defined.

(** C3, against the claim as stated.  With [H1] and then [H2] in the
    [allBelow] bucket of [a], the event ["a.constructor"] is a deeper
    event below [a], but [children["constructor"]] of the entry of [a]
    is the member that [{}] inherits: the collecting walk throws after
    the bucket was gathered, so that [emitAsyncSequential] is rejected
    with the [TypeError] and applies neither [H1] nor [H2].  With the
    hook [v => v.reverse()] the bucket holds [H2] before [H1] after the
    two registrations, and the two modes apply them the other way
    round. *)
Lemma sequential_applies_nothing_below_inherited_segment :
  let H1 := VUser 1 in
  let H2 := VUser 2 in
  let s := (on (Name "a.**") H2 (registered "a.**" H1)).2 in
  let s' := (on (Name "a.**") H2
               (on (Name "a.**") H1 (initial reversing)).2).2 in
  bucket (world s) 4 = [H1; H2]
  /\ (allBelow <$> entries (world s) !! 5) = Some 4
  /\ split "a.constructor" (delimiter (world s)) = ["a"] ++ ["constructor"]
  /\ (emitAsyncSequential returning "a.constructor" [] s).1
     = Return (Rejected TypeError)
  /\ calls (emitAsyncSequential returning "a.constructor" [] s).2 = []
  /\ ~ before (H1, []) (H2, [])
        (calls (emitAsyncSequential returning "a.constructor" [] s).2)
  /\ bucket (world s') 4 = [H2; H1]
  /\ calls (emit returning "a.b" [] s').2 = [(H1, []); (H2, [])]
  /\ ~ before (H2, []) (H1, []) (calls (emit returning "a.b" [] s').2)
  /\ calls (emitAsyncSequential returning "a.b" [] s').2
     = [(H2, []); (H1, [])]
  /\ ~ before (H1, []) (H2, [])
        (calls (emitAsyncSequential returning "a.b" [] s').2).
Proof.
  intros H1 H2 s s'.
  assert (Hc : calls (emitAsyncSequential returning "a.constructor" [] s).2
               = []) by (vm_compute; reflexivity).
  assert (He : calls (emit returning "a.b" [] s').2 = [(H1, []); (H2, [])])
    by (vm_compute; reflexivity).
  assert (Hs : calls (emitAsyncSequential returning "a.b" [] s').2
               = [(H2, []); (H1, [])]) by (vm_compute; reflexivity).
  assert (Hno : forall x y : value * list value, x <> y ->
            ~ before y x [x; y]).
  { intros x y Hxy (a & b & c & H).
    destruct a as [|u [|v a]]; simpl in H.
    - injection H as Hx _. congruence.
    - injection H as _ H. destruct b; discriminate H.
    - injection H as _ _ H. destruct a; discriminate H. }
  split; [vm_compute; reflexivity|]. split; [vm_compute; reflexivity|].
  split; [vm_compute; reflexivity|]. split; [vm_compute; reflexivity|].
  split; [exact Hc|].
  split; [rewrite Hc; intros (a & b & c & H); destruct a; discriminate H|].
  split; [vm_compute; reflexivity|]. split; [exact He|].
  split; [rewrite He; apply Hno; discriminate|].
  split; [exact Hs|]. rewrite Hs. apply Hno. discriminate.
Qed.

Lemma below_bucket_order_witness :
  let s := initial no_options in
  let H1 := VUser 1 in
  let H2 := VUser 2 in
  let s2 := (on (Name "a.**") H2 (on (Name "a.**") H1 s).2).2 in
  wf (world s)
  /\ plain (split "a.**" (delimiter (world s)))
  /\ plain (split "a.b" (delimiter (world s)))
  /\ all_good_unhooked (inert_value returning) s
  /\ (doubleWild (world s) <> wildcard (world s))
  /\ inert returning 1 /\ inert returning 2
  /\ split "a.**" (delimiter (world s)) = ["a"] ++ [doubleWild (world s)]
  /\ (doubleWild (world s) ∉ ["a"])
  /\ split "a.b" (delimiter (world s)) = ["a"] ++ "b" :: []
  /\ fits (wildcard (world s)) ["a"] ["a"]
  /\ (exists found,
        emit returning "a.b" [VNum 7] s2
        = (Return [VNum 7], logged found [VNum 7] (announced "a.b" s2))
        /\ before H2 H1 found)
  /\ (exists collected,
        emitAsyncSequential returning "a.b" [VNum 7] s2
        = (Return (Resolved [VNum 7]),
           logged collected [VNum 7] (announced "a.b" s2))
        /\ before H1 H2 collected).
Proof.
  intros s H1 H2 s2.
  assert (K1 : wf (world s)) by apply wf_constructor.
  assert (K2 : all_good_unhooked (inert_value returning) s).
  { split; [reflexivity|]. intros a l v Hl Hv. simpl in Hl.
    apply lookup_insert_Some in Hl as [[_ <-]|[_ Hl]];
      [apply elem_of_nil in Hv; contradiction|].
    apply lookup_singleton_Some in Hl as [_ <-].
    apply elem_of_nil in Hv; contradiction. }
  assert (K3 : doubleWild (world s) <> wildcard (world s)) by discriminate.
  assert (K4 : forall id, inert returning id)
    by (intros id params w; exists VUndefined; split; reflexivity).
  assert (K7 : doubleWild (world s) ∉ ["a"]).
  { intros H. apply list_elem_of_singleton in H. discriminate H. }
  assert (K9 : fits (wildcard (world s)) ["a"] ["a"])
    by (constructor; [right; reflexivity | constructor]).
  repeat (split; [first [exact K1 | exact K2 | exact K3 | exact (K4 _)
                        | exact K7 | exact K9 | reflexivity]|]).
  exact (below_bucket_order returning s "a.**" 1 2 ["a"] "a.b" ["a"]
           "b" [] [VNum 7] K1 eq_refl eq_refl K2 K3 (K4 1) (K4 2) eq_refl K7
           eq_refl K9).
Defined.

Lemma once_cancel_unregisters_witness :
  let props := no_options in
  let process := VProcess 0 (Name "a.*") (VUser 0) in
  let cancel := VCancel (Name "a.*") process in
  let s := (once (Name "a.*") (VUser 0) (initial props)).2 in
  let s1 := (fn_apply returning cancel [] s).2 in
  plain (split "a.*" (delimiter (constructor props)))
  /\ plain (split "a.b" (delimiter (constructor props)))
  /\ opt_storeHandlers props = None
  /\ (doubleWild (constructor props) = wildcard (constructor props)
      \/ doubleWild (constructor props)
         ∉ split "a.*" (delimiter (constructor props)))
  /\ once (Name "a.*") (VUser 0) (initial props) = (Return cancel, s)
  /\ fn_apply returning cancel [] s = (Return VUndefined, s1)
  /\ calls s1 = [(cancel, [])]
  /\ all_empty (world s1)
  /\ emit returning "a.b" [VNum 1] s1 = (Return [VNum 1], announced "a.b" s1).
Proof.
  intros props process cancel s s1.
  assert (H2 : doubleWild (constructor props) = wildcard (constructor props)
               \/ doubleWild (constructor props)
                  ∉ split "a.*" (delimiter (constructor props))).
  { right. vm_compute. intros H.
    repeat (apply elem_of_cons in H as [H|H]; [discriminate H|]).
    apply elem_of_nil in H. exact H. }
  split; [reflexivity|]. split; [reflexivity|].
  split; [reflexivity|]. split; [exact H2|].
  exact (once_cancel_unregisters returning no_options "a.*" (VUser 0) "a.b"
           [VNum 1] eq_refl eq_refl eq_refl H2).
Defined.

Lemma off_unregistered_changes_nothing_witness :
  let s := initial no_options in
  let h := VUser 0 in
  plain (split "a.b" (delimiter (world s)))
  /\ wf (world s)
  /\ (wildcard (world s) ∉ split "a.b" (delimiter (world s)))
  /\ (doubleWild (world s) ∉ split "a.b" (delimiter (world s)))
  /\ h <> VUndefined
  /\ (forall m e l,
        locate (world s) (split "a.b" (delimiter (world s))) (_events (world s))
        = Some m ->
        entries (world s) !! m = Some e ->
        arrays (world s) !! handlers e = Some l -> h ∉ l)
  /\ off (Name "a.b") h s = (Return tt, s).
Proof.
  intros s h.
  assert (K1 : wf (world s)) by apply wf_constructor.
  assert (K2 : wildcard (world s) ∉ split "a.b" (delimiter (world s))).
  { vm_compute. intros H.
    repeat (apply elem_of_cons in H as [H|H]; [discriminate H|]).
    apply elem_of_nil in H. exact H. }
  assert (K3 : doubleWild (world s) ∉ split "a.b" (delimiter (world s))).
  { vm_compute. intros H.
    repeat (apply elem_of_cons in H as [H|H]; [discriminate H|]).
    apply elem_of_nil in H. exact H. }
  assert (K4 : h <> VUndefined) by discriminate.
  assert (K5 : forall m e l,
             locate (world s) (split "a.b" (delimiter (world s)))
               (_events (world s)) = Some m ->
             entries (world s) !! m = Some e ->
             arrays (world s) !! handlers e = Some l -> h ∉ l).
  { intros m e l Hloc. vm_compute in Hloc. discriminate Hloc. }
  split; [reflexivity|].
  repeat (split; [first [exact K1 | exact K2 | exact K3 | exact K4 | exact K5]|]).
  exact (off_unregistered_changes_nothing s "a.b" h eq_refl K1 K2 K3 K4 K5).
Defined.

Lemma off_without_handler_empties_bucket_witness :
  let s := registered "a.b" (VUser 0) in
  let e := {| children := ∅; handlers := 6; allBelow := 7; _all := None |} in
  let s' := (off (Name "a.b") VUndefined s).2 in
  single_only (wildcard (world s)) (doubleWild (world s))
    (split "a.b" (delimiter (world s)))
  /\ locate (world s) (split "a.b" (delimiter (world s))) (_events (world s))
     = Some 8
  /\ entries (world s) !! 8 = Some e
  /\ arrays (world s) !! handlers e = Some [VUser 0]
  /\ off (Name "a.b") VUndefined s = (Return tt, s')
  /\ arrays (world s') !! handlers e = Some []
  /\ (forall a, a <> handlers e ->
        arrays (world s') !! a = arrays (world s) !! a)
  /\ entries (world s') = entries (world s)
  /\ calls s' = calls s.
Proof.
  intros s e s'.
  assert (K1 : single_only (wildcard (world s)) (doubleWild (world s))
                 (split "a.b" (delimiter (world s)))).
  { apply single_only_tokens. right. vm_compute. intros H.
    repeat (apply elem_of_cons in H as [H|H]; [discriminate H|]).
    apply elem_of_nil in H. exact H. }
  assert (K2 : locate (world s) (split "a.b" (delimiter (world s)))
                 (_events (world s)) = Some 8) by (vm_compute; reflexivity).
  assert (K3 : entries (world s) !! 8 = Some e) by (vm_compute; reflexivity).
  split; [exact K1|]. split; [exact K2|]. split; [exact K3|].
  split; [vm_compute; reflexivity|].
  exact (off_without_handler_empties_bucket s "a.b" 8 e K1 K2 K3).
Defined.

Lemma emit_stops_at_first_throw_witness :
  let s := (on (Name "a") (VUser 2) (registered "a" (VUser 1))).2 in
  let found := [VUser 1; VUser 2] in
  plain (split "a" (delimiter (world s)))
  /\ eager (world s) (split "a" (delimiter (world s)))
       (Some (_events (world s)))
     = Some found
  /\ run_until first_throws [VNum 3] (world (announced "a" s)) found
       [VUser 1] (Throw (VStr "no"))
  /\ emit first_throws "a" [VNum 3] s
     = (Throw (VStr "no"), logged [VUser 1] [VNum 3] (announced "a" s))
  /\ exists rest, found = [VUser 1] ++ rest
       /\ (Throw (VStr "no") = Return tt -> rest = []).
Proof.
  intros s found.
  assert (K1 : eager (world s) (split "a" (delimiter (world s)))
                 (Some (_events (world s))) = Some found)
    by (vm_compute; reflexivity).
  assert (K2 : run_until first_throws [VNum 3] (world (announced "a" s)) found
                 [VUser 1] (Throw (VStr "no")))
    by (apply run_throw; reflexivity).
  assert (K0 : plain (split "a" (delimiter (world s))))
    by (vm_compute; reflexivity).
  split; [exact K0|]. split; [exact K1|]. split; [exact K2|].
  exact (emit_stops_at_first_throw first_throws s "a" [VNum 3] found [VUser 1]
           (Throw (VStr "no")) K0 K1 K2).
Defined.

Lemma lazy_entries_are_created_once_witness :
  let s := initial no_options in
  wf (world s) /\ is_Some (entries (world s) !! 2)
  /\ (exists c s1,
        getChild 2 "a" s = (Return c, s1)
        /\ getChild 2 "a" s1 = (Return c, s1)
        /\ getExisting 2 "a" s1 = (Return (Some c), s1)
        /\ forall k, k <> "a" ->
             (getExisting 2 k s1).1 = (getExisting 2 k s).1)
  /\ (exists a s2,
        getAll 2 s = (Return a, s2)
        /\ getAll 2 s2 = (Return a, s2)).
Proof.
  intros s.
  assert (K1 : wf (world s)) by apply wf_constructor.
  assert (K2 : is_Some (entries (world s) !! 2)) by apply (wf_root _ K1).
  split; [exact K1|]. split; [exact K2|].
  exact (lazy_entries_are_created_once s 2 "a" K1 K2).
Defined.

Lemma emitAsync_applies_all_witness :
  let s := (on (Name "a") (VUser 3)
              (on (Name "a") (VUser 2) (registered "a" (VUser 1))).2).2 in
  let found := [VUser 1; VUser 2; VUser 3] in
  let results := [VUndefined; VRejected (VStr "no"); VUndefined] in
  let earliest := fun _ : list value => 0 in
  wf (world s)
  /\ plain (split "a" (delimiter (world s)))
  /\ eager (world s) (split "a" (delimiter (world s))) (Some (_events (world s)))
     = Some found
  /\ run_anywhere second_rejects [VNum 5] found found results (Return tt)
  /\ exists s',
       emitAsync second_rejects earliest "a" [VNum 5] s
       = (Return (Rejected (VStr "no")), s')
       /\ calls s' = calls s ++ ((fun fn => (fn, [VNum 5])) <$> found)
       /\ entries (world s') = entries (world s)
       /\ (forall a l, arrays (world s) !! a = Some l ->
             arrays (world s') !! a = Some l)
       /\ (Return tt = Return tt -> found = found).
Proof.
  intros s found results earliest.
  assert (K1 : wf (world s)).
  { apply wf_on; [vm_compute; reflexivity|].
    apply wf_on; [vm_compute; reflexivity|].
    apply wf_on; [vm_compute; reflexivity|]. apply wf_constructor. }
  assert (K0 : plain (split "a" (delimiter (world s))))
    by (vm_compute; reflexivity).
  assert (K2 : eager (world s) (split "a" (delimiter (world s)))
                 (Some (_events (world s))) = Some found)
    by (vm_compute; reflexivity).
  assert (K3 : run_anywhere second_rejects [VNum 5] found found results
                 (Return tt)).
  { apply (anywhere_return _ _ 1 VUndefined); [reflexivity|].
    apply (anywhere_return _ _ 2 (VRejected (VStr "no"))); [reflexivity|].
    apply (anywhere_return _ _ 3 VUndefined); [reflexivity|].
    apply anywhere_nil. }
  split; [exact K1|]. split; [exact K0|]. split; [exact K2|].
  split; [exact K3|].
  exact (emitAsync_applies_all second_rejects earliest s "a" [VNum 5] found
           found results (Return tt) K1 K0 K2 K3).
Defined.

Lemma emit_and_sequential_apply_the_same_witness :
  let s := (on (Name "a.**") (VUser 2) (registered "a.**" (VUser 1))).2 in
  wf (world s)
  /\ plain (split "a.b" (delimiter (world s)))
  /\ (forall a l v, arrays (world s) !! a = Some l -> v ∈ l ->
        inert_value returning v)
  /\ exists found collected,
       emit returning "a.b" [VNum 1] s
       = (Return [VNum 1], logged found [VNum 1] (announced "a.b" s))
       /\ emitAsyncSequential returning "a.b" [VNum 1] s
          = (Return (Resolved [VNum 1]),
             logged collected [VNum 1] (announced "a.b" s))
       /\ found ≡ₚ collected.
Proof.
  intros s.
  assert (K1 : wf (world s)).
  { apply wf_on; [vm_compute; reflexivity|].
    apply wf_on; [vm_compute; reflexivity|]. apply wf_constructor. }
  assert (Kp : plain (split "a.b" (delimiter (world s))))
    by (vm_compute; reflexivity).
  assert (K0 : forall id, inert_value returning (VUser id)).
  { intros id. exists id. split; [reflexivity|].
    intros params w. exists VUndefined. split; reflexivity. }
  assert (K2 : all_good_unhooked (inert_value returning) s).
  { apply stored_after_on; [exact (K0 2)|].
    apply stored_after_on; [exact (K0 1)|].
    split; [reflexivity|]. intros a l v Hl Hv. simpl in Hl.
    apply lookup_insert_Some in Hl as [[_ <-]|[_ Hl]];
      [apply elem_of_nil in Hv; contradiction|].
    apply lookup_singleton_Some in Hl as [_ <-].
    apply elem_of_nil in Hv; contradiction. }
  split; [exact K1|]. split; [exact Kp|]. split; [exact (proj2 K2)|].
  exact (emit_and_sequential_apply_the_same returning s "a.b" [VNum 1] K1 Kp
           (proj2 K2)).
Defined.

Lemma on_stores_what_the_hook_returns_witness :
  let s := (on (Name "a") (VUser 1) (initial reversing)).2 in
  let e := {| children := ∅; handlers := 3; allBelow := 4; _all := None |} in
  let s' := (on (Name "a") (VUser 2) s).2 in
  storeHandlers (world s) = Some (InPlace (@rev value))
  /\ truthy (VUser 2) = true
  /\ single_only (wildcard (world s)) (doubleWild (world s))
       (split "a" (delimiter (world s)))
  /\ locate (world s) (split "a" (delimiter (world s))) (_events (world s))
     = Some 5
  /\ entries (world s) !! 5 = Some e
  /\ arrays (world s) !! handlers e = Some [VUser 1]
  /\ on (Name "a") (VUser 2) s = (Return tt, s')
  /\ calls s' = calls s
  /\ (forall n, n <> 5 -> entries (world s') !! n = entries (world s) !! n)
  /\ entries (world s') !! 5 = Some (set_handlers (handlers e) e)
  /\ arrays (world s') !! handlers e = Some [VUser 2; VUser 1]
  /\ (forall a, a <> handlers e ->
        arrays (world s') !! a = arrays (world s) !! a).
Proof.
  intros s e s'.
  assert (K3 : single_only (wildcard (world s)) (doubleWild (world s))
                 (split "a" (delimiter (world s)))).
  { apply single_only_tokens. right. vm_compute. intros H.
    repeat (apply elem_of_cons in H as [H|H]; [discriminate H|]).
    apply elem_of_nil in H. exact H. }
  assert (K4 : locate (world s) (split "a" (delimiter (world s)))
                 (_events (world s)) = Some 5) by (vm_compute; reflexivity).
  assert (K5 : entries (world s) !! 5 = Some e) by (vm_compute; reflexivity).
  assert (K6 : arrays (world s) !! handlers e = Some [VUser 1])
    by (vm_compute; reflexivity).
  split; [reflexivity|]. split; [reflexivity|]. split; [exact K3|].
  split; [exact K4|]. split; [exact K5|]. split; [exact K6|].
  exact (on_stores_what_the_hook_returns s "a" (VUser 2) (InPlace (@rev value))
           5 e [VUser 1] eq_refl eq_refl K3 K4 K5 K6).
Defined.

Lemma on_then_off_restores_witness :
  let s := registered "a.b" (VUser 0) in
  let h := VUser 1 in
  plain (split "a.*" (delimiter (world s)))
  /\ wf (world s)
  /\ storeHandlers (world s) = None
  /\ truthy h = true
  /\ single_only (wildcard (world s)) (doubleWild (world s))
       (split "a.*" (delimiter (world s)))
  /\ (forall m e l,
        locate (world s) (split "a.*" (delimiter (world s))) (_events (world s))
        = Some m ->
        entries (world s) !! m = Some e ->
        arrays (world s) !! handlers e = Some l -> h ∉ l)
  /\ exists s1 s2,
       on (Name "a.*") h s = (Return tt, s1)
       /\ off (Name "a.*") h s1 = (Return tt, s2)
       /\ wf (world s2) /\ calls s2 = calls s
       /\ (forall a l, arrays (world s) !! a = Some l ->
                       arrays (world s2) !! a = Some l)
       /\ forall evt,
            plain (split evt (delimiter (world s))) ->
            (collect evt s2).1 = (collect evt s).1
            /\ eager (world s2) (split evt (delimiter (world s2)))
                     (Some (_events (world s2)))
               = eager (world s) (split evt (delimiter (world s)))
                       (Some (_events (world s))).
Proof.
  intros s h.
  assert (K0 : plain (split "a.*" (delimiter (world s))))
    by (vm_compute; reflexivity).
  assert (K1 : wf (world s))
    by (apply (wf_on (Name "a.b") (VUser 0));
        [vm_compute; reflexivity | apply wf_constructor]).
  assert (K4 : single_only (wildcard (world s)) (doubleWild (world s))
                 (split "a.*" (delimiter (world s)))).
  { apply single_only_tokens. right. vm_compute. intros H.
    repeat (apply elem_of_cons in H as [H|H]; [discriminate H|]).
    apply elem_of_nil in H. exact H. }
  assert (K5 : forall m e l,
             locate (world s) (split "a.*" (delimiter (world s)))
               (_events (world s)) = Some m ->
             entries (world s) !! m = Some e ->
             arrays (world s) !! handlers e = Some l -> h ∉ l).
  { intros m e l Hloc. vm_compute in Hloc. discriminate Hloc. }
  split; [exact K0|].
  split; [exact K1|]. split; [reflexivity|]. split; [reflexivity|].
  split; [exact K4|]. split; [exact K5|].
  exact (on_then_off_restores s "a.*" h K0 K1 eq_refl eq_refl K4 K5).
Defined.

Lemma second_once_waits_witness :
  let props := no_options in
  let h1 := VUser 0 in
  let h2 := VUser 1 in
  let process1 := VProcess 0 (Name "a.*") h1 in
  let process2 := VProcess 1 (Name "a.*") h2 in
  let s := (once (Name "a.*") h2 (once (Name "a.*") h1 (initial props)).2).2 in
  plain (split "a.*" (delimiter (constructor props)))
  /\ opt_storeHandlers props = None
  /\ inert returning 0
  /\ inert returning 1
  /\ (doubleWild (constructor props) = wildcard (constructor props)
      \/ doubleWild (constructor props)
         ∉ split "a.*" (delimiter (constructor props)))
  /\ exists s1 s2,
       emit returning "a.*" [VNum 1] s = (Return [VNum 1], s1)
       /\ calls s1 = [(process1, [VNum 1]); (h1, [VNum 1])]
       /\ emit returning "a.*" [VNum 2] s1 = (Return [VNum 2], s2)
       /\ calls s2 = calls s1 ++ [(process2, [VNum 2]); (h2, [VNum 2])].
Proof.
  intros props h1 h2 process1 process2 s.
  assert (H2 : forall id, inert returning id)
    by (intros id params w; exists VUndefined; split; reflexivity).
  assert (H3 : doubleWild (constructor props) = wildcard (constructor props)
               \/ doubleWild (constructor props)
                  ∉ split "a.*" (delimiter (constructor props))).
  { right. vm_compute. intros H.
    repeat (apply elem_of_cons in H as [H|H]; [discriminate H|]).
    apply elem_of_nil in H. exact H. }
  split; [reflexivity|].
  split; [reflexivity|]. split; [exact (H2 0)|]. split; [exact (H2 1)|].
  split; [exact H3|].
  exact (second_once_waits returning no_options "a.*" 0 1 [VNum 1] [VNum 2]
           eq_refl eq_refl (H2 0) (H2 1) H3).
Defined.

Lemma sequential_fires_both_once_witness :
  let props := no_options in
  let h1 := VUser 0 in
  let h2 := VUser 1 in
  let process1 := VProcess 0 (Name "a.*") h1 in
  let process2 := VProcess 1 (Name "a.*") h2 in
  let s := (once (Name "a.*") h2 (once (Name "a.*") h1 (initial props)).2).2 in
  plain (split "a.*" (delimiter (constructor props)))
  /\ opt_storeHandlers props = None
  /\ inert returning 0
  /\ inert returning 1
  /\ (doubleWild (constructor props) = wildcard (constructor props)
      \/ doubleWild (constructor props)
         ∉ split "a.*" (delimiter (constructor props)))
  /\ exists s1,
       emitAsyncSequential returning "a.*" [VNum 1] s
       = (Return (Resolved [VNum 1]), s1)
       /\ calls s1 = [(process1, [VNum 1]); (h1, [VNum 1]);
                      (process2, [VNum 1]); (h2, [VNum 1])].
Proof.
  intros props h1 h2 process1 process2 s.
  assert (H2 : forall id, inert returning id)
    by (intros id params w; exists VUndefined; split; reflexivity).
  assert (H3 : doubleWild (constructor props) = wildcard (constructor props)
               \/ doubleWild (constructor props)
                  ∉ split "a.*" (delimiter (constructor props))).
  { right. vm_compute. intros H.
    repeat (apply elem_of_cons in H as [H|H]; [discriminate H|]).
    apply elem_of_nil in H. exact H. }
  split; [reflexivity|].
  split; [reflexivity|]. split; [exact (H2 0)|]. split; [exact (H2 1)|].
  split; [exact H3|].
  exact (sequential_fires_both_once returning no_options "a.*" 0 1 [VNum 1]
           eq_refl eq_refl (H2 0) (H2 1) H3).
Defined.

Lemma pattern_matches_what_fits_witness :
  let props := no_options in
  let w0 := constructor props in
  let h := VUser 0 in
  let s := (on (Name "a.*.c") h (initial props)).2 in
  let pattern := split "a.*.c" (delimiter w0) in
  let ev := split "a.b.c" (delimiter w0) in
  delimiter w0 <> ""
  /\ plain pattern /\ plain ev
  /\ opt_storeHandlers props = None
  /\ inert returning 0
  /\ (doubleWild w0 = wildcard w0 \/ doubleWild w0 ∉ pattern)
  /\ fits (wildcard w0) pattern ev
  /\ (fits (wildcard w0) pattern ev ->
      emit returning "a.b.c" [VNum 1] s
      = (Return [VNum 1], logged [h] [VNum 1] (announced "a.b.c" s))
      /\ emitAsyncSequential returning "a.b.c" [VNum 1] s
         = (Return (Resolved [VNum 1]),
            logged [h] [VNum 1] (announced "a.b.c" s)))
  /\ (~ fits (wildcard w0) pattern ev ->
      emit returning "a.b.c" [VNum 1] s
      = (Return [VNum 1], announced "a.b.c" s)
      /\ emitAsyncSequential returning "a.b.c" [VNum 1] s
         = (Return (Resolved [VNum 1]), announced "a.b.c" s)).
Proof.
  intros props w0 h s pattern ev.
  assert (H2 : inert returning 0)
    by (intros params w; exists VUndefined; split; reflexivity).
  assert (H3 : doubleWild w0 = wildcard w0 \/ doubleWild w0 ∉ pattern).
  { right. vm_compute. intros H.
    repeat (apply elem_of_cons in H as [H|H]; [discriminate H|]).
    apply elem_of_nil in H. exact H. }
  assert (H4 : fits (wildcard w0) pattern ev).
  { vm_compute. constructor; [right; reflexivity|].
    constructor; [left; reflexivity|].
    constructor; [right; reflexivity|]. constructor. }
  assert (H0 : delimiter w0 <> "") by discriminate.
  split; [exact H0|]. split; [reflexivity|]. split; [reflexivity|].
  split; [reflexivity|]. split; [exact H2|]. split; [exact H3|].
  split; [exact H4|].
  exact (pattern_matches_what_fits returning no_options "a.*.c" 0 "a.b.c"
           [VNum 1] H0 eq_refl eq_refl eq_refl H2 H3).
Defined.
